(** * Resilient publish orchestrator: queue, governor and publish phases

    A shallow embedding of the caption builder ([combineWithHashtags]),
    the publish queue ([QueueManager]) and the poster ([TwitterPoster]) of
    the telegram-to-x repository, with the properties of its design
    document stated over the embedded code.

    Conventions.  A JavaScript string is a [string]; one [ascii] stands for
    one UTF-16 code unit, and only length, concatenation, [substring] and
    [includes] are used, which do not look inside a unit.  Numbers read from
    the configuration are [Z]; counters are [nat]; times and durations
    (milliseconds) are [N].  Everything the outside world decides (what the
    browser answers, how long it takes, whether a call throws or never
    settles) is an explicit oracle argument. *)

From Stdlib Require Import List ZArith Lia Bool Arith String Ascii.
Import ListNotations.
Local Open Scope list_scope.

(** ** JavaScript string primitives *)

Module JsString.
Local Open Scope string_scope.

(** [String.prototype.substring(start, end)]: both indices are clamped to
    [0 .. length] and swapped when [start > end]. *)
Definition clampIndex (i : Z) (len : nat) : nat :=
  Nat.min (Z.to_nat i) len.

Definition substring (s : string) (start stop : Z) : string :=
  let len := String.length s in
  let intStart := clampIndex start len in
  let intEnd := clampIndex stop len in
  let from := Nat.min intStart intEnd in
  let to := Nat.max intStart intEnd in
  String.substring from (to - from) s.

(** [Array.prototype.join(sep)] on an array of strings. *)
Fixpoint join (sep : string) (parts : list string) : string :=
  match parts with
  | [] => EmptyString
  | [p] => p
  | p :: rest => p ++ sep ++ join sep rest
  end.

(** [String.prototype.includes(needle)]. *)
Definition includes (s needle : string) : bool :=
  match String.index 0 needle s with
  | Some _ => true
  | None => false
  end.

(** [n] copies of one code unit. *)
Fixpoint replicate (n : nat) (c : ascii) : string :=
  match n with
  | O => EmptyString
  | S n' => String c (replicate n' c)
  end.

End JsString.

(** ** Caption builder: [combineWithHashtags] *)

Module CaptionBuilder.
Import JsString.
Local Open Scope string_scope.

(** [config.constants.maxCaptionLength]. *)
Definition maxCaptionLength_const : Z := 280.

Definition newline : string := String (ascii_of_nat 10) EmptyString.

(** The hashtag string is the hashtags joined by one space; the caption
    budget is what is left of the limit after the hashtags and the two
    separating line breaks; a caption over budget is cut three units
    short of it and gets an ellipsis. *)
Definition combineWithHashtags (caption : string) (hashtags : list string) : string :=
  let hashtagString := join " " hashtags in
  let maxCaptionLength :=
    (maxCaptionLength_const - Z.of_nat (String.length hashtagString) - 2)%Z in
  let finalCaption :=
    if (Z.of_nat (String.length caption) >? maxCaptionLength)%Z
    then substring caption 0 (maxCaptionLength - 3) ++ "..."
    else caption in
  finalCaption ++ newline ++ newline ++ hashtagString.

(** Caption and hashtags combined without any truncation. *)
Definition untruncated (caption : string) (hashtags : list string) : string :=
  caption ++ newline ++ newline ++ join " " hashtags.

(** Nine hashtags of thirty units each: 278 units when joined. *)
Definition longHashtags : list string :=
  repeat ("#" ++ replicate 29 "a"%char) 9.

End CaptionBuilder.

(** ** Hashtags of a caption: the pattern [/#[a-zA-Z0-9_]+/g] *)

Module HashtagPattern.
Local Open Scope string_scope.

(** The class [[a-zA-Z0-9_]]. *)
Definition isWordChar (c : ascii) : bool :=
  let n := nat_of_ascii c in
  ((48 <=? n)%nat && (n <=? 57)%nat) || ((65 <=? n)%nat && (n <=? 90)%nat)
  || ((97 <=? n)%nat && (n <=? 122)%nat) || (n =? 95)%nat.

Definition isHash (c : ascii) : bool := (nat_of_ascii c =? 35)%nat.

(** What a global match of the pattern finds in a string, read from its
    end: [run] is the run of word characters the string starts with,
    [tags] are the matches after that run and [kept] is the text after that
    run with the matches taken out.  A match starts at every [#] that a word
    character follows and takes the whole run; a [#] is no word character,
    so matches never overlap and the direction of the scan does not
    matter. *)
Record Scan := { run : string; tags : list string; kept : string }.

Fixpoint scan (s : string) : Scan :=
  match s with
  | EmptyString => {| run := EmptyString; tags := []; kept := EmptyString |}
  | String c rest =>
      let r := scan rest in
      if isWordChar c then
        {| run := String c (run r); tags := tags r; kept := kept r |}
      else if isHash c then
        match run r with
        | EmptyString =>
            {| run := EmptyString; tags := tags r; kept := String c (kept r) |}
        | String _ _ =>
            {| run := EmptyString; tags := String c (run r) :: tags r;
               kept := kept r |}
        end
      else
        {| run := EmptyString; tags := tags r;
           kept := String c (run r ++ kept r) |}
  end.

(** [s.match(/#[a-zA-Z0-9_]+/g) || []]. *)
Definition matchHashtags (s : string) : list string := tags (scan s).

(** [s.replace(/#[a-zA-Z0-9_]+/g, '')]. *)
Definition removeHashtags (s : string) : string :=
  run (scan s) ++ kept (scan s).

Definition startsWithWord (s : string) : bool :=
  match s with
  | String d _ => isWordChar d
  | EmptyString => false
  end.

(** A string holds a match: a [#] with a word character right after it. *)
Fixpoint hasHashtag (s : string) : bool :=
  match s with
  | EmptyString => false
  | String c rest => (isHash c && startsWithWord rest) || hasHashtag rest
  end.

Fixpoint allWordChars (s : string) : bool :=
  match s with
  | EmptyString => true
  | String c rest => isWordChar c && allWordChars rest
  end.

(** A well-formed hashtag: a [#] and at least one word character, nothing
    else. *)
Definition isHashtag (s : string) : bool :=
  match s with
  | String c (String d rest) => isHash c && isWordChar d && allWordChars rest
  | _ => false
  end.

Fixpoint totalLength (l : list string) : nat :=
  match l with
  | [] => 0
  | x :: rest => String.length x + totalLength rest
  end.

End HashtagPattern.

(** ** The hashtag list: [buildHashtags] *)

Module HashtagBuilder.
Local Open Scope string_scope.

(** [config.constants.fixedHashtags]. *)
Definition fixedHashtags : list string := ["#MuseOfCurves"].

(** [new Set(iterable)] spread back into an array: the elements in the
    order of their first occurrence. *)
Definition setAdd (acc : list string) (x : string) : list string :=
  if existsb (String.eqb x) acc then acc else (acc ++ [x])%list.

Definition setOf (l : list string) : list string := fold_left setAdd l [].

(** [array.slice(0, n)]. *)
Definition slice {A} (n : nat) (l : list A) : list A := firstn n l.

Definition fallbackHashtags : list string :=
  ["#aesthetic"; "#beauty"; "#model"; "#photography"].

(** [buildHashtags(channelHashtags)].  [sources] is what the three awaited
    sources give: the trending hashtags after filtering and the preset
    hashtags, or nothing when one of them throws. *)
Definition buildHashtags (channelHashtags : list string)
  (sources : option (list string * list string)) : list string :=
  match sources with
  | Some (filteredHashtags, presetHashtags) =>
      let allHashtags :=
        setOf (channelHashtags ++ fixedHashtags ++ slice 6 filteredHashtags
                 ++ slice 4 presetHashtags)%list in
      slice 15 allHashtags
  | None =>
      slice 15 (channelHashtags ++ fixedHashtags ++ fallbackHashtags)%list
  end.

(** The hashtags [buildCaption] asks for when the caption of a post holds
    hashtags: [processAndPost] passes the matches of the caption as
    [channelHashtags], and [buildCaption] appends its own matches of the
    same caption. *)
Definition hashtagsForCaption (caption : string)
  (sources : option (list string * list string)) : list string :=
  let channelHashtags := HashtagPattern.matchHashtags caption in
  let originalHashtags := HashtagPattern.matchHashtags caption in
  buildHashtags (channelHashtags ++ originalHashtags)%list sources.

End HashtagBuilder.

(** ** Configuration ([config.js]) *)

Module Config.

(** [parseInt(process.env.X) || d]: an unset or unparsable variable is
    [NaN] (here [None]); [NaN] and [0] are falsy and give the default. *)
Definition orDefault (v : option Z) (d : Z) : Z :=
  match v with
  | None => d
  | Some 0%Z => d
  | Some z => z
  end.

(** The [queue] block. *)
Record queue := {
  postDelay : Z;
  maxRetries : Z;
  retryDelay : Z
}.

(** The [twitter] block (the numeric part). *)
Record twitter := {
  tw_maxRetries : Z;
  tw_retryDelay : Z
}.

(** The environment variables the two blocks read. *)
Record environment := {
  QUEUE_POST_DELAY : option Z;
  QUEUE_MAX_RETRIES : option Z;
  QUEUE_RETRY_DELAY : option Z;
  TWITTER_MAX_RETRIES : option Z;
  TWITTER_RETRY_DELAY : option Z
}.

Definition queue_of (env : environment) : queue :=
  {| postDelay := orDefault (QUEUE_POST_DELAY env) 20000;
     maxRetries := orDefault (QUEUE_MAX_RETRIES env) 2;
     retryDelay := orDefault (QUEUE_RETRY_DELAY env) 5000 |}.

Definition twitter_of (env : environment) : twitter :=
  {| tw_maxRetries := orDefault (TWITTER_MAX_RETRIES env) 2;
     tw_retryDelay := orDefault (TWITTER_RETRY_DELAY env) 5000 |}.

Definition unset : environment :=
  {| QUEUE_POST_DELAY := None; QUEUE_MAX_RETRIES := None;
     QUEUE_RETRY_DELAY := None; TWITTER_MAX_RETRIES := None;
     TWITTER_RETRY_DELAY := None |}.

End Config.

(** ** Publish queue: [QueueManager] *)

Module QueueManager.

(** A queued post ([postData]): the fields the queue itself reads or
    writes.  [hasProcessor] says whether [postData.processor] is a
    function. *)
Record Job := {
  id : nat;
  retries : nat;
  hasProcessor : bool
}.

Definition bumpRetries (j : Job) : Job :=
  {| id := id j; retries := S (retries j); hasProcessor := hasProcessor j |}.

Record t := {
  queue : list Job;
  isProcessing : bool;
  config : Config.queue;
  hasLogger : bool;
  postDelay : Z;
  maxRetries : Z
}.

(** The constructor: [config.postDelay || 20000], [config.maxRetries || 2]. *)
Definition new (cfg : Config.queue) : t :=
  {| queue := [];
     isProcessing := false;
     config := cfg;
     hasLogger := false;
     postDelay := Config.orDefault (Some (Config.postDelay cfg)) 20000;
     maxRetries := Config.orDefault (Some (Config.maxRetries cfg)) 2 |}.

Definition setLogger (q : t) : t :=
  {| queue := queue q; isProcessing := isProcessing q; config := config q;
     hasLogger := true; postDelay := postDelay q; maxRetries := maxRetries q |}.

Definition withQueue (q : t) (l : list Job) : t :=
  {| queue := l; isProcessing := isProcessing q; config := config q;
     hasLogger := hasLogger q; postDelay := postDelay q;
     maxRetries := maxRetries q |}.

Definition withProcessing (q : t) (b : bool) : t :=
  {| queue := queue q; isProcessing := b; config := config q;
     hasLogger := hasLogger q; postDelay := postDelay q;
     maxRetries := maxRetries q |}.

Inductive LogLine :=
| ProcessingPost (remaining : nat)
| WaitingBeforeNext (ms : Z)
| ErrorProcessing
| RetryingPost (attempt : nat) (budget : Z)
| FailedSkipping (after : Z)
| ProcessingCompleted.

(** What an observer of the queue sees, in order. *)
Inductive Event :=
| Log (l : LogLine)
| Process (j : Job)          (* [processPost(postData)] is called *)
| Delay (ms : Z).            (* [await this.delay(ms)] *)

Definition log (q : t) (l : LogLine) : list Event :=
  if hasLogger q then [Log l] else [].

(** What the world does during one turn of the loop: what the processor
    does, and which posts [addToQueue] pushes while [processPost],
    respectively the delay, is awaited.  A processor rejects when
    [resolves] is false; otherwise it resolves, unless it [stalls]: then
    its promise never settles. *)
Record Turn := {
  resolves : bool;
  stalls : bool;
  arrivedWhilePosting : list Job;
  arrivedWhileWaiting : list Job
}.

Definition quiet (ok : bool) : Turn :=
  {| resolves := ok; stalls := false;
     arrivedWhilePosting := []; arrivedWhileWaiting := [] |}.

(** [processPost], whether it resolves: it throws when there is no
    processor function, and otherwise the processor decides. *)
Definition processPost (j : Job) (w : Turn) : bool :=
  if hasProcessor j then resolves w && negb (stalls w) else false.

(** [await postData.processor(postData)] never settles. *)
Definition hangs (j : Job) (w : Turn) : bool :=
  hasProcessor j && resolves w && stalls w.

(** One turn of the [while] loop of [processQueue], on a non-empty
    backlog: [shift], [processPost], then either the inter-post delay or
    the [catch] branch; when [processPost] hangs, the turn is what has
    happened so far. *)
Definition turn (w : Turn) (q : t) : t * list Event :=
  match queue q with
  | [] => (q, [])
  | postData :: rest =>
      let q1 := withQueue q rest in
      let ev1 := log q1 (ProcessingPost (List.length rest)) ++ [Process postData] in
      let q2 := withQueue q1 (rest ++ arrivedWhilePosting w) in
      if processPost postData w then
        match queue q2 with
        | _ :: _ =>
            (withQueue q2 (queue q2 ++ arrivedWhileWaiting w),
             ev1 ++ log q2 (WaitingBeforeNext (postDelay q2))
                 ++ [Delay (postDelay q2)])
        | [] => (q2, ev1)
        end
      else if hangs postData w then (q2, ev1)
      else
        let ev2 := ev1 ++ log q2 ErrorProcessing in
        if (Z.of_nat (retries postData) <? maxRetries q2)%Z then
          let postData' := bumpRetries postData in
          let q3 := withQueue q2 (postData' :: queue q2) in
          (withQueue q3 (queue q3 ++ arrivedWhileWaiting w),
           ev2 ++ log q3 (RetryingPost (retries postData') (maxRetries q3))
               ++ [Delay (5000 * Z.of_nat (retries postData'))])
        else
          (q2, ev2 ++ log q2 (FailedSkipping (maxRetries q2)))
  end.

(** The [while (this.queue.length > 0)] loop; [world i] is what happens
    during turn [i].  The third component says whether the loop left
    through its guard (as opposed to waiting for ever for a processor, or
    stopping for lack of fuel). *)
Fixpoint loop (fuel : nat) (world : nat -> Turn) (i : nat) (q : t)
  : t * list Event * bool :=
  match queue q with
  | [] => (q, [], true)
  | postData :: _ =>
      match fuel with
      | O => (q, [], false)
      | S fuel' =>
          let '(q1, ev1) := turn (world i) q in
          if hangs postData (world i) then (q1, ev1, false)
          else
            let '(q2, ev2, done) := loop fuel' world (S i) q1 in
            (q2, ev1 ++ ev2, done)
      end
  end.

Definition processQueue (fuel : nat) (world : nat -> Turn) (q : t)
  : t * list Event * bool :=
  if isProcessing q || (List.length (queue q) =? 0)%nat then (q, [], true)
  else
    let '(q1, ev, done) := loop fuel world 0 (withProcessing q true) in
    if done
    then (withProcessing q1 false, ev ++ log q1 ProcessingCompleted, true)
    else (q1, ev, false).


Definition isDelay (e : Event) : bool :=
  match e with Delay _ => true | _ => false end.

(** Turns still owed to a backlog when nothing new arrives. *)
Definition owed (maxR : Z) (j : Job) : nat :=
  S (Z.to_nat (maxR - Z.of_nat (retries j))).

Fixpoint backlogBound (maxR : Z) (l : list Job) : nat :=
  match l with
  | [] => 0
  | j :: rest => owed maxR j + backlogBound maxR rest
  end.

(** The configuration with [QUEUE_RETRY_DELAY=1000] and nothing else set. *)
Definition shortRetryDelay : Config.environment :=
  {| Config.QUEUE_POST_DELAY := None;
     Config.QUEUE_MAX_RETRIES := None;
     Config.QUEUE_RETRY_DELAY := Some 1000%Z;
     Config.TWITTER_MAX_RETRIES := None;
     Config.TWITTER_RETRY_DELAY := None |}.

Definition firstJob : Job := {| id := 1; retries := 0; hasProcessor := true |}.
Definition secondJob : Job := {| id := 2; retries := 0; hasProcessor := true |}.

(** The posts handed to [processPost], in order. *)
Fixpoint processed (evs : list Event) : list Job :=
  match evs with
  | [] => []
  | Process j :: rest => j :: processed rest
  | _ :: rest => processed rest
  end.

(** The waits, in order. *)
Fixpoint delays (evs : list Event) : list Z :=
  match evs with
  | [] => []
  | Delay ms :: rest => ms :: delays rest
  | _ :: rest => delays rest
  end.

(** A post with its count set to [r]. *)
Definition withRetries (j : Job) (r : nat) : Job :=
  {| id := id j; retries := r; hasProcessor := hasProcessor j |}.

(** The ids of a backlog processed in blocks: [counts] says how many times
    in a row each post is tried. *)
Fixpoint blocks (backlog : list Job) (counts : list nat) : list nat :=
  match backlog, counts with
  | j :: backlog', n :: counts' => repeat (id j) n ++ blocks backlog' counts'
  | _, _ => []
  end.

(** No post is pushed while the loop runs. *)
Definition noArrivals (world : nat -> Turn) : Prop :=
  forall k, arrivedWhilePosting (world k) = [] /\ arrivedWhileWaiting (world k) = [].

(** Every call of a processor settles. *)
Definition noStall (world : nat -> Turn) : Prop :=
  forall k, stalls (world k) = false.

(** A processor that never settles. *)
Definition stalled : Turn :=
  {| resolves := true; stalls := true;
     arrivedWhilePosting := []; arrivedWhileWaiting := [] |}.

(** The post as [TelegramListener.addToQueue] hands it over: images, caption
    and channel name, and no [processor]. *)
Definition listenerPost : Job := {| id := 1; retries := 0; hasProcessor := false |}.

End QueueManager.

(** ** Asynchronous calls on a logical clock *)

Module Async.

(** What an awaited external call does: it resolves, rejects, or never
    settles; [took] is the time it needs to settle. *)
Inductive Answer (A : Type) :=
| Resolves (a : A)
| Rejects (message : string)
| NeverSettles.
Arguments Resolves {A} a.
Arguments Rejects {A} message.
Arguments NeverSettles {A}.

Record Call (A : Type) := { took : N; answer : Answer A }.
Arguments took {A} c.
Arguments answer {A} c.

(** [Promise.race([call, timer(ms)])]: the call wins when it settles
    strictly before the timer fires. *)
Definition settlesBefore {A} (c : Call A) (ms : N) : bool :=
  match answer c with
  | NeverSettles => false
  | _ => (took c <? ms)%N
  end.

(** The same race when the call was started before the timer and settles
    at the very moment the timer is due: the call, first in line, wins. *)
Definition settlesBy {A} (c : Call A) (ms : N) : bool :=
  match answer c with
  | NeverSettles => false
  | _ => (took c <=? ms)%N
  end.

(** A call that resolves with [a] after [ms]. *)
Definition after {A} (ms : N) (a : A) : Call A :=
  {| took := ms; answer := Resolves a |}.

Section Monad.
Context {State Event : Type}.

(** One line of the history: when, what, and the state right after. *)
Record Entry := { at_ : N; what : Event; snapshot : State }.

(** How an [async] function ends: settled at a time with an error message
    or a value, or never, the state then staying as it is.  [OutOfFuel]
    only marks recursion cut short in the model. *)
Inductive Outcome (A : Type) :=
| Settled (t : N) (s : State) (r : string + A)
| Pending (s : State)
| OutOfFuel.
Arguments Settled {A} t s r.
Arguments Pending {A} s.
Arguments OutOfFuel {A}.

Definition M (A : Type) : Type := N -> State -> list Entry * Outcome A.

Definition ret {A} (a : A) : M A := fun t s => ([], Settled t s (inr a)).

Definition bind {A B} (m : M A) (k : A -> M B) : M B := fun t s =>
  let '(tr, o) := m t s in
  match o with
  | Settled t1 s1 (inr a) => let '(tr1, o1) := k a t1 s1 in (tr ++ tr1, o1)
  | Settled t1 s1 (inl e) => (tr, Settled t1 s1 (inl e))
  | Pending s1 => (tr, Pending s1)
  | OutOfFuel => (tr, OutOfFuel)
  end.

Definition throw {A} (e : string) : M A := fun t s => ([], Settled t s (inl e)).

Definition pending {A} : M A := fun t s => ([], Pending s).

Definition outOfFuel {A} : M A := fun t s => ([], OutOfFuel).

(** [try { m } catch (e) { h e }]. *)
Definition tryCatch {A} (m : M A) (h : string -> M A) : M A := fun t s =>
  let '(tr, o) := m t s in
  match o with
  | Settled t1 s1 (inl e) => let '(tr1, o1) := h e t1 s1 in (tr ++ tr1, o1)
  | _ => (tr, o)
  end.

(** [try { m } finally { f }]: [f] runs whenever [m] settles, and the
    outcome of [m] stands unless [f] itself fails. *)
Definition tryFinally {A} (m : M A) (f : M unit) : M A := fun t s =>
  let '(tr, o) := m t s in
  match o with
  | Settled t1 s1 r =>
      let '(tr1, o1) := f t1 s1 in
      (tr ++ tr1,
       match o1 with
       | Settled t2 s2 (inr _) => Settled t2 s2 r
       | Settled t2 s2 (inl e) => Settled t2 s2 (inl e)
       | Pending s2 => Pending s2
       | OutOfFuel => OutOfFuel
       end)
  | _ => (tr, o)
  end.

Definition get : M State := fun t s => ([], Settled t s (inr s)).

Definition emit (e : Event) : M unit := fun t s =>
  ([{| at_ := t; what := e; snapshot := s |}], Settled t s (inr tt)).

(** Every change of the state is recorded with its event, so that the
    snapshots of a history are exact. *)
Definition update (f : State -> State) (e : Event) : M unit := fun t s =>
  ([{| at_ := t; what := e; snapshot := f s |}], Settled t (f s) (inr tt)).

Definition wait (ms : N) : M unit := fun t s => ([], Settled (t + ms)%N s (inr tt)).

Definition await {A} (c : Call A) : M A :=
  match answer c with
  | Resolves a => fun t s => ([], Settled (t + took c)%N s (inr a))
  | Rejects e => fun t s => ([], Settled (t + took c)%N s (inl e))
  | NeverSettles => pending
  end.

Definition events (tr : list Entry) : list Event := map what tr.

(** The state at time [T], from a history that starts in state [s0]. *)
Fixpoint stateAt (T : N) (tr : list Entry) (s0 : State) : State :=
  match tr with
  | [] => s0
  | e :: rest => if (at_ e <=? T)%N then stateAt T rest (snapshot e) else s0
  end.

(** The part of a history up to time [T]. *)
Fixpoint upTo (T : N) (tr : list Entry) : list Entry :=
  match tr with
  | [] => []
  | e :: rest => if (at_ e <=? T)%N then e :: upTo T rest else []
  end.

(** Every entry a task writes satisfies [P]. *)
Definition writesOnly {A} (P : Entry -> Prop) (m : M A) : Prop :=
  forall t s, Forall P (fst (m t s)).

(** The task never stops for lack of fuel. *)
Definition fueled {A} (m : M A) : Prop :=
  forall t s, snd (m t s) <> OutOfFuel.

(** The task never ends with an error. *)
Definition neverThrows {A} (m : M A) : Prop :=
  forall t s t1 s1 e, snd (m t s) <> Settled t1 s1 (inl e).

(** The clock of the task does not run backwards. *)
Definition forward {A} (m : M A) : Prop :=
  forall t s t1 s1 r, snd (m t s) = Settled t1 s1 r -> (t <= t1)%N.

(** The task ends with no error but those of [P]. *)
Definition throwsOnly {A} (P : string -> Prop) (m : M A) : Prop :=
  forall t s t1 s1 e, snd (m t s) = Settled t1 s1 (inl e) -> P e.

(** The task writes at most [n] entries whose event passes [f]. *)
Definition emitsAtMost {A} (f : Event -> bool) (n : nat) (m : M A) : Prop :=
  forall t s, List.length (filter f (events (fst (m t s)))) <= n.

(** The task never waits for ever. *)
Definition neverHangs {A} (m : M A) : Prop :=
  forall t s s1, snd (m t s) <> Pending s1.





End Monad.

Arguments Entry : clear implicits.
Arguments M : clear implicits.
Arguments Outcome : clear implicits.
Arguments Settled {State A} t s r.
Arguments Pending {State A} s.
Arguments OutOfFuel {State A}.

End Async.

Declare Scope async_scope.
Delimit Scope async_scope with async.
Notation "x <- m ;; k" := (Async.bind m (fun x => k))
  (at level 61, m at next level, right associativity) : async_scope.
Notation "m ;; k" := (Async.bind m (fun _ => k))
  (at level 61, right associativity) : async_scope.

(** ** The poster: [TwitterPoster] *)

Module TwitterPoster.
Import Async.
Local Open Scope async_scope.

(** A launched browser; [process] is what [browser.process()] returns, the
    pid of the child process. *)
Record Browser := { process : option nat }.

Record Page := { context : Browser }.

(** The fields of the poster object that change, together with the part
    of the operating system they refer to: the browser processes that are
    running and the number of launches so far. *)
Record State := {
  browser : option Browser;
  page : option Page;
  isLoggedIn : bool;
  running : list nat;
  launches : nat
}.

(** The constructor's numeric fields and whether [setLogger] was called.
    The numbers are integers; the source computes with doubles, which makes
    no difference below 2^53. *)
Record Settings := {
  maxRetries : Z;
  retryDelay : Z;
  hasLogger : bool
}.

(** [config.twitter?.maxRetries || 2] and [config.twitter?.retryDelay || 5000]. *)
Definition new (cfg : Config.twitter) (logger : bool) : Settings :=
  {| maxRetries := Config.orDefault (Some (Config.tw_maxRetries cfg)) 2;
     retryDelay := Config.orDefault (Some (Config.tw_retryDelay cfg)) 5000;
     hasLogger := logger |}.

Definition initial : State :=
  {| browser := None; page := None; isLoggedIn := false;
     running := []; launches := 0 |}.

Inductive LogLine :=
| PostingToTwitter (attempt : nat)
| PostedSuccessfully (url : string)
| PostFailed (attempt : nat) (message : string)
| RetryingIn (ms : Z)
| FailedAfter (attempts : Z).

Inductive Event :=
| Log (l : LogLine)
| TryStart (attempt : nat)
| Launched (pid : nat)
| PageOpened
| BrowserInitialized
| LoggedIn
| ImageFilesDeleted
| TryFailed (attempt : nat) (message : string)
| CaptureErrorScreenshot (attempt : nat)
| ScreenshotSaved (attempt : nat)
| ScreenshotFailed (message : string)
| CloseRequested
| BrowserExited (pid : nat)
| ForceKillOnTimeout
| Killed (pid : nat)
| KillFailed (message : string)
| BrowserClosed
| CloseFailed (message : string)
| StateReset
| Sleep (ms : Z).

Definition Task := M State Event.

(** What the outside world does during one try: the answers of the
    browser to the poster's calls. *)
Record Try := {
  launch : Call unit;
  newPage : Call unit;
  setUserAgent : Call unit;
  loadCookies : Call unit;
  ensureLoggedIn : Call unit;
  navigateToCompose : Call unit;
  uploadImages : Call unit;
  addCaption : Call unit;
  publishTweet : Call string;
  screenshot : Call unit;
  close : Call unit;
  killThrows : bool
}.

Definition log (cfg : Settings) (l : LogLine) : Task unit :=
  if hasLogger cfg then emit (Log l) else ret tt.

Definition setBrowser (b : Browser) (pid : nat) (s : State) : State :=
  {| browser := Some b; page := page s; isLoggedIn := isLoggedIn s;
     running := pid :: running s; launches := S (launches s) |}.

Definition setPage (p : Page) (s : State) : State :=
  {| browser := browser s; page := Some p; isLoggedIn := isLoggedIn s;
     running := running s; launches := launches s |}.

Definition setLoggedIn (s : State) : State :=
  {| browser := browser s; page := page s; isLoggedIn := true;
     running := running s; launches := launches s |}.

Definition removePid (pid : nat) (l : list nat) : list nat :=
  filter (fun p => negb (p =? pid)) l.

Definition exited (pid : nat) (s : State) : State :=
  {| browser := browser s; page := page s; isLoggedIn := isLoggedIn s;
     running := removePid pid (running s); launches := launches s |}.

(** The [finally] block of [closeBrowser]. *)
Definition resetState (s : State) : State :=
  {| browser := None; page := None; isLoggedIn := false;
     running := running s; launches := launches s |}.

(** [initializeBrowser]: nothing when a browser is already there;
    otherwise launch, open a page, set the user agent and load the cookies
    (whose errors [loadCookies] swallows).  Errors are rethrown. *)
Definition initializeBrowser (w : Try) : Task unit :=
  s <- get ;;
  match browser s with
  | Some _ => ret tt
  | None =>
      await (launch w) ;;
      s1 <- get ;;
      let pid := launches s1 in
      let b := {| process := Some pid |} in
      update (setBrowser b pid) (Launched pid) ;;
      await (newPage w) ;;
      update (setPage {| context := b |}) PageOpened ;;
      await (setUserAgent w) ;;
      tryCatch (await (loadCookies w)) (fun _ => ret tt) ;;
      emit BrowserInitialized
  end.

(** [if (this.browser && this.browser.process())
       this.browser.process().kill('SIGKILL')]. *)
Definition killProcess (throws : bool) : Task unit :=
  s <- get ;;
  match browser s with
  | Some b =>
      match process b with
      | Some pid =>
          if throws then throw "kill failed"
          else update (exited pid) (Killed pid)
      | None => ret tt
      end
  | None => ret tt
  end.

(** [closeBrowser]: a graceful close raced against a five-second timer
    whose callback kills the process; a failed close is followed by a kill
    as well; the state is reset in every case.  A close that resolves ends
    the browser process.  The close is started before the timer, and wins
    also when it settles at the very moment the timer is due.

    The timer is not cleared when the close wins: its callback then runs
    five seconds after the call all the same, with [this.browser] reset or,
    by then, set to the browser of a later try, whose process it kills.
    That late callback writes no field of the poster and is no step of the
    function that called [closeBrowser]; it is not part of this definition.
    So [running] is the list of the processes that the poster has started
    and that the steps of its functions have not ended; the callback left
    armed by an earlier call may have ended one of them since. *)
Definition closeBrowser (c : Call unit) (throws : bool) : Task unit :=
  tryFinally
    (tryCatch
       (s <- get ;;
        match browser s with
        | Some b =>
            emit CloseRequested ;;
            (if settlesBy c 5000
             then
               _ <- await c ;;
               match process b with
               | Some pid => update (exited pid) (BrowserExited pid)
               | None => ret tt
               end
             else
               wait 5000 ;;
               emit ForceKillOnTimeout ;;
               tryCatch (killProcess throws) (fun e => emit (KillFailed e))) ;;
            emit BrowserClosed
        | None => ret tt
        end)
       (fun e =>
          emit (CloseFailed e) ;;
          tryCatch (killProcess throws) (fun e' => emit (KillFailed e'))))
    (update resetState StateReset).

(** [captureErrorScreenshot]: only with a page, and never throwing. *)
Definition captureErrorScreenshot (w : Try) (attempt : nat) : Task unit :=
  emit (CaptureErrorScreenshot attempt) ;;
  tryCatch
    (s <- get ;;
     match page s with
     | Some _ =>
         await (screenshot w) ;;
         emit (ScreenshotSaved attempt)
     | None => ret tt
     end)
    (fun e => emit (ScreenshotFailed e)).

(** How long a timer set with [setTimeout(f, ms)] runs: [ms] when it is
    between 1 and 2147483647, and 1 ms otherwise. *)
Definition timerMs (ms : Z) : N :=
  if ((1 <=? ms) && (ms <=? 2147483647))%Z then Z.to_N ms else 1%N.

(** [this.delay(ms)]: a promise resolved by [setTimeout(resolve, ms)]. *)
Definition delay (ms : Z) : Task unit :=
  emit (Sleep ms) ;; wait (timerMs ms).

(** The [try] block of [postTweetWithRetry]. *)
Definition publishOnce (cfg : Settings) (w : Try) (attempt : nat) : Task string :=
  emit (TryStart attempt) ;;
  log cfg (PostingToTwitter attempt) ;;
  initializeBrowser w ;;
  await (ensureLoggedIn w) ;;
  update setLoggedIn LoggedIn ;;
  await (navigateToCompose w) ;;
  await (uploadImages w) ;;
  await (addCaption w) ;;
  tweetUrl <- await (publishTweet w) ;;
  log cfg (PostedSuccessfully tweetUrl) ;;
  emit ImageFilesDeleted ;;
  ret tweetUrl.

(** [postTweetWithRetry(imagePaths, caption, attempt)]; [world k] is what
    the browser does during try [k].  The recursion of the source is on
    [attempt + 1]; the fuel only makes it structural. *)
Fixpoint postTweetWithRetry_fuel (fuel : nat) (cfg : Settings)
  (world : nat -> Try) (attempt : nat) : Task string :=
  match fuel with
  | O => outOfFuel
  | S fuel' =>
      tryCatch (publishOnce cfg (world attempt) attempt)
        (fun error =>
           emit (TryFailed attempt error) ;;
           log cfg (PostFailed attempt error) ;;
           captureErrorScreenshot (world attempt) attempt ;;
           closeBrowser (close (world attempt)) (killThrows (world attempt)) ;;
           if (Z.of_nat attempt <? maxRetries cfg)%Z then
             let ms := (retryDelay cfg * (Z.of_nat attempt + 1))%Z in
             log cfg (RetryingIn ms) ;;
             delay ms ;;
             postTweetWithRetry_fuel fuel' cfg world (S attempt)
           else
             log cfg (FailedAfter (maxRetries cfg + 1)) ;;
             throw error)
  end.

Definition postTweetWithRetry (cfg : Settings) (world : nat -> Try)
  (attempt : nat) : Task string :=
  postTweetWithRetry_fuel (S (Z.to_nat (maxRetries cfg) - attempt)) cfg world attempt.

Definition timeoutMessage : string :=
  "Tweet posting timeout - process took too long".

(** [postTweetWithTimeout]: [Promise.race] of the whole run against a
    timer that rejects.  The run wins when it settles strictly before the
    deadline; otherwise the call rejects at the deadline, in the state the
    run has reached by then, and the history is what has happened so far.
    The run is not cancelled; what it does after the deadline is not part
    of the result of the call. *)
Definition postTweetWithTimeout (cfg : Settings) (world : nat -> Try)
  (timeoutMs : N) : Task string := fun t s =>
  let '(tr, o) := postTweetWithRetry cfg world 0 t s in
  let deadline := (t + timeoutMs)%N in
  let late := (upTo deadline tr,
               Settled deadline (stateAt deadline tr s) (inl timeoutMessage)) in
  match o with
  | Settled t1 s1 r => if (t1 <? deadline)%N then (tr, Settled t1 s1 r) else late
  | Pending _ => late
  | OutOfFuel => (tr, OutOfFuel)
  end.

(** [postTweet]: two minutes. *)
Definition postTweet (cfg : Settings) (world : nat -> Try) : Task string :=
  postTweetWithTimeout cfg world 120000.

(** Whether the run settles by itself strictly before a deadline. *)
Definition settledBefore {A} (o : Outcome State A) (deadline : N) : bool :=
  match o with
  | Settled t _ _ => (t <? deadline)%N
  | _ => false
  end.

Definition isTryStart (e : Event) : bool :=
  match e with TryStart _ => true | _ => false end.

Definition tries (evs : list Event) : nat :=
  List.length (filter isTryStart evs).

(** Scenarios.  Every call of a smooth try resolves; in a stuck try the
    login never settles; in a failing try the compose button is not found
    and the graceful close of the browser hangs. *)
Definition smoothTry : Try :=
  {| launch := after 1000 tt; newPage := after 100 tt;
     setUserAgent := after 1 tt; loadCookies := after 10 tt;
     ensureLoggedIn := after 5000 tt; navigateToCompose := after 1000 tt;
     uploadImages := after 9000 tt; addCaption := after 3000 tt;
     publishTweet := after 8000 "https://x.com/muse/status/1"%string;
     screenshot := after 500 tt; close := after 300 tt;
     killThrows := false |}.

Definition stuckLoginTry : Try :=
  {| launch := after 1000 tt; newPage := after 100 tt;
     setUserAgent := after 1 tt; loadCookies := after 10 tt;
     ensureLoggedIn := {| took := 0; answer := NeverSettles |};
     navigateToCompose := after 1000 tt;
     uploadImages := after 9000 tt; addCaption := after 3000 tt;
     publishTweet := after 8000 "https://x.com/muse/status/1"%string;
     screenshot := after 500 tt; close := after 300 tt;
     killThrows := false |}.

Definition failingTry : Try :=
  {| launch := after 1000 tt; newPage := after 100 tt;
     setUserAgent := after 1 tt; loadCookies := after 10 tt;
     ensureLoggedIn := after 5000 tt;
     navigateToCompose :=
       {| took := 45000;
          answer := Rejects "Could not find compose tweet button" |};
     uploadImages := after 9000 tt; addCaption := after 3000 tt;
     publishTweet := after 8000 "https://x.com/muse/status/1"%string;
     screenshot := after 500 tt;
     close := {| took := 0; answer := NeverSettles |};
     killThrows := false |}.

(** The poster as the application builds it, nothing set in the
    environment. *)
Definition defaultSettings : Settings :=
  new (Config.twitter_of Config.unset) true.

(** A poster with a browser open, as a successful post leaves it. *)
Definition openSession : State :=
  {| browser := Some {| process := Some 0 |};
     page := Some {| context := {| process := Some 0 |} |};
     isLoggedIn := true;
     running := [0];
     launches := 1 |}.


(** An entry that is not the start of a try. *)
Definition nonTry (e : Entry State Event) : Prop :=
  isTryStart (what e) = false.

(** The poster holds no browser session. *)
Definition tornDown (s : State) : Prop :=
  browser s = None /\ page s = None /\ isLoggedIn s = false.

(** [testLogin]: initialize, log in, and close the browser whatever
    happened. *)
Definition testLogin (w : Try) : Task bool :=
  tryFinally
    (tryCatch
       (initializeBrowser w ;;
        await (ensureLoggedIn w) ;;
        update setLoggedIn LoggedIn ;;
        ret true)
       (fun _ => ret false))
    (closeBrowser (close w) (killThrows w)).

Definition isReset (e : Event) : bool :=
  match e with StateReset => true | _ => false end.

(** The number of times the session was torn down. *)
Definition teardowns (evs : list Event) : nat :=
  List.length (filter isReset evs).

(** An entry that is not the reset of the state. *)
Definition nonReset (e : Entry State Event) : Prop :=
  isReset (what e) = false.

(** [this.retryDelay * (attempt + 1)], the argument of [this.delay]. *)
Definition backoffMs (cfg : Settings) (attempt : nat) : Z :=
  (retryDelay cfg * (Z.of_nat attempt + 1))%Z.

(** What lies between the start of a try that fails and the start of the
    next one: the rest of the try, its error with the time and the state
    in which it was caught, and the steps of the [catch] block, which are
    the log line, the capture with the time it settles, the steps of
    [closeBrowser] up to the reset that ends it, and the second log
    line. *)
Record Gap := {
  restOfTry : list (Entry State Event);
  tryError : string;
  failedAt : N;
  failedIn : State;
  failureLog : list (Entry State Event);
  captureRun : list (Entry State Event);
  capturedAt : N;
  closeRun : list (Entry State Event);
  resetEntry : Entry State Event;
  retryLog : list (Entry State Event)
}.

Definition failureEntry (k : nat) (g : Gap) : Entry State Event :=
  {| at_ := failedAt g; what := TryFailed k (tryError g);
     snapshot := failedIn g |}.

(** The sleep starts when [closeBrowser] has returned. *)
Definition sleepEntry (cfg : Settings) (k : nat) (g : Gap) : Entry State Event :=
  {| at_ := at_ (resetEntry g); what := Sleep (backoffMs cfg k);
     snapshot := snapshot (resetEntry g) |}.

(** The next try starts when the timer of the sleep fires, in the state
    [closeBrowser] has left. *)
Definition nextTryEntry (cfg : Settings) (k : nat) (g : Gap) : Entry State Event :=
  {| at_ := (at_ (resetEntry g) + timerMs (backoffMs cfg k))%N;
     what := TryStart (S k);
     snapshot := snapshot (resetEntry g) |}.

Definition gapEntries (cfg : Settings) (k : nat) (g : Gap)
  : list (Entry State Event) :=
  restOfTry g
    ++ failureEntry k g :: failureLog g
    ++ captureRun g
    ++ closeRun g
    ++ resetEntry g :: retryLog g
    ++ [sleepEntry cfg k g].

(** Try [k], started with the entry [e0], fails and is retried, and [g] is
    what happens until the next try: each part of [g] is the run of the
    function the [catch] block calls at that point. *)
Definition retried (cfg : Settings) (world : nat -> Try) (k : nat)
  (e0 : Entry State Event) (g : Gap) : Prop :=
  what e0 = TryStart k
  /\ publishOnce cfg (world k) k (at_ e0) (snapshot e0)
     = (e0 :: restOfTry g, Settled (failedAt g) (failedIn g) (inl (tryError g)))
  /\ log cfg (PostFailed k (tryError g)) (failedAt g) (failedIn g)
     = (failureLog g, Settled (failedAt g) (failedIn g) (inr tt))
  /\ captureErrorScreenshot (world k) k (failedAt g) (failedIn g)
     = (captureRun g, Settled (capturedAt g) (failedIn g) (inr tt))
  /\ closeBrowser (close (world k)) (killThrows (world k))
       (capturedAt g) (failedIn g)
     = (closeRun g ++ [resetEntry g],
        Settled (at_ (resetEntry g)) (snapshot (resetEntry g)) (inr tt))
  /\ what (resetEntry g) = StateReset
  /\ (Z.of_nat k < maxRetries cfg)%Z
  /\ log cfg (RetryingIn (backoffMs cfg k))
       (at_ (resetEntry g)) (snapshot (resetEntry g))
     = (retryLog g,
        Settled (at_ (resetEntry g)) (snapshot (resetEntry g)) (inr tt)).



(** The callback of the five-second timer of [closeBrowser] when it runs
    after the call has returned: the timer is not cleared, so when the
    close won the race the callback still runs five seconds after the
    call, and kills the process of the browser the poster holds then. *)
Definition lateKill (throws : bool) : Task unit :=
  emit ForceKillOnTimeout ;;
  tryCatch (killProcess throws) (fun e => emit (KillFailed e)).

(** A try in which the browser cannot be launched. *)
Definition noLaunchTry : Try :=
  {| launch := {| took := 2000;
                  answer := Rejects "Failed to launch the browser process" |};
     newPage := after 100 tt;
     setUserAgent := after 1 tt; loadCookies := after 10 tt;
     ensureLoggedIn := after 5000 tt; navigateToCompose := after 1000 tt;
     uploadImages := after 9000 tt; addCaption := after 3000 tt;
     publishTweet := after 8000 "https://x.com/muse/status/1"%string;
     screenshot := after 500 tt; close := after 300 tt;
     killThrows := false |}.

(** A poster whose retry delay is beyond the range of [setTimeout]. *)
Definition longDelaySettings : Settings :=
  new (Config.twitter_of
         {| Config.QUEUE_POST_DELAY := None;
            Config.QUEUE_MAX_RETRIES := None;
            Config.QUEUE_RETRY_DELAY := None;
            Config.TWITTER_MAX_RETRIES := None;
            Config.TWITTER_RETRY_DELAY := Some 3000000000%Z |}) true.

(** A poster with [TWITTER_RETRY_DELAY=1000], and a try in which the
    compose button is not found and the browser closes at once. *)
Definition shortDelaySettings : Settings :=
  new (Config.twitter_of
         {| Config.QUEUE_POST_DELAY := None;
            Config.QUEUE_MAX_RETRIES := None;
            Config.QUEUE_RETRY_DELAY := None;
            Config.TWITTER_MAX_RETRIES := None;
            Config.TWITTER_RETRY_DELAY := Some 1000%Z |}) true.

Definition quickCloseTry : Try :=
  {| launch := after 1000 tt; newPage := after 100 tt;
     setUserAgent := after 1 tt; loadCookies := after 10 tt;
     ensureLoggedIn := after 5000 tt;
     navigateToCompose :=
       {| took := 45000;
          answer := Rejects "Could not find compose tweet button" |};
     uploadImages := after 9000 tt; addCaption := after 3000 tt;
     publishTweet := after 8000 "https://x.com/muse/status/1"%string;
     screenshot := after 500 tt;
     close := after 300 tt;
     killThrows := false |}.

(** A poster whose retry budget is minus one. *)
Definition noRetrySettings : Settings :=
  new (Config.twitter_of
         {| Config.QUEUE_POST_DELAY := None;
            Config.QUEUE_MAX_RETRIES := None;
            Config.QUEUE_RETRY_DELAY := None;
            Config.TWITTER_MAX_RETRIES := Some (-1)%Z;
            Config.TWITTER_RETRY_DELAY := None |}) true.

End TwitterPoster.

(** ** The MediaAttached phase: [uploadImages] *)

Module MediaUpload.
Import Async.
Local Open Scope async_scope.

(** The seven selectors tried for rendered media, in the order of the
    source: the media test id, images under the attachments test id, an
    aria label containing Image, blob images, data images, the img role,
    and an alt text containing Image. *)
Inductive Selector :=
| TestIdMedia
| AttachmentsImg
| AriaLabelImage
| BlobImg
| DataImg
| RoleImg
| AltImage.

(** The three selectors tried for the file input: the file input test id,
    an input accepting images, and an input of type file. *)
Inductive InputSelector :=
| TestIdFileInput
| AcceptImage
| TypeFile.

(** The three selectors tried for the media button: the attachments test
    id, the aria label of the photo button, and a photo label in the tool
    bar. *)
Inductive ButtonSelector :=
| TestIdAttachments
| AriaAddPhotos
| ToolBarPhoto.

Inductive Event :=
| FoundFileInput (selector : InputSelector)
| FoundMediaButton (selector : ButtonSelector)
| MediaButtonClicked
| FoundFileInputAfterClick (selector : InputSelector)
| UploadingFiles (count : nat)
| FoundElements (count : nat) (selector : Selector)
| PollMiss (attempt found expected : nat)
| AllImagesDumped
| CouldNotDebugImages (message : string)
| Waited (ms : N)
| CountWarning (expected found afterAttempts : nat)
| DebugScreenshotSaved
| CouldNotTakeDebugScreenshot (message : string)
| ImagesUploaded (found expected : nat)
| ErrorIndicatorsFound.

Definition Task := M unit Event.

(** The answers of the page during the phase.  [fileInput sel] is what
    [page.$(sel)] answers in the first look for the file input, whether
    there is such an element; [mediaButton sel] is the same for a media
    button, [clickMediaButton sel] what its [click()] answers, and
    [fileInputAfter button sel] what [page.$(sel)] answers after that
    button was clicked; [media k sel] is what [page.$$(sel)] finds in
    poll [k]. *)
Record Page := {
  fileInput : InputSelector -> Call bool;
  mediaButton : ButtonSelector -> Call bool;
  clickMediaButton : ButtonSelector -> Call unit;
  fileInputAfter : ButtonSelector -> InputSelector -> Call bool;
  uploadFile : Call unit;
  media : nat -> Selector -> Call nat;
  allImages : Call unit;
  screenshot : Call unit;
  errorIndicators : Call nat;
  errorScreenshot : Call unit
}.

Definition fileInputSelectors : list InputSelector :=
  [ TestIdFileInput; AcceptImage; TypeFile ].

Definition mediaButtonSelectors : list ButtonSelector :=
  [ TestIdAttachments; AriaAddPhotos; ToolBarPhoto ].

Definition mediaSelectors : list Selector :=
  [ TestIdMedia; AttachmentsImg; AriaLabelImage; BlobImg; DataImg; RoleImg;
    AltImage ].

Definition maxAttempts : nat := 3.

(** [page.waitForTimeout(ms)]. *)
Definition waitForTimeout (ms : N) : Task unit :=
  emit (Waited ms) ;; wait ms.

(** The first look for the file input: the first selector with an
    element decides; a selector that throws is skipped. *)
Fixpoint findInput (q : InputSelector -> Call bool)
  (selectors : list InputSelector) : Task bool :=
  match selectors with
  | [] => ret false
  | selector :: rest =>
      found <- tryCatch
                 (element <- await (q selector) ;;
                  if element : bool
                  then emit (FoundFileInput selector) ;; ret true
                  else ret false)
                 (fun _ => ret false) ;;
      if found : bool then ret true else findInput q rest
  end.

(** The second look, after a click on a media button; here a selector
    that throws ends the look with its error. *)
Fixpoint recheckInput (q : InputSelector -> Call bool)
  (selectors : list InputSelector) : Task bool :=
  match selectors with
  | [] => ret false
  | selector :: rest =>
      element <- await (q selector) ;;
      if element : bool
      then emit (FoundFileInputAfterClick selector) ;; ret true
      else recheckInput q rest
  end.

(** One turn of the loop over the media buttons, the [try] with its
    [catch]: a button that is there is clicked, a second is waited and the
    file input is looked for again, which ends the loop, with the file
    input or without; a button that is not there, or whose query, click or
    second look throws, is passed over. *)
Definition tryButton (p : Page) (selector : ButtonSelector)
  : Task (option bool) :=
  tryCatch
    (element <- await (mediaButton p selector) ;;
     if element : bool then
       emit (FoundMediaButton selector) ;;
       await (clickMediaButton p selector) ;;
       emit MediaButtonClicked ;;
       waitForTimeout 1000 ;;
       found <- recheckInput (fileInputAfter p selector) fileInputSelectors ;;
       ret (Some found)
     else ret None)
    (fun _ => ret None).

(** The loop over the media buttons. *)
Fixpoint clickForInput (p : Page) (buttons : list ButtonSelector) : Task bool :=
  match buttons with
  | [] => ret false
  | selector :: rest =>
      done <- tryButton p selector ;;
      match done with
      | Some found => ret found
      | None => clickForInput p rest
      end
  end.

(** The two looks for the file input. *)
Definition findFileInput (p : Page) : Task bool :=
  found <- findInput (fileInput p) fileInputSelectors ;;
  if found : bool then ret true else clickForInput p mediaButtonSelectors.

(** The [for] loop over the selectors: the first selector with at least
    one element decides; a selector that throws is skipped. *)
Fixpoint firstMatch (q : Selector -> Call nat) (selectors : list Selector)
  : Task nat :=
  match selectors with
  | [] => ret 0
  | selector :: rest =>
      hit <- tryCatch
               (n <- await (q selector) ;;
                if 0 <? n then emit (FoundElements n selector) ;; ret (Some n)
                else ret None)
               (fun _ => ret None) ;;
      match hit with
      | Some n => ret n
      | None => firstMatch q rest
      end
  end.

(** The [while (attempts < maxAttempts)] loop; the result is the number of
    media elements seen by the last poll. *)
Fixpoint pollMedia (fuel : nat) (p : Page) (expected attempts uploaded : nat)
  : Task nat :=
  if attempts <? maxAttempts then
    match fuel with
    | O => outOfFuel
    | S fuel' =>
        found <- firstMatch (media p attempts) mediaSelectors ;;
        if found =? expected then ret found
        else
          emit (PollMiss attempts found expected) ;;
          (if attempts =? maxAttempts - 1
           then tryCatch (await (allImages p) ;; emit AllImagesDumped)
                         (fun e => emit (CouldNotDebugImages e))
           else ret tt) ;;
          waitForTimeout 1500 ;;
          pollMedia fuel' p expected (S attempts) found
    end
  else ret uploaded.

(** The debug screenshot, raced against a three-second timer that rejects,
    inside its own [try]/[catch]. *)
Definition debugScreenshot (p : Page) : Task unit :=
  tryCatch
    (if settlesBy (screenshot p) 3000
     then await (screenshot p) ;; emit DebugScreenshotSaved
     else wait 3000 ;; throw "Screenshot timeout")
    (fun e => emit (CouldNotTakeDebugScreenshot e)).

(** The closing check for error indicators. *)
Definition checkErrorIndicators (p : Page) : Task unit :=
  waitForTimeout 3000 ;;
  n <- await (errorIndicators p) ;;
  if 0 <? n then emit ErrorIndicatorsFound ;; await (errorScreenshot p)
  else ret tt.

(** [uploadImages(imagePaths)], with [expected] the number of paths. *)
Definition uploadImages (p : Page) (expected : nat) : Task unit :=
  found <- findFileInput p ;;
  if negb found
  then throw "Could not find file input for image upload."
  else
    emit (UploadingFiles expected) ;;
    await (uploadFile p) ;;
    waitForTimeout 5000 ;;
    found <- pollMedia maxAttempts p expected 0 0 ;;
    (if negb (found =? expected)
     then emit (CountWarning expected found maxAttempts) ;; debugScreenshot p
     else ret tt) ;;
    emit (ImagesUploaded found expected) ;;
    checkErrorIndicators p.

(** The result of the first look, read off the answers of the page;
    none when a query never settles. *)
Fixpoint inputOf (q : InputSelector -> Call bool)
  (selectors : list InputSelector) : option bool :=
  match selectors with
  | [] => Some false
  | selector :: rest =>
      match answer (q selector) with
      | Resolves true => Some true
      | Resolves false | Rejects _ => inputOf q rest
      | NeverSettles => None
      end
  end.

(** How a second look ends. *)
Inductive Recheck :=
| Looked (found : bool)
| LookThrew
| LookHangs.

Fixpoint recheckOf (q : InputSelector -> Call bool)
  (selectors : list InputSelector) : Recheck :=
  match selectors with
  | [] => Looked false
  | selector :: rest =>
      match answer (q selector) with
      | Resolves true => Looked true
      | Resolves false => recheckOf q rest
      | Rejects _ => LookThrew
      | NeverSettles => LookHangs
      end
  end.

(** How the turn for one media button ends: none when it never ends,
    and else whether it ends the loop, and with the file input or
    without. *)
Definition buttonOf (p : Page) (selector : ButtonSelector)
  : option (option bool) :=
  match answer (mediaButton p selector) with
  | Resolves true =>
      match answer (clickMediaButton p selector) with
      | Resolves _ =>
          match recheckOf (fileInputAfter p selector) fileInputSelectors with
          | Looked found => Some (Some found)
          | LookThrew => Some None
          | LookHangs => None
          end
      | Rejects _ => Some None
      | NeverSettles => None
      end
  | Resolves false | Rejects _ => Some None
  | NeverSettles => None
  end.

Fixpoint clickOf (p : Page) (buttons : list ButtonSelector) : option bool :=
  match buttons with
  | [] => Some false
  | selector :: rest =>
      match buttonOf p selector with
      | Some (Some found) => Some found
      | Some None => clickOf p rest
      | None => None
      end
  end.

(** What the two looks for the file input come to; none when they never
    end. *)
Definition lookupOf (p : Page) : option bool :=
  match inputOf (fileInput p) fileInputSelectors with
  | Some true => Some true
  | Some false => clickOf p mediaButtonSelectors
  | None => None
  end.

(** The looks for the file input end, and with the file input. *)
Definition fileInputFound (p : Page) : bool :=
  match lookupOf p with
  | Some true => true
  | _ => false
  end.

(** The time a poll takes, read off the answers of the page: the queries
    are made one after the other, up to the first selector with an
    element. *)
Fixpoint timeOf (q : Selector -> Call nat) (selectors : list Selector) : N :=
  match selectors with
  | [] => 0
  | selector :: rest =>
      let later :=
        match answer (q selector) with
        | Resolves n => if 0 <? n then 0%N else timeOf q rest
        | Rejects _ => timeOf q rest
        | NeverSettles => 0%N
        end in
      (took (q selector) + later)%N
  end.

Definition pollTime (p : Page) (k : nat) : N :=
  timeOf (media p k) mediaSelectors.

(** What a poll logs: the selector that matched, with its count. *)
Fixpoint matchOf (q : Selector -> Call nat) (selectors : list Selector)
  : list Event :=
  match selectors with
  | [] => []
  | selector :: rest =>
      match answer (q selector) with
      | Resolves n => if 0 <? n then [FoundElements n selector] else matchOf q rest
      | Rejects _ => matchOf q rest
      | NeverSettles => []
      end
  end.

(** What the dump of the images on the page logs. *)
Definition dumpOf (p : Page) : Event :=
  match answer (allImages p) with
  | Rejects m => CouldNotDebugImages m
  | _ => AllImagesDumped
  end.

Definition screenshotTimeout : string := "Screenshot timeout".

(** What the debug screenshot logs, and the time it takes: the answer of
    the screenshot when it comes within three seconds, and the timeout
    otherwise. *)
Definition shotOf (p : Page) : Event * N :=
  if settlesBy (screenshot p) 3000 then
    (match answer (screenshot p) with
     | Rejects m => CouldNotTakeDebugScreenshot m
     | _ => DebugScreenshotSaved
     end, took (screenshot p))
  else (CouldNotTakeDebugScreenshot screenshotTimeout, 3000%N).

(** The count a poll ends with, read off the answers of the page: that
    of the first selector with at least one element, none when an earlier
    query never settles. *)
Fixpoint countOf (q : Selector -> Call nat) (selectors : list Selector)
  : option nat :=
  match selectors with
  | [] => Some 0
  | selector :: rest =>
      match answer (q selector) with
      | Resolves n => if 0 <? n then Some n else countOf q rest
      | Rejects _ => countOf q rest
      | NeverSettles => None
      end
  end.

Definition pollCount (p : Page) (k : nat) : option nat :=
  countOf (media p k) mediaSelectors.

Definition isFound (e : Entry unit Event) : Prop :=
  match what e with FoundElements _ _ => True | _ => False end.

Definition isDump (e : Event) : Prop :=
  e = AllImagesDumped \/ exists m, e = CouldNotDebugImages m.

Definition isShot (e : Event) : Prop :=
  e = DebugScreenshotSaved \/ exists m, e = CouldNotTakeDebugScreenshot m.

(** A page on which the file input shows up only after a click on the
    second media button, and on which two of four images are ever
    rendered. *)
Definition undercountingPage : Page :=
  {| fileInput := fun _ => {| took := 15; answer := Resolves false |};
     mediaButton := fun sel =>
                      match sel with
                      | TestIdAttachments =>
                          {| took := 15; answer := Rejects "detached" |}
                      | _ => {| took := 15; answer := Resolves true |}
                      end;
     clickMediaButton := fun _ => {| took := 60; answer := Resolves tt |};
     fileInputAfter := fun _ sel =>
                         match sel with
                         | TypeFile => {| took := 15; answer := Resolves true |}
                         | _ => {| took := 15; answer := Resolves false |}
                         end;
     uploadFile := {| took := 800; answer := Resolves tt |};
     media := fun _ sel =>
                match sel with
                | TestIdMedia => {| took := 20; answer := Resolves 0 |}
                | AttachmentsImg => {| took := 20; answer := Rejects "detached" |}
                | AriaLabelImage => {| took := 20; answer := Resolves 2 |}
                | _ => {| took := 20; answer := Resolves 4 |}
                end;
     allImages := {| took := 50; answer := Resolves tt |};
     screenshot := {| took := 0; answer := NeverSettles |};
     errorIndicators := {| took := 30; answer := Resolves 0 |};
     errorScreenshot := {| took := 400; answer := Resolves tt |} |}.

End MediaUpload.

(** ** The Verified phase: [verifyTweetSuccess] and [extractTweetUrlFromPage] *)

Module Verification.
Import Async.
Local Open Scope async_scope.

Inductive Event :=
| NavigatedToTweet (url : string)
| ViewButtonFound (href : string)
| NotificationFound
| UrlFromNotification (url : string)
| ComposeGone
| StillWaiting (waitTime : N)
| VerificationError (waitTime : N) (message : string)
| Waited (ms : N)
| UrlFromCurrentPage (url : string)
| UrlFromDom (url : string)
| CouldNotExtractFromDom (message : string)
| CheckingProfile
| UrlFromProfile (url : string)
| NoLinksOnProfile
| CouldNotCheckProfile (message : string)
| CouldNotFindTweetUrl
| VerificationTimedOut.

Definition Task := M unit Event.

(** What the page answers to [extractTweetUrlFromPage]: its location, the
    status links of the current document and of the profile page (each list
    as the in-page callback returns it, newest first), and the navigation
    to the profile. *)
Record Lookup := {
  location : string;
  domLinks : Call (list string);
  gotoProfile : Call unit;
  scrollProfile : Call unit;
  profileLinks : Call (list string)
}.

(** What the page answers during one turn of the polling loop.  The state
    of the submit button is not among the answers: [verifyTweetSuccess]
    never asks for it. *)
Record Observation := {
  url : string;
  viewButton : Call (option string);
  successNotification : Call bool;
  statusLinks : Call (list string);
  urlCheck : string;
  composeModal : Call bool;
  lookup : Lookup
}.

Definition maxWaitTime : N := 20000.
Definition checkInterval : N := 1000.

Definition verificationFailed : string :=
  "Tweet posting verification failed - no success indicators found within timeout period".

Definition lookupFailed : string :=
  "Unable to extract tweet URL - tweet may not have been posted successfully".

Definition waitForTimeout (ms : N) : Task unit :=
  emit (Waited ms) ;; wait ms.

Section Sorting.
(** [parseInt] of the digits after the status segment of a link, or of the
    string 0 when there are none. *)
Variable statusNumber : string -> Z.

(** [links.sort((a, b) => number(b) - number(a))]: stable, largest first. *)
Fixpoint insertNewest (x : string) (l : list string) : list string :=
  match l with
  | [] => [x]
  | y :: rest =>
      if (statusNumber x <? statusNumber y)%Z
      then y :: insertNewest x rest
      else x :: l
  end.

Fixpoint sortNewestFirst (l : list string) : list string :=
  match l with
  | [] => []
  | x :: rest => insertNewest x (sortNewestFirst rest)
  end.

(** [extractTweetUrlFromPage]. *)
Definition extractTweetUrlFromPage (k : Lookup) : Task string :=
  let currentUrl := location k in
  if JsString.includes currentUrl "/status/"
  then emit (UrlFromCurrentPage currentUrl) ;; ret currentUrl
  else
    fromDom <- tryCatch
                 (tweetLinks <- await (domLinks k) ;;
                  match tweetLinks with
                  | newest :: _ => emit (UrlFromDom newest) ;; ret (Some newest)
                  | [] => ret None
                  end)
                 (fun e => emit (CouldNotExtractFromDom e) ;; ret None) ;;
    match fromDom with
    | Some href => ret href
    | None =>
        fromProfile <- tryCatch
                         (emit CheckingProfile ;;
                          await (gotoProfile k) ;;
                          waitForTimeout 3000 ;;
                          await (scrollProfile k) ;;
                          waitForTimeout 2000 ;;
                          tweetLinks <- await (profileLinks k) ;;
                          match tweetLinks with
                          | latest :: _ =>
                              emit (UrlFromProfile latest) ;; ret (Some latest)
                          | [] => emit NoLinksOnProfile ;; ret None
                          end)
                         (fun e => emit (CouldNotCheckProfile e) ;; ret None) ;;
        match fromProfile with
        | Some href => ret href
        | None => emit CouldNotFindTweetUrl ;; throw lookupFailed
        end
    end.

(** The [try] block of one turn of the loop of [verifyTweetSuccess]:
    [Some url] is a [return], [None] falls through to the next turn. *)
Definition verifyTurn (o : Observation) (waitTime : N) : Task (option string) :=
  let currentUrl := url o in
  if JsString.includes currentUrl "/status/"
  then emit (NavigatedToTweet currentUrl) ;; ret (Some currentUrl)
  else
    viewButtonFound <- await (viewButton o) ;;
    match viewButtonFound with
    | Some href => emit (ViewButtonFound href) ;; ret (Some href)
    | None =>
        notified <- await (successNotification o) ;;
        if notified : bool then
          emit NotificationFound ;;
          links <- await (statusLinks o) ;;
          match sortNewestFirst links with
          | first :: _ => emit (UrlFromNotification first) ;; ret (Some first)
          | [] =>
              waitForTimeout 3000 ;;
              found <- extractTweetUrlFromPage (lookup o) ;;
              ret (Some found)
          end
        else
          let currentUrlCheck := urlCheck o in
          modal <- await (composeModal o) ;;
          if negb modal && negb (JsString.includes currentUrlCheck "/compose")
          then
            emit ComposeGone ;;
            waitForTimeout 3000 ;;
            found <- extractTweetUrlFromPage (lookup o) ;;
            ret (Some found)
          else
            emit (StillWaiting waitTime) ;;
            waitForTimeout checkInterval ;;
            ret None
    end.

(** One turn with its [catch]: an error is logged, the interval is waited
    and the loop goes on. *)
Definition guardedTurn (o : Observation) (waitTime : N) : Task (option string) :=
  tryCatch (verifyTurn o waitTime)
    (fun e =>
       emit (VerificationError waitTime e) ;;
       waitForTimeout checkInterval ;;
       ret None).

(** The [while (waitTime < maxWaitTime)] loop; [page i] is what the page
    answers during turn [i]. *)
Fixpoint verifyLoop (fuel : nat) (page : nat -> Observation) (i : nat)
  (waitTime : N) : Task string :=
  if (waitTime <? maxWaitTime)%N then
    match fuel with
    | O => outOfFuel
    | S fuel' =>
        r <- guardedTurn (page i) waitTime ;;
        match r with
        | Some tweetUrl => ret tweetUrl
        | None => verifyLoop fuel' page (S i) (waitTime + checkInterval)%N
        end
    end
  else
    emit VerificationTimedOut ;; throw verificationFailed.

Definition verifyTweetSuccess (page : nat -> Observation) : Task string :=
  verifyLoop 20 page 0 0%N.

End Sorting.

(** The signals of the design, read off one observation. *)
Definition landedOnPost (o : Observation) : bool :=
  JsString.includes (url o) "/status/".

Definition composeGoneAndLeft (o : Observation) : bool :=
  match answer (composeModal o) with
  | Resolves false => negb (JsString.includes (urlCheck o) "/compose")
  | _ => false
  end.

(** A page that has left the compose view, with the compose surface gone,
    but shows no status link anywhere, neither in the document nor on the
    profile. *)
Definition emptyLookup : Lookup :=
  {| location := "https://x.com/home";
     domLinks := after 40 [];
     gotoProfile := after 2000 tt;
     scrollProfile := after 10 tt;
     profileLinks := after 40 [] |}.

Definition composeGoneObservation : Observation :=
  {| url := "https://x.com/home";
     viewButton := after 15 None;
     successNotification := after 15 false;
     statusLinks := after 15 [];
     urlCheck := "https://x.com/home";
     composeModal := after 15 false;
     lookup := emptyLookup |}.

(** The same page with a status link in the document. *)
Definition composeGoneWithLink : Observation :=
  {| url := "https://x.com/home";
     viewButton := after 15 None;
     successNotification := after 15 false;
     statusLinks := after 15 [];
     urlCheck := "https://x.com/home";
     composeModal := after 15 false;
     lookup := {| location := "https://x.com/home";
                  domLinks := after 40 ["https://x.com/muse/status/7"%string];
                  gotoProfile := after 2000 tt;
                  scrollProfile := after 10 tt;
                  profileLinks := after 40 [] |} |}.

(** Whether the lookup of the post URL finds one, read off the answers:
    the location, else the links of the document, else those of the
    profile. *)
Definition lookupFinds (k : Lookup) : bool :=
  JsString.includes (location k) "/status/"
  || match answer (domLinks k) with
     | Resolves (_ :: _) => true
     | _ => false
     end
  || match answer (gotoProfile k), answer (scrollProfile k),
           answer (profileLinks k) with
     | Resolves _, Resolves _, Resolves (_ :: _) => true
     | _, _, _ => false
     end.

(** What a turn makes of the lookup. *)
Definition throughLookup (o : Outcome unit string) : Outcome unit (option string) :=
  match o with
  | Settled t s (inr u) => Settled t s (inr (Some u))
  | Settled t s (inl e) => Settled t s (inl e)
  | Pending s => Pending s
  | OutOfFuel => OutOfFuel
  end.

(** Whether every call of the lookup settles. *)
Definition lookupSettles (k : Lookup) : bool :=
  JsString.includes (location k) "/status/"
  || match answer (domLinks k) with
     | Resolves (_ :: _) => true
     | NeverSettles => false
     | _ =>
         match answer (gotoProfile k) with
         | Resolves _ =>
             match answer (scrollProfile k) with
             | Resolves _ =>
                 match answer (profileLinks k) with
                 | NeverSettles => false
                 | _ => true
                 end
             | Rejects _ => true
             | NeverSettles => false
             end
         | Rejects _ => true
         | NeverSettles => false
         end
     end.

(** Whether a turn of the loop falls through to the next, read off the
    answers of the page: the location is no status URL, and no call of
    the turn hangs; a call that rejects is caught by the loop; no link
    labelled view is found; with the success notification there is no
    status link in the page, and without it the compose surface is still
    there or the location is still the compose page, or else the lookup
    ends without a URL. *)
Definition goesOn (o : Observation) : bool :=
  let lookupFails := lookupSettles (lookup o) && negb (lookupFinds (lookup o)) in
  negb (landedOnPost o)
  && match answer (viewButton o) with
     | Resolves (Some _) => false
     | Resolves None =>
         match answer (successNotification o) with
         | Resolves true =>
             match answer (statusLinks o) with
             | Resolves [] => lookupFails
             | Resolves (_ :: _) => false
             | Rejects _ => true
             | NeverSettles => false
             end
         | Resolves false =>
             match answer (composeModal o) with
             | Resolves modal =>
                 if negb modal && negb (JsString.includes (urlCheck o) "/compose")
                 then lookupFails
                 else true
             | Rejects _ => true
             | NeverSettles => false
             end
         | Rejects _ => true
         | NeverSettles => false
         end
     | Rejects _ => true
     | NeverSettles => false
     end.

(** A page that shows no status link in its first turn and one in the
    document from the second turn on. *)
Definition linkShowsUpLater (i : nat) : Observation :=
  match i with
  | O => composeGoneObservation
  | S _ => composeGoneWithLink
  end.

End Verification.

(** ** The ComposeOpened phase: [navigateToCompose] *)

Module ComposePhase.
Import Async.
Local Open Scope async_scope.

(** The nine selectors tried for the compose button, in the order of the
    source: the side navigation test id, an aria label containing Post, the
    inline test id, the compose link, three buttons with the text Post, a
    test id containing tweet with the button role, and a test id containing
    compose. *)
Inductive Selector :=
| SideNavNewTweet
| AriaLabelPost
| TweetButtonInline
| ComposeLink
| ButtonTextPost
| RoleButtonTextPost
| DivRoleButtonTextPost
| TestIdTweetRoleButton
| TestIdCompose.

(** What an observer sees: the two lines of the console, and each
    [page.click(selector)] that has resolved. *)
Inductive Event :=
| Navigating
| Clicked (selector : Selector)
| ComposeWindowOpened.

Definition Task := M unit Event.

(** The answers of the page: [waitForSelector] and [click] for each
    selector, and the wait for the text area of the compose window. *)
Record Page := {
  waitForSelector : Selector -> Call unit;
  click : Selector -> Call unit;
  textarea : Call unit
}.

Definition composeSelectors : list Selector :=
  [ SideNavNewTweet; AriaLabelPost; TweetButtonInline; ComposeLink;
    ButtonTextPost; RoleButtonTextPost; DivRoleButtonTextPost;
    TestIdTweetRoleButton; TestIdCompose ].

Definition composeNotFound : string := "Could not find compose tweet button".

(** The [for] loop: the first selector that is found and clicked without
    an error ends it; the result is [clicked]. *)
Fixpoint clickFirst (p : Page) (selectors : list Selector) : Task bool :=
  match selectors with
  | [] => ret false
  | selector :: rest =>
      clicked <- tryCatch
                   (await (waitForSelector p selector) ;;
                    await (click p selector) ;;
                    emit (Clicked selector) ;;
                    ret true)
                   (fun _ => ret false) ;;
      if clicked : bool then ret true else clickFirst p rest
  end.

(** [navigateToCompose]. *)
Definition navigateToCompose (p : Page) : Task unit :=
  emit Navigating ;;
  clicked <- clickFirst p composeSelectors ;;
  if negb clicked then throw composeNotFound
  else
    await (textarea p) ;;
    emit ComposeWindowOpened.

(** A selector that is found and can be clicked. *)
Definition usable (p : Page) (selector : Selector) : bool :=
  match answer (waitForSelector p selector), answer (click p selector) with
  | Resolves _, Resolves _ => true
  | _, _ => false
  end.

Fixpoint clicks (evs : list Event) : list Selector :=
  match evs with
  | [] => []
  | Clicked selector :: rest => selector :: clicks rest
  | _ :: rest => clicks rest
  end.

(** A page on which only the compose link works. *)
Definition linkOnlyPage : Page :=
  {| waitForSelector := fun selector =>
       match selector with
       | ComposeLink | TestIdCompose => after 40 tt
       | _ => {| took := 5000; answer := Rejects "waiting for selector failed" |}
       end;
     click := fun _ => after 30 tt;
     textarea := after 600 tt |}.

End ComposePhase.

(** ** Cleaning up after a post: [deleteImageFiles] *)

Module ImageFiles.
Import Async.
Local Open Scope async_scope.

(** The output folder: the paths of the files that exist. *)
Definition Files := list string.

Inductive Event :=
| DeletingImageFiles
| Deleted (imagePath : string)
| LoggedDeleted (imagePath : string)
| FileNotFound (imagePath : string)
| FailedToDelete (imagePath : string) (message : string)
| LoggedFailedToDelete (imagePath : string) (message : string)
| CleanupCompleted
| CleanupError (message : string).

Definition Task := M Files Event.

(** [fs.pathExists], which never rejects. *)
Definition pathExists (imagePath : string) (files : Files) : bool :=
  existsb (String.eqb imagePath) files.

(** The effect of an [fs.unlink] that resolves. *)
Definition unlinked (imagePath : string) (files : Files) : Files :=
  filter (fun f => negb (String.eqb imagePath f)) files.

(** [if (this.logger) await this.logger.log(...)]; the logger catches its
    own errors. *)
Definition logIf (hasLogger : bool) (e : Event) : Task unit :=
  if hasLogger then emit e else ret tt.

(** The [for] loop of [deleteImageFiles]; [unlink path] is what
    [fs.unlink] answers for a path. *)
Fixpoint deleteEach (hasLogger : bool) (unlink : string -> Call unit)
  (imagePaths : list string) : Task unit :=
  match imagePaths with
  | [] => ret tt
  | imagePath :: rest =>
      tryCatch
        (files <- get ;;
         if pathExists imagePath files then
           await (unlink imagePath) ;;
           update (unlinked imagePath) (Deleted imagePath) ;;
           logIf hasLogger (LoggedDeleted imagePath)
         else emit (FileNotFound imagePath))
        (fun fileError =>
           emit (FailedToDelete imagePath fileError) ;;
           logIf hasLogger (LoggedFailedToDelete imagePath fileError)) ;;
      deleteEach hasLogger unlink rest
  end.

(** [deleteImageFiles(imagePaths)]. *)
Definition deleteImageFiles (hasLogger : bool) (unlink : string -> Call unit)
  (imagePaths : list string) : Task unit :=
  tryCatch
    (emit DeletingImageFiles ;;
     deleteEach hasLogger unlink imagePaths ;;
     emit CleanupCompleted)
    (fun error => emit (CleanupError error)).

(** Every [unlink] settles. *)
Definition settles (unlink : string -> Call unit) (imagePaths : list string) : Prop :=
  forall imagePath, In imagePath imagePaths -> answer (unlink imagePath) <> NeverSettles.

Definition removable (unlink : string -> Call unit) (imagePath : string) : bool :=
  match answer (unlink imagePath) with
  | Resolves _ => true
  | _ => false
  end.

(** An output folder with two images, one of which cannot be removed. *)
Definition lockedUnlink (imagePath : string) : Call unit :=
  if String.eqb imagePath "output/b_watermarked.jpg"
  then {| took := 5; answer := Rejects "EBUSY: resource busy or locked" |}
  else after 5 tt.

End ImageFiles.

(** ** The Submitted phase: [publishTweet] *)

Module PublishPhase.
Import Async.
Local Open Scope async_scope.

(** The twelve selectors tried for the Post button, in the order of the
    source. *)
Inductive Selector :=
| TweetButton
| TweetButtonInline
| ButtonTweetButton
| RoleButtonTextPost
| ButtonWithSpanPost
| RoleButtonSpanPost
| RoleButtonDivSpanPost
| AriaLabelPost
| ButtonTestIdTweet
| ButtonWithTestIdTweet
| DivRoleButtonTextPost
| DivRoleButtonWithSpanPost.

Definition postButtonSelectors : list Selector :=
  [ TweetButton; TweetButtonInline; ButtonTweetButton; RoleButtonTextPost;
    ButtonWithSpanPost; RoleButtonSpanPost; RoleButtonDivSpanPost; AriaLabelPost;
    ButtonTestIdTweet; ButtonWithTestIdTweet; DivRoleButtonTextPost;
    DivRoleButtonWithSpanPost ].

(** The three ways tried to enable a disabled button and the five ways
    tried to click it, in the order of the source. *)
Inductive Activation := ClickTextArea | TypeSpaceBackspace | DispatchInput.

Inductive ClickMethod :=
| NormalClick
| JavascriptClick
| CoordinateClick
| KeyboardEnter
| KeyboardSpace.

Definition activationMethods : list Activation :=
  [ClickTextArea; TypeSpaceBackspace; DispatchInput].

Definition clickMethods : list ClickMethod :=
  [NormalClick; JavascriptClick; CoordinateClick; KeyboardEnter; KeyboardSpace].

(** The [reason] of a result. *)
Inductive Reason :=
| NavigatedAway
| ModalDisappeared
| NotificationFound
| ButtonDisappeared
| DisabledAndModalDisappeared
| NoIndicators
| ValidationError (message : string)
| AllMethodsFailed.

(** [{ success, reason }].  The [method] field of a successful click is
    left out: it is the method of the last [ClickExecuted]. *)
Record Result := { success : bool; reason : Reason }.

Inductive Event :=
| Publishing
| PublishAttempt (publishAttempt : nat)
| ModalCheckFailed (message : string)
| ModalAlreadyClosed
| FoundPostButton (selector : Selector)
| NoPostButtonFound
| ButtonNotFoundRetrying
| ActivationAttempted
| ButtonEnabled
| StillDisabledAfterActivation
| EnableCheckFailed (message : string)
| StillDisabled (publishAttempt : nat)
| ClickExecuted (method : ClickMethod) (attemptNumber : nat)
| ClickSucceeded (r : Reason)
| ClickDidNotSucceed (method : ClickMethod) (r : Reason)
| ClickMethodFailed (method : ClickMethod) (message : string)
| ClickFailedRetrying
| ValidationFailed (message : string)
| ModalStillOpen
| LoggedModalStillOpen
| Waited (ms : N)
| Verifying (e : Verification.Event).

Definition Task := M unit Event.

(** What [isComposeModalOpen] looks at: the text area of the compose
    window and the location. *)
Record Glance := {
  composeModal : Call bool;
  currentUrl : string
}.

(** What [validatePostButtonClick] looks at after a click. *)
Record Validation := {
  location : string;
  modal : Call bool;
  successNotification : Call bool;
  buttonsAfter : Selector -> Call bool;
  isDisabled : Call bool;
  modalStillThere : Call bool
}.

(** What the page answers during one turn of the loop of [publishTweet]:
    to the check of the compose window, to the search for the button, to
    the check and the attempts to enable it (each activation method as a
    whole, and the check after it), and to each click method (as a whole)
    and the validation after it. *)
Record Attempt := {
  glance : Glance;
  buttons : Selector -> Call bool;
  disabled : Call bool;
  activate : Activation -> Call unit;
  stillDisabled : Activation -> Call bool;
  click : ClickMethod -> Call unit;
  validation : ClickMethod -> Validation
}.

Record Page := {
  attempt : nat -> Attempt;
  finalGlance : Glance;
  verification : nat -> Verification.Observation
}.

Definition maxPublishAttempts : nat := 5.

Definition noPostButton : string := "Could not find post button after all attempts".

Definition modalStillOpen : string :=
  "Tweet posting failed - modal still open after 5 attempts".

(** [page.waitForTimeout(ms)], as in the other phases. *)
Definition waitForTimeout (ms : N) : Task unit :=
  emit (Waited ms) ;; wait ms.

(** [isComposeModalOpen]: the window counts as open when it cannot be
    checked. *)
Definition isComposeModalOpen (g : Glance) : Task bool :=
  tryCatch
    (found <- await (composeModal g) ;;
     let onComposePage := JsString.includes (currentUrl g) "/compose/tweet" in
     ret (found || onComposePage))
    (fun e => emit (ModalCheckFailed e) ;; ret true).

(** [findPostButton]: the first selector that [waitForSelector] resolves
    with an element; a selector that throws is skipped. *)
Fixpoint findButtonAmong (q : Selector -> Call bool) (selectors : list Selector)
  : Task (option Selector) :=
  match selectors with
  | [] => emit NoPostButtonFound ;; ret None
  | selector :: rest =>
      hit <- tryCatch
               (button <- await (q selector) ;;
                if button : bool
                then emit (FoundPostButton selector) ;; ret true
                else ret false)
               (fun _ => ret false) ;;
      if hit : bool then ret (Some selector) else findButtonAmong q rest
  end.

Definition findPostButton (q : Selector -> Call bool) : Task (option Selector) :=
  findButtonAmong q postButtonSelectors.

(** The loop over the activation methods in [ensurePostButtonEnabled]. *)
Fixpoint activateWith (a : Attempt) (methods : list Activation) : Task bool :=
  match methods with
  | [] => emit StillDisabledAfterActivation ;; ret false
  | method :: rest =>
      enabled <- tryCatch
                   (await (activate a method) ;;
                    still <- await (stillDisabled a method) ;;
                    if negb still then emit ButtonEnabled ;; ret true
                    else ret false)
                   (fun _ => ret false) ;;
      if enabled : bool then ret true else activateWith a rest
  end.

(** [ensurePostButtonEnabled]. *)
Definition ensurePostButtonEnabled (a : Attempt) : Task bool :=
  tryCatch
    (off <- await (disabled a) ;;
     if off : bool
     then emit ActivationAttempted ;; activateWith a activationMethods
     else ret true)
    (fun e => emit (EnableCheckFailed e) ;; ret false).

(** [validatePostButtonClick]. *)
Definition validatePostButtonClick (v : Validation) : Task Result :=
  tryCatch
    (if negb (JsString.includes (location v) "/compose/tweet")
     then ret {| success := true; reason := NavigatedAway |}
     else
       found <- await (modal v) ;;
       if negb found then ret {| success := true; reason := ModalDisappeared |}
       else
         notified <- await (successNotification v) ;;
         if notified : bool
         then ret {| success := true; reason := NotificationFound |}
         else
           postButton <- findPostButton (buttonsAfter v) ;;
           match postButton with
           | None => ret {| success := true; reason := ButtonDisappeared |}
           | Some _ =>
               off <- await (isDisabled v) ;;
               if off : bool then
                 waitForTimeout 1000 ;;
                 there <- await (modalStillThere v) ;;
                 if negb there
                 then ret {| success := true;
                             reason := DisabledAndModalDisappeared |}
                 else ret {| success := false; reason := NoIndicators |}
               else ret {| success := false; reason := NoIndicators |}
           end)
    (fun e =>
       emit (ValidationFailed e) ;;
       ret {| success := false; reason := ValidationError e |}).

(** The loop over the click methods in [attemptPostButtonClick]. *)
Fixpoint clickWith (a : Attempt) (attemptNumber : nat) (methods : list ClickMethod)
  : Task Result :=
  match methods with
  | [] => ret {| success := false; reason := AllMethodsFailed |}
  | method :: rest =>
      done <- tryCatch
                (await (click a method) ;;
                 emit (ClickExecuted method attemptNumber) ;;
                 waitForTimeout 2000 ;;
                 clickSuccess <- validatePostButtonClick (validation a method) ;;
                 if success clickSuccess then
                   emit (ClickSucceeded (reason clickSuccess)) ;;
                   ret (Some {| success := true; reason := reason clickSuccess |})
                 else
                   emit (ClickDidNotSucceed method (reason clickSuccess)) ;;
                   match rest with
                   | _ :: _ => waitForTimeout 1000
                   | [] => ret tt
                   end ;;
                   ret None)
                (fun e => emit (ClickMethodFailed method e) ;; ret None) ;;
      match done with
      | Some result => ret result
      | None => clickWith a attemptNumber rest
      end
  end.

(** [attemptPostButtonClick(postButton, attemptNumber)]. *)
Definition attemptPostButtonClick (a : Attempt) (attemptNumber : nat) : Task Result :=
  clickWith a attemptNumber clickMethods.

(** The [for] loop of [publishTweet]; the result is [publishSuccess]. *)
Fixpoint publishLoop (fuel : nat) (p : Page) (publishAttempt : nat) : Task bool :=
  if publishAttempt <? maxPublishAttempts then
    match fuel with
    | O => outOfFuel
    | S fuel' =>
        let a := attempt p publishAttempt in
        emit (PublishAttempt publishAttempt) ;;
        modalStillOpen <- isComposeModalOpen (glance a) ;;
        if negb modalStillOpen then emit ModalAlreadyClosed ;; ret false
        else
          postButton <- findPostButton (buttons a) ;;
          match postButton with
          | None =>
              if publishAttempt =? maxPublishAttempts - 1 then throw noPostButton
              else
                emit ButtonNotFoundRetrying ;;
                waitForTimeout 2000 ;;
                publishLoop fuel' p (S publishAttempt)
          | Some _ =>
              buttonEnabled <- ensurePostButtonEnabled a ;;
              (if negb buttonEnabled then emit (StillDisabled publishAttempt)
               else ret tt) ;;
              if negb buttonEnabled && (publishAttempt <? maxPublishAttempts - 1)
              then
                waitForTimeout 2000 ;;
                publishLoop fuel' p (S publishAttempt)
              else
                clickResult <- attemptPostButtonClick a (publishAttempt + 1) ;;
                if success clickResult then ret true
                else
                  (if publishAttempt <? maxPublishAttempts - 1
                   then emit ClickFailedRetrying ;; waitForTimeout 3000
                   else ret tt) ;;
                  publishLoop fuel' p (S publishAttempt)
          end
    end
  else ret false.

(** A task of the Verified phase run inside this phase. *)
Definition verifying {A} (m : Verification.Task A) : Task A := fun t s =>
  let '(tr, o) := m t s in
  (map (fun e => {| at_ := at_ e; what := Verifying (what e);
                    snapshot := snapshot e |}) tr, o).

(** [publishTweet]. *)
Definition publishTweet (statusNumber : string -> Z) (hasLogger : bool) (p : Page)
  : Task string :=
  emit Publishing ;;
  waitForTimeout 1000 ;;
  publishSuccess <- publishLoop maxPublishAttempts p 0 ;;
  finalModalCheck <- isComposeModalOpen (finalGlance p) ;;
  (if finalModalCheck : bool then
     emit ModalStillOpen ;;
     if hasLogger : bool then emit LoggedModalStillOpen else ret tt
   else ret tt) ;;
  if negb publishSuccess && finalModalCheck then throw modalStillOpen
  else verifying (Verification.verifyTweetSuccess statusNumber (verification p)).

(** A page whose compose window is gone when [publishTweet] starts. *)
Definition idleGlance : Glance :=
  {| composeModal := after 20 false; currentUrl := "https://x.com/home" |}.

Definition idleAttempt : Attempt :=
  {| glance := idleGlance;
     buttons := fun _ => {| took := 2000; answer := Rejects "waiting for selector failed" |};
     disabled := after 5 false;
     activate := fun _ => after 5 tt;
     stillDisabled := fun _ => after 5 false;
     click := fun _ => after 5 tt;
     validation := fun _ =>
       {| location := "https://x.com/home";
          modal := after 5 false;
          successNotification := after 5 false;
          buttonsAfter := fun _ => after 5 false;
          isDisabled := after 5 false;
          modalStillThere := after 5 false |} |}.

Definition closedWindowPage : Page :=
  {| attempt := fun _ => idleAttempt;
     finalGlance := idleGlance;
     verification := fun _ => Verification.composeGoneWithLink |}.

Definition isClick (e : Event) : bool :=
  match e with ClickExecuted _ _ => true | _ => false end.

(** The number of clicks on the Post button. *)
Definition clicks (evs : list Event) : nat := List.length (filter isClick evs).

Definition isTurn (e : Event) : bool :=
  match e with PublishAttempt _ => true | _ => false end.

Definition turns (evs : list Event) : nat := List.length (filter isTurn evs).

(** What [isComposeModalOpen] returns for a glance, read off the answers:
    open when the text area is there, when the location is the compose page
    or when the check throws; nothing when the check never settles. *)
Definition shows (g : Glance) : option bool :=
  match answer (composeModal g) with
  | Resolves found => Some (found || JsString.includes (currentUrl g) "/compose/tweet")
  | Rejects _ => Some true
  | NeverSettles => None
  end.

(** The reasons that count as success. *)
Definition successful (r : Reason) : bool :=
  match r with
  | NavigatedAway | ModalDisappeared | NotificationFound | ButtonDisappeared
  | DisabledAndModalDisappeared => true
  | NoIndicators | ValidationError _ | AllMethodsFailed => false
  end.

(** Whether one of the selectors finds the button, and whether every query
    up to there settles. *)
Fixpoint firstFound (q : Selector -> Call bool) (selectors : list Selector)
  : option (option Selector) :=
  match selectors with
  | [] => Some None
  | selector :: rest =>
      match answer (q selector) with
      | Resolves true => Some (Some selector)
      | Resolves false | Rejects _ => firstFound q rest
      | NeverSettles => None
      end
  end.

(** What the page has answered when [validatePostButtonClick] reports a
    reason. *)
Definition observed (v : Validation) (r : Reason) : Prop :=
  match r with
  | NavigatedAway => JsString.includes (location v) "/compose/tweet" = false
  | ModalDisappeared => answer (modal v) = Resolves false
  | NotificationFound => answer (successNotification v) = Resolves true
  | ButtonDisappeared =>
      firstFound (buttonsAfter v) postButtonSelectors = Some None
  | DisabledAndModalDisappeared =>
      answer (isDisabled v) = Resolves true
      /\ answer (modalStillThere v) = Resolves false
  | NoIndicators =>
      JsString.includes (location v) "/compose/tweet" = true
      /\ answer (modal v) = Resolves true
      /\ answer (successNotification v) = Resolves false
      /\ (exists selector,
            firstFound (buttonsAfter v) postButtonSelectors = Some (Some selector))
      /\ (answer (isDisabled v) = Resolves false
          \/ (answer (isDisabled v) = Resolves true
              /\ answer (modalStillThere v) = Resolves true))
  | ValidationError e =>
      JsString.includes (location v) "/compose/tweet" = true
      /\ (answer (modal v) = Rejects e
          \/ answer (successNotification v) = Rejects e
          \/ answer (isDisabled v) = Rejects e
          \/ answer (modalStillThere v) = Rejects e)
  | AllMethodsFailed => False
  end.

(** The three errors of [publishTweet]. *)
Definition publishError (e : string) : Prop :=
  e = noPostButton \/ e = modalStillOpen \/ e = Verification.verificationFailed.

End PublishPhase.

(** ** From a Telegram post to a tweet: [processAndPost] *)

Module TelegramListener.
Import Async.
Local Open Scope async_scope.

(** [{ images, caption, channelName }]. *)
Record PostData := {
  images : list string;
  caption : string;
  channelName : string
}.

(** What the output folder and [imageWatermark] answer for one image:
    whether the watermarked file is already there, what [addWatermark]
    does ([None] for a value that is not a path), and whether the file it
    names is there afterwards. *)
Record Watermarking := {
  cached : bool;
  addWatermark : Call (option string);
  created : bool
}.

(** What the world answers during one [processAndPost]; the images are
    told apart by their position in [postData.images]. *)
Record Posting := {
  watermarking : nat -> Watermarking;
  buildCaption : string -> string -> list string -> Call string;
  postTweet : list string -> string -> Call string;
  tempExists : nat -> bool;
  remove : nat -> Call unit
}.

Inductive Event :=
| ProcessingImages (count : nat)
| NewArray
| Pushed (path : string)
| UsingExisting (watermarkedPath : string)
| CreatingWatermark (imagePath : string)
| WatermarkCreated (newWatermarkedPath : string)
| WatermarkNotCreated (imagePath : string)
| WatermarkError (imagePath : string) (message : string)
| PostingTweet (watermarkedImages : list string) (finalCaption : string)
| PostedToTwitter
| ProcessAndPostFailed (message : string)
| CleanedUp (imagePath : string)
| CleanupFailed (message : string).

(** The state is the array [watermarkedImages] that
    [getWatermarkedImages] fills. *)
Definition Task := M (list string) Event.

(** A string that is not empty, the only strings that count as true. *)
Definition nonEmpty (s : string) : bool :=
  match s with EmptyString => false | String _ _ => true end.

(** [watermarkedImages.push(path)]. *)
Definition push (path : string) : Task unit :=
  update (fun watermarkedImages => watermarkedImages ++ [path]) (Pushed path).

Definition noWatermarkedImages : string := "No watermarked images available".

Definition failedToPost : string := "Failed to post to Twitter".

Section Paths.
(** [path.join(config.paths.output, fileName + '_watermarked.jpg')] for the
    [fileName] of an image path. *)
Variable watermarkedPathOf : string -> string.

(** The [for] loop of [getWatermarkedImages], from position [i] on. *)
Fixpoint watermarkEach (w : nat -> Watermarking) (i : nat) (imagePaths : list string)
  : Task unit :=
  match imagePaths with
  | [] => ret tt
  | imagePath :: rest =>
      tryCatch
        (let watermarkedPath := watermarkedPathOf imagePath in
         if cached (w i) then
           emit (UsingExisting watermarkedPath) ;;
           push watermarkedPath
         else
           emit (CreatingWatermark imagePath) ;;
           newWatermarkedPath <- await (addWatermark (w i)) ;;
           match newWatermarkedPath with
           | Some path =>
               if nonEmpty path && created (w i) then
                 push path ;;
                 emit (WatermarkCreated path)
               else
                 emit (WatermarkNotCreated imagePath) ;;
                 push imagePath
           | None =>
               emit (WatermarkNotCreated imagePath) ;;
               push imagePath
           end)
        (fun error =>
           emit (WatermarkError imagePath error) ;;
           push imagePath) ;;
      watermarkEach w (S i) rest
  end.

(** [getWatermarkedImages(imagePaths)]. *)
Definition getWatermarkedImages (w : nat -> Watermarking) (imagePaths : list string)
  : Task (list string) :=
  update (fun _ => []) NewArray ;;
  watermarkEach w 0 imagePaths ;;
  get.

(** The cleanup loop in the [finally] block of [processAndPost]. *)
Fixpoint removeEach (w : Posting) (i : nat) (imagePaths : list string) : Task unit :=
  match imagePaths with
  | [] => ret tt
  | imagePath :: rest =>
      (if tempExists w i
       then await (remove w i) ;; emit (CleanedUp imagePath)
       else ret tt) ;;
      removeEach w (S i) rest
  end.

(** The [try] block of [processAndPost] with its [catch]; [PostingTweet]
    marks the call of [twitterPoster.postTweet]. *)
Definition posting (w : Posting) (postData : PostData) : Task unit :=
  tryCatch
    (emit (ProcessingImages (List.length (images postData))) ;;
     watermarkedImages <- getWatermarkedImages (watermarking w) (images postData) ;;
     match watermarkedImages with
     | [] => throw noWatermarkedImages
     | first :: _ =>
         let channelHashtags :=
           if nonEmpty (caption postData)
           then HashtagPattern.matchHashtags (caption postData)
           else [] in
         finalCaption <- await (buildCaption w (caption postData) first
                                  channelHashtags) ;;
         emit (PostingTweet watermarkedImages finalCaption) ;;
         success <- await (postTweet w watermarkedImages finalCaption) ;;
         if nonEmpty success then emit PostedToTwitter
         else throw failedToPost
     end)
    (fun error => emit (ProcessAndPostFailed error)).

(** The [finally] block of [processAndPost]. *)
Definition cleanup (tempCleanupEnabled : bool) (w : Posting) (postData : PostData)
  : Task unit :=
  if tempCleanupEnabled
  then tryCatch (removeEach w 0 (images postData))
         (fun cleanupError => emit (CleanupFailed cleanupError))
  else ret tt.

(** [processAndPost(postData)]. *)
Definition processAndPost (tempCleanupEnabled : bool) (w : Posting)
  (postData : PostData) : Task unit :=
  tryFinally (posting w postData) (cleanup tempCleanupEnabled w postData).

(** Why [getWatermarkedImages] gives [output] for an image: the watermarked
    file was there, [addWatermark] made it, or, the watermark having
    failed, it is the image itself. *)
Definition chosen (wm : Watermarking) (imagePath output : string) : Prop :=
  (cached wm = true /\ output = watermarkedPathOf imagePath)
  \/ (cached wm = false /\ answer (addWatermark wm) = Resolves (Some output)
      /\ nonEmpty output = true /\ created wm = true)
  \/ (cached wm = false /\ output = imagePath
      /\ ((exists e, answer (addWatermark wm) = Rejects e)
          \/ answer (addWatermark wm) = Resolves None
          \/ exists path, answer (addWatermark wm) = Resolves (Some path)
                          /\ nonEmpty path && created wm = false)).

(** One output for each image, in order, from position [i] on. *)
Fixpoint chosenEach (w : nat -> Watermarking) (i : nat)
  (imagePaths outputs : list string) : Prop :=
  match imagePaths, outputs with
  | [], [] => True
  | imagePath :: rest, output :: more =>
      chosen (w i) imagePath output /\ chosenEach w (S i) rest more
  | _, _ => False
  end.

End Paths.

(** The temporary files that are there, from position [i] on. *)
Fixpoint existing (w : Posting) (i : nat) (imagePaths : list string) : list string :=
  match imagePaths with
  | [] => []
  | imagePath :: rest =>
      if tempExists w i then imagePath :: existing w (S i) rest
      else existing w (S i) rest
  end.

(** The files the cleanup has removed. *)
Fixpoint cleaned (evs : list Event) : list string :=
  match evs with
  | [] => []
  | CleanedUp imagePath :: rest => imagePath :: cleaned rest
  | _ :: rest => cleaned rest
  end.

Definition isPost (e : Event) : bool :=
  match e with PostingTweet _ _ => true | _ => false end.

(** An entry that is no call of [postTweet], and one that is no removal of
    a file. *)
Definition nonPost (e : Entry (list string) Event) : Prop := isPost (what e) = false.

Definition nonCleanup (e : Entry (list string) Event) : Prop :=
  forall imagePath, what e <> CleanedUp imagePath.

(** The number of calls of [postTweet]. *)
Definition posts (evs : list Event) : nat := List.length (filter isPost evs).

(** No awaited call of [processAndPost] hangs. *)
Definition settles (w : Posting) : Prop :=
  (forall i, answer (addWatermark (watermarking w i)) <> NeverSettles)
  /\ (forall c f h, answer (buildCaption w c f h) <> NeverSettles)
  /\ (forall l c, answer (postTweet w l c) <> NeverSettles).

(** A post whose first image has a watermarked copy while the watermark of
    the others fails; the tweet is refused, and the second temporary file
    cannot be removed. *)
Definition refusedPosting : Posting :=
  {| watermarking := fun i =>
       match i with
       | 0 => {| cached := true; addWatermark := after 900 None; created := false |}
       | _ => {| cached := false;
                 addWatermark := {| took := 40; answer := Rejects "Failed to add watermark" |};
                 created := false |}
       end;
     buildCaption := fun _ _ _ => after 1500 "Golden hour #MuseOfCurves"%string;
     postTweet := fun _ _ =>
       {| took := 120000; answer := Rejects "Tweet posting timeout after 120000ms" |};
     tempExists := fun _ => true;
     remove := fun i =>
       match i with
       | 1 => {| took := 2; answer := Rejects "EBUSY: resource busy or locked" |}
       | _ => after 3 tt
       end |}.

(** The post of three images handled with [refusedPosting]. *)
Definition refusedPost : PostData :=
  {| images := ["temp/image_1.jpg"; "temp/image_2.jpg"; "temp/image_3.jpg"]%string;
     caption := "Golden hour #sunset"%string;
     channelName := "Muse"%string |}.

End TelegramListener.

(** * Properties *)

(** ** Strings *)

Module JsStringFacts.
Import JsString.
Local Open Scope string_scope.

Lemma length_append (a b : string) :
  String.length (a ++ b) = String.length a + String.length b.
Proof.
  induction a as [|c a IH]; simpl; [reflexivity|].
  now rewrite IH.
Qed.

Lemma length_prefix (n : nat) (s : string) :
  String.length (String.substring 0 n s) = Nat.min n (String.length s).
Proof.
  revert s; induction n as [|n IH]; intros [|c s]; simpl; try reflexivity.
  now rewrite IH.
Qed.

Lemma length_substring_from_0 (s : string) (stop : Z) :
  String.length (substring s 0 stop) = Nat.min (Z.to_nat stop) (String.length s).
Proof.
  unfold substring, clampIndex.
  change (Z.to_nat 0) with 0%nat.
  rewrite !Nat.min_0_l, Nat.max_0_l, Nat.sub_0_r.
  rewrite length_prefix. lia.
Qed.

Lemma length_replicate (n : nat) (c : ascii) :
  String.length (replicate n c) = n.
Proof. induction n; simpl; congruence. Qed.

End JsStringFacts.

(** ** Caption builder *)

Module CaptionFacts.
Import JsString CaptionBuilder JsStringFacts.
Local Open Scope string_scope.

Lemma length_combine (caption : string) (hashtags : list string) :
  let h := join " " hashtags in
  let budget := (280 - Z.of_nat (String.length h) - 2)%Z in
  String.length (combineWithHashtags caption hashtags) =
  ((if (Z.of_nat (String.length caption) >? budget)%Z
    then Nat.min (Z.to_nat (budget - 3)) (String.length caption) + 3
    else String.length caption) + 2 + String.length h)%nat.
Proof.
  intros h budget. unfold combineWithHashtags, maxCaptionLength_const.
  fold h. fold budget.
  destruct (Z.of_nat (String.length caption) >? budget)%Z;
    rewrite !length_append; try rewrite length_substring_from_0;
    simpl; lia.
Qed.

(** Where the hashtags leave room for the ellipsis (five units in all with
    the separator), the result fits the limit, the caption is cut exactly
    when the plain combination would not fit, and the result ends with the
    separator and the whole hashtag string. *)
Lemma combineWithHashtags_fits (caption : string) (hashtags : list string) :
  (Z.of_nat (String.length (join " " hashtags)) + 5 <= maxCaptionLength_const)%Z ->
  (Z.of_nat (String.length (combineWithHashtags caption hashtags))
     <= maxCaptionLength_const)%Z
  /\ (combineWithHashtags caption hashtags <> untruncated caption hashtags ->
      (maxCaptionLength_const
         < Z.of_nat (String.length (untruncated caption hashtags)))%Z)
  /\ ((Z.of_nat (String.length (untruncated caption hashtags))
         <= maxCaptionLength_const)%Z ->
      combineWithHashtags caption hashtags = untruncated caption hashtags)
  /\ exists kept, combineWithHashtags caption hashtags
                  = kept ++ newline ++ newline ++ join " " hashtags.
Proof.
  intros Hroom. unfold maxCaptionLength_const in *.
  pose proof (length_combine caption hashtags) as Hlen. cbv zeta in Hlen.
  assert (Hun : String.length (untruncated caption hashtags)
                = (String.length caption + 2
                   + String.length (join " " hashtags))%nat).
  { unfold untruncated. rewrite !length_append. simpl. lia. }
  unfold combineWithHashtags, maxCaptionLength_const in *.
  destruct (Z.of_nat (String.length caption)
              >? 280 - Z.of_nat (String.length (join " " hashtags)) - 2)%Z
    eqn:Hcut.
  - apply Z.gtb_lt in Hcut. repeat split.
    + rewrite Hlen. lia.
    + intros _. rewrite Hun. lia.
    + intros Hfit. rewrite Hun in Hfit. lia.
    + eexists. reflexivity.
  - assert (Hle : (Z.of_nat (String.length caption)
                   <= 280 - Z.of_nat (String.length (join " " hashtags)) - 2)%Z).
    { destruct (Z.gtb_spec (Z.of_nat (String.length caption))
                  (280 - Z.of_nat (String.length (join " " hashtags)) - 2));
        [discriminate | assumption]. }
    repeat split.
    + rewrite Hlen. lia.
    + intros Hne. exfalso. apply Hne. reflexivity.
    + eexists. reflexivity.
Qed.

Lemma combineWithHashtags_fits_witness :
  (Z.of_nat (String.length
     (combineWithHashtags "Curves that speak louder than words"
        ["#MuseOfCurves"; "#aesthetic"])) <= 280)%Z.
Proof.
  apply (combineWithHashtags_fits "Curves that speak louder than words"
           ["#MuseOfCurves"; "#aesthetic"]).
  vm_compute. discriminate.
Defined.

(** C10, at the failing input.  The hashtag string leaves room for the
    separator (278 + 2 <= 280), yet the caption of two units is replaced by
    the three units of the ellipsis and the result is 283 units long:
    [combineWithHashtags] does not keep within [maxCaptionLength] when
    fewer than three units are left for the caption. *)
Theorem combineWithHashtags_exceeds_limit :
  (Z.of_nat (String.length (join " " longHashtags)) + 2 <= maxCaptionLength_const)%Z
  /\ combineWithHashtags "Hi" longHashtags
     = "..." ++ newline ++ newline ++ join " " longHashtags
  /\ String.length (combineWithHashtags "Hi" longHashtags) = 283
  /\ String.length (untruncated "Hi" longHashtags) = 282.
Proof.
  repeat split; vm_compute; try reflexivity. discriminate.
Qed.

End CaptionFacts.

(** ** Publish queue *)

Module QueueFacts.
Import QueueManager.



Lemma no_delay_in_log (q : t) (l : LogLine) : existsb isDelay (log q l) = false.
Proof. unfold log. destruct (hasLogger q); reflexivity. Qed.



Lemma settled_not_hanging (j : Job) (w : Turn) :
  stalls w = false -> hangs j w = false.
Proof.
  unfold hangs. intros ->. destruct (hasProcessor j), (resolves w); reflexivity.
Qed.



Lemma loop_step (fuel : nat) (world : nat -> Turn) (i : nat) (q : t)
  (j : Job) (rest : list Job) :
  queue q = j :: rest ->
  hangs j (world i) = false ->
  loop (S fuel) world i q
  = let '(q1, ev1) := turn (world i) q in
    let '(q2, ev2, done) := loop fuel world (S i) q1 in
    (q2, ev1 ++ ev2, done).
Proof. intros Hq Hgo. cbn [loop]. rewrite Hq, Hgo. reflexivity. Qed.

(** A processor that never settles stops the loop for good. *)
Lemma loop_hangs (fuel : nat) (world : nat -> Turn) (i : nat) (q : t)
  (j : Job) (rest : list Job) :
  queue q = j :: rest ->
  hangs j (world i) = true ->
  loop (S fuel) world i q
  = (withQueue q (rest ++ arrivedWhilePosting (world i)),
     log (withQueue q rest) (ProcessingPost (List.length rest)) ++ [Process j],
     false).
Proof.
  intros Hq Hstuck. cbn [loop]. rewrite Hq, Hstuck. unfold turn. rewrite Hq.
  assert (Hno : processPost j (world i) = false).
  { unfold processPost, hangs in *.
    destruct (hasProcessor j), (resolves (world i)), (stalls (world i));
      cbn in *; congruence. }
  rewrite Hno, Hstuck. reflexivity.
Qed.

Lemma loop_empty (fuel : nat) (world : nat -> Turn) (i : nat) (q : t) :
  queue q = [] -> loop fuel world i q = (q, [], true).
Proof. intros Hq. destruct fuel; cbn [loop]; rewrite Hq; reflexivity. Qed.

(** The [catch] branch with budget left: the count goes up by one, the
    post goes back in front of everything in the backlog, including what
    arrived while it was being processed, and the wait is 5000 ms times the
    new count. *)
Lemma turn_requeues_in_front (w : Turn) (q : t) (j : Job) (rest : list Job) :
  queue q = j :: rest ->
  processPost j w = false ->
  hangs j w = false ->
  (Z.of_nat (retries j) < maxRetries q)%Z ->
  let backlog := rest ++ arrivedWhilePosting w in
  queue (fst (turn w q)) = bumpRetries j :: backlog ++ arrivedWhileWaiting w
  /\ exists before,
       snd (turn w q)
       = before ++ [Delay (5000 * Z.of_nat (S (retries j)))]
       /\ existsb isDelay before = false.
Proof.
  intros Hq Hfail Hgo Hbudget backlog. unfold turn. rewrite Hq, Hfail, Hgo.
  cbn [maxRetries withQueue queue].
  destruct (Z.ltb_spec (Z.of_nat (retries j)) (maxRetries q)) as [_|Hge]; [|lia].
  cbn [fst snd queue withQueue]. split; [reflexivity|].
  eexists. rewrite !app_assoc. split; [reflexivity|].
  rewrite !existsb_app, !no_delay_in_log. reflexivity.
Qed.

Lemma turn_requeues_in_front_witness :
  let j := {| id := 7; retries := 0; hasProcessor := true |} in
  let q := withQueue (new (Config.queue_of Config.unset)) [j] in
  queue (fst (turn (quiet false) q)) = [bumpRetries j].
Proof.
  intros j q.
  apply (proj1 (turn_requeues_in_front (quiet false) q j [] eq_refl eq_refl eq_refl
                  eq_refl)).
Defined.

Lemma owed_after_retry (maxR : Z) (j : Job) :
  (Z.of_nat (retries j) < maxR)%Z ->
  S (owed maxR (bumpRetries j)) = owed maxR j.
Proof. unfold owed, bumpRetries. cbn [retries]. lia. Qed.

(** Nothing is retried for ever: when no new post arrives and every
    processor settles, the loop leaves through its guard within
    [backlogBound] turns, the backlog empty. *)
Lemma loop_drains (fuel : nat) (world : nat -> Turn) (i : nat) (q : t) :
  (forall k, arrivedWhilePosting (world k) = []
             /\ arrivedWhileWaiting (world k) = []) ->
  (forall k, stalls (world k) = false) ->
  backlogBound (maxRetries q) (queue q) <= fuel ->
  snd (loop fuel world i q) = true
  /\ queue (fst (fst (loop fuel world i q))) = [].
Proof.
  intros Hquiet Hsettle. revert i q.
  induction fuel as [|fuel IH]; intros i q Hbound.
  - destruct (queue q) as [|j rest] eqn:Hq.
    + cbn [loop]. rewrite Hq. cbn. split; [reflexivity | exact Hq].
    + cbn [backlogBound] in Hbound. unfold owed in Hbound. lia.
  - destruct (queue q) as [|j rest] eqn:Hq.
    + cbn [loop]. rewrite Hq. cbn. split; [reflexivity | exact Hq].
    + pose proof (settled_not_hanging j (world i) (Hsettle i)) as Hgo.
      rewrite (loop_step _ _ _ _ _ _ Hq Hgo).
      destruct (Hquiet i) as [Hp Hw].
      assert (Hnext : maxRetries (fst (turn (world i) q)) = maxRetries q
                      /\ backlogBound (maxRetries q)
                           (queue (fst (turn (world i) q))) <= fuel).
      { unfold turn. rewrite Hq, Hp, Hw, Hgo, !app_nil_r.
        cbn [withQueue queue maxRetries postDelay].
        cbn [backlogBound] in Hbound.
        destruct (processPost j (world i)).
        - destruct rest as [|b bs]; cbn [fst maxRetries withQueue queue];
            (split; [reflexivity|]); rewrite ?app_nil_r;
            unfold owed in Hbound; cbn [backlogBound] in *; lia.
        - destruct (Z.ltb_spec (Z.of_nat (retries j)) (maxRetries q)) as [Hlt|Hge];
            cbn [fst maxRetries withQueue queue]; (split; [reflexivity|]);
            rewrite ?app_nil_r.
          + cbn [backlogBound]. pose proof (owed_after_retry _ _ Hlt). lia.
          + unfold owed in Hbound. lia. }
      destruct (turn (world i) q) as [q1 ev1]. cbn [fst] in Hnext.
      destruct Hnext as [Hmax Hb1]. rewrite <- Hmax in Hb1.
      destruct (IH (S i) q1 Hb1) as [Hdone Hempty].
      destruct (loop fuel world (S i) q1) as [[q2 ev2] done].
      cbn [fst snd] in *. split; assumption.
Qed.

Lemma loop_drains_witness :
  snd (loop 6 (fun _ => quiet false) 0
         (withQueue (new (Config.queue_of Config.unset)) [firstJob; secondJob]))
  = true.
Proof.
  apply (proj1 (loop_drains 6 (fun _ => quiet false) 0
                  (withQueue (new (Config.queue_of Config.unset))
                     [firstJob; secondJob])
                  (fun _ => conj eq_refl eq_refl) (fun _ => eq_refl)
                  ltac:(vm_compute; lia))).
Defined.

(** C5, at the failing input.  With a configured retry delay of 1000 ms, a
    post that fails for the first time is counted, put back in front, and
    the queue then waits 5000 ms, not 1000 ms times the new count: the wait
    is the constant 5000 times the count, and [config.retryDelay] is never
    read. *)
Theorem retry_wait_ignores_configured_delay :
  let q := withQueue (new (Config.queue_of shortRetryDelay)) [firstJob; secondJob] in
  Config.retryDelay (config q) = 1000%Z
  /\ turn (quiet false) q
     = (withQueue q [bumpRetries firstJob; secondJob],
        [Process firstJob; Delay 5000])
  /\ retries (bumpRetries firstJob) = 1
  /\ (5000 <> Config.retryDelay (config q) * Z.of_nat (retries (bumpRetries firstJob)))%Z.
Proof.
  repeat split. vm_compute. discriminate.
Qed.



End QueueFacts.

(** ** Asynchronous calls: reasoning rules *)

Module AsyncFacts.
Import Async.
Local Open Scope async_scope.

Section Rules.
Context {State Event : Type}.
Let Task := M State Event.

Lemma bind_value {A B} (m : Task A) (k : A -> Task B) t s tr t1 s1 a :
  m t s = (tr, Settled t1 s1 (inr a)) ->
  bind m k t s = (tr ++ fst (k a t1 s1), snd (k a t1 s1)).
Proof. intros H. unfold bind. rewrite H. destruct (k a t1 s1). reflexivity. Qed.

Lemma bind_error {A B} (m : Task A) (k : A -> Task B) t s tr t1 s1 e :
  m t s = (tr, Settled t1 s1 (inl e)) ->
  bind m k t s = (tr, Settled t1 s1 (inl e)).
Proof. intros H. unfold bind. rewrite H. reflexivity. Qed.

Lemma bind_pending {A B} (m : Task A) (k : A -> Task B) t s tr s1 :
  m t s = (tr, Pending s1) ->
  bind m k t s = (tr, Pending s1).
Proof. intros H. unfold bind. rewrite H. reflexivity. Qed.

Lemma catch_error {A} (m : Task A) (h : string -> Task A) t s tr t1 s1 e :
  m t s = (tr, Settled t1 s1 (inl e)) ->
  tryCatch m h t s = (tr ++ fst (h e t1 s1), snd (h e t1 s1)).
Proof. intros H. unfold tryCatch. rewrite H. destruct (h e t1 s1). reflexivity. Qed.

Lemma catch_value {A} (m : Task A) (h : string -> Task A) t s tr t1 s1 a :
  m t s = (tr, Settled t1 s1 (inr a)) ->
  tryCatch m h t s = (tr, Settled t1 s1 (inr a)).
Proof. intros H. unfold tryCatch. rewrite H. reflexivity. Qed.

Lemma catch_pending {A} (m : Task A) (h : string -> Task A) t s tr s1 :
  m t s = (tr, Pending s1) ->
  tryCatch m h t s = (tr, Pending s1).
Proof. intros H. unfold tryCatch. rewrite H. reflexivity. Qed.

Lemma bind_emit {A} (e : Event) (k : unit -> Task A) t s :
  bind (emit e) k t s
  = ({| at_ := t; what := e; snapshot := s |} :: fst (k tt t s), snd (k tt t s)).
Proof. unfold bind, emit. destruct (k tt t s). reflexivity. Qed.

Lemma bind_ret {A B} (a : A) (k : A -> Task B) t s :
  bind (ret a) k t s = k a t s.
Proof. unfold bind, ret. destruct (k a t s). reflexivity. Qed.

Lemma bind_wait {A} (ms : N) (k : unit -> Task A) t s :
  bind (wait ms) k t s = k tt (t + ms)%N s.
Proof. unfold bind, wait. destruct (k tt (t + ms)%N s). reflexivity. Qed.

Lemma bind_await {A B} (c : Call A) (k : A -> Task B) (a : A) t s :
  answer c = Resolves a ->
  bind (await c) k t s = k a (t + took c)%N s.
Proof.
  intros H. unfold bind, await. rewrite H.
  destruct (k a (t + took c)%N s). reflexivity.
Qed.

Lemma bind_bind {A B C} (m : Task A) (k : A -> Task B) (h : B -> Task C) t s :
  bind (bind m k) h t s = bind m (fun a => bind (k a) h) t s.
Proof.
  unfold bind. destruct (m t s) as [tr [t1 s1 [e|a]|s1|]]; try reflexivity.
  destruct (k a t1 s1) as [tr1 [t2 s2 [e|b]|s2|]]; try reflexivity.
  destruct (h b t2 s2) as [tr2 o2]. rewrite app_assoc. reflexivity.
Qed.

Lemma events_app (a b : list (Entry State Event)) :
  events (a ++ b) = events a ++ events b.
Proof. apply map_app. Qed.

Lemma events_cons (e : Entry State Event) (l : list (Entry State Event)) :
  events (e :: l) = what e :: events l.
Proof. reflexivity. Qed.

Section WritesOnly.
Variable P : Entry State Event -> Prop.

Lemma writesOnly_ret {A} (a : A) : writesOnly P (ret a : Task A).
Proof. intros t s. constructor. Qed.

Lemma writesOnly_throw {A} (e : string) : writesOnly P (@throw State Event A e).
Proof. intros t s. constructor. Qed.

Lemma writesOnly_pending {A} : writesOnly P (@pending State Event A).
Proof. intros t s. constructor. Qed.

Lemma writesOnly_get : writesOnly P (@get State Event).
Proof. intros t s. constructor. Qed.

Lemma writesOnly_wait (ms : N) : writesOnly P (@wait State Event ms).
Proof. intros t s. constructor. Qed.

Lemma writesOnly_await {A} (c : Call A) : writesOnly P (@await State Event A c).
Proof. intros t s. unfold await. destruct (answer c); constructor. Qed.

Lemma writesOnly_emit (e : Event) :
  (forall t s, P {| at_ := t; what := e; snapshot := s |}) ->
  writesOnly P (emit e).
Proof. intros H t s. cbn. constructor; [apply H | constructor]. Qed.

Lemma writesOnly_update (f : State -> State) (e : Event) :
  (forall t s, P {| at_ := t; what := e; snapshot := s |}) ->
  writesOnly P (update f e).
Proof. intros H t s. cbn. constructor; [apply H | constructor]. Qed.

Lemma writesOnly_bind {A B} (m : Task A) (k : A -> Task B) :
  writesOnly P m -> (forall a, writesOnly P (k a)) -> writesOnly P (bind m k).
Proof.
  intros Hm Hk t s. unfold bind. specialize (Hm t s).
  destruct (m t s) as [tr [t1 s1 [e|a]|s1|]]; cbn [fst] in *; try assumption.
  specialize (Hk a t1 s1). destruct (k a t1 s1) as [tr1 o1]. cbn [fst] in *.
  apply Forall_app. split; assumption.
Qed.

Lemma writesOnly_tryCatch {A} (m : Task A) (h : string -> Task A) :
  writesOnly P m -> (forall e, writesOnly P (h e)) -> writesOnly P (tryCatch m h).
Proof.
  intros Hm Hh t s. unfold tryCatch. specialize (Hm t s).
  destruct (m t s) as [tr [t1 s1 [e|a]|s1|]]; cbn [fst] in *; try assumption.
  specialize (Hh e t1 s1). destruct (h e t1 s1) as [tr1 o1]. cbn [fst] in *.
  apply Forall_app. split; assumption.
Qed.

Lemma writesOnly_tryFinally {A} (m : Task A) (f : Task unit) :
  writesOnly P m -> writesOnly P f -> writesOnly P (tryFinally m f).
Proof.
  intros Hm Hf t s. unfold tryFinally. specialize (Hm t s).
  destruct (m t s) as [tr [t1 s1 r|s1|]]; cbn [fst] in *; try assumption.
  specialize (Hf t1 s1). destruct (f t1 s1) as [tr1 o1]. cbn [fst] in *.
  apply Forall_app. split; assumption.
Qed.

End WritesOnly.

Lemma fueled_ret {A} (a : A) : fueled (@ret State Event A a).
Proof. intros t s. discriminate. Qed.

Lemma fueled_throw {A} (e : string) : fueled (@throw State Event A e).
Proof. intros t s. discriminate. Qed.

Lemma fueled_get : fueled (@get State Event).
Proof. intros t s. discriminate. Qed.

Lemma fueled_emit (e : Event) : fueled (@emit State Event e).
Proof. intros t s. discriminate. Qed.

Lemma fueled_update f (e : Event) : fueled (@update State Event f e).
Proof. intros t s. discriminate. Qed.

Lemma fueled_wait ms : fueled (@wait State Event ms).
Proof. intros t s. discriminate. Qed.

Lemma fueled_await {A} (c : Call A) : fueled (@await State Event A c).
Proof. intros t s. unfold await. destruct (answer c); discriminate. Qed.

Lemma fueled_bind {A B} (m : Task A) (k : A -> Task B) :
  fueled m -> (forall a, fueled (k a)) -> fueled (bind m k).
Proof.
  intros Hm Hk t s. unfold bind. specialize (Hm t s).
  destruct (m t s) as [tr [t1 s1 [e|a]|s1|]]; cbn [snd] in *;
    try discriminate; try (exfalso; apply Hm; reflexivity).
  specialize (Hk a t1 s1). destruct (k a t1 s1) as [tr1 o1]. exact Hk.
Qed.

Lemma fueled_tryCatch {A} (m : Task A) (h : string -> Task A) :
  fueled m -> (forall e, fueled (h e)) -> fueled (tryCatch m h).
Proof.
  intros Hm Hh t s. unfold tryCatch. specialize (Hm t s).
  destruct (m t s) as [tr [t1 s1 [e|a]|s1|]]; cbn [snd] in *;
    try discriminate; try assumption.
  specialize (Hh e t1 s1). destruct (h e t1 s1) as [tr1 o1]. exact Hh.
Qed.

Lemma fueled_tryFinally {A} (m : Task A) (f : Task unit) :
  fueled m -> fueled f -> fueled (tryFinally m f).
Proof.
  intros Hm Hf t s. unfold tryFinally. specialize (Hm t s).
  destruct (m t s) as [tr [t1 s1 r|s1|]]; cbn [snd] in *;
    try discriminate; try assumption.
  specialize (Hf t1 s1). destruct (f t1 s1) as [tr1 [t2 s2 [e|u]|s2|]];
    cbn [snd] in *; try discriminate. exfalso. apply Hf. reflexivity.
Qed.

(** Histories as chains of steps. *)





Section Steps.
Variable R : State -> Entry State Event -> Prop.













End Steps.

End Rules.

Ltac list_norm :=
  repeat (rewrite <- app_assoc || rewrite <- app_comm_cons); cbn [app].

End AsyncFacts.

(** ** The poster *)

Module PosterFacts.
Import Async AsyncFacts TwitterPoster.
Local Open Scope async_scope.

Ltac quiet_emit :=
  first [ apply writesOnly_emit | apply writesOnly_update ];
  intros; reflexivity.

Ltac quiet :=
  repeat first
    [ quiet_emit
    | apply writesOnly_bind; [|intros]
    | apply writesOnly_tryCatch; [|intros]
    | apply writesOnly_tryFinally
    | apply writesOnly_ret | apply writesOnly_throw | apply writesOnly_pending
    | apply writesOnly_get | apply writesOnly_wait | apply writesOnly_await
    | match goal with
      | |- writesOnly _ (if ?b then _ else _) => destruct b
      | |- writesOnly _ (match ?x with _ => _ end) => destruct x
      end ].

Ltac fuel_ok :=
  repeat first
    [ apply fueled_bind; [|intros]
    | apply fueled_tryCatch; [|intros]
    | apply fueled_tryFinally
    | apply fueled_ret | apply fueled_throw | apply fueled_get
    | apply fueled_emit | apply fueled_update | apply fueled_wait
    | apply fueled_await
    | match goal with
      | |- fueled (if ?b then _ else _) => destruct b
      | |- fueled (match ?x with _ => _ end) => destruct x
      end ].

Lemma removePid_gone (pid : nat) (l : list nat) : ~ In pid (removePid pid l).
Proof.
  unfold removePid. intros H. apply filter_In in H. destruct H as [_ H].
  rewrite Nat.eqb_refl in H. discriminate.
Qed.

Lemma removePid_incl (pid : nat) (l : list nat) : incl (removePid pid l) l.
Proof. unfold removePid. intros x H. apply filter_In in H. tauto. Qed.

(** *** Logging *)

Lemma log_runs (cfg : Settings) (l : LogLine) t s :
  exists tr, log cfg l t s = (tr, Settled t s (inr tt)) /\ Forall nonTry tr.
Proof.
  unfold log. destruct (hasLogger cfg); cbn.
  - eexists. split; [reflexivity|]. repeat constructor.
  - eexists. split; [reflexivity|]. constructor.
Qed.

Lemma quiet_log (cfg : Settings) (l : LogLine) : writesOnly nonTry (log cfg l).
Proof. unfold log. quiet. Qed.

Lemma fueled_log (cfg : Settings) (l : LogLine) : fueled (log cfg l).
Proof. unfold log. fuel_ok. Qed.

(** *** [closeBrowser] *)

Lemma settlesBefore_settlesBy {A} (c : Call A) (ms : N) :
  settlesBefore c ms = true -> settlesBy c ms = true.
Proof.
  unfold settlesBefore, settlesBy. destruct (answer c); try discriminate;
    intros H; apply N.ltb_lt in H; apply N.leb_le; lia.
Qed.

Lemma quiet_killProcess (throws : bool) : writesOnly nonTry (killProcess throws).
Proof. unfold killProcess. quiet. Qed.

Lemma quiet_closeBrowser (c : Call unit) (throws : bool) :
  writesOnly nonTry (closeBrowser c throws).
Proof.
  unfold closeBrowser. quiet; apply quiet_killProcess.
Qed.

(** [closeBrowser] always settles without an error, within five seconds,
    with the state reset; its last entry is the reset; it starts no
    process; and the process of the browser it was called on is gone,
    unless the kill throws. *)
Lemma closeBrowser_runs (c : Call unit) (throws : bool) t s :
  exists tr t1 s1,
    closeBrowser c throws t s = (tr, Settled t1 s1 (inr tt))
    /\ tr = removelast tr ++ [{| at_ := t1; what := StateReset; snapshot := s1 |}]
    /\ tornDown s1
    /\ launches s1 = launches s
    /\ incl (running s1) (running s)
    /\ (t <= t1 <= t + 5000)%N
    /\ (browser s = None -> t1 = t /\ s1 = resetState s)
    /\ (forall b pid,
          browser s = Some b -> process b = Some pid ->
          (throws = false \/ (settlesBy c 5000 = true
                              /\ answer c = Resolves tt)) ->
          ~ In pid (running s1))
    /\ (forall b pid,
          browser s = Some b -> process b = Some pid ->
          settlesBy c 5000 = false -> throws = false ->
          t1 = (t + 5000)%N /\ In (Killed pid) (events tr)).
Proof.
  unfold closeBrowser, killProcess, tryFinally, tryCatch, bind, get, await.
  destruct (browser s) as [b|] eqn:Hb.
  2:{ cbn. eexists _, _, _. split; [reflexivity|]. unfold tornDown. cbn.
      repeat split; try reflexivity; try lia; try discriminate.
      apply incl_refl. }
  cbn [emit update wait fst snd app]. rewrite ?Hb.
  destruct (settlesBy c 5000) eqn:Hrace;
    destruct (answer c) as [[]|e|] eqn:Hc;
    destruct (process b) as [pid|] eqn:Hp; destruct throws;
    cbn [emit update wait fst snd app throw ret];
    rewrite ?Hb, ?Hp; cbn [emit update wait fst snd app throw ret];
    unfold settlesBy in Hrace; rewrite Hc in Hrace;
    try discriminate Hrace; try apply N.leb_le in Hrace;
    (eexists _, _, _; split; [reflexivity|]);
    unfold tornDown; cbn;
    (repeat split; try reflexivity; try lia; try discriminate;
     try apply incl_refl; try apply removePid_incl);
    try (intros b' pid' Hb' Hp' Hor; injection Hb' as <-;
         rewrite Hp in Hp'; try discriminate Hp'; injection Hp' as <-;
         first [ apply removePid_gone
               | destruct Hor as [Hor|[Hor1 Hor2]]; discriminate ]);
    try (intros b' pid' Hb' Hp' _ _; injection Hb' as <-;
         rewrite Hp in Hp'; try discriminate Hp'; injection Hp' as <-;
         cbn; tauto).
  all: match goal with H : Some _ = Some _ |- _ => injection H as <- end.
  all: match goal with
       | H : process _ = Some _ |- _ =>
           rewrite Hp in H; try discriminate H; injection H as <-
       end.
  all: tauto.
Qed.

(** *** [captureErrorScreenshot] *)

(** The capture never throws and leaves the state alone; it can only
    hang, when the screenshot itself never settles. *)
Lemma captureErrorScreenshot_runs (w : Try) (k : nat) t s :
  exists tr,
    fst (captureErrorScreenshot w k t s)
    = {| at_ := t; what := CaptureErrorScreenshot k; snapshot := s |} :: tr
    /\ Forall nonTry tr
    /\ (snd (captureErrorScreenshot w k t s) = Pending s
        \/ exists t1, snd (captureErrorScreenshot w k t s) = Settled t1 s (inr tt)).
Proof.
  unfold captureErrorScreenshot. rewrite bind_emit. cbn [fst snd].
  eexists. split; [reflexivity|]. split.
  - assert (Hq : writesOnly nonTry
                   (tryCatch
                      (s0 <- get ;;
                       match page s0 with
                       | Some _ => await (screenshot w) ;; emit (ScreenshotSaved k)
                       | None => ret tt
                       end)
                      (fun e => emit (ScreenshotFailed e)))) by quiet.
    apply Hq.
  - unfold tryCatch, bind, get, await.
    destruct (page s); [destruct (answer (screenshot w)) as [[]|e|]|]; cbn; eauto.
Qed.

(** *** One try *)

Lemma quiet_initializeBrowser (w : Try) : writesOnly nonTry (initializeBrowser w).
Proof. unfold initializeBrowser. quiet. Qed.

Lemma fueled_initializeBrowser (w : Try) : fueled (initializeBrowser w).
Proof. unfold initializeBrowser. fuel_ok. Qed.

Lemma fueled_publishOnce (cfg : Settings) (w : Try) (k : nat) :
  fueled (publishOnce cfg w k).
Proof.
  unfold publishOnce.
  fuel_ok; first [apply fueled_log | apply fueled_initializeBrowser].
Qed.

(** A try opens with its [TryStart] entry, taken in the state it starts
    in, and writes no other. *)
Lemma publishOnce_opens (cfg : Settings) (w : Try) (k : nat) t s :
  exists tr,
    fst (publishOnce cfg w k t s)
    = {| at_ := t; what := TryStart k; snapshot := s |} :: tr
    /\ Forall nonTry tr.
Proof.
  unfold publishOnce.
  match goal with
  | |- context [bind (emit (TryStart k)) ?K] => set (rest := K)
  end.
  rewrite bind_emit. cbn [fst].
  eexists. split; [reflexivity|].
  assert (Hq : writesOnly nonTry (rest tt)).
  { subst rest. cbn beta.
    quiet; first [apply quiet_log | apply quiet_initializeBrowser]. }
  apply Hq.
Qed.

Ltac answer_of c :=
  match goal with
  | |- context [answer c] => destruct (answer c) as [?|?|]; cbn; try discriminate
  end.

(** A try that resolves leaves a browser behind, logged in. *)
Lemma publishOnce_keeps_browser (cfg : Settings) (w : Try) (k : nat) t s t1 s1 url :
  snd (publishOnce cfg w k t s) = Settled t1 s1 (inr url) ->
  browser s1 <> None /\ isLoggedIn s1 = true.
Proof.
  unfold publishOnce, initializeBrowser, log, bind, get, emit, update,
    tryCatch, await, ret.
  destruct (hasLogger cfg); destruct (browser s) eqn:Hb; cbn;
    try answer_of (launch w); try answer_of (newPage w);
    try answer_of (setUserAgent w); try answer_of (loadCookies w);
    answer_of (ensureLoggedIn w); answer_of (navigateToCompose w);
    answer_of (uploadImages w); answer_of (addCaption w);
    answer_of (publishTweet w);
    intros H; injection H as <- <- <-; cbn; rewrite ?Hb; split;
    try reflexivity; discriminate.
Qed.

Lemma delay_runs (ms : Z) t s :
  delay ms t s
  = ([{| at_ := t; what := Sleep ms; snapshot := s |}],
     Settled (t + timerMs ms)%N s (inr tt)).
Proof. reflexivity. Qed.

Lemma quiet_no_tries (l : list (Entry State Event)) :
  Forall nonTry l -> filter isTryStart (events l) = [].
Proof.
  intros Hl. induction Hl as [|x l Hx _ IHl]; [reflexivity|].
  rewrite events_cons. cbn [filter]. unfold nonTry in Hx. rewrite Hx. exact IHl.
Qed.

(** What the capture leaves in the history: the request and, with a page
    open, the answer of the screenshot. *)
Lemma captureErrorScreenshot_shot (w : Try) (k : nat) t s cap t2 s2 :
  captureErrorScreenshot w k t s = (cap, Settled t2 s2 (inr tt)) ->
  let asked := {| at_ := t; what := CaptureErrorScreenshot k; snapshot := s |} in
  let done := (t + took (screenshot w))%N in
  match page s with
  | None => cap = [asked] /\ t2 = t
  | Some _ =>
      match answer (screenshot w) with
      | Resolves _ =>
          cap = [asked; {| at_ := done; what := ScreenshotSaved k; snapshot := s |}]
          /\ t2 = done
      | Rejects m =>
          cap = [asked; {| at_ := done; what := ScreenshotFailed m; snapshot := s |}]
          /\ t2 = done
      | NeverSettles => False
      end
  end.
Proof.
  unfold captureErrorScreenshot, tryCatch, bind, get, await, emit.
  destruct (page s); [destruct (answer (screenshot w)) as [[]|m|]|]; cbn;
    intros H; try discriminate H; injection H as <- <- _; split; reflexivity.
Qed.

(** When [closeBrowser] returns, with a browser open: after the time the
    graceful close takes when that is at most five seconds, and after five
    seconds and the forced kill otherwise. *)
Lemma closeBrowser_timing (c : Call unit) (throws : bool) t s tr t1 s1 b :
  closeBrowser c throws t s = (tr, Settled t1 s1 (inr tt)) ->
  browser s = Some b ->
  In CloseRequested (events tr)
  /\ if settlesBy c 5000 then t1 = (t + took c)%N
     else t1 = (t + 5000)%N /\ In ForceKillOnTimeout (events tr).
Proof.
  unfold closeBrowser, killProcess, tryFinally, tryCatch, bind, get, await.
  intros Hrun Hb. rewrite Hb in Hrun. revert Hrun.
  cbn [emit update wait fst snd app]. rewrite ?Hb.
  destruct (settlesBy c 5000) eqn:Hrace;
    destruct (answer c) as [[]|e|] eqn:Hc;
    destruct (process b) as [pid|] eqn:Hp; destruct throws;
    cbn [emit update wait fst snd app throw ret];
    rewrite ?Hb, ?Hp; cbn [emit update wait fst snd app throw ret];
    unfold settlesBy in Hrace; rewrite Hc in Hrace;
    try discriminate Hrace;
    intros Hrun; injection Hrun as <- <- _; cbn; tauto.
Qed.

(** *** The retry loop, one level at a time *)

Section Retry.
Variable cfg : Settings.
Variable world : nat -> Try.

Let backoff (k : nat) : Z := (retryDelay cfg * (Z.of_nat k + 1))%Z.

(** What one level of [postTweetWithRetry] does.  Either it ends the run:
    the history has no further start of a try, a value leaves the browser
    in place, an error comes from try [k] itself, with no retry left and
    the session torn down.  Or it retries: then the history continues,
    after the capture, the reset of the state and the sleep, with the
    history of the next level, started with the session torn down. *)
Lemma retry_unfold (fuel k : nat) t s :
  let r := postTweetWithRetry_fuel (S fuel) cfg world k t s in
  exists body,
    fst r = {| at_ := t; what := TryStart k; snapshot := s |} :: body
    /\ ((Forall nonTry body
         /\ match snd r with
            | Settled _ s1 (inr _) => browser s1 <> None
            | Settled _ s1 (inl e) =>
                tornDown s1 /\ ~ (Z.of_nat k < maxRetries cfg)%Z
                /\ In (TryFailed k e) (events body)
            | Pending _ => True
            | OutOfFuel => False
            end)
        \/ ((Z.of_nat k < maxRetries cfg)%Z
            /\ exists b1 b2 b3 t1 s1 t2 s2,
                 let next := postTweetWithRetry_fuel fuel cfg world (S k)
                               (t2 + timerMs (backoff k))%N s2 in
                 body
                 = b1 ++ {| at_ := t1; what := CaptureErrorScreenshot k;
                            snapshot := s1 |}
                      :: b2 ++ {| at_ := t2; what := StateReset; snapshot := s2 |}
                      :: b3 ++ {| at_ := t2; what := Sleep (backoff k);
                                  snapshot := s2 |}
                      :: fst next
                 /\ Forall nonTry b1 /\ Forall nonTry b2 /\ Forall nonTry b3
                 /\ tornDown s2
                 /\ snd r = snd next)).
Proof.
  intros r. subst r. cbn [postTweetWithRetry_fuel].
  destruct (publishOnce_opens cfg (world k) k t s) as (trb & Hfst & Hqb).
  pose proof (fueled_publishOnce cfg (world k) k t s) as Hfuel.
  pose proof (publishOnce_keeps_browser cfg (world k) k t s) as Hkeep.
  destruct (publishOnce cfg (world k) k t s) as [tr0 o0] eqn:Hpub.
  cbn [fst snd] in *. subst tr0.
  destruct o0 as [t1 s1 [e|url]|s1|].
  - (* the try failed *)
    rewrite (catch_error _ _ _ _ _ _ _ _ Hpub).
    rewrite bind_emit. cbn [fst snd].
    destruct (log_runs cfg (PostFailed k e) t1 s1) as (l1 & Hl1 & Hql1).
    rewrite (bind_value _ _ _ _ _ _ _ _ Hl1). cbn [fst snd].
    destruct (captureErrorScreenshot_runs (world k) k t1 s1)
      as (trc & Hc & Hqc & Hco).
    destruct (captureErrorScreenshot (world k) k t1 s1) as [trc0 oc] eqn:Hcap.
    cbn [fst snd] in *. subst trc0.
    destruct Hco as [-> | [t2 ->]].
    + (* the capture hangs *)
      rewrite (bind_pending _ _ _ _ _ _ Hcap). cbn [fst snd].
      eexists. split; [reflexivity|]. left. split; [|exact I].
      apply Forall_app. split; [assumption|].
      constructor; [reflexivity|]. apply Forall_app. split; [assumption|].
      constructor; [reflexivity|assumption].
    + rewrite (bind_value _ _ _ _ _ _ _ _ Hcap). cbn [fst snd].
      destruct (closeBrowser_runs (close (world k)) (killThrows (world k)) t2 s1)
        as (trx & t3 & s3 & Hx & Hlast & Htorn & _).
      pose proof (quiet_closeBrowser (close (world k)) (killThrows (world k)) t2 s1)
        as Hqx.
      rewrite Hx in Hqx. cbn [fst] in Hqx.
      rewrite (bind_value _ _ _ _ _ _ _ _ Hx). cbn [fst snd].
      destruct (Z.ltb_spec (Z.of_nat k) (maxRetries cfg)) as [Hlt|Hge].
      * (* retry *)
        fold (backoff k).
        destruct (log_runs cfg (RetryingIn (backoff k)) t3 s3) as (l2 & Hl2 & Hql2).
        rewrite (bind_value _ _ _ _ _ _ _ _ Hl2). cbn [fst snd].
        rewrite (bind_value _ _ _ _ _ _ _ _ (delay_runs (backoff k) t3 s3)).
        cbn [fst snd].
        destruct (postTweetWithRetry_fuel fuel cfg world (S k)
                    (t3 + timerMs (backoff k))%N s3) as [trn on] eqn:Hnext.
        cbn [fst snd].
        eexists. split; [reflexivity|]. right. split; [assumption|].
        exists (trb ++ {| at_ := t1; what := TryFailed k e; snapshot := s1 |} :: l1),
               (trc ++ removelast trx), l2, t1, s1, t3, s3.
        cbn zeta. rewrite Hnext. cbn [fst snd].
        rewrite Hlast in Hqx. apply Forall_app in Hqx. destruct Hqx as [Hqx _].
        split; [|split; [|split; [|split; [assumption|split; [assumption|reflexivity]]]]].
        -- rewrite Hlast at 1. rewrite <- ?app_assoc. cbn [app].
           rewrite <- ?app_assoc. reflexivity.
        -- apply Forall_app. split; [assumption|].
           constructor; [reflexivity|assumption].
        -- apply Forall_app. split; assumption.
      * (* no retry left *)
        destruct (log_runs cfg (FailedAfter (maxRetries cfg + 1)) t3 s3)
          as (l2 & Hl2 & Hql2).
        rewrite (bind_value _ _ _ _ _ _ _ _ Hl2). cbn [fst snd throw].
        eexists. split; [reflexivity|]. left. split.
        -- apply Forall_app. split; [assumption|].
           constructor; [reflexivity|].
           apply Forall_app. split; [assumption|].
           constructor; [reflexivity|].
           apply Forall_app. split; [assumption|].
           apply Forall_app. split; [assumption|].
           rewrite app_nil_r. assumption.
        -- split; [assumption|]. split; [lia|].
           unfold events. rewrite map_app. apply in_or_app. right. left.
           reflexivity.
  - (* the try resolved *)
    rewrite (catch_value _ _ _ _ _ _ _ _ Hpub). cbn [fst snd].
    eexists. split; [reflexivity|]. left. split; [assumption|].
    apply (Hkeep _ _ _ eq_refl).
  - (* the try hangs *)
    rewrite (catch_pending _ _ _ _ _ _ Hpub). cbn [fst snd].
    eexists. split; [reflexivity|]. left. split; [assumption|exact I].
  - exfalso. apply Hfuel. reflexivity.
Qed.


(** With fuel beyond the retries left, the recursion never runs dry. *)
Lemma retry_fueled (fuel k : nat) t s :
  Z.to_nat (maxRetries cfg) - k < fuel ->
  snd (postTweetWithRetry_fuel fuel cfg world k t s) <> OutOfFuel.
Proof.
  revert k t s. induction fuel as [|fuel IH]; intros k t s Hfuel; [lia|].
  destruct (retry_unfold fuel k t s) as (body & _ & [[_ Hend]|[Hlt Hnext]]).
  - intros Habs. rewrite Habs in Hend. exact Hend.
  - destruct Hnext as (b1 & b2 & b3 & t1 & s1 & t2 & s2 & _ & _ & _ & _ & _ & ->).
    apply IH. lia.
Qed.

(** How a run ends: a value leaves the browser in place; an error is the
    error of the last try, after which the session is torn down. *)
Lemma retry_outcome (fuel k : nat) t s :
  Z.to_nat (maxRetries cfg) - k < fuel ->
  let r := postTweetWithRetry_fuel fuel cfg world k t s in
  match snd r with
  | Settled _ s1 (inr _) => browser s1 <> None
  | Settled _ s1 (inl e) =>
      tornDown s1
      /\ exists last,
           k <= last /\ ~ (Z.of_nat last < maxRetries cfg)%Z
           /\ (Z.of_nat k <= maxRetries cfg -> Z.of_nat last = maxRetries cfg)%Z
           /\ In (TryFailed last e) (events (fst r))
           /\ tries (events (fst r)) = S (last - k)
  | Pending _ => True
  | OutOfFuel => False
  end.
Proof.
  revert k t s. induction fuel as [|fuel IH]; intros k t s Hfuel; [lia|].
  destruct (retry_unfold fuel k t s) as (body & Hfst & [[Hq Hend]|[Hlt Hnext]]).
  - cbn zeta in *. rewrite Hfst.
    destruct (snd (postTweetWithRetry_fuel (S fuel) cfg world k t s))
      as [t1 s1 [e|url]|s1|]; try assumption.
    destruct Hend as (Htorn & Hlast & Hin). split; [assumption|].
    exists k. repeat split; try lia; try assumption.
    + right. assumption.
    + rewrite events_cons. unfold tries. cbn [what filter isTryStart].
      rewrite (quiet_no_tries body Hq), Nat.sub_diag. reflexivity.
  - destruct Hnext as (b1 & b2 & b3 & t1 & s1 & t2 & s2 & Hbody & Hq1 & Hq2
                       & Hq3 & Htorn & Hsnd).
    cbn zeta in *. rewrite Hsnd, Hfst, Hbody.
    specialize (IH (S k) (t2 + timerMs (backoff k))%N s2 ltac:(lia)).
    cbn zeta in IH.
    destruct (snd (postTweetWithRetry_fuel fuel cfg world (S k)
                     (t2 + timerMs (backoff k))%N s2))
      as [t3 s3 [e|url]|s3|]; try assumption.
    destruct IH as (Htorn3 & last & Hle & Hnot & Heq & Hin & Htries).
    split; [assumption|].
    exists last. repeat split; try lia; try assumption.
    + repeat (rewrite events_app || rewrite events_cons).
      right. apply in_or_app. right. right. apply in_or_app. right. right.
      apply in_or_app. right. right. exact Hin.
    + repeat (rewrite events_app || rewrite events_cons).
      cbn [what]. unfold tries in *.
      repeat (rewrite filter_app || cbn [filter isTryStart]).
      rewrite (quiet_no_tries b1 Hq1), (quiet_no_tries b2 Hq2),
        (quiet_no_tries b3 Hq3).
      cbn [app List.length]. rewrite Htries. lia.
Qed.

(** At most one try per retry left, plus one. *)
Lemma retry_bound (fuel k : nat) t s :
  Z.to_nat (maxRetries cfg) - k < fuel ->
  tries (events (fst (postTweetWithRetry_fuel fuel cfg world k t s)))
  <= S (Z.to_nat (maxRetries cfg) - k).
Proof.
  revert k t s. induction fuel as [|fuel IH]; intros k t s Hfuel; [lia|].
  destruct (retry_unfold fuel k t s) as (body & Hfst & [[Hq Hend]|[Hlt Hnext]]);
    cbn zeta in *; rewrite Hfst.
  - rewrite events_cons. unfold tries. cbn [what filter isTryStart].
    rewrite (quiet_no_tries body Hq). cbn. lia.
  - destruct Hnext as (b1 & b2 & b3 & t1 & s1 & t2 & s2 & Hbody & Hq1 & Hq2
                       & Hq3 & Htorn & Hsnd).
    rewrite Hbody.
    specialize (IH (S k) (t2 + timerMs (backoff k))%N s2 ltac:(lia)).
    repeat (rewrite events_app || rewrite events_cons).
    cbn [what]. unfold tries in *.
    repeat (rewrite filter_app || cbn [filter isTryStart]).
    rewrite (quiet_no_tries b1 Hq1), (quiet_no_tries b2 Hq2),
      (quiet_no_tries b3 Hq3).
    cbn [app List.length]. lia.
Qed.

(** Splitting a history at the start of a try, after a stretch without
    one. *)
Lemma split_after_quiet (l1 l2 pre post : list Event) (x : Event) :
  filter isTryStart l1 = [] ->
  isTryStart x = true ->
  l1 ++ l2 = pre ++ x :: post ->
  exists pre', pre = l1 ++ pre' /\ l2 = pre' ++ x :: post.
Proof.
  revert pre. induction l1 as [|a l1 IH]; intros pre Hq Hx Heq.
  - exists pre. split; [reflexivity | exact Heq].
  - cbn [filter] in Hq. destruct (isTryStart a) eqn:Ha; [discriminate|].
    destruct pre as [|p pre]; cbn [app] in Heq.
    + injection Heq as -> _. congruence.
    + injection Heq as -> Heq. destruct (IH pre Hq Hx Heq) as (pre' & -> & ->).
      exists pre'. split; reflexivity.
Qed.

(** Between the starts of two consecutive tries lie, in this order, the
    capture of the screenshot for the earlier try, the reset that ends
    [closeBrowser], and, right before the later try, the sleep of
    [retryDelay] times the number of the earlier try plus one. *)
Lemma retry_spacing (fuel k : nat) t s (pre post : list Event) (j : nat) :
  events (fst (postTweetWithRetry_fuel fuel cfg world k t s))
  = pre ++ TryStart (S j) :: post ->
  pre = []
  \/ exists p0 b1 b2 b3,
       pre = p0 ++ TryStart j :: b1 ++ CaptureErrorScreenshot j :: b2
                ++ StateReset :: b3 ++ [Sleep (backoff j)]
       /\ tries (b1 ++ b2 ++ b3) = 0.
Proof.
  revert k t s pre. induction fuel as [|fuel IH]; intros k t s pre Hsplit.
  - cbn in Hsplit. destruct pre; discriminate.
  - destruct (retry_unfold fuel k t s) as (body & Hfst & [[Hq Hend]|[Hlt Hnext]]);
      cbn zeta in *; rewrite Hfst in Hsplit; rewrite events_cons in Hsplit;
      cbn [what] in Hsplit.
    + destruct pre as [|p pre]; [left; reflexivity|].
      cbn [app] in Hsplit. injection Hsplit as Hp Hsplit. subst p.
      exfalso. pose proof (quiet_no_tries body Hq) as Hz.
      rewrite Hsplit, filter_app in Hz. cbn [filter isTryStart] in Hz.
      destruct (filter isTryStart pre); discriminate.
    + destruct Hnext as (b1 & b2 & b3 & t1 & s1 & t2 & s2 & Hbody & Hq1 & Hq2
                         & Hq3 & Htorn & Hsnd).
      destruct pre as [|p pre]; [left; reflexivity|]. right.
      cbn [app] in Hsplit. injection Hsplit as Hp Hsplit. subst p.
      rewrite Hbody in Hsplit.
      repeat (rewrite events_app in Hsplit || rewrite events_cons in Hsplit).
      cbn [what] in Hsplit.
      set (gap := events b1 ++ CaptureErrorScreenshot k :: events b2
                    ++ StateReset :: events b3 ++ [Sleep (backoff k)]).
      assert (Hgap : filter isTryStart gap = []).
      { unfold gap.
        repeat (rewrite filter_app || cbn [filter isTryStart]).
        rewrite (quiet_no_tries b1 Hq1), (quiet_no_tries b2 Hq2),
          (quiet_no_tries b3 Hq3). reflexivity. }
      assert (Hshape :
                events b1 ++ CaptureErrorScreenshot k :: events b2
                  ++ StateReset :: events b3 ++ Sleep (backoff k)
                  :: events (fst (postTweetWithRetry_fuel fuel cfg world (S k)
                                    (t2 + timerMs (backoff k))%N s2))
                = gap ++ events (fst (postTweetWithRetry_fuel fuel cfg world (S k)
                                        (t2 + timerMs (backoff k))%N s2))).
      { unfold gap. list_norm. reflexivity. }
      rewrite Hshape in Hsplit.
      destruct (split_after_quiet gap _ pre post (TryStart (S j)) Hgap eq_refl Hsplit)
        as (pre' & -> & Hnext).
      destruct (IH _ _ _ _ Hnext) as [-> | (p0 & c1 & c2 & c3 & -> & Hc)].
      * (* the later try is the very next one *)
        destruct fuel as [|fuel']; [cbn in Hnext; discriminate|].
        destruct (retry_unfold fuel' (S k) (t2 + timerMs (backoff k))%N s2)
          as (body' & Hfst' & _).
        cbn zeta in Hfst'. rewrite Hfst', events_cons in Hnext.
        cbn [what app] in Hnext. injection Hnext as <- _.
        exists [], (events b1), (events b2), (events b3).
        split; [unfold gap; rewrite app_nil_r; reflexivity|].
        unfold tries. rewrite !filter_app.
        rewrite (quiet_no_tries b1 Hq1), (quiet_no_tries b2 Hq2),
          (quiet_no_tries b3 Hq3). reflexivity.
      * exists (TryStart k :: gap ++ p0), c1, c2, c3.
        split; [|exact Hc].
        list_norm. reflexivity.
Qed.

(** Every try but the first of the run starts with the session torn
    down. *)
Lemma retry_starts_clean (fuel k : nat) t s (e : Entry State Event) :
  In e (fst (postTweetWithRetry_fuel fuel cfg world k t s)) ->
  isTryStart (what e) = true ->
  e = {| at_ := t; what := TryStart k; snapshot := s |}
  \/ tornDown (snapshot e).
Proof.
  revert k t s. induction fuel as [|fuel IH]; intros k t s Hin Htry.
  - cbn in Hin. contradiction.
  - destruct (retry_unfold fuel k t s) as (body & Hfst & [[Hq Hend]|[Hlt Hnext]]);
      cbn zeta in *; rewrite Hfst in Hin; destruct Hin as [<-|Hin];
      try (left; reflexivity).
    + exfalso. rewrite Forall_forall in Hq. specialize (Hq e Hin).
      unfold nonTry in Hq. congruence.
    + destruct Hnext as (b1 & b2 & b3 & t1 & s1 & t2 & s2 & Hbody & Hq1 & Hq2
                         & Hq3 & Htorn & Hsnd).
      rewrite Forall_forall in Hq1, Hq2, Hq3. unfold nonTry in *.
      rewrite Hbody in Hin.
      repeat (apply in_app_or in Hin; destruct Hin as [Hin|Hin];
              [solve [specialize (Hq1 e Hin); congruence
                     | specialize (Hq2 e Hin); congruence
                     | specialize (Hq3 e Hin); congruence]|];
              destruct Hin as [<-|Hin]; [discriminate|]).
      destruct (IH _ _ _ Hin Htry) as [-> | Hclean]; right; assumption.
Qed.

(** Splitting a history at the start of a try, entry by entry. *)
Lemma split_entries_after_quiet (l1 l2 pre post : list (Entry State Event))
  (x : Entry State Event) :
  Forall nonTry l1 ->
  isTryStart (what x) = true ->
  l1 ++ l2 = pre ++ x :: post ->
  exists pre', pre = l1 ++ pre' /\ l2 = pre' ++ x :: post.
Proof.
  intros Hq Hx. revert pre. induction Hq as [|a l1 Ha _ IH]; intros pre Heq.
  - exists pre. split; [reflexivity | exact Heq].
  - destruct pre as [|p pre]; cbn [app] in Heq.
    + injection Heq as -> _. unfold nonTry in Ha. congruence.
    + injection Heq as -> Heq. destruct (IH pre Heq) as (pre' & -> & ->).
      exists pre'. split; reflexivity.
Qed.

(** Nothing between two tries is the start of a try. *)
Lemma quiet_gapEntries (k : nat) (e0 : Entry State Event) (g : Gap) :
  retried cfg world k e0 g -> Forall nonTry (gapEntries cfg k g).
Proof.
  intros (Hwhat & Hpub & Hlog & Hcap & Hclose & Hreset & _ & Hlog2).
  unfold gapEntries.
  destruct (publishOnce_opens cfg (world k) k (at_ e0) (snapshot e0))
    as (tr & Hfst & Hq).
  rewrite Hpub in Hfst. cbn [fst] in Hfst. injection Hfst as _ <-.
  pose proof (quiet_log cfg (PostFailed k (tryError g)) (failedAt g) (failedIn g))
    as Hq1.
  rewrite Hlog in Hq1. cbn [fst] in Hq1.
  destruct (captureErrorScreenshot_runs (world k) k (failedAt g) (failedIn g))
    as (trc & Hc & Hqc & _).
  rewrite Hcap in Hc. cbn [fst] in Hc.
  pose proof (quiet_closeBrowser (close (world k)) (killThrows (world k))
                (capturedAt g) (failedIn g)) as Hqx.
  rewrite Hclose in Hqx. cbn [fst] in Hqx.
  apply Forall_app in Hqx. destruct Hqx as [Hqx Hqr].
  pose proof (quiet_log cfg (RetryingIn (backoffMs cfg k)) (at_ (resetEntry g))
                (snapshot (resetEntry g))) as Hq2.
  rewrite Hlog2 in Hq2. cbn [fst] in Hq2.
  apply Forall_app. split; [assumption|].
  constructor; [reflexivity|].
  apply Forall_app. split; [assumption|].
  apply Forall_app. split.
  { rewrite Hc. constructor; [reflexivity | assumption]. }
  apply Forall_app. split; [assumption|].
  constructor; [inversion Hqr; assumption|].
  apply Forall_app. split; [assumption|].
  constructor; [reflexivity | constructor].
Qed.

(** One level of [postTweetWithRetry], in full: the try is the run of
    [publishOnce]; when it does not fail, the level is the try; when it
    fails, the level hangs with the capture, or ends with the error of the
    try after the capture and [closeBrowser], or goes on with the next
    level after the sleep. *)
Lemma retry_step (fuel k : nat) t s :
  let e0 := {| at_ := t; what := TryStart k; snapshot := s |} in
  let r := postTweetWithRetry_fuel (S fuel) cfg world k t s in
  exists trb o,
    publishOnce cfg (world k) k t s = (e0 :: trb, o)
    /\ Forall nonTry trb
    /\ match o with
       | Settled t1 s1 (inl err) =>
           let failure := {| at_ := t1; what := TryFailed k err;
                             snapshot := s1 |} in
           exists l1 cap,
             log cfg (PostFailed k err) t1 s1 = (l1, Settled t1 s1 (inr tt))
             /\ fst (captureErrorScreenshot (world k) k t1 s1) = cap
             /\ Forall nonTry l1 /\ Forall nonTry cap
             /\ ((snd (captureErrorScreenshot (world k) k t1 s1) = Pending s1
                  /\ r = (e0 :: trb ++ failure :: l1 ++ cap, Pending s1))
                 \/ (~ (Z.of_nat k < maxRetries cfg)%Z
                     /\ exists t2 cls t3 s3 l2,
                          snd (captureErrorScreenshot (world k) k t1 s1)
                          = Settled t2 s1 (inr tt)
                          /\ closeBrowser (close (world k)) (killThrows (world k))
                               t2 s1
                             = (cls, Settled t3 s3 (inr tt))
                          /\ Forall nonTry cls /\ Forall nonTry l2
                          /\ tornDown s3
                          /\ r = (e0 :: trb ++ failure :: l1 ++ cap ++ cls ++ l2,
                                  Settled t3 s3 (inl err)))
                 \/ (exists g,
                       retried cfg world k e0 g
                       /\ restOfTry g = trb /\ tryError g = err
                       /\ failedAt g = t1 /\ failedIn g = s1
                       /\ let next := postTweetWithRetry_fuel fuel cfg world (S k)
                                        (at_ (nextTryEntry cfg k g))
                                        (snapshot (resetEntry g)) in
                          r = (e0 :: gapEntries cfg k g ++ fst next, snd next)))
       | OutOfFuel => False
       | _ => r = (e0 :: trb, o)
       end.
Proof.
  intros e0 r. subst e0 r. cbn [postTweetWithRetry_fuel].
  destruct (publishOnce_opens cfg (world k) k t s) as (trb & Hfst & Hqb).
  pose proof (fueled_publishOnce cfg (world k) k t s) as Hfuel.
  destruct (publishOnce cfg (world k) k t s) as [tr0 o0] eqn:Hpub.
  cbn [fst snd] in *. subst tr0.
  exists trb, o0. split; [reflexivity|]. split; [assumption|].
  destruct o0 as [t1 s1 [e|url]|s1|].
  - (* the try failed *)
    rewrite (catch_error _ _ _ _ _ _ _ _ Hpub).
    rewrite bind_emit. cbn [fst snd].
    destruct (log_runs cfg (PostFailed k e) t1 s1) as (l1 & Hl1 & Hql1).
    rewrite (bind_value _ _ _ _ _ _ _ _ Hl1). cbn [fst snd].
    destruct (captureErrorScreenshot_runs (world k) k t1 s1)
      as (trc & Hc & Hqc & Hco).
    destruct (captureErrorScreenshot (world k) k t1 s1) as [trc0 oc] eqn:Hcap.
    cbn [fst snd] in *. subst trc0.
    cbn zeta. eexists l1, _. split; [exact Hl1|]. split; [reflexivity|].
    split; [assumption|]. split; [constructor; [reflexivity | assumption]|].
    destruct Hco as [-> | [t2 ->]].
    + (* the capture hangs *)
      left. split; [reflexivity|].
      rewrite (bind_pending _ _ _ _ _ _ Hcap). cbn [fst snd]. reflexivity.
    + right.
      rewrite (bind_value _ _ _ _ _ _ _ _ Hcap). cbn [fst snd].
      destruct (closeBrowser_runs (close (world k)) (killThrows (world k)) t2 s1)
        as (trx & t3 & s3 & Hx & Hlast & Htorn & _).
      pose proof (quiet_closeBrowser (close (world k)) (killThrows (world k)) t2 s1)
        as Hqx.
      rewrite Hx in Hqx. cbn [fst] in Hqx.
      rewrite (bind_value _ _ _ _ _ _ _ _ Hx). cbn [fst snd].
      destruct (Z.ltb_spec (Z.of_nat k) (maxRetries cfg)) as [Hlt|Hge].
      * (* retry *)
        right. fold (backoffMs cfg k).
        destruct (log_runs cfg (RetryingIn (backoffMs cfg k)) t3 s3)
          as (l2 & Hl2 & Hql2).
        rewrite (bind_value _ _ _ _ _ _ _ _ Hl2). cbn [fst snd].
        rewrite (bind_value _ _ _ _ _ _ _ _ (delay_runs (backoffMs cfg k) t3 s3)).
        cbn [fst snd].
        exists {| restOfTry := trb; tryError := e; failedAt := t1; failedIn := s1;
                  failureLog := l1;
                  captureRun := {| at_ := t1; what := CaptureErrorScreenshot k;
                                   snapshot := s1 |} :: trc;
                  capturedAt := t2;
                  closeRun := removelast trx;
                  resetEntry := {| at_ := t3; what := StateReset; snapshot := s3 |};
                  retryLog := l2 |}.
        split.
        { unfold retried. cbn.
          repeat split; try assumption; try reflexivity.
          rewrite <- Hlast. exact Hx. }
        cbn [restOfTry tryError failedAt failedIn].
        repeat (split; [reflexivity|]).
        cbn zeta. unfold nextTryEntry, gapEntries, failureEntry, sleepEntry.
        cbn [restOfTry tryError failedAt failedIn failureLog captureRun
             capturedAt closeRun resetEntry retryLog at_ snapshot what].
        destruct (postTweetWithRetry_fuel fuel cfg world (S k)
                    (t3 + timerMs (backoffMs cfg k))%N s3) as [trn on] eqn:Hnext.
        cbn [fst snd]. f_equal. f_equal.
        rewrite Hlast at 1.
        repeat (rewrite <- app_assoc || rewrite <- app_comm_cons || cbn [app]).
        reflexivity.
      * (* no retry left *)
        left. split; [lia|].
        destruct (log_runs cfg (FailedAfter (maxRetries cfg + 1)) t3 s3)
          as (l2 & Hl2 & Hql2).
        rewrite (bind_value _ _ _ _ _ _ _ _ Hl2). cbn [fst snd throw].
        exists t2, trx, t3, s3, l2.
        split; [reflexivity|]. split; [exact Hx|].
        split; [assumption|]. split; [assumption|]. split; [assumption|].
        rewrite app_nil_r.
        repeat (rewrite <- app_assoc || rewrite <- app_comm_cons || cbn [app]).
        reflexivity.
  - (* the try resolved *)
    rewrite (catch_value _ _ _ _ _ _ _ _ Hpub). reflexivity.
  - (* the try hangs *)
    rewrite (catch_pending _ _ _ _ _ _ Hpub). reflexivity.
  - apply Hfuel. reflexivity.
Qed.

(** Every start of a try in the history of a run starts a run of its own:
    the rest of the history and the outcome are those of
    [postTweetWithRetry] called for that try, at that time, in that state.
    It is the first try, or the try before it failed and was retried. *)
Lemma retry_suffix (fuel k : nat) t s (pre post : list (Entry State Event))
  (e : Entry State Event) :
  fst (postTweetWithRetry_fuel fuel cfg world k t s) = pre ++ e :: post ->
  isTryStart (what e) = true ->
  exists fuel' k',
    what e = TryStart k'
    /\ k' + fuel' + 1 = k + fuel
    /\ postTweetWithRetry_fuel (S fuel') cfg world k' (at_ e) (snapshot e)
       = (e :: post, snd (postTweetWithRetry_fuel fuel cfg world k t s))
    /\ ((pre = [] /\ k' = k /\ at_ e = t /\ snapshot e = s)
        \/ exists p0 e1 g j,
             k' = S j /\ k <= j
             /\ pre = p0 ++ e1 :: gapEntries cfg j g
             /\ retried cfg world j e1 g
             /\ e = nextTryEntry cfg j g).
Proof.
  revert k t s pre. induction fuel as [|fuel IH]; intros k t s pre Hsplit Htry.
  - cbn in Hsplit. destruct pre; discriminate.
  - destruct (retry_step fuel k t s) as (trb & o & Hpub & Hq & Hlevel).
    cbn zeta in Hlevel.
    set (e0 := {| at_ := t; what := TryStart k; snapshot := s |}) in *.
    assert (Hhead : forall body,
               fst (postTweetWithRetry_fuel (S fuel) cfg world k t s) = e0 :: body ->
               pre = [] ->
               exists fuel' k',
                 what e = TryStart k'
                 /\ k' + fuel' + 1 = k + S fuel
                 /\ postTweetWithRetry_fuel (S fuel') cfg world k' (at_ e) (snapshot e)
                    = (e :: post, snd (postTweetWithRetry_fuel (S fuel) cfg world k t s))
                 /\ ((pre = [] /\ k' = k /\ at_ e = t /\ snapshot e = s)
                     \/ exists p0 e1 g j,
                          k' = S j /\ k <= j
                          /\ pre = p0 ++ e1 :: gapEntries cfg j g
                          /\ retried cfg world j e1 g
                          /\ e = nextTryEntry cfg j g)).
    { intros body Hfst ->. rewrite Hfst in Hsplit. cbn [app] in Hsplit.
      injection Hsplit as <- <-.
      exists fuel, k. split; [reflexivity|]. split; [lia|]. split.
      - cbn [at_ snapshot e0].
        rewrite (surjective_pairing (postTweetWithRetry_fuel (S fuel) cfg world k t s)).
        rewrite Hfst. reflexivity.
      - left. repeat split; reflexivity. }
    assert (Hquiet : forall body,
               fst (postTweetWithRetry_fuel (S fuel) cfg world k t s) = e0 :: body ->
               Forall nonTry body -> pre = []).
    { intros body Hfst Hqb. rewrite Hfst in Hsplit.
      destruct pre as [|p pre]; [reflexivity|]. exfalso.
      cbn [app] in Hsplit. injection Hsplit as _ Hsplit. subst body.
      apply Forall_app in Hqb. destruct Hqb as [_ Hqb]. inversion Hqb as [|? ? Hx _].
      unfold nonTry in Hx. congruence. }
    destruct o as [t1 s1 [err|url]|s1|]; try contradiction.
    + cbn zeta in Hlevel.
      destruct Hlevel as (l1 & cap & Hl1 & Hcap & Hql1 & Hqcap & Hcases).
      destruct Hcases as [[Hpend Hr] | [(Hge & t2 & cls & t3 & s3 & l2 & Hc & Hx
                                         & Hqx & Hql2 & Htorn & Hr)
                                       | (g & Hg & Hg1 & Hg2 & Hg3 & Hg4 & Hr)]].
      * assert (Hfst := f_equal fst Hr). cbn [fst] in Hfst.
        apply (Hhead _ Hfst). apply (Hquiet _ Hfst).
        apply Forall_app. split; [assumption|].
        constructor; [reflexivity|]. apply Forall_app. split; assumption.
      * assert (Hfst := f_equal fst Hr). cbn [fst] in Hfst.
        apply (Hhead _ Hfst). apply (Hquiet _ Hfst).
        apply Forall_app. split; [assumption|].
        constructor; [reflexivity|].
        repeat (apply Forall_app; split; [assumption|]). assumption.
      * cbn zeta in Hr.
        assert (Hfst := f_equal fst Hr). assert (Hsnd := f_equal snd Hr).
        cbn [fst snd] in Hfst, Hsnd.
        destruct pre as [|p pre]; [apply (Hhead _ Hfst eq_refl)|].
        rewrite Hfst in Hsplit. cbn [app] in Hsplit.
        injection Hsplit as <- Hsplit.
        destruct (split_entries_after_quiet _ _ _ _ _
                    (quiet_gapEntries k e0 g Hg) Htry Hsplit)
          as (pre' & -> & Hnext).
        destruct (IH _ _ _ _ Hnext Htry)
          as (fuel' & k' & Hwhat & Hacc & Hrun & Hwhere).
        exists fuel', k'. split; [assumption|]. split; [lia|].
        split; [rewrite Hsnd; exact Hrun|]. right.
        destruct Hwhere as [(-> & -> & Hat & Hsn)
                           | (p0 & e1 & g' & j & -> & Hle & -> & Hg' & ->)].
        -- exists [], e0, g, k. split; [reflexivity|]. split; [lia|].
           split; [rewrite app_nil_r; reflexivity|]. split; [assumption|].
           destruct e as [ta wa sa]. cbn [at_ what snapshot] in *.
           subst. reflexivity.
        -- exists (e0 :: gapEntries cfg k g ++ p0), e1, g', j.
           split; [reflexivity|]. split; [lia|].
           split; [|split; [assumption | reflexivity]].
           cbn [app]. rewrite <- app_assoc. reflexivity.
    + assert (Hfst := f_equal fst Hlevel). cbn [fst] in Hfst.
      apply (Hhead _ Hfst). apply (Hquiet _ Hfst). assumption.
    + assert (Hfst := f_equal fst Hlevel). cbn [fst] in Hfst.
      apply (Hhead _ Hfst). apply (Hquiet _ Hfst). assumption.
Qed.

(** A run that ends with an error: its last try is the first one that has
    no retry left, and every try before it had one. *)
Lemma retry_last_try (fuel k : nat) t s t1 s1 err :
  snd (postTweetWithRetry_fuel fuel cfg world k t s) = Settled t1 s1 (inl err) ->
  exists last,
    k <= last
    /\ ~ (Z.of_nat last < maxRetries cfg)%Z
    /\ (k < last -> (Z.of_nat last <= maxRetries cfg)%Z)
    /\ In (TryFailed last err)
          (events (fst (postTweetWithRetry_fuel fuel cfg world k t s)))
    /\ tries (events (fst (postTweetWithRetry_fuel fuel cfg world k t s)))
       = S (last - k).
Proof.
  revert k t s. induction fuel as [|fuel IH]; intros k t s Hend.
  - cbn in Hend. discriminate.
  - destruct (retry_unfold fuel k t s) as (body & Hfst & [[Hq Hlast]|[Hlt Hnext]]).
    + cbn zeta in *. rewrite Hend in Hlast. destruct Hlast as (_ & Hge & Hin).
      exists k. split; [lia|]. split; [assumption|]. split; [lia|].
      rewrite Hfst, events_cons. split; [right; assumption|].
      unfold tries. cbn [what filter isTryStart].
      rewrite (quiet_no_tries body Hq), Nat.sub_diag. reflexivity.
    + destruct Hnext as (b1 & b2 & b3 & ta & sa & tb & sb & Hbody & Hq1 & Hq2
                         & Hq3 & Htorn & Hsnd).
      cbn zeta in *. rewrite Hsnd in Hend.
      destruct (IH _ _ _ Hend) as (last & Hle & Hge & Hbelow & Hin & Htries).
      exists last. split; [lia|]. split; [assumption|].
      split; [intros _; destruct (Nat.eq_dec last (S k)); [lia | apply Hbelow; lia]|].
      rewrite Hfst, Hbody.
      repeat (rewrite events_app || rewrite events_cons). split.
      * right. apply in_or_app. right. right. apply in_or_app. right. right.
        apply in_or_app. right. right. exact Hin.
      * cbn [what]. unfold tries in *.
        repeat (rewrite filter_app || cbn [filter isTryStart]).
        rewrite (quiet_no_tries b1 Hq1), (quiet_no_tries b2 Hq2),
          (quiet_no_tries b3 Hq3).
        cbn [app List.length]. rewrite Htries. lia.
Qed.

(** What follows the start of a try in the history of a run is decided by
    [publishOnce] called at that time in that state: a try that resolves
    or hangs ends the history, and its outcome is that of the run; a try
    that fails is followed by the capture, which may hang, then by
    [closeBrowser], and then either by the error of the try as the
    outcome of the run, when no retry is left, or by the sleep and the
    next try. *)
Lemma retry_every_try (fuel k : nat) t s (pre post : list (Entry State Event))
  (e0 : Entry State Event) (j : nat) :
  Z.to_nat (maxRetries cfg) - k < fuel ->
  fst (postTweetWithRetry_fuel fuel cfg world k t s) = pre ++ e0 :: post ->
  what e0 = TryStart j ->
  let outcome := snd (postTweetWithRetry_fuel fuel cfg world k t s) in
  exists trb o,
    publishOnce cfg (world j) j (at_ e0) (snapshot e0) = (e0 :: trb, o)
    /\ match o with
       | Settled t1 s1 (inl err) =>
           (exists rest,
              post = trb ++ {| at_ := t1; what := TryFailed j err;
                               snapshot := s1 |} :: rest
              /\ Forall nonTry rest
              /\ snd (captureErrorScreenshot (world j) j t1 s1) = Pending s1
              /\ outcome = Pending s1)
           \/ (~ (Z.of_nat j < maxRetries cfg)%Z
               /\ exists rest t3 s3,
                    post = trb ++ {| at_ := t1; what := TryFailed j err;
                                     snapshot := s1 |} :: rest
                    /\ Forall nonTry rest
                    /\ tornDown s3
                    /\ outcome = Settled t3 s3 (inl err))
           \/ (exists g rest,
                 retried cfg world j e0 g
                 /\ tryError g = err /\ failedAt g = t1 /\ failedIn g = s1
                 /\ post = gapEntries cfg j g ++ nextTryEntry cfg j g :: rest)
       | OutOfFuel => False
       | _ => post = trb /\ outcome = o
       end.
Proof.
  intros Hfuel Hsplit Hwhat outcome. subst outcome.
  assert (Htry : isTryStart (what e0) = true) by (rewrite Hwhat; reflexivity).
  destruct (retry_suffix fuel k t s pre post e0 Hsplit Htry)
    as (fuel' & k' & Hwhat' & Hacc & Hrun & _).
  rewrite Hwhat in Hwhat'. injection Hwhat' as <-.
  destruct (retry_step fuel' j (at_ e0) (snapshot e0)) as (trb & o & Hpub & Hq & Hlevel).
  cbn zeta in Hlevel. rewrite Hrun in Hlevel.
  assert (He0 : {| at_ := at_ e0; what := TryStart j; snapshot := snapshot e0 |} = e0).
  { destruct e0 as [ta wa sa]. cbn in *. subst wa. reflexivity. }
  rewrite He0 in *.
  exists trb, o. split; [exact Hpub|].
  destruct o as [t1 s1 [err|url]|s1|]; try contradiction.
  - cbn zeta in Hlevel.
    destruct Hlevel as (l1 & cap & Hl1 & Hcap & Hql1 & Hqcap & Hcases).
    destruct Hcases as [[Hpend Hr] | [(Hge & t2 & cls & t3 & s3 & l2 & Hc & Hx
                                       & Hqx & Hql2 & Htorn & Hr)
                                     | (g & Hg & Hg1 & Hg2 & Hg3 & Hg4 & Hr)]].
    + left. injection Hr as Hpost Hout.
      exists (l1 ++ cap). split; [exact Hpost|].
      split; [apply Forall_app; split; assumption|].
      split; [exact Hpend | exact Hout].
    + right. left. split; [assumption|]. injection Hr as Hpost Hout.
      exists (l1 ++ cap ++ cls ++ l2), t3, s3.
      split; [exact Hpost|].
      split; [repeat (apply Forall_app; split; [assumption|]); assumption|].
      split; assumption.
    + right. right. cbn zeta in Hr. injection Hr as Hpost Hout.
      assert (Hlt : (Z.of_nat j < maxRetries cfg)%Z) by apply Hg.
      destruct fuel' as [|fuel'']; [lia|].
      destruct (retry_unfold fuel'' (S j) (at_ (nextTryEntry cfg j g))
                  (snapshot (resetEntry g))) as (body & Hfst & _).
      cbn zeta in Hfst. cbn [nextTryEntry at_] in Hfst. rewrite Hfst in Hpost.
      exists g, body. split; [assumption|].
      split; [assumption|]. split; [assumption|]. split; [assumption|].
      exact Hpost.
  - injection Hlevel as Hpost Hout. split; assumption.
  - injection Hlevel as Hpost Hout. split; assumption.
Qed.
End Retry.

(** *** The governor *)

(** C6, as stated, fails.  With [TWITTER_MAX_RETRIES=-1] the poster has
    [maxRetries = -1], so that [maxRetries + 1] is zero, and a run makes
    one try all the same and ends with its error.  When the browser cannot
    be launched there is no page, and between the tries no screenshot is
    asked for.  With [TWITTER_RETRY_DELAY=3000000000] the delay is beyond
    the range of [setTimeout], and the second try starts one millisecond
    after the sleep was set. *)
Lemma governor_outside_its_bounds :
  (let run := postTweetWithRetry noRetrySettings (fun _ => failingTry) 0 0%N initial in
   (maxRetries noRetrySettings + 1 = 0)%Z
   /\ tries (events (fst run)) = 1
   /\ exists t1 s1,
        snd run = Settled t1 s1 (inl "Could not find compose tweet button"%string))
  /\ (let run := postTweetWithRetry defaultSettings (fun _ => noLaunchTry) 0 0%N initial in
      tries (events (fst run)) = 3
      /\ forall e k m, In e (events (fst run)) ->
                       e <> ScreenshotSaved k /\ e <> ScreenshotFailed m)
  /\ (let run := postTweetWithRetry longDelaySettings (fun _ => failingTry) 0 0%N initial in
      let closed := {| browser := None; page := None; isLoggedIn := false;
                       running := []; launches := 1 |} in
      nth_error (fst run) 16
      = Some {| at_ := 56611; what := Sleep 3000000000; snapshot := closed |}
      /\ nth_error (fst run) 17
         = Some {| at_ := 56612; what := TryStart 1; snapshot := closed |}).
Proof.
  split; [|split].
  - split; [reflexivity|]. split; [vm_compute; reflexivity|].
    eexists _, _. vm_compute. reflexivity.
  - split; [vm_compute; reflexivity|].
    intros e k m He. vm_compute in He.
    repeat (destruct He as [<-|He]; [split; discriminate|]). contradiction.
  - split; vm_compute; reflexivity.
Qed.

(** C6, amended.  A run starts with try 0 and makes at least one and at
    most [max(maxRetries, 0) + 1] tries, three by default.  What follows
    the start of a try is decided by [publishOnce] called at that time in
    that state: a try that resolves or never settles ends the run with its
    outcome; after a try that fails the error screenshot is captured, and
    the run waits for ever if that never settles; otherwise [closeBrowser]
    follows, and then, with no retry left, the run ends with the error of
    the try, and else comes the sleep and the next try.  Whenever a try
    [k + 1] starts, the history since the start of try [k] is the rest of
    that try, its failure, the capture, [closeBrowser] and the sleep, and
    try [k + 1] starts when the timer of the sleep fires, in the state
    [closeBrowser] has left.  The capture asks for a screenshot when a page
    is open, and only then, and waits for the answer; [closeBrowser] asks
    the open browser to close, returns when the close has settled or after
    five seconds, with no browser, no page and the login flag down, and
    the process of the browser is gone unless the kill throws; the sleep is
    a timer of [retryDelay * (k + 1)] ms, which runs that long when the
    number is between 1 and 2147483647, and one millisecond otherwise.  A
    run that ends with an error has made all its tries, and the error is
    that of the last. *)
Theorem governor_tries_and_backoff (cfg : Settings) (world : nat -> Try) t s :
  let run := postTweetWithRetry cfg world 0 t s in
  let history := events (fst run) in
  let budget := Z.to_nat (maxRetries cfg) in
  (exists rest,
      fst run = {| at_ := t; what := TryStart 0; snapshot := s |} :: rest)
  /\ 1 <= tries history <= S budget
  /\ (forall pre e0 post k,
        fst run = pre ++ e0 :: post ->
        what e0 = TryStart k ->
        exists trb o,
          publishOnce cfg (world k) k (at_ e0) (snapshot e0) = (e0 :: trb, o)
          /\ match o with
             | Settled t1 s1 (inl err) =>
                 (exists rest,
                    post = trb ++ {| at_ := t1; what := TryFailed k err;
                                     snapshot := s1 |} :: rest
                    /\ Forall nonTry rest
                    /\ snd (captureErrorScreenshot (world k) k t1 s1) = Pending s1
                    /\ snd run = Pending s1)
                 \/ (~ (Z.of_nat k < maxRetries cfg)%Z
                     /\ exists rest t3 s3,
                          post = trb ++ {| at_ := t1; what := TryFailed k err;
                                           snapshot := s1 |} :: rest
                          /\ Forall nonTry rest
                          /\ tornDown s3
                          /\ snd run = Settled t3 s3 (inl err))
                 \/ (exists g rest,
                       retried cfg world k e0 g
                       /\ tryError g = err /\ failedAt g = t1 /\ failedIn g = s1
                       /\ post = gapEntries cfg k g ++ nextTryEntry cfg k g :: rest)
             | OutOfFuel => False
             | _ => post = trb /\ snd run = o
             end)
  /\ (forall pre eTry post k,
        fst run = pre ++ eTry :: post ->
        what eTry = TryStart (S k) ->
        exists p0 e0 g,
          pre = p0 ++ e0 :: gapEntries cfg k g
          /\ retried cfg world k e0 g
          /\ eTry = nextTryEntry cfg k g)
  /\ (forall k e0 g,
        retried cfg world k e0 g ->
        let w := world k in
        let asked := {| at_ := failedAt g; what := CaptureErrorScreenshot k;
                        snapshot := failedIn g |} in
        let shotAt := (failedAt g + took (screenshot w))%N in
        let closed := snapshot (resetEntry g) in
        Forall nonTry (gapEntries cfg k g)
        /\ match page (failedIn g) with
           | None => captureRun g = [asked] /\ capturedAt g = failedAt g
           | Some _ =>
               match answer (screenshot w) with
               | Resolves _ =>
                   captureRun g
                   = [asked; {| at_ := shotAt; what := ScreenshotSaved k;
                                snapshot := failedIn g |}]
                   /\ capturedAt g = shotAt
               | Rejects m =>
                   captureRun g
                   = [asked; {| at_ := shotAt; what := ScreenshotFailed m;
                                snapshot := failedIn g |}]
                   /\ capturedAt g = shotAt
               | NeverSettles => False
               end
           end
        /\ tornDown closed
        /\ launches closed = launches (failedIn g)
        /\ incl (running closed) (running (failedIn g))
        /\ (browser (failedIn g) = None -> at_ (resetEntry g) = capturedAt g)
        /\ (forall b,
              browser (failedIn g) = Some b ->
              In CloseRequested (events (closeRun g))
              /\ at_ (resetEntry g)
                 = (capturedAt g
                    + (if settlesBy (close w) 5000 then took (close w) else 5000))%N
              /\ forall pid,
                   process b = Some pid ->
                   killThrows w = false
                   \/ (settlesBy (close w) 5000 = true
                       /\ answer (close w) = Resolves tt) ->
                   ~ In pid (running closed))
        /\ what (sleepEntry cfg k g) = Sleep (retryDelay cfg * (Z.of_nat k + 1))
        /\ at_ (nextTryEntry cfg k g)
           = (at_ (sleepEntry cfg k g)
              + (if ((1 <=? retryDelay cfg * (Z.of_nat k + 1))
                     && (retryDelay cfg * (Z.of_nat k + 1) <=? 2147483647))%Z
                 then Z.to_N (retryDelay cfg * (Z.of_nat k + 1))
                 else 1))%N
        /\ snapshot (nextTryEntry cfg k g) = closed)
  /\ (forall t1 s1 e,
        snd run = Settled t1 s1 (inl e) ->
        tries history = S budget
        /\ In (TryFailed budget e) history
        /\ tornDown s1)
  /\ snd run <> OutOfFuel
  /\ (maxRetries defaultSettings = 2 /\ retryDelay defaultSettings = 5000)%Z.
Proof.
  intros run history budget. subst history run. unfold postTweetWithRetry.
  rewrite Nat.sub_0_r.
  set (fuel := S (Z.to_nat (maxRetries cfg))).
  assert (Hfuel : Z.to_nat (maxRetries cfg) - 0 < fuel) by (unfold fuel; lia).
  assert (Hhead : exists rest,
             fst (postTweetWithRetry_fuel fuel cfg world 0 t s)
             = {| at_ := t; what := TryStart 0; snapshot := s |} :: rest).
  { unfold fuel.
    destruct (retry_unfold cfg world (Z.to_nat (maxRetries cfg)) 0 t s)
      as (body & Hfst & _).
    exists body. exact Hfst. }
  split; [exact Hhead|].
  split; [|split; [|split; [|split; [|split; [|split; [|split; reflexivity]]]]]].
  - split.
    + destruct Hhead as (rest & ->). rewrite events_cons. unfold tries.
      cbn [what filter isTryStart List.length]. lia.
    + pose proof (retry_bound cfg world fuel 0 t s Hfuel). subst budget. lia.
  - intros pre e0 post k Hsplit Hwhat.
    exact (retry_every_try cfg world fuel 0 t s pre post e0 k Hfuel Hsplit Hwhat).
  - intros pre eTry post k Hsplit Hwhat.
    assert (Htry : isTryStart (what eTry) = true) by (rewrite Hwhat; reflexivity).
    destruct (retry_suffix cfg world fuel 0 t s pre post eTry Hsplit Htry)
      as (fuel' & k' & Hwhat' & _ & _ & Hwhere).
    rewrite Hwhat in Hwhat'. injection Hwhat' as <-.
    destruct Hwhere as [(_ & Habs & _) | (p0 & e1 & g & j & Hj & _ & -> & Hg & ->)];
      [discriminate|].
    injection Hj as <-. exists p0, e1, g.
    split; [reflexivity|]. split; [assumption | reflexivity].
  - intros k e0 g Hg. cbn zeta.
    split; [exact (quiet_gapEntries cfg world k e0 g Hg)|].
    destruct Hg as (Hwhat & Hpub & Hlog & Hcap & Hclose & Hreset & Hlt & Hlog2).
    split; [exact (captureErrorScreenshot_shot _ _ _ _ _ _ _ Hcap)|].
    set (w := world k) in *.
    destruct (closeBrowser_runs (close w) (killThrows w) (capturedAt g) (failedIn g))
      as (tr & t1 & s1 & Hrun & _ & Htorn & Hlaunches & Hincl & _ & Hnone
          & Hgone & _).
    rewrite Hclose in Hrun. injection Hrun as <- Ht1 Hs1. subst s1.
    split; [assumption|]. split; [assumption|]. split; [assumption|].
    split; [intros Hb; rewrite Ht1; exact (proj1 (Hnone Hb))|].
    split; [|split; [reflexivity|split; reflexivity]].
    intros b Hb.
    destruct (closeBrowser_timing _ _ _ _ _ _ _ b Hclose Hb) as (Hasked & Htime).
    split; [|split].
    + rewrite events_app in Hasked. apply in_app_or in Hasked.
      destruct Hasked as [Hasked | [Hasked | []]]; [assumption|].
      rewrite Hreset in Hasked. discriminate.
    + destruct (settlesBy (close w) 5000); [exact Htime | apply Htime].
    + intros pid Hp Hkill. exact (Hgone b pid Hb Hp Hkill).
  - intros t1 s1 e Hend.
    destruct (retry_last_try cfg world fuel 0 t s t1 s1 e Hend)
      as (last & _ & Hge & Hbelow & Hin & Htries).
    pose proof (retry_outcome cfg world fuel 0 t s Hfuel) as Hout.
    cbn zeta in Hout. rewrite Hend in Hout. destruct Hout as (Htorn & _).
    assert (last = budget) as ->.
    { subst budget. destruct last as [|last]; [lia|].
      specialize (Hbelow ltac:(lia)). lia. }
    rewrite Htries, Nat.sub_0_r. repeat split; assumption || apply Htorn.
  - apply retry_fueled. exact Hfuel.
Qed.

(** With the defaults and a compose button that is never found, the run
    makes its three tries and ends with the error of the third. *)
Lemma governor_tries_and_backoff_witness :
  let run := postTweetWithRetry defaultSettings (fun _ => failingTry) 0 0%N initial in
  tries (events (fst run)) = 3
  /\ In (TryFailed 2 "Could not find compose tweet button") (events (fst run)).
Proof.
  intros run.
  destruct (governor_tries_and_backoff defaultSettings (fun _ => failingTry)
              0%N initial) as (_ & _ & _ & _ & _ & Hend & _).
  destruct (Hend 184833%N
              {| browser := None; page := None; isLoggedIn := false;
                 running := []; launches := 3 |}
              "Could not find compose tweet button"%string)
    as (Htries & Hin & _).
  - vm_compute. reflexivity.
  - split; [exact Htries | exact Hin].
Defined.

(** *** The session across tries and posts *)

(** C1, as stated, fails: a post that succeeds leaves the browser, its
    page, its process and the login flag in place, and the next post is
    made with them, without a launch. *)
Lemma session_survives_success :
  let first := postTweet defaultSettings (fun _ => smoothTry) 0%N initial in
  snd first = Settled 27111 openSession (inr "https://x.com/muse/status/1"%string)
  /\ ~ tornDown openSession
  /\ let second := postTweet defaultSettings (fun _ => smoothTry) 27111%N openSession in
     events (fst second)
     = [TryStart 0; Log (PostingToTwitter 0); LoggedIn;
        Log (PostedSuccessfully "https://x.com/muse/status/1"%string);
        ImageFilesDeleted]
     /\ Forall (fun e => browser (snapshot e) = browser openSession) (fst second).
Proof.
  split; [vm_compute; reflexivity|]. split.
  - intros (Hb & _). discriminate Hb.
  - split; [vm_compute; reflexivity|].
    vm_compute. repeat constructor.
Qed.

(** C1, amended.  Within the tries of one post the session is never
    shared: every try after the first starts with no browser, no page and
    the login flag down, and a run that ends with an error leaves the
    poster in that state.  A run that ends with a value leaves its browser
    open, and [initializeBrowser] then finds it and launches nothing. *)
Theorem session_torn_down_after_failure_only (cfg : Settings)
  (world : nat -> Try) t s :
  let run := postTweetWithRetry cfg world 0 t s in
  (forall e k, In e (fst run) -> what e = TryStart (S k) -> tornDown (snapshot e))
  /\ (forall t1 s1 err, snd run = Settled t1 s1 (inl err) -> tornDown s1)
  /\ (forall t1 s1 url,
        snd run = Settled t1 s1 (inr url) ->
        browser s1 <> None
        /\ forall w t2, initializeBrowser w t2 s1 = ([], Settled t2 s1 (inr tt))).
Proof.
  intros run. subst run. unfold postTweetWithRetry. rewrite Nat.sub_0_r.
  set (fuel := S (Z.to_nat (maxRetries cfg))).
  assert (Hfuel : Z.to_nat (maxRetries cfg) - 0 < fuel) by (unfold fuel; lia).
  pose proof (retry_outcome cfg world fuel 0 t s Hfuel) as Hout.
  cbn zeta in Hout.
  split; [|split].
  - intros e k Hin Hwhat.
    destruct (retry_starts_clean cfg world fuel 0 t s e Hin) as [-> | Hclean].
    + rewrite Hwhat. reflexivity.
    + discriminate Hwhat.
    + exact Hclean.
  - intros t1 s1 err Hend. rewrite Hend in Hout. apply Hout.
  - intros t1 s1 url Hend. rewrite Hend in Hout. split; [exact Hout|].
    intros w t2. unfold initializeBrowser, bind, get.
    destruct (browser s1); [reflexivity | contradiction].
Qed.

Lemma session_torn_down_after_failure_only_witness :
  exists s1, tornDown s1 /\ running s1 = [] /\ launches s1 = 3.
Proof.
  eexists. split.
  - eapply (proj1 (proj2 (session_torn_down_after_failure_only defaultSettings
                            (fun _ => failingTry) 0%N initial))).
    vm_compute. reflexivity.
  - split; reflexivity.
Defined.

(** *** The session, step by step *)





(** *** The deadline *)

(** C3.  [postTweet] always settles, at the latest two minutes after the
    call; when the run has not settled by itself before that, the call
    rejects at the deadline with the timeout error, whatever the run is
    doing; otherwise the call is the run. *)
Theorem postTweet_settles_by_deadline (cfg : Settings) (world : nat -> Try) t s :
  let run := postTweetWithRetry cfg world 0 t s in
  let call := postTweet cfg world t s in
  (exists t1 s1 r, snd call = Settled t1 s1 r /\ (t1 <= t + 120000)%N)
  /\ (settledBefore (snd run) (t + 120000) = false ->
      exists s1, snd call = Settled (t + 120000) s1 (inl timeoutMessage))
  /\ (settledBefore (snd run) (t + 120000) = true -> call = run).
Proof.
  intros run call. subst call. unfold postTweet, postTweetWithTimeout.
  fold run.
  assert (Hfuel : snd run <> OutOfFuel).
  { subst run. unfold postTweetWithRetry. apply retry_fueled. lia. }
  destruct run as [tr [t1 s1 r|s1|]]; cbn [snd settledBefore] in *.
  - destruct (N.ltb_spec t1 (t + 120000)) as [Hlt|Hge].
    + split; [eexists _, _, _; split; [reflexivity | lia]|].
      split; [discriminate | reflexivity].
    + split; [eexists _, _, _; split; [reflexivity | lia]|].
      split; [eexists; reflexivity | discriminate].
  - split; [eexists _, _, _; split; [reflexivity | lia]|].
    split; [eexists; reflexivity | discriminate].
  - exfalso. apply Hfuel. reflexivity.
Qed.

Lemma postTweet_settles_by_deadline_witness :
  exists s1,
    snd (postTweet defaultSettings (fun _ => stuckLoginTry) 0%N initial)
    = Settled 120000 s1 (inl timeoutMessage).
Proof.
  apply (proj1 (proj2 (postTweet_settles_by_deadline defaultSettings
                         (fun _ => stuckLoginTry) 0%N initial))).
  vm_compute. reflexivity.
Defined.




(** *** Teardown *)

(** The callback of the timer, run after [closeBrowser] has returned: it
    writes no field of the poster; with a browser held it kills its
    process, unless the kill throws, which is logged. *)
Lemma lateKill_runs (throws : bool) t s :
  exists tr s1,
    lateKill throws t s = (tr, Settled t s1 (inr tt))
    /\ browser s1 = browser s /\ page s1 = page s
    /\ isLoggedIn s1 = isLoggedIn s
    /\ (browser s = None -> s1 = s)
    /\ (forall b pid,
          browser s = Some b -> process b = Some pid ->
          if throws then running s1 = running s
          else In (Killed pid) (events tr) /\ ~ In pid (running s1)).
Proof.
  unfold lateKill, killProcess, tryCatch, bind, get.
  cbn [emit fst snd app].
  destruct (browser s) as [b|] eqn:Hb.
  - destruct (process b) as [pid|] eqn:Hp; destruct throws; cbn;
      (eexists _, _; split; [reflexivity|]); cbn; rewrite ?Hb;
      (split; [reflexivity|]); (split; [reflexivity|]);
      (split; [reflexivity|]); (split; [discriminate|]);
      intros b' pid' Hb' Hp'; injection Hb' as <-; rewrite Hp in Hp';
      try discriminate Hp'; injection Hp' as <-;
      first [ reflexivity
            | split; [right; left; reflexivity | apply removePid_gone] ].
  - cbn. eexists _, _. split; [reflexivity|]. cbn. rewrite Hb.
    repeat split; try reflexivity; discriminate.
Qed.

(** With a retry delay of one second the timer of the first
    [closeBrowser], which the close has beaten, is due when the second try
    has launched its browser, and its callback kills that browser. *)
Lemma stale_timer_kills_the_next_browser :
  let run := postTweetWithRetry shortDelaySettings (fun _ => quickCloseTry)
               0 0%N initial in
  let closed := {| browser := None; page := None; isLoggedIn := false;
                   running := []; launches := 1 |} in
  let held := stateAt 56611%N (fst run) initial in
  nth_error (fst run) 10
  = Some {| at_ := 51611%N; what := CloseRequested;
            snapshot := openSession |}
  /\ nth_error (fst run) 13
     = Some {| at_ := 51911%N; what := StateReset; snapshot := closed |}
  /\ browser held = Some {| process := Some 1 |}
  /\ running held = [1]
  /\ exists killed,
       lateKill false 56611%N held
       = ([{| at_ := 56611%N; what := ForceKillOnTimeout; snapshot := held |};
           {| at_ := 56611%N; what := Killed 1; snapshot := killed |}],
          Settled 56611%N killed (inr tt))
       /\ browser killed = browser held
       /\ running killed = [].
Proof.
  repeat split; try (vm_compute; reflexivity).
  eexists. split; [vm_compute; reflexivity|]. split; reflexivity.
Qed.

(** When the kill throws, and the graceful close has not resolved in
    time, [closeBrowser] ends no process. *)
Lemma closeBrowser_kill_fails (c : Call unit) t s :
  ~ (settlesBy c 5000 = true /\ answer c = Resolves tt) ->
  forall tr t1 s1,
    closeBrowser c true t s = (tr, Settled t1 s1 (inr tt)) ->
    running s1 = running s
    /\ (forall b pid, browser s = Some b -> process b = Some pid ->
                      exists m, In (KillFailed m) (events tr)).
Proof.
  intros Hnot tr t1 s1.
  unfold closeBrowser, killProcess, tryFinally, tryCatch, bind, get, await.
  destruct (browser s) as [b|] eqn:Hb.
  2:{ cbn. intros H. injection H as <- <- <-. split; [reflexivity|].
      intros b pid Hb'. discriminate Hb'. }
  cbn [emit update wait fst snd app]. rewrite ?Hb.
  destruct (settlesBy c 5000) eqn:Hrace;
    destruct (answer c) as [[]|e|] eqn:Hc;
    try (exfalso; apply Hnot; split; reflexivity);
    destruct (process b) as [pid|] eqn:Hp;
    cbn [emit update wait fst snd app throw ret];
    rewrite ?Hb, ?Hp; cbn [emit update wait fst snd app throw ret];
    unfold settlesBy in Hrace; rewrite Hc in Hrace; try discriminate Hrace;
    intros H; injection H as <- <- <-; (split; [reflexivity|]);
    intros b' pid' Hb' Hp'; injection Hb' as <-; rewrite Hp in Hp';
    try discriminate Hp'; eexists; cbn; eauto 10.
Qed.

(** C9, as stated, fails.  The graceful close hangs and the SIGKILL
    throws: [closeBrowser] logs the failure and resets the state, and the
    second call, which finds no browser, only resets the state again.
    Neither call raises; the process of the browser is still there after
    both. *)
Lemma closeBrowser_leaves_process_when_kill_throws :
  exists tr1 s1,
    closeBrowser (close failingTry) true 0%N openSession
    = (tr1, Settled 5000 s1 (inr tt))
    /\ In (KillFailed "kill failed") (events tr1)
    /\ closeBrowser (close failingTry) true 5000%N s1
       = ([{| at_ := 5000%N; what := StateReset; snapshot := s1 |}],
          Settled 5000 s1 (inr tt))
    /\ tornDown s1
    /\ In 0 (running s1).
Proof.
  eexists _, _. split; [vm_compute; reflexivity|].
  split; [cbn; tauto|].
  split; [vm_compute; reflexivity|].
  split; [repeat split | left; reflexivity].
Qed.

(** C9, amended.  [closeBrowser] always settles without an error, with
    the browser, the page and the login flag reset, whatever the graceful
    close and the kill do; a second call right after changes nothing and
    takes no time.  No process is started.  The process of the browser that
    was open is gone when the graceful close resolved within five seconds
    or the kill does not throw; when the kill throws and the close has not
    resolved in time, the failure is logged and no process is ended. *)
Theorem closeBrowser_idempotent (c1 c2 : Call unit) (throws1 throws2 : bool) t s :
  exists tr1 t1 s1,
    closeBrowser c1 throws1 t s = (tr1, Settled t1 s1 (inr tt))
    /\ tornDown s1
    /\ closeBrowser c2 throws2 t1 s1
       = ([{| at_ := t1; what := StateReset; snapshot := s1 |}],
          Settled t1 s1 (inr tt))
    /\ incl (running s1) (running s)
    /\ (forall b pid,
          browser s = Some b -> process b = Some pid ->
          (throws1 = false
           \/ (settlesBy c1 5000 = true /\ answer c1 = Resolves tt)) ->
          ~ In pid (running s1))
    /\ (throws1 = true ->
        ~ (settlesBy c1 5000 = true /\ answer c1 = Resolves tt) ->
        running s1 = running s
        /\ forall b pid, browser s = Some b -> process b = Some pid ->
                         exists m, In (KillFailed m) (events tr1)).
Proof.
  destruct (closeBrowser_runs c1 throws1 t s)
    as (tr & t1 & s1 & Hrun & _ & Htorn & _ & Hincl & _ & _ & Hgone & _).
  exists tr, t1, s1. split; [exact Hrun|]. split; [exact Htorn|].
  split; [|split; [exact Hincl | split; [exact Hgone|]]].
  - destruct Htorn as (Hb & Hp & Hl).
    unfold closeBrowser, tryFinally, tryCatch, bind, get. rewrite Hb.
    cbn. destruct s1 as [b1 p1 l1 r1 n1]. cbn in *. subst.
    reflexivity.
  - intros -> Hnot. exact (closeBrowser_kill_fails c1 t s Hnot tr t1 s1 Hrun).
Qed.

Lemma closeBrowser_idempotent_witness :
  exists tr1 t1 s1,
    closeBrowser (close failingTry) false 0%N openSession
    = (tr1, Settled t1 s1 (inr tt))
    /\ tornDown s1
    /\ ~ In 0 (running s1).
Proof.
  destruct (closeBrowser_idempotent (close failingTry) (close failingTry)
              false false 0%N openSession)
    as (tr1 & t1 & s1 & Hrun & Htorn & _ & _ & Hgone & _).
  exists tr1, t1, s1. split; [exact Hrun|]. split; [exact Htorn|].
  apply (Hgone {| process := Some 0 |} 0 eq_refl eq_refl).
  left. reflexivity.
Defined.

End PosterFacts.

(** ** The MediaAttached phase *)

Module MediaFacts.
Import Async AsyncFacts MediaUpload.
Local Open Scope async_scope.

Lemma media_wait_runs (ms : N) t :
  waitForTimeout ms t tt
  = ([{| at_ := t; what := Waited ms; snapshot := tt |}],
     Settled (t + ms)%N tt (inr tt)).
Proof. reflexivity. Qed.

(** *** The looks for the file input *)

(** The first look ends as read off the page, and never throws. *)
Lemma findInput_runs (q : InputSelector -> Call bool)
  (selectors : list InputSelector) t :
  exists tr,
    match inputOf q selectors with
    | Some found => exists t1, findInput q selectors t tt
                               = (tr, Settled t1 tt (inr found))
    | None => findInput q selectors t tt = (tr, Pending tt)
    end.
Proof.
  revert t. induction selectors as [|sel rest IH]; intros t;
    cbn [inputOf findInput].
  - eexists. eexists. reflexivity.
  - unfold bind at 1, tryCatch, bind at 1, await.
    destruct (answer (q sel)) as [[|]|e|]; cbn.
    + eexists. eexists. reflexivity.
    + destruct (IH (t + took (q sel))%N) as (tr & Hrun).
      destruct (inputOf q rest) as [found|].
      * destruct Hrun as (t1 & ->). eexists. eexists. reflexivity.
      * rewrite Hrun. eexists. reflexivity.
    + destruct (IH (t + took (q sel))%N) as (tr & Hrun).
      destruct (inputOf q rest) as [found|].
      * destruct Hrun as (t1 & ->). eexists. eexists. reflexivity.
      * rewrite Hrun. eexists. reflexivity.
    + eexists. reflexivity.
Qed.

(** The second look ends as read off the page. *)
Lemma recheckInput_runs (q : InputSelector -> Call bool)
  (selectors : list InputSelector) t :
  exists tr,
    match recheckOf q selectors with
    | Looked found => exists t1, recheckInput q selectors t tt
                                 = (tr, Settled t1 tt (inr found))
    | LookThrew => exists t1 e, recheckInput q selectors t tt
                                = (tr, Settled t1 tt (inl e))
    | LookHangs => recheckInput q selectors t tt = (tr, Pending tt)
    end.
Proof.
  revert t. induction selectors as [|sel rest IH]; intros t;
    cbn [recheckOf recheckInput].
  - eexists. eexists. reflexivity.
  - unfold bind at 1, await.
    destruct (answer (q sel)) as [[|]|e|]; cbn.
    + eexists. eexists. reflexivity.
    + destruct (IH (t + took (q sel))%N) as (tr & Hrun).
      destruct (recheckOf q rest) as [found| |].
      * destruct Hrun as (t1 & ->). eexists. eexists. reflexivity.
      * destruct Hrun as (t1 & e & ->). eexists. eexists. eexists. reflexivity.
      * rewrite Hrun. eexists. reflexivity.
    + eexists. eexists. eexists. reflexivity.
    + eexists. reflexivity.
Qed.

(** One turn of the loop over the media buttons ends as read off the
    page, and never throws. *)
Lemma tryButton_runs (p : Page) (sel : ButtonSelector) t :
  exists tr,
    match buttonOf p sel with
    | Some done => exists t1, tryButton p sel t tt = (tr, Settled t1 tt (inr done))
    | None => tryButton p sel t tt = (tr, Pending tt)
    end.
Proof.
  unfold tryButton, buttonOf, tryCatch.
  destruct (answer (mediaButton p sel)) as [[|]|e|] eqn:Hb.
  - rewrite (bind_await _ _ _ _ _ Hb). rewrite bind_emit. cbn [fst snd].
    destruct (answer (clickMediaButton p sel)) as [[]|e|] eqn:Hc.
    + rewrite (bind_await _ _ _ _ _ Hc). rewrite bind_emit. cbn [fst snd].
      rewrite (bind_value _ _ _ _ _ _ _ _ (media_wait_runs 1000 _)).
      cbn [fst snd].
      match goal with
      | |- context [bind (recheckInput ?q ?l) _ ?t0 tt] =>
          destruct (recheckInput_runs q l t0) as (trr & Hrun)
      end.
      destruct (recheckOf (fileInputAfter p sel) fileInputSelectors)
        as [found| |].
      * destruct Hrun as (t1 & Hrun).
        rewrite (bind_value _ _ _ _ _ _ _ _ Hrun). cbn.
        eexists. eexists. reflexivity.
      * destruct Hrun as (t1 & e & Hrun).
        rewrite (bind_error _ _ _ _ _ _ _ _ Hrun). cbn.
        eexists. eexists. reflexivity.
      * rewrite (bind_pending _ _ _ _ _ _ Hrun). cbn.
        eexists. reflexivity.
    + unfold bind at 1, await. rewrite Hc. cbn. eexists. eexists. reflexivity.
    + unfold bind at 1, await. rewrite Hc. cbn. eexists. reflexivity.
  - rewrite (bind_await _ _ _ _ _ Hb). cbn. eexists. eexists. reflexivity.
  - unfold bind, await. rewrite Hb. cbn. eexists. eexists. reflexivity.
  - unfold bind, await. rewrite Hb. cbn. eexists. reflexivity.
Qed.

(** The loop over the media buttons ends as read off the page, and never
    throws. *)
Lemma clickForInput_runs (p : Page) (buttons : list ButtonSelector) t :
  exists tr,
    match clickOf p buttons with
    | Some found => exists t1, clickForInput p buttons t tt
                               = (tr, Settled t1 tt (inr found))
    | None => clickForInput p buttons t tt = (tr, Pending tt)
    end.
Proof.
  revert t. induction buttons as [|sel rest IH]; intros t;
    cbn [clickOf clickForInput].
  - eexists. eexists. reflexivity.
  - destruct (tryButton_runs p sel t) as (tr & Hrun).
    destruct (buttonOf p sel) as [[found|]|].
    + destruct Hrun as (t1 & Hrun).
      rewrite (bind_value _ _ _ _ _ _ _ _ Hrun). cbn.
      eexists. eexists. reflexivity.
    + destruct Hrun as (t1 & Hrun).
      rewrite (bind_value _ _ _ _ _ _ _ _ Hrun). cbn [fst snd].
      destruct (IH t1) as (trn & Hnext).
      destruct (clickOf p rest) as [found|].
      * destruct Hnext as (t2 & ->). eexists. eexists. reflexivity.
      * rewrite Hnext. eexists. reflexivity.
    + rewrite (bind_pending _ _ _ _ _ _ Hrun). eexists. reflexivity.
Qed.

(** The two looks together: they end with the file input, or without, or
    never, as read off the page, and do not throw. *)
Lemma findFileInput_runs (p : Page) t :
  exists tr,
    match lookupOf p with
    | Some found => exists t1, findFileInput p t tt
                               = (tr, Settled t1 tt (inr found))
    | None => findFileInput p t tt = (tr, Pending tt)
    end.
Proof.
  unfold findFileInput, lookupOf.
  destruct (findInput_runs (fileInput p) fileInputSelectors t) as (tr & Hrun).
  destruct (inputOf (fileInput p) fileInputSelectors) as [[|]|].
  - destruct Hrun as (t1 & Hrun). rewrite (bind_value _ _ _ _ _ _ _ _ Hrun).
    cbn. eexists. eexists. reflexivity.
  - destruct Hrun as (t1 & Hrun). rewrite (bind_value _ _ _ _ _ _ _ _ Hrun).
    cbn [fst snd].
    destruct (clickForInput_runs p mediaButtonSelectors t1) as (trc & Hclick).
    destruct (clickOf p mediaButtonSelectors) as [found|].
    + destruct Hclick as (t2 & ->). eexists. eexists. reflexivity.
    + rewrite Hclick. eexists. reflexivity.
  - rewrite (bind_pending _ _ _ _ _ _ Hrun). eexists. reflexivity.
Qed.

(** *** The polls *)

(** A poll whose queries settle ends with the count read off the page,
    after the time its queries take, having logged only the selector that
    matched. *)
Lemma firstMatch_exact (q : Selector -> Call nat) (selectors : list Selector)
  (n : nat) t :
  countOf q selectors = Some n ->
  exists tr,
    firstMatch q selectors t tt
    = (tr, Settled (t + timeOf q selectors)%N tt (inr n))
    /\ events tr = matchOf q selectors
    /\ Forall isFound tr.
Proof.
  revert t. induction selectors as [|sel rest IH]; intros t Hcount;
    cbn [countOf firstMatch timeOf matchOf] in *.
  - injection Hcount as <-. eexists. rewrite N.add_0_r.
    split; [reflexivity|]. split; [reflexivity | constructor].
  - unfold bind at 1, tryCatch, bind at 1, await.
    destruct (answer (q sel)) as [m|e|]; [|cbn|discriminate].
    + destruct (0 <? m) eqn:Hm; cbn.
      * injection Hcount as <-. eexists. rewrite N.add_0_r.
        split; [reflexivity|]. split; [reflexivity|]. repeat constructor.
      * destruct (IH (t + took (q sel))%N Hcount) as (tr & -> & Hev & Hq).
        eexists. rewrite N.add_assoc. split; [reflexivity|].
        split; assumption.
    + destruct (IH (t + took (q sel))%N Hcount) as (tr & -> & Hev & Hq).
      eexists. rewrite N.add_assoc. split; [reflexivity|].
      split; assumption.
Qed.

Lemma firstMatch_runs (q : Selector -> Call nat) (selectors : list Selector)
  (n : nat) t :
  countOf q selectors = Some n ->
  exists tr t1,
    firstMatch q selectors t tt = (tr, Settled t1 tt (inr n))
    /\ Forall isFound tr.
Proof.
  intros Hcount. destruct (firstMatch_exact q selectors n t Hcount)
    as (tr & Hrun & _ & Hq).
  eexists _, _. split; [exact Hrun | exact Hq].
Qed.

(** The debug screenshot never throws and never hangs: it logs the answer
    of the screenshot when that comes within three seconds, and the
    timeout after three seconds otherwise. *)
Lemma debugScreenshot_exact (p : Page) t :
  debugScreenshot p t tt
  = ([{| at_ := (t + snd (shotOf p))%N; what := fst (shotOf p); snapshot := tt |}],
     Settled (t + snd (shotOf p))%N tt (inr tt)).
Proof.
  unfold debugScreenshot, shotOf, tryCatch, bind, await.
  destruct (settlesBy (screenshot p) 3000) eqn:Hrace.
  - unfold settlesBy in Hrace.
    destruct (answer (screenshot p)) as [[]|e|]; try discriminate Hrace;
      reflexivity.
  - reflexivity.
Qed.

Lemma shotOf_bound (p : Page) : (snd (shotOf p) <= 3000)%N.
Proof.
  unfold shotOf, settlesBy.
  destruct (answer (screenshot p)); cbn; try lia;
    destruct (N.leb_spec (took (screenshot p)) 3000); cbn; lia.
Qed.

Lemma shotOf_isShot (p : Page) : isShot (fst (shotOf p)).
Proof.
  unfold shotOf.
  destruct (settlesBy (screenshot p) 3000); cbn.
  - destruct (answer (screenshot p));
      first [left; reflexivity | right; eexists; reflexivity].
  - right. eexists. reflexivity.
Qed.

Lemma debugScreenshot_runs (p : Page) t :
  exists shot t1,
    debugScreenshot p t tt
    = ([{| at_ := t1; what := shot; snapshot := tt |}], Settled t1 tt (inr tt))
    /\ isShot shot /\ (t1 <= t + 3000)%N.
Proof.
  eexists _, _. split; [apply debugScreenshot_exact|].
  split; [apply shotOf_isShot|]. pose proof (shotOf_bound p). lia.
Qed.

(** One poll that misses, before the last. *)
Lemma pollMedia_miss (fuel : nat) (p : Page) (expected k uploaded n : nat) t :
  k < maxAttempts - 1 ->
  pollCount p k = Some n -> n <> expected ->
  let t1 := (t + pollTime p k)%N in
  exists f,
    events f = matchOf (media p k) mediaSelectors
    /\ Forall isFound f
    /\ pollMedia (S fuel) p expected k uploaded t tt
       = (f ++ {| at_ := t1; what := PollMiss k n expected; snapshot := tt |}
            :: {| at_ := t1; what := Waited 1500; snapshot := tt |}
            :: fst (pollMedia fuel p expected (S k) n (t1 + 1500)%N tt),
          snd (pollMedia fuel p expected (S k) n (t1 + 1500)%N tt)).
Proof.
  intros Hk Hcount Hne t1. subst t1. unfold maxAttempts in *. cbn [pollMedia].
  destruct (Nat.ltb_spec k maxAttempts) as [_|Hge]; [|unfold maxAttempts in *; lia].
  destruct (firstMatch_exact _ _ _ t Hcount) as (f & Hrun & Hev & Hq).
  rewrite (bind_value _ _ _ _ _ _ _ _ Hrun). cbn [fst snd].
  destruct (Nat.eqb_spec n expected) as [|_]; [contradiction|].
  rewrite bind_emit. cbn [fst snd].
  destruct (Nat.eqb_spec k (maxAttempts - 1)) as [Heq|_];
    [unfold maxAttempts in *; lia|].
  rewrite bind_ret.
  rewrite (bind_value _ _ _ _ _ _ _ _ (media_wait_runs 1500 _)).
  cbn [fst snd app]. exists f. split; [exact Hev|]. split; [exact Hq|].
  reflexivity.
Qed.

(** The last poll, missing too: the images on the page are dumped, or
    not, and the loop ends after one more sleep. *)
Lemma pollMedia_last_miss (fuel : nat) (p : Page) (expected uploaded n : nat) t :
  pollCount p 2 = Some n -> n <> expected ->
  answer (allImages p) <> NeverSettles ->
  let t1 := (t + pollTime p 2)%N in
  let t2 := (t1 + took (allImages p))%N in
  exists f,
    events f = matchOf (media p 2) mediaSelectors
    /\ Forall isFound f
    /\ pollMedia (S fuel) p expected 2 uploaded t tt
       = (f ++ [{| at_ := t1; what := PollMiss 2 n expected; snapshot := tt |};
                {| at_ := t2; what := dumpOf p; snapshot := tt |};
                {| at_ := t2; what := Waited 1500; snapshot := tt |}],
          Settled (t2 + 1500)%N tt (inr n)).
Proof.
  intros Hcount Hne Hsettles t1 t2. subst t1 t2.
  cbn [pollMedia Nat.ltb Nat.leb maxAttempts].
  destruct (firstMatch_exact _ _ _ t Hcount) as (f & Hrun & Hev & Hq).
  rewrite (bind_value _ _ _ _ _ _ _ _ Hrun). cbn [fst snd].
  destruct (Nat.eqb_spec n expected) as [|_]; [contradiction|].
  rewrite bind_emit. cbn [fst snd Nat.eqb Nat.sub].
  unfold tryCatch, bind, await, dumpOf, pollTime.
  destruct (answer (allImages p)) as [[]|e|]; [| |contradiction]; cbn;
    destruct fuel; cbn;
    (exists f; split; [exact Hev|]; split; [exact Hq|]; reflexivity).
Qed.

(** The closing check resolves when the query for error indicators
    resolves and, with indicators on the page, the error screenshot does
    too. *)
Lemma checkErrorIndicators_clean (p : Page) (n : nat) t :
  answer (errorIndicators p) = Resolves n ->
  n = 0 \/ answer (errorScreenshot p) = Resolves tt ->
  snd (checkErrorIndicators p t tt)
  = Settled (t + 3000 + took (errorIndicators p)
             + (if (0 <? n)%nat then took (errorScreenshot p) else 0))%N tt (inr tt).
Proof.
  intros Hn Hclean. unfold checkErrorIndicators.
  rewrite (bind_value _ _ _ _ _ _ _ _ (media_wait_runs 3000 _)).
  cbn [fst snd]. rewrite (bind_await _ _ n _ _ Hn).
  destruct Hclean as [-> | Hshot]; [cbn; rewrite N.add_0_r; reflexivity|].
  destruct (0 <? n); [|cbn; rewrite N.add_0_r; reflexivity].
  rewrite bind_emit. cbn [snd]. unfold await. rewrite Hshot. reflexivity.
Qed.

(** C8.  After the upload and a wait of five seconds the page is polled
    three times, 1500 ms apart, and no more.  When no poll sees the
    expected number of media elements (and the queries made settle), the
    phase does not fail on that account: each miss is logged, the images
    on the page are dumped after the third, the warning is logged, and the
    debug screenshot is asked for and waited for at most three seconds:
    what is logged is its answer when that came in time, and the timeout
    otherwise, and nothing is thrown.  Then the upload is reported and the
    closing check is made, whose outcome is the outcome of the phase; with
    no error indicator on the page the phase resolves and the next phase
    is entered.  The history starts with the looks for the file input. *)
Theorem media_undercount_is_soft (p : Page) (expected n0 n1 n2 : nat) t :
  fileInputFound p = true ->
  answer (uploadFile p) = Resolves tt ->
  pollCount p 0 = Some n0 -> pollCount p 1 = Some n1 -> pollCount p 2 = Some n2 ->
  n0 <> expected -> n1 <> expected -> n2 <> expected ->
  answer (allImages p) <> NeverSettles ->
  let r := uploadImages p expected t tt in
  let entry (at_ : N) (what : Event) : Entry unit Event :=
    {| at_ := at_; what := what; snapshot := tt |} in
  exists look t0 f0 f1 f2,
    findFileInput p t tt = (look, Settled t0 tt (inr true))
    /\ events f0 = matchOf (media p 0) mediaSelectors
    /\ events f1 = matchOf (media p 1) mediaSelectors
    /\ events f2 = matchOf (media p 2) mediaSelectors
    /\ Forall isFound (f0 ++ f1 ++ f2)
    /\ let t1 := (t0 + took (uploadFile p) + 5000 + pollTime p 0)%N in
       let t2 := (t1 + 1500 + pollTime p 1)%N in
       let t3 := (t2 + 1500 + pollTime p 2)%N in
       let t4 := (t3 + took (allImages p))%N in
       let t5 := (t4 + 1500 + snd (shotOf p))%N in
       fst r
       = look
           ++ entry t0 (UploadingFiles expected)
           :: entry (t0 + took (uploadFile p))%N (Waited 5000)
           :: f0 ++ entry t1 (PollMiss 0 n0 expected) :: entry t1 (Waited 1500)
           :: f1 ++ entry t2 (PollMiss 1 n1 expected) :: entry t2 (Waited 1500)
           :: f2
           ++ [entry t3 (PollMiss 2 n2 expected);
               entry t4 (dumpOf p);
               entry t4 (Waited 1500);
               entry (t4 + 1500)%N (CountWarning expected n2 maxAttempts);
               entry t5 (fst (shotOf p));
               entry t5 (ImagesUploaded n2 expected)]
           ++ fst (checkErrorIndicators p t5 tt)
       /\ snd r = snd (checkErrorIndicators p t5 tt)
       /\ (snd (shotOf p) <= 3000)%N
       /\ (forall n,
             answer (errorIndicators p) = Resolves n ->
             n = 0 \/ answer (errorScreenshot p) = Resolves tt ->
             snd r
             = Settled (t5 + 3000 + took (errorIndicators p)
                        + (if (0 <? n)%nat then took (errorScreenshot p) else 0))%N
                 tt (inr tt)).
Proof.
  intros Hinput Hupload H0 H1 H2 Hne0 Hne1 Hne2 Hdump r entry.
  destruct (findFileInput_runs p t) as (look & Hlook).
  unfold fileInputFound in Hinput.
  destruct (lookupOf p) as [[|]|]; try discriminate Hinput.
  destruct Hlook as (t0 & Hlook).
  destruct (pollMedia_miss 2 p expected 0 0 n0 (t0 + took (uploadFile p) + 5000)%N
              ltac:(unfold maxAttempts; lia) H0 Hne0) as (f0 & He0 & Hq0 & Hp0).
  cbn zeta in Hp0.
  set (t1 := (t0 + took (uploadFile p) + 5000 + pollTime p 0)%N) in *.
  destruct (pollMedia_miss 1 p expected 1 n0 n1 (t1 + 1500)%N
              ltac:(unfold maxAttempts; lia) H1 Hne1) as (f1 & He1 & Hq1 & Hp1).
  cbn zeta in Hp1.
  set (t2 := (t1 + 1500 + pollTime p 1)%N) in *.
  destruct (pollMedia_last_miss 0 p expected n1 n2 (t2 + 1500)%N H2 Hne2 Hdump)
    as (f2 & He2 & Hq2 & Hp2).
  cbn zeta in Hp2.
  set (t3 := (t2 + 1500 + pollTime p 2)%N) in *.
  set (t4 := (t3 + took (allImages p))%N) in *.
  rewrite Hp1, Hp2 in Hp0. cbn [fst snd] in Hp0.
  exists look, t0, f0, f1, f2.
  split; [exact Hlook|]. split; [exact He0|]. split; [exact He1|].
  split; [exact He2|].
  split; [apply Forall_app; split; [assumption|];
          apply Forall_app; split; assumption|].
  cbn zeta. fold t1 t2 t3 t4.
  set (t5 := (t4 + 1500 + snd (shotOf p))%N).
  assert (Hrun :
            r = (look
                   ++ entry t0 (UploadingFiles expected)
                   :: entry (t0 + took (uploadFile p))%N (Waited 5000)
                   :: f0 ++ entry t1 (PollMiss 0 n0 expected)
                   :: entry t1 (Waited 1500)
                   :: f1 ++ entry t2 (PollMiss 1 n1 expected)
                   :: entry t2 (Waited 1500)
                   :: f2
                   ++ [entry t3 (PollMiss 2 n2 expected);
                       entry t4 (dumpOf p);
                       entry t4 (Waited 1500);
                       entry (t4 + 1500)%N (CountWarning expected n2 maxAttempts);
                       entry t5 (fst (shotOf p));
                       entry t5 (ImagesUploaded n2 expected)]
                   ++ fst (checkErrorIndicators p t5 tt),
                 snd (checkErrorIndicators p t5 tt))).
  { subst r. unfold uploadImages.
    rewrite (bind_value _ _ _ _ _ _ _ _ Hlook). cbn [fst snd negb].
    rewrite bind_emit. cbn [fst snd].
    rewrite (bind_await _ _ tt _ _ Hupload).
    rewrite (bind_value _ _ _ _ _ _ _ _ (media_wait_runs 5000 _)).
    cbn [fst snd].
    change (pollMedia maxAttempts p expected 0 0) with (pollMedia 3 p expected 0 0).
    rewrite (bind_value _ _ _ _ _ _ _ _ Hp0). cbn [fst snd].
    destruct (Nat.eqb_spec n2 expected) as [|_]; [contradiction|]. cbn [negb].
    rewrite bind_bind, bind_emit. cbn [fst snd].
    rewrite (bind_value _ _ _ _ _ _ _ _ (debugScreenshot_exact p _)).
    cbn [fst snd].
    rewrite bind_emit. cbn [fst snd]. fold t5.
    destruct (checkErrorIndicators p t5 tt) as [trc oc]. cbn [fst snd].
    f_equal. unfold entry.
    repeat (rewrite <- app_assoc || rewrite <- app_comm_cons || cbn [app]).
    reflexivity. }
  rewrite Hrun. cbn [fst snd].
  split; [reflexivity|]. split; [reflexivity|].
  split; [apply shotOf_bound|].
  intros n Hn Hclean. apply checkErrorIndicators_clean; assumption.
Qed.

Lemma media_undercount_is_soft_witness :
  snd (uploadImages undercountingPage 4 0%N tt) = Settled 17740 tt (inr tt).
Proof.
  destruct (media_undercount_is_soft undercountingPage 4 2 2 2 0%N
              eq_refl eq_refl eq_refl eq_refl eq_refl
              ltac:(discriminate) ltac:(discriminate) ltac:(discriminate)
              ltac:(discriminate))
    as (look & t0 & f0 & f1 & f2 & Hlook & _ & _ & _ & _ & _ & _ & _ & Hok).
  vm_compute in Hlook. injection Hlook as _ <-.
  rewrite (Hok 0 eq_refl (or_introl eq_refl)). vm_compute. reflexivity.
Defined.

(** On that page the file input is found after the click on the second
    media button and a wait of one second, and the debug screenshot times
    out. *)
Lemma upload_history_on_undercounting_page :
  events (fst (uploadImages undercountingPage 4 0%N tt))
  = [ FoundMediaButton AriaAddPhotos; MediaButtonClicked; Waited 1000;
      FoundFileInputAfterClick TypeFile;
      UploadingFiles 4; Waited 5000;
      FoundElements 2 AriaLabelImage; PollMiss 0 2 4; Waited 1500;
      FoundElements 2 AriaLabelImage; PollMiss 1 2 4; Waited 1500;
      FoundElements 2 AriaLabelImage; PollMiss 2 2 4; AllImagesDumped;
      Waited 1500;
      CountWarning 4 2 3;
      CouldNotTakeDebugScreenshot "Screenshot timeout";
      ImagesUploaded 2 4; Waited 3000 ].
Proof. vm_compute. reflexivity. Qed.

End MediaFacts.
(** ** The Verified phase *)

Module VerificationFacts.
Import Async AsyncFacts Verification.
Local Open Scope async_scope.

Section Signals.
Variable statusNumber : string -> Z.

Lemma In_insertNewest (x y : string) (l : list string) :
  In x (insertNewest statusNumber y l) <-> x = y \/ In x l.
Proof.
  induction l as [|z l IH]; cbn [insertNewest].
  - cbn. intuition congruence.
  - destruct (statusNumber y <? statusNumber z)%Z; cbn [In]; [rewrite IH|];
      intuition congruence.
Qed.

Lemma In_sortNewestFirst (x : string) (l : list string) :
  In x (sortNewestFirst statusNumber l) <-> In x l.
Proof.
  induction l as [|y l IH]; cbn [sortNewestFirst]; [reflexivity|].
  rewrite In_insertNewest, IH. cbn. intuition congruence.
Qed.

(** The newest link of a non-empty list is one of the list. *)
Lemma sortNewestFirst_head (l : list string) :
  l <> [] ->
  exists first rest, sortNewestFirst statusNumber l = first :: rest /\ In first l.
Proof.
  intros Hne. destruct (sortNewestFirst statusNumber l) as [|first rest] eqn:Hs.
  - destruct l as [|y l]; [contradiction|]. exfalso.
    assert (Hin : In y (sortNewestFirst statusNumber (y :: l)))
      by (apply In_sortNewestFirst; left; reflexivity).
    rewrite Hs in Hin. contradiction.
  - exists first, rest. split; [reflexivity|].
    apply In_sortNewestFirst. rewrite Hs. left. reflexivity.
Qed.

Lemma insertNewest_head (x : string) (l : list string) :
  (forall first rest, l = first :: rest ->
                      forall y, In y l -> (statusNumber y <= statusNumber first)%Z) ->
  forall first rest,
    insertNewest statusNumber x l = first :: rest ->
    forall y, In y (x :: l) -> (statusNumber y <= statusNumber first)%Z.
Proof.
  intros Hl first rest Hins y Hy. destruct l as [|z l']; cbn [insertNewest] in Hins.
  - injection Hins as <- _. destruct Hy as [<-|[]]. lia.
  - destruct (Z.ltb_spec (statusNumber x) (statusNumber z)).
    + injection Hins as <- _. destruct Hy as [<-|Hy]; [lia|].
      apply (Hl z l' eq_refl y Hy).
    + injection Hins as <- _. destruct Hy as [<-|Hy]; [lia|].
      specialize (Hl z l' eq_refl y Hy). lia.
Qed.

(** The head of the sorted links has the largest status number. *)
Lemma sortNewestFirst_max (l : list string) (first : string) (rest : list string) :
  sortNewestFirst statusNumber l = first :: rest ->
  forall y, In y l -> (statusNumber y <= statusNumber first)%Z.
Proof.
  revert first rest. induction l as [|x l IH]; intros first rest Hs y Hy;
    cbn [sortNewestFirst] in Hs.
  - contradiction.
  - apply (insertNewest_head x (sortNewestFirst statusNumber l)) with (rest := rest).
    + intros f r Hf y' Hy'. apply (IH f r Hf). apply In_sortNewestFirst. exact Hy'.
    + exact Hs.
    + destruct Hy as [<-|Hy]; [left; reflexivity|].
      right. apply In_sortNewestFirst. exact Hy.
Qed.

Lemma verify_wait_runs (ms : N) t :
  waitForTimeout ms t tt
  = ([{| at_ := t; what := Waited ms; snapshot := tt |}],
     Settled (t + ms)%N tt (inr tt)).
Proof. reflexivity. Qed.

(** The lookup, when its calls settle, finds a URL exactly when the page
    shows one; otherwise it throws. *)
Lemma extract_outcome (k : Lookup) t :
  lookupSettles k = true ->
  if lookupFinds k
  then exists t1 u, snd (extractTweetUrlFromPage k t tt) = Settled t1 tt (inr u)
  else exists t1, snd (extractTweetUrlFromPage k t tt) = Settled t1 tt (inl lookupFailed).
Proof.
  unfold lookupSettles, lookupFinds, extractTweetUrlFromPage, waitForTimeout,
    tryCatch, bind, await, emit, ret, wait, throw.
  destruct (JsString.includes (location k) "/status/"); cbn.
  - intros _. eexists _, _. reflexivity.
  - destruct (answer (domLinks k)) as [[|d ds]|e|]; cbn;
      try (intros _; eexists _, _; reflexivity); try discriminate;
      (destruct (answer (gotoProfile k)) as [[]|e1|]; cbn; try discriminate;
       [destruct (answer (scrollProfile k)) as [[]|e2|]; cbn; try discriminate;
        [destruct (answer (profileLinks k)) as [[|q qs]|e3|]; cbn;
         try discriminate|]|]);
      intros _; first [eexists _, _; reflexivity | eexists; reflexivity].
Qed.

(** *** One turn of the loop, signal by signal *)

Lemma turn_landed (o : Observation) (w : N) t :
  landedOnPost o = true ->
  verifyTurn statusNumber o w t tt
  = ([{| at_ := t; what := NavigatedToTweet (url o); snapshot := tt |}],
     Settled t tt (inr (Some (url o)))).
Proof.
  unfold landedOnPost, verifyTurn. intros ->. reflexivity.
Qed.

Lemma turn_view (o : Observation) (w : N) (href : string) t :
  landedOnPost o = false ->
  answer (viewButton o) = Resolves (Some href) ->
  verifyTurn statusNumber o w t tt
  = ([{| at_ := (t + took (viewButton o))%N; what := ViewButtonFound href;
         snapshot := tt |}],
     Settled (t + took (viewButton o))%N tt (inr (Some href))).
Proof.
  unfold landedOnPost, verifyTurn. intros -> Hview.
  rewrite (bind_await _ _ _ _ _ Hview). reflexivity.
Qed.

Lemma turn_notified (o : Observation) (w : N) (links : list string)
  (first : string) (rest : list string) t :
  landedOnPost o = false ->
  answer (viewButton o) = Resolves None ->
  answer (successNotification o) = Resolves true ->
  answer (statusLinks o) = Resolves links ->
  sortNewestFirst statusNumber links = first :: rest ->
  exists tr,
    verifyTurn statusNumber o w t tt
    = (tr, Settled (t + took (viewButton o) + took (successNotification o)
                    + took (statusLinks o))%N tt (inr (Some first))).
Proof.
  unfold landedOnPost, verifyTurn. intros -> Hview Hnote Hlinks Hsort.
  rewrite (bind_await _ _ _ _ _ Hview), (bind_await _ _ _ _ _ Hnote).
  rewrite bind_emit, (bind_await _ _ _ _ _ Hlinks), Hsort.
  cbn. eexists. reflexivity.
Qed.

Lemma bind_lookup (k : Lookup) t :
  (found <- extractTweetUrlFromPage k ;; ret (Some found)) t tt
  = (fst (extractTweetUrlFromPage k t tt),
     throughLookup (snd (extractTweetUrlFromPage k t tt))).
Proof.
  unfold bind. destruct (extractTweetUrlFromPage k t tt)
    as [tr [t1 [] [e|u]|[]|]]; cbn; rewrite ?app_nil_r; reflexivity.
Qed.

Lemma turn_lookup (o : Observation) (w : N) t :
  landedOnPost o = false ->
  answer (viewButton o) = Resolves None ->
  (answer (successNotification o) = Resolves true
   /\ answer (statusLinks o) = Resolves [])
  \/ (answer (successNotification o) = Resolves false
      /\ composeGoneAndLeft o = true) ->
  exists pre t1,
    verifyTurn statusNumber o w t tt
    = (pre ++ fst (extractTweetUrlFromPage (lookup o) t1 tt),
       throughLookup (snd (extractTweetUrlFromPage (lookup o) t1 tt))).
Proof.
  unfold landedOnPost, verifyTurn. intros -> Hview Hcase.
  rewrite (bind_await _ _ _ _ _ Hview).
  destruct Hcase as [[Hnote Hlinks] | [Hnote Hgone]];
    rewrite (bind_await _ _ _ _ _ Hnote).
  - rewrite bind_emit, (bind_await _ _ _ _ _ Hlinks). cbn [sortNewestFirst fst snd].
    rewrite (bind_value _ _ _ _ _ _ _ _ (verify_wait_runs 3000 _)).
    rewrite bind_lookup. cbn [fst snd].
    eexists (_ :: _ :: nil), _. reflexivity.
  - unfold composeGoneAndLeft in Hgone.
    destruct (answer (composeModal o)) as [[|]|e|] eqn:Hmodal; try discriminate.
    rewrite (bind_await _ _ _ _ _ Hmodal). cbn [negb andb]. rewrite Hgone.
    rewrite bind_emit.
    rewrite (bind_value _ _ _ _ _ _ _ _ (verify_wait_runs 3000 _)).
    rewrite bind_lookup. cbn [fst snd].
    eexists (_ :: _ :: nil), _. reflexivity.
Qed.

(** *** From one turn to the whole verification *)

(** A turn that falls through, as read off the page, does so in the run:
    whatever was thrown is caught, and the turn ends without a URL. *)
Lemma guardedTurn_goesOn (o : Observation) (w : N) t :
  goesOn o = true ->
  exists tr t1, guardedTurn statusNumber o w t tt = (tr, Settled t1 tt (inr None)).
Proof.
  assert (Hlookup : forall t0,
             lookupSettles (lookup o) && negb (lookupFinds (lookup o)) = true ->
             exists t2, snd (extractTweetUrlFromPage (lookup o) t0 tt)
                        = Settled t2 tt (inl lookupFailed)).
  { intros t0 Hfail. apply andb_true_iff in Hfail. destruct Hfail as [Hs Hf].
    apply negb_true_iff in Hf.
    pose proof (extract_outcome (lookup o) t0 Hs) as Hout.
    rewrite Hf in Hout. exact Hout. }
  unfold goesOn, guardedTurn, verifyTurn, landedOnPost, tryCatch.
  destruct (JsString.includes (url o) "/status/"); [discriminate|].
  cbn [negb andb]. cbn zeta.
  destruct (answer (viewButton o)) as [[href|]|e|] eqn:Hv; try discriminate.
  - rewrite (bind_await _ _ _ _ _ Hv).
    destruct (answer (successNotification o)) as [[|]|e|] eqn:Hn;
      try discriminate.
    + rewrite (bind_await _ _ _ _ _ Hn), bind_emit. cbn [fst snd].
      destruct (answer (statusLinks o)) as [[|l ls]|e|] eqn:Hl; try discriminate.
      * rewrite (bind_await _ _ _ _ _ Hl). cbn [sortNewestFirst].
        rewrite (bind_value _ _ _ _ _ _ _ _ (verify_wait_runs 3000 _)).
        rewrite bind_lookup. cbn [fst snd]. intros Hfail.
        match goal with
        | |- context [extractTweetUrlFromPage ?k ?t0 tt] =>
            destruct (Hlookup t0 Hfail) as (t2 & ->)
        end.
        cbn. eexists _, _. reflexivity.
      * intros _. unfold bind at 1, await. rewrite Hl. cbn.
        eexists _, _. reflexivity.
    + rewrite (bind_await _ _ _ _ _ Hn).
      destruct (answer (composeModal o)) as [modal|e|] eqn:Hm; try discriminate.
      * rewrite (bind_await _ _ _ _ _ Hm).
        destruct (negb modal && negb (JsString.includes (urlCheck o) "/compose")).
        -- rewrite bind_emit.
           rewrite (bind_value _ _ _ _ _ _ _ _ (verify_wait_runs 3000 _)).
           rewrite bind_lookup. cbn [fst snd]. intros Hfail.
           match goal with
           | |- context [extractTweetUrlFromPage ?k ?t0 tt] =>
               destruct (Hlookup t0 Hfail) as (t2 & ->)
           end.
           cbn. eexists _, _. reflexivity.
        -- intros _. rewrite bind_emit.
           rewrite (bind_value _ _ _ _ _ _ _ _ (verify_wait_runs checkInterval _)).
           cbn. eexists _, _. reflexivity.
      * intros _. unfold bind at 1, await. rewrite Hm. cbn.
        eexists _, _. reflexivity.
    + intros _. unfold bind at 1, await. rewrite Hn. cbn.
      eexists _, _. reflexivity.
  - intros _. unfold bind at 1, await. rewrite Hv. cbn.
    eexists _, _. reflexivity.
Qed.

(** A turn with a URL ends the loop with it. *)
Lemma verifyLoop_returns (fuel : nat) (page : nat -> Observation) (i : nat)
  (w : N) t tr t1 u :
  (w < maxWaitTime)%N ->
  verifyTurn statusNumber (page i) w t tt = (tr, Settled t1 tt (inr (Some u))) ->
  verifyLoop statusNumber (S fuel) page i w t tt = (tr, Settled t1 tt (inr u)).
Proof.
  intros Hw Hturn. cbn [verifyLoop].
  destruct (N.ltb_spec w maxWaitTime) as [_|Hge]; [|lia].
  unfold guardedTurn.
  rewrite (bind_value _ _ _ _ _ _ _ _ (catch_value _ _ _ _ _ _ _ _ Hturn)).
  cbn. rewrite app_nil_r. reflexivity.
Qed.

(** A turn that falls through is followed by the next. *)
Lemma verifyLoop_goes_on (fuel : nat) (page : nat -> Observation) (i : nat)
  (w : N) t :
  (w < maxWaitTime)%N ->
  goesOn (page i) = true ->
  exists tr t1,
    verifyLoop statusNumber (S fuel) page i w t tt
    = (tr ++ fst (verifyLoop statusNumber fuel page (S i) (w + checkInterval)%N t1 tt),
       snd (verifyLoop statusNumber fuel page (S i) (w + checkInterval)%N t1 tt)).
Proof.
  intros Hw Hon. cbn [verifyLoop].
  destruct (N.ltb_spec w maxWaitTime) as [_|Hge]; [|lia].
  destruct (guardedTurn_goesOn (page i) w t Hon) as (tr & t1 & Hturn).
  rewrite (bind_value _ _ _ _ _ _ _ _ Hturn). cbn [fst snd].
  exists tr, t1. reflexivity.
Qed.

(** After [n] turns that fall through the loop is at turn [n]. *)
Lemma verifyLoop_reaches (n fuel : nat) (page : nat -> Observation) t :
  n <= 20 ->
  (forall j, j < n -> goesOn (page j) = true) ->
  exists tr tn,
    verifyLoop statusNumber (n + fuel) page 0 0%N t tt
    = (tr ++ fst (verifyLoop statusNumber fuel page n
                    (N.of_nat n * checkInterval)%N tn tt),
       snd (verifyLoop statusNumber fuel page n
              (N.of_nat n * checkInterval)%N tn tt)).
Proof.
  revert fuel. induction n as [|n IH]; intros fuel Hn Hon.
  - exists [], t. cbn [app Nat.add N.of_nat N.mul].
    destruct (verifyLoop statusNumber fuel page 0 0%N t tt). reflexivity.
  - destruct (IH (S fuel) ltac:(lia) (fun j Hj => Hon j ltac:(lia)))
      as (tr & tn & Hrun).
    replace (S n + fuel) with (n + S fuel) by lia. rewrite Hrun.
    destruct (verifyLoop_goes_on fuel page n (N.of_nat n * checkInterval)%N tn)
      as (tr1 & t1 & Hnext).
    { unfold maxWaitTime, checkInterval. lia. }
    { apply Hon. lia. }
    rewrite Hnext. cbn [fst snd].
    replace (N.of_nat n * checkInterval + checkInterval)%N
      with (N.of_nat (S n) * checkInterval)%N by lia.
    exists (tr ++ tr1), t1. rewrite app_assoc. reflexivity.
Qed.

(** C4, amended.  In every turn of [verifyTweetSuccess] that is reached,
    that is, when the turns before it fell through, three signals are each
    enough: landing on a status URL, a status link labelled view, and the
    success notification together with a status link in the page, of which
    the one with the largest status number is returned; the verification
    then resolves, at once, whatever the lookup of the post URL would do.
    The success notification without a status link, and the compose
    surface gone with the location off the compose page, count only
    through the lookup: when the lookup finds a URL the verification
    resolves with it, and when it finds none the turn falls through.  A
    turn that falls through is followed by the next one, and after the
    twentieth the verification fails.  The submit button is never looked
    at. *)
Theorem verification_signals (page : nat -> Observation) (i : nat) t :
  i < 20 ->
  (forall j, j < i -> goesOn (page j) = true) ->
  let o := page i in
  let r := verifyTweetSuccess statusNumber page t tt in
  exists tr ti,
    r = (tr ++ fst (verifyLoop statusNumber (20 - i) page i
                      (N.of_nat i * checkInterval)%N ti tt),
         snd (verifyLoop statusNumber (20 - i) page i
                (N.of_nat i * checkInterval)%N ti tt))
    /\ (landedOnPost o = true -> snd r = Settled ti tt (inr (url o)))
    /\ (landedOnPost o = false ->
        forall href, answer (viewButton o) = Resolves (Some href) ->
        snd r = Settled (ti + took (viewButton o))%N tt (inr href))
    /\ (landedOnPost o = false ->
        answer (viewButton o) = Resolves None ->
        answer (successNotification o) = Resolves true ->
        forall links, answer (statusLinks o) = Resolves links -> links <> [] ->
        exists first rest,
          sortNewestFirst statusNumber links = first :: rest
          /\ In first links
          /\ (forall l, In l links -> (statusNumber l <= statusNumber first)%Z)
          /\ snd r = Settled (ti + took (viewButton o)
                              + took (successNotification o)
                              + took (statusLinks o))%N tt (inr first))
    /\ (landedOnPost o = false ->
        answer (viewButton o) = Resolves None ->
        (answer (successNotification o) = Resolves true
         /\ answer (statusLinks o) = Resolves [])
        \/ (answer (successNotification o) = Resolves false
            /\ composeGoneAndLeft o = true) ->
        lookupSettles (lookup o) = true ->
        (lookupFinds (lookup o) = true ->
         exists t0 t1 u,
           snd (extractTweetUrlFromPage (lookup o) t0 tt) = Settled t1 tt (inr u)
           /\ snd r = Settled t1 tt (inr u))
        /\ (lookupFinds (lookup o) = false -> goesOn o = true))
    /\ (goesOn o = true ->
        exists tr' t',
          r = (tr' ++ fst (verifyLoop statusNumber (19 - i) page (S i)
                             (N.of_nat (S i) * checkInterval)%N t' tt),
               snd (verifyLoop statusNumber (19 - i) page (S i)
                      (N.of_nat (S i) * checkInterval)%N t' tt))
          /\ (i = 19 -> snd r = Settled t' tt (inl verificationFailed))).
Proof.
  intros Hi Hon o r. subst o r. unfold verifyTweetSuccess.
  destruct (verifyLoop_reaches i (20 - i) page t ltac:(lia) Hon)
    as (tr & ti & Hrun).
  replace (i + (20 - i)) with 20 in Hrun by lia.
  exists tr, ti. split; [exact Hrun|].
  rewrite Hrun. cbn [snd].
  assert (Hw : (N.of_nat i * checkInterval < maxWaitTime)%N)
    by (unfold maxWaitTime, checkInterval; lia).
  replace (20 - i) with (S (19 - i)) by lia.
  split; [|split; [|split; [|split]]].
  - intros Hland.
    rewrite (verifyLoop_returns _ page i _ ti _ _ _ Hw (turn_landed (page i) _ ti Hland)).
    reflexivity.
  - intros Hland href Hview.
    rewrite (verifyLoop_returns _ page i _ ti _ _ _ Hw
               (turn_view (page i) _ href ti Hland Hview)).
    reflexivity.
  - intros Hland Hview Hnote links Hlinks Hne.
    destruct (sortNewestFirst_head links Hne) as (first & rest & Hsort & Hin).
    destruct (turn_notified (page i) (N.of_nat i * checkInterval)%N links first rest
                ti Hland Hview Hnote Hlinks Hsort) as (trn & Hturn).
    rewrite (verifyLoop_returns _ page i _ ti _ _ _ Hw Hturn).
    exists first, rest. split; [exact Hsort|]. split; [exact Hin|].
    split; [exact (sortNewestFirst_max links first rest Hsort) | reflexivity].
  - intros Hland Hview Hcase Hsettles.
    split; intros Hfinds.
    + destruct (turn_lookup (page i) (N.of_nat i * checkInterval)%N ti Hland Hview
                  Hcase) as (pre & t1 & Hturn).
      pose proof (extract_outcome (lookup (page i)) t1 Hsettles) as Hout.
      rewrite Hfinds in Hout. destruct Hout as (t2 & u & Hu).
      rewrite Hu in Hturn. cbn [throughLookup] in Hturn.
      rewrite (verifyLoop_returns _ page i _ ti _ _ _ Hw Hturn).
      exists t1, t2, u. split; [exact Hu | reflexivity].
    + unfold goesOn. unfold landedOnPost in *. rewrite Hland, Hview.
      rewrite Hsettles, Hfinds. cbn [negb andb].
      destruct Hcase as [[-> ->] | [-> Hgone]]; [reflexivity|].
      unfold composeGoneAndLeft in Hgone.
      destruct (answer (composeModal (page i))) as [[|]|e|]; try discriminate.
      cbn [negb andb]. rewrite Hgone. reflexivity.
  - intros Hnext.
    destruct (verifyLoop_goes_on (19 - i) page i (N.of_nat i * checkInterval)%N
                ti Hw Hnext) as (tr1 & t1 & Hstep).
    rewrite Hstep. cbn [fst snd].
    replace (N.of_nat i * checkInterval + checkInterval)%N
      with (N.of_nat (S i) * checkInterval)%N by lia.
    exists (tr ++ tr1), t1. split; [rewrite app_assoc; reflexivity|].
    intros ->. cbn. reflexivity.
Qed.

End Signals.

(** The page shows a status link from the second turn on: the first turn
    falls through, and the second resolves with the link. *)
Lemma verification_signals_witness :
  exists t0 t1 u,
    snd (extractTweetUrlFromPage (lookup (linkShowsUpLater 1)) t0 tt)
    = Settled t1 tt (inr u)
    /\ snd (verifyTweetSuccess (fun _ => 0%Z) linkShowsUpLater 0%N tt)
       = Settled t1 tt (inr u).
Proof.
  destruct (verification_signals (fun _ => 0%Z) linkShowsUpLater 1 0%N)
    as (tr & ti & _ & _ & _ & _ & Hlookup & _).
  - lia.
  - intros j Hj. assert (j = 0) as -> by lia. reflexivity.
  - destruct (Hlookup eq_refl eq_refl (or_intror (conj eq_refl eq_refl)) eq_refl)
      as (Hfound & _).
    apply Hfound. reflexivity.
Defined.

(** C4, as stated, fails.  The compose surface is gone and the location
    is off the compose page in every turn, so the second signal is there,
    but the page shows no status link and the lookup finds none: the twenty
    turns pass and the verification is reported as failed.  Success here
    hangs on the lookup. *)
Lemma compose_gone_alone_is_not_enough :
  composeGoneAndLeft composeGoneObservation = true
  /\ lookupFinds (lookup composeGoneObservation) = false
  /\ snd (verifyTweetSuccess (fun _ => 0%Z) (fun _ => composeGoneObservation) 0%N tt)
     = Settled 222700 tt (inl verificationFailed)
  /\ exists t1 u,
       snd (verifyTweetSuccess (fun _ => 0%Z) (fun _ => composeGoneWithLink) 0%N tt)
       = Settled t1 tt (inr u).
Proof.
  split; [reflexivity|]. split; [reflexivity|].
  split; [vm_compute; reflexivity|].
  eexists _, _. vm_compute. reflexivity.
Qed.

End VerificationFacts.

(** * Further properties of the code *)

(** ** The queue, run to the end *)

Module QueueRuns.
Import QueueManager QueueFacts.

Lemma processed_app (a b : list Event) : processed (a ++ b) = processed a ++ processed b.
Proof.
  induction a as [|e a IH]; [reflexivity|].
  destruct e; cbn [app processed]; rewrite IH; reflexivity.
Qed.

Lemma delays_app (a b : list Event) : delays (a ++ b) = delays a ++ delays b.
Proof.
  induction a as [|e a IH]; [reflexivity|].
  destruct e; cbn [app delays]; rewrite IH; reflexivity.
Qed.

Lemma processed_log (q : t) (l : LogLine) : processed (log q l) = [].
Proof. unfold log. destruct (hasLogger q); reflexivity. Qed.

Lemma delays_log (q : t) (l : LogLine) : delays (log q l) = [].
Proof. unfold log. destruct (hasLogger q); reflexivity. Qed.

(** One turn when nothing arrives: the head is processed once, and the
    backlog is the rest, with the head back in front when it failed and has
    budget left. *)
Lemma turn_quiet (w : Turn) (q : t) (j : Job) (rest : list Job) :
  arrivedWhilePosting w = [] -> arrivedWhileWaiting w = [] ->
  queue q = j :: rest ->
  hangs j w = false ->
  exists next evs,
    turn w q = (withQueue q next, evs)
    /\ processed evs = [j]
    /\ ((processPost j w = true /\ next = rest
         /\ delays evs = match rest with [] => [] | _ :: _ => [postDelay q] end)
        \/ (processPost j w = false /\ (Z.of_nat (retries j) < maxRetries q)%Z
            /\ next = bumpRetries j :: rest
            /\ delays evs = [(5000 * Z.of_nat (S (retries j)))%Z])
        \/ (processPost j w = false /\ ~ (Z.of_nat (retries j) < maxRetries q)%Z
            /\ next = rest /\ delays evs = [])).
Proof.
  intros Hp Hw Hq Hgo. unfold turn. rewrite Hq, Hp, Hw, Hgo, !app_nil_r.
  cbn [withQueue queue maxRetries postDelay].
  destruct (processPost j w).
  - destruct rest as [|b bs].
    + exists [], (log (withQueue q []) (ProcessingPost 0) ++ [Process j]).
      split; [reflexivity|].
      rewrite processed_app, delays_app, processed_log, delays_log.
      split; [reflexivity|]. left. repeat split.
    + eexists (b :: bs), _. split; [reflexivity|].
      rewrite !processed_app, !delays_app, !processed_log, !delays_log.
      split; [reflexivity|]. left. repeat split.
  - destruct (Z.ltb_spec (Z.of_nat (retries j)) (maxRetries q)) as [Hlt|Hge].
    + eexists (bumpRetries j :: rest), _. split; [reflexivity|].
      rewrite !processed_app, !delays_app, !processed_log, !delays_log.
      split; [reflexivity|]. right. left. repeat split. exact Hlt.
    + eexists rest, _. split; [reflexivity|].
      rewrite !processed_app, !delays_app, !processed_log, !delays_log.
      split; [reflexivity|]. right. right. repeat split. lia.
Qed.

Lemma withQueue_same (q : t) : withQueue q (queue q) = q.
Proof. destruct q; reflexivity. Qed.

(** The loop touches nothing but the backlog. *)
Lemma loop_keeps_settings (fuel : nat) (world : nat -> Turn) (i : nat) (q : t) :
  noArrivals world ->
  exists l, fst (fst (loop fuel world i q)) = withQueue q l.
Proof.
  intros Hquiet. revert i q.
  induction fuel as [|fuel IH]; intros i q.
  - exists (queue q). rewrite withQueue_same. cbn [loop].
    destruct (queue q); reflexivity.
  - destruct (queue q) as [|j rest] eqn:Hq.
    + exists (queue q). rewrite withQueue_same, loop_empty by exact Hq. reflexivity.
    + destruct (hangs j (world i)) eqn:Hgo.
      { rewrite (loop_hangs _ _ _ _ _ _ Hq Hgo). eexists. reflexivity. }
      rewrite (loop_step _ _ _ _ _ _ Hq Hgo).
      destruct (Hquiet i) as [Hp Hw].
      destruct (turn_quiet (world i) q j rest Hp Hw Hq Hgo)
        as (next & evs & Hturn & _).
      rewrite Hturn. destruct (IH (S i) (withQueue q next)) as [l Hl].
      destruct (loop fuel world (S i) (withQueue q next)) as [[q2 ev2] done].
      cbn [fst] in *. exists l. rewrite Hl. reflexivity.
Qed.

(** With nothing arriving, the loop hands over at most [backlogBound]
    posts. *)
Lemma loop_effort (fuel : nat) (world : nat -> Turn) (i : nat) (q : t) :
  noArrivals world ->
  List.length (processed (snd (fst (loop fuel world i q))))
  <= backlogBound (maxRetries q) (queue q).
Proof.
  intros Hquiet. revert i q.
  induction fuel as [|fuel IH]; intros i q.
  - cbn [loop]. destruct (queue q); cbn; lia.
  - destruct (queue q) as [|j rest] eqn:Hq.
    + rewrite loop_empty by (rewrite Hq; reflexivity). cbn. lia.
    + destruct (hangs j (world i)) eqn:Hgo.
      { rewrite (loop_hangs _ _ _ _ _ _ Hq Hgo). cbn [fst snd].
        rewrite processed_app, processed_log. cbn [app processed List.length].
        cbn [backlogBound]. unfold owed. lia. }
      rewrite (loop_step _ _ _ _ _ _ Hq Hgo).
      destruct (Hquiet i) as [Hp Hw].
      destruct (turn_quiet (world i) q j rest Hp Hw Hq Hgo)
        as (next & evs & Hturn & Hproc & Hcases).
      rewrite Hturn. specialize (IH (S i) (withQueue q next)).
      destruct (loop fuel world (S i) (withQueue q next)) as [[q2 ev2] done].
      cbn [fst snd] in *. rewrite processed_app, Hproc. cbn [app List.length].
      cbn [withQueue maxRetries queue] in IH.
      cbn [backlogBound].
      destruct Hcases as [(_ & -> & _) | [(_ & Hlt & -> & _) | (_ & _ & -> & _)]].
      * unfold owed. lia.
      * cbn [backlogBound] in IH. pose proof (owed_after_retry _ _ Hlt). lia.
      * unfold owed. lia.
Qed.

(** X1.  Started on an idle queue to which nothing is added meanwhile,
    [processQueue] ends when every call of a processor settles: within
    [backlogBound] turns (one per post, plus one per retry a post has
    left) the loop leaves through its guard, the backlog is empty and the
    queue is idle again, nothing else of it changed; and no more than that
    many posts were handed to [processPost].  A processor that never
    settles stops the queue for good: the loop never leaves, and
    [isProcessing] stays up. *)
Theorem processQueue_drains (fuel : nat) (world : nat -> Turn) (q : t) :
  noArrivals world ->
  isProcessing q = false ->
  backlogBound (maxRetries q) (queue q) <= fuel ->
  let r := processQueue fuel world q in
  (noStall world ->
   snd r = true
   /\ fst (fst r) = withQueue q []
   /\ List.length (processed (snd (fst r))) <= backlogBound (maxRetries q) (queue q))
  /\ (forall j rest,
        queue q = j :: rest ->
        hangs j (world 0) = true ->
        r = (withProcessing (withQueue q rest) true,
             log (withProcessing (withQueue q rest) true)
               (ProcessingPost (List.length rest)) ++ [Process j],
             false)).
Proof.
  intros Hquiet Hidle Hfuel r. subst r. unfold processQueue. rewrite Hidle.
  cbn [orb]. split.
  - intros Hsettle.
    destruct (queue q) as [|j rest] eqn:Hq.
    + cbn [List.length Nat.eqb]. cbn [fst snd processed List.length].
      repeat split; [|lia]. rewrite <- Hq. symmetry. apply withQueue_same.
    + cbn [List.length Nat.eqb].
      set (q0 := withProcessing q true).
      assert (Hq0 : queue q0 = j :: rest) by exact Hq.
      assert (Hb0 : backlogBound (maxRetries q0) (queue q0) <= fuel)
        by (rewrite Hq0; exact Hfuel).
      destruct (loop_drains fuel world 0 q0 Hquiet Hsettle Hb0) as [Hdone Hempty].
      destruct (loop_keeps_settings fuel world 0 q0 Hquiet) as [l Hl].
      pose proof (loop_effort fuel world 0 q0 Hquiet) as Heff.
      destruct (loop fuel world 0 q0) as [[q1 ev] done].
      cbn [fst snd] in *. subst done. cbn [fst snd].
      rewrite processed_app, processed_log, app_nil_r.
      rewrite Hq0 in Heff. cbn [maxRetries q0 withProcessing] in Heff.
      repeat split; [|exact Heff].
      subst q1. cbn [queue withQueue] in Hempty. subst l.
      unfold q0. destruct q; cbn in *; subst; reflexivity.
  - intros j rest Hq Hstuck. rewrite Hq in *. cbn [List.length Nat.eqb].
    destruct fuel as [|fuel]; [cbn [backlogBound] in Hfuel; unfold owed in Hfuel; lia|].
    set (q0 := withProcessing q true).
    assert (Hq0 : queue q0 = j :: rest) by exact Hq.
    rewrite (loop_hangs _ _ _ _ _ _ Hq0 Hstuck).
    destruct (Hquiet 0) as [-> _]. rewrite app_nil_r.
    unfold q0. destruct q; reflexivity.
Qed.

Lemma processQueue_drains_witness :
  let q := withQueue (new (Config.queue_of Config.unset)) [firstJob; secondJob] in
  snd (processQueue 6 (fun _ => quiet false) q) = true
  /\ snd (processQueue 6 (fun _ => stalled) q) = false
  /\ isProcessing (fst (fst (processQueue 6 (fun _ => stalled) q))) = true.
Proof.
  intros q. split.
  - apply (proj1 (processQueue_drains 6 (fun _ => quiet false) q
                    (fun _ => conj eq_refl eq_refl) eq_refl ltac:(vm_compute; lia))).
    intros k. reflexivity.
  - rewrite (proj2 (processQueue_drains 6 (fun _ => stalled) q
                      (fun _ => conj eq_refl eq_refl) eq_refl
                      ltac:(vm_compute; lia)) firstJob [secondJob] eq_refl eq_refl).
    split; reflexivity.
Defined.

Lemma blocks_cons (j : Job) (n : nat) (backlog : list Job) (counts : list nat) :
  blocks (j :: backlog) (n :: counts) = repeat (id j) n ++ blocks backlog counts.
Proof. reflexivity. Qed.

(** The order of processing when nothing arrives: post after post in the
    order of the backlog, each one tried in one uninterrupted block. *)
Lemma loop_in_order (fuel : nat) (world : nat -> Turn) (i : nat) (q : t) :
  noArrivals world ->
  snd (loop fuel world i q) = true ->
  exists counts,
    Forall2 (fun j n => 1 <= n <= owed (maxRetries q) j) (queue q) counts
    /\ map id (processed (snd (fst (loop fuel world i q))))
       = blocks (queue q) counts.
Proof.
  intros Hquiet. revert i q.
  induction fuel as [|fuel IH]; intros i q Hdone.
  - cbn [loop] in *. destruct (queue q) as [|j rest]; [|discriminate].
    exists []. split; [constructor | reflexivity].
  - destruct (queue q) as [|j rest] eqn:Hq.
    + rewrite loop_empty by exact Hq. exists []. split; [constructor | reflexivity].
    + destruct (hangs j (world i)) eqn:Hgo.
      { rewrite (loop_hangs _ _ _ _ _ _ Hq Hgo) in Hdone. discriminate. }
      rewrite (loop_step _ _ _ _ _ _ Hq Hgo) in *.
      destruct (Hquiet i) as [Hp Hw].
      destruct (turn_quiet (world i) q j rest Hp Hw Hq Hgo)
        as (next & evs & Hturn & Hproc & Hcases).
      rewrite Hturn in *. specialize (IH (S i) (withQueue q next)).
      destruct (loop fuel world (S i) (withQueue q next)) as [[q2 ev2] done].
      cbn [fst snd] in *. specialize (IH Hdone).
      destruct IH as (counts & Hall & Hids).
      cbn [withQueue maxRetries queue] in Hall, Hids.
      rewrite processed_app, map_app, Hproc, Hids. cbn [map app].
      assert (Hrest : next = rest -> exists counts0,
                 Forall2 (fun j n => 1 <= n <= owed (maxRetries q) j)
                   (j :: rest) counts0
                 /\ id j :: blocks next counts = blocks (j :: rest) counts0).
      { intros ->. exists (1 :: counts). split; [|reflexivity].
        constructor; [unfold owed; lia | exact Hall]. }
      destruct Hcases as [(_ & Hn & _) | [(_ & Hlt & -> & _) | (_ & _ & Hn & _)]];
        [exact (Hrest Hn) | | exact (Hrest Hn)].
      inversion Hall as [|j' n rest' counts' Hn Hall' E1 E2]. subst.
      exists (S n :: counts'). split.
      * constructor; [|exact Hall'].
        pose proof (owed_after_retry _ _ Hlt). lia.
      * rewrite !blocks_cons. reflexivity.
Qed.

(** X2.  Posts are processed in the order of the backlog, first in,
    first out, and a post that is retried comes again before any other:
    when nothing arrives meanwhile, the ids handed to [processPost] are
    those of the backlog in order, each in one uninterrupted block of at
    least one and at most as many tries as it has left. *)
Theorem posts_are_processed_in_order (fuel : nat) (world : nat -> Turn) (q : t) :
  noArrivals world ->
  isProcessing q = false ->
  snd (processQueue fuel world q) = true ->
  exists counts,
    Forall2 (fun j n => 1 <= n <= owed (maxRetries q) j) (queue q) counts
    /\ map id (processed (snd (fst (processQueue fuel world q))))
       = blocks (queue q) counts.
Proof.
  intros Hquiet Hidle. unfold processQueue. rewrite Hidle. cbn [orb].
  destruct (queue q) as [|j rest] eqn:Hq.
  - intros _. exists []. split; [constructor | reflexivity].
  - cbn [List.length Nat.eqb].
    set (q0 := withProcessing q true).
    assert (Hq0 : queue q0 = j :: rest) by exact Hq.
    pose proof (loop_in_order fuel world 0 q0 Hquiet) as Hord.
    destruct (loop fuel world 0 q0) as [[q1 ev] done].
    cbn [fst snd] in *. destruct done; cbn [fst snd]; [|discriminate].
    intros _. destruct (Hord eq_refl) as (counts & Hall & Hids).
    exists counts. rewrite Hq0 in Hall, Hids.
    rewrite processed_app, processed_log, app_nil_r. split; assumption.
Qed.

Lemma posts_are_processed_in_order_witness :
  let q := withQueue (new (Config.queue_of Config.unset)) [firstJob; secondJob] in
  exists counts,
    map id (processed (snd (fst (processQueue 6 (fun _ => quiet false) q))))
    = blocks [firstJob; secondJob] counts.
Proof.
  intros q.
  destruct (posts_are_processed_in_order 6 (fun _ => quiet false) q
              (fun _ => conj eq_refl eq_refl) eq_refl eq_refl)
    as (counts & _ & Hids).
  exists counts. exact Hids.
Defined.

(** A post whose processing fails every time, alone in the backlog. *)
Lemma loop_failing (fuel : nat) (world : nat -> Turn) (i : nat) (q : t) (j : Job)
  (n : nat) :
  noArrivals world ->
  (forall k r, processPost (withRetries j r) (world k) = false) ->
  (forall k r, hangs (withRetries j r) (world k) = false) ->
  forall r,
    queue q = [withRetries j r] ->
    (Z.of_nat r <= maxRetries q)%Z ->
    n = Z.to_nat (maxRetries q - Z.of_nat r) ->
    n < fuel ->
    loop fuel world i q
    = (withQueue q [], snd (fst (loop fuel world i q)), true)
    /\ processed (snd (fst (loop fuel world i q)))
       = map (withRetries j) (seq r (S n))
    /\ delays (snd (fst (loop fuel world i q)))
       = map (fun k => (5000 * Z.of_nat k)%Z) (seq (S r) n).
Proof.
  intros Hquiet Hfail Hgo. revert fuel i q.
  induction n as [|n IH]; intros fuel i q r Hq Hle Hn Hfuel;
    (destruct fuel as [|fuel]; [lia|]);
    rewrite (loop_step _ _ _ _ _ _ Hq (Hgo i r));
    destruct (Hquiet i) as [Hp Hw];
    destruct (turn_quiet (world i) q _ [] Hp Hw Hq (Hgo i r))
      as (next & evs & Hturn & Hproc & Hcases);
    rewrite Hturn;
    destruct Hcases as [(Hok & _) | [(_ & Hlt & -> & Hd) | (_ & Hge & -> & Hd)]];
    try (rewrite Hfail in Hok; discriminate);
    cbn [retries withRetries] in *; try lia.
  - rewrite loop_empty by reflexivity. cbn [fst snd].
    rewrite app_nil_r, Hproc, Hd. repeat split.
  - assert (Hq1 : queue (withQueue q [bumpRetries (withRetries j r)])
                  = [withRetries j (S r)]) by reflexivity.
    destruct (IH fuel (S i) _ (S r) Hq1) as (Hrun & Hp1 & Hd1);
      cbn [withQueue maxRetries]; try lia.
    destruct (loop fuel world (S i) (withQueue q [bumpRetries (withRetries j r)]))
      as [[q2 ev2] done].
    cbn [fst snd] in *. injection Hrun as -> ->.
    rewrite processed_app, delays_app, Hproc, Hd, Hp1, Hd1.
    repeat split.
Qed.

(** X3.  A post that cannot be processed (it has no [processor]
    function, as the posts [TelegramListener.addToQueue] hands over, or
    its processor rejects every time) is not kept for ever: alone in the
    backlog it is handed to [processPost] once per count from its own up
    to [maxRetries], the queue waits 5000 ms times the new count after
    each failure but the last, and then the post is dropped and the queue
    is idle and empty. *)
Theorem failing_post_is_tried_then_dropped (fuel : nat) (world : nat -> Turn)
  (q : t) (j : Job) :
  noArrivals world ->
  isProcessing q = false ->
  queue q = [j] ->
  hasProcessor j = false \/ (forall k, resolves (world k) = false) ->
  (Z.of_nat (retries j) <= maxRetries q)%Z ->
  let n := Z.to_nat (maxRetries q - Z.of_nat (retries j)) in
  n < fuel ->
  let r := processQueue fuel world q in
  processed (snd (fst r)) = map (withRetries j) (seq (retries j) (S n))
  /\ delays (snd (fst r)) = map (fun k => (5000 * Z.of_nat k)%Z) (seq (S (retries j)) n)
  /\ fst (fst r) = withQueue q []
  /\ snd r = true.
Proof.
  intros Hquiet Hidle Hq Hfail Hle n Hfuel r. subst r.
  unfold processQueue. rewrite Hidle, Hq. cbn [orb List.length Nat.eqb].
  set (q0 := withProcessing q true).
  assert (Hj : j = withRetries j (retries j)) by (destruct j; reflexivity).
  assert (Hq0 : queue q0 = [withRetries j (retries j)]) by (rewrite <- Hj; exact Hq).
  assert (Hnever : forall k r, processPost (withRetries j r) (world k) = false).
  { intros k r. unfold processPost. cbn [withRetries hasProcessor].
    destruct Hfail as [-> | Hall]; [reflexivity|].
    rewrite Hall. destruct (hasProcessor j); reflexivity. }
  assert (Hgo : forall k r, hangs (withRetries j r) (world k) = false).
  { intros k r. unfold hangs. cbn [withRetries hasProcessor].
    destruct Hfail as [-> | Hall]; [reflexivity|].
    rewrite Hall. destruct (hasProcessor j); reflexivity. }
  destruct (loop_failing fuel world 0 q0 j n Hquiet Hnever Hgo (retries j) Hq0 Hle
              eq_refl Hfuel) as (Hrun & Hp & Hd).
  destruct (loop fuel world 0 q0) as [[q1 ev] done].
  cbn [fst snd] in *. injection Hrun as -> ->. cbn [fst snd].
  rewrite processed_app, delays_app, processed_log, delays_log, !app_nil_r.
  repeat split; try assumption.
  unfold q0. destruct q; cbn in *; subst; reflexivity.
Qed.

Lemma failing_post_is_tried_then_dropped_witness :
  let q := withQueue (new (Config.queue_of Config.unset)) [listenerPost] in
  let r := processQueue 3 (fun _ => quiet true) q in
  processed (snd (fst r))
  = [listenerPost; withRetries listenerPost 1; withRetries listenerPost 2]
  /\ delays (snd (fst r)) = [5000; 10000]%Z
  /\ fst (fst r) = withQueue q []
  /\ snd r = true.
Proof.
  intros q.
  apply (failing_post_is_tried_then_dropped 3 (fun _ => quiet true) q listenerPost
           (fun _ => conj eq_refl eq_refl) eq_refl eq_refl (or_introl eq_refl)).
  - vm_compute. discriminate.
  - vm_compute. lia.
Defined.

End QueueRuns.

(** ** Hashtags *)

Module HashtagFacts.
Import HashtagPattern HashtagBuilder JsStringFacts.
Local Open Scope string_scope.

Lemma word_is_no_hash (c : ascii) : isWordChar c = true -> isHash c = false.
Proof.
  unfold isWordChar, isHash. cbv zeta.
  destruct (Nat.eqb_spec (nat_of_ascii c) 35) as [->|]; [|reflexivity].
  cbn. discriminate.
Qed.

Lemma scan_run_words (s : string) : allWordChars (run (scan s)) = true.
Proof.
  induction s as [|c rest IH]; [reflexivity|].
  cbn [scan]. destruct (isWordChar c) eqn:Hc.
  - cbn [run allWordChars]. rewrite Hc, IH. reflexivity.
  - destruct (isHash c); [destruct (run (scan rest))|]; reflexivity.
Qed.

(** Every match is a well-formed hashtag. *)
Lemma scan_tags_wellformed (s : string) :
  Forall (fun tag => isHashtag tag = true) (tags (scan s)).
Proof.
  induction s as [|c rest IH]; [constructor|].
  cbn [scan]. destruct (isWordChar c) eqn:Hc; [exact IH|].
  destruct (isHash c) eqn:Hh; [|exact IH].
  pose proof (scan_run_words rest) as Hrun.
  destruct (run (scan rest)) as [|d w]; [exact IH|].
  cbn [tags]. constructor; [|exact IH].
  cbn [isHashtag allWordChars] in *. rewrite Hh. cbn [andb]. exact Hrun.
Qed.

(** Nothing is lost: the text that is kept and the matches add up to the
    string. *)
Lemma scan_lengths (s : string) :
  String.length s
  = String.length (run (scan s)) + String.length (kept (scan s))
    + totalLength (tags (scan s)).
Proof.
  induction s as [|c rest IH]; [reflexivity|].
  cbn [scan String.length]. rewrite IH.
  destruct (isWordChar c).
  - cbn [run kept tags String.length]. lia.
  - destruct (isHash c).
    + destruct (run (scan rest)) as [|d w];
        cbn [run kept tags String.length totalLength]; lia.
    + cbn [run kept tags String.length]. rewrite length_append. lia.
Qed.

Lemma hasHashtag_cons (c : ascii) (s : string) :
  hasHashtag (String c s) = (isHash c && startsWithWord s) || hasHashtag s.
Proof. reflexivity. Qed.

(** A run of word characters in front changes nothing. *)
Lemma hasHashtag_after_words (w s : string) :
  allWordChars w = true -> hasHashtag (w ++ s) = hasHashtag s.
Proof.
  induction w as [|c w IH]; [reflexivity|].
  cbn [allWordChars]. intros [Hc Hw]%andb_prop.
  change (String c w ++ s) with (String c (w ++ s)).
  rewrite hasHashtag_cons, (word_is_no_hash _ Hc). cbn [andb orb]. exact (IH Hw).
Qed.

Lemma scan_kept_clean (s : string) :
  hasHashtag (kept (scan s)) = false /\ startsWithWord (kept (scan s)) = false.
Proof.
  induction s as [|c rest [IH1 IH2]]; [split; reflexivity|].
  cbn [scan]. destruct (isWordChar c) eqn:Hc; [split; assumption|].
  destruct (isHash c) eqn:Hh.
  - destruct (run (scan rest)) as [|d w]; cbn [kept]; [|split; assumption].
    rewrite hasHashtag_cons, IH1, IH2, andb_false_r. cbn [startsWithWord].
    rewrite Hc. split; reflexivity.
  - cbn [kept]. rewrite hasHashtag_cons, Hh. cbn [andb orb startsWithWord].
    rewrite Hc, (hasHashtag_after_words _ _ (scan_run_words rest)).
    split; [exact IH1 | reflexivity].
Qed.

(** A string without a match: nothing is found and nothing is taken out. *)
Lemma scan_without_hashtag (s : string) :
  hasHashtag s = false ->
  tags (scan s) = [] /\ run (scan s) ++ kept (scan s) = s.
Proof.
  induction s as [|c rest IH]; [split; reflexivity|].
  rewrite hasHashtag_cons. intros [Hhere Hrest]%orb_false_elim.
  destruct (IH Hrest) as [Htags Hsame].
  cbn [scan]. destruct (isWordChar c) eqn:Hc.
  - cbn [run kept tags]. split; [exact Htags|].
    change (String c (run (scan rest)) ++ kept (scan rest))
      with (String c (run (scan rest) ++ kept (scan rest))).
    rewrite Hsame. reflexivity.
  - destruct (isHash c) eqn:Hh.
    + cbn [andb] in Hhere.
      destruct (run (scan rest)) as [|d w] eqn:Hrun.
      * cbn [run kept tags]. split; [exact Htags|].
        cbn [append] in *. rewrite Hsame. reflexivity.
      * exfalso. pose proof (scan_run_words rest) as Hw. rewrite Hrun in Hw.
        cbn [allWordChars] in Hw. apply andb_prop in Hw as [Hd _].
        rewrite <- Hsame in Hhere. cbn [append startsWithWord] in Hhere.
        congruence.
    + cbn [run kept tags]. split; [exact Htags|].
      cbn [append]. rewrite Hsame. reflexivity.
Qed.

(** X6.  What [/#[a-zA-Z0-9_]+/g] finds in a caption: every match is a
    [#] followed by word characters only, at least one; the matches and
    what [replace] leaves add up to the length of the caption; and there is
    no match exactly when no [#] has a word character right after it. *)
Theorem matched_hashtags_are_wellformed (s : string) :
  Forall (fun tag => isHashtag tag = true) (matchHashtags s)
  /\ String.length s
     = String.length (removeHashtags s) + totalLength (matchHashtags s)
  /\ (matchHashtags s = [] <-> hasHashtag s = false).
Proof.
  unfold matchHashtags, removeHashtags. split; [apply scan_tags_wellformed|].
  split; [rewrite length_append; apply scan_lengths|].
  split; [|intros H; apply (scan_without_hashtag s H)].
  induction s as [|c rest IH]; [reflexivity|].
  rewrite hasHashtag_cons. cbn [scan].
  destruct (isWordChar c) eqn:Hc.
  - cbn [tags]. rewrite (word_is_no_hash _ Hc). exact IH.
  - destruct (isHash c) eqn:Hh.
    + pose proof (scan_run_words rest) as Hw.
      destruct (run (scan rest)) as [|d w] eqn:Hrun; cbn [tags];
        [|discriminate].
      intros Ht. rewrite (IH Ht), orb_false_r. cbn [andb].
      destruct (scan_without_hashtag rest (IH Ht)) as [_ Hsame].
      rewrite Hrun in Hsame. cbn [append] in Hsame. rewrite <- Hsame.
      apply (proj2 (scan_kept_clean rest)).
    + cbn [tags andb orb]. exact IH.
Qed.

(** X7.  Taking the hashtags out of a caption leaves no hashtag behind:
    the pattern matches nowhere in the result, whatever ends up side by
    side, so taking them out again changes nothing. *)
Theorem removeHashtags_leaves_none (s : string) :
  hasHashtag (removeHashtags s) = false
  /\ matchHashtags (removeHashtags s) = []
  /\ removeHashtags (removeHashtags s) = removeHashtags s.
Proof.
  assert (H : hasHashtag (removeHashtags s) = false).
  { unfold removeHashtags.
    rewrite (hasHashtag_after_words _ _ (scan_run_words s)).
    apply scan_kept_clean. }
  split; [exact H|]. unfold matchHashtags.
  destruct (scan_without_hashtag _ H) as [Ht Hs]. split; assumption.
Qed.

(** *** The hashtag list *)

Lemma existsb_eqb (x : string) (l : list string) :
  existsb (String.eqb x) l = true <-> In x l.
Proof.
  rewrite existsb_exists. split.
  - intros (y & Hy & Heq). apply String.eqb_eq in Heq. subst. exact Hy.
  - intros H. exists x. split; [exact H | apply String.eqb_refl].
Qed.

Lemma fold_setAdd_extends (l acc : list string) :
  exists more, fold_left setAdd l acc = (acc ++ more)%list.
Proof.
  revert acc. induction l as [|x l IH]; intros acc.
  - exists []. cbn. rewrite app_nil_r. reflexivity.
  - cbn [fold_left]. unfold setAdd at 2.
    destruct (existsb (String.eqb x) acc); [apply IH|].
    destruct (IH (acc ++ [x])%list) as [more Hm].
    exists (x :: more). rewrite Hm, <- app_assoc. reflexivity.
Qed.

Lemma In_fold_setAdd (x : string) (l acc : list string) :
  In x (fold_left setAdd l acc) <-> In x acc \/ In x l.
Proof.
  revert acc. induction l as [|y l IH]; intros acc.
  - cbn. tauto.
  - cbn [fold_left]. rewrite IH. unfold setAdd.
    destruct (existsb (String.eqb y) acc) eqn:Hy.
    + apply existsb_eqb in Hy. cbn [In]. split; [tauto|].
      intros [H|[->|H]]; tauto.
    + rewrite in_app_iff. cbn [In]. tauto.
Qed.

Lemma NoDup_fold_setAdd (l acc : list string) :
  NoDup acc -> NoDup (fold_left setAdd l acc).
Proof.
  revert acc. induction l as [|y l IH]; intros acc Hacc; [exact Hacc|].
  cbn [fold_left]. apply IH. unfold setAdd.
  destruct (existsb (String.eqb y) acc) eqn:Hy; [exact Hacc|].
  assert (Hnot : ~ In y acc).
  { intros Hin. apply existsb_eqb in Hin. congruence. }
  clear Hy. induction acc as [|a acc IHa]; cbn [app].
  - constructor; [intros []|constructor].
  - inversion Hacc as [|? ? Ha Hacc']; subst. constructor.
    + rewrite in_app_iff. cbn [In]. intros [H|[H|[]]]; [tauto|].
      apply Hnot. left. symmetry. exact H.
    + apply IHa; [exact Hacc'|]. intros H. apply Hnot. right. exact H.
Qed.

(** Elements that are in the set already change nothing. *)
Lemma fold_setAdd_absorbs (l acc : list string) :
  (forall x, In x l -> In x acc) -> fold_left setAdd l acc = acc.
Proof.
  induction l as [|y l IH]; intros Hall; [reflexivity|].
  cbn [fold_left]. unfold setAdd at 2.
  assert (Hy : existsb (String.eqb y) acc = true)
    by (apply existsb_eqb, Hall; left; reflexivity).
  rewrite Hy. apply IH. intros x Hx. apply Hall. right. exact Hx.
Qed.

Lemma setOf_app (a b : list string) :
  setOf (a ++ b) = fold_left setAdd b (setOf a).
Proof. unfold setOf. apply fold_left_app. Qed.

Lemma NoDup_setOf (l : list string) : NoDup (setOf l).
Proof. apply NoDup_fold_setAdd. constructor. Qed.

Lemma In_setOf (x : string) (l : list string) : In x (setOf l) <-> In x l.
Proof. unfold setOf. rewrite In_fold_setAdd. cbn [In]. tauto. Qed.

Lemma In_firstn_incl {A} (n : nat) (l : list A) (x : A) :
  In x (firstn n l) -> In x l.
Proof.
  revert l. induction n as [|n IH]; intros [|a l]; cbn [firstn In]; try tauto.
  intros [H|H]; [left; exact H | right; apply IH, H].
Qed.

Lemma NoDup_firstn_of {A} (n : nat) (l : list A) : NoDup l -> NoDup (firstn n l).
Proof.
  revert l. induction n as [|n IH]; intros [|a l] H; cbn [firstn];
    try constructor.
  - inversion H; subst. intros Hin. apply In_firstn_incl in Hin. contradiction.
  - inversion H; subst. apply IH. assumption.
Qed.

(** X8.  [buildHashtags] returns at most fifteen hashtags, each of them
    from the channel hashtags, the fixed hashtags, the first six filtered
    trending hashtags or the first four presets (from the four fallback
    hashtags when a source throws); without a throw no hashtag is returned
    twice. *)
Theorem buildHashtags_limits (channelHashtags : list string)
  (sources : option (list string * list string)) :
  let result := buildHashtags channelHashtags sources in
  List.length result <= 15
  /\ (forall x, In x result ->
        In x channelHashtags \/ In x fixedHashtags
        \/ match sources with
           | Some (filtered, preset) =>
               In x (slice 6 filtered) \/ In x (slice 4 preset)
           | None => In x fallbackHashtags
           end)
  /\ match sources with
     | Some _ => NoDup result
     | None => True
     end.
Proof.
  intros result. subst result. unfold buildHashtags, slice.
  destruct sources as [[filtered preset]|].
  - split; [apply firstn_le_length|]. split.
    + intros x Hx. apply In_firstn_incl in Hx.
      rewrite In_setOf, !in_app_iff in Hx. tauto.
    + apply NoDup_firstn_of, NoDup_setOf.
  - split; [apply firstn_le_length|]. split; [|exact I].
    intros x Hx. apply In_firstn_incl in Hx. rewrite !in_app_iff in Hx. tauto.
Qed.

(** The set of the combined list starts with the set of the channel
    hashtags; the fixed hashtag follows at once unless it is among them. *)
Lemma allHashtags_start (channelHashtags rest : list string) :
  exists more,
    setOf (channelHashtags ++ fixedHashtags ++ rest)
    = (setOf channelHashtags ++ more)%list
    /\ (In "#MuseOfCurves" (setOf channelHashtags)
        \/ exists m, more = "#MuseOfCurves" :: m).
Proof.
  rewrite setOf_app.
  set (A := setOf channelHashtags).
  change (fixedHashtags ++ rest)%list with ("#MuseOfCurves" :: rest)%list.
  cbn [fold_left].
  destruct (fold_setAdd_extends rest (setAdd A "#MuseOfCurves")) as [more Hmore].
  rewrite Hmore. unfold setAdd.
  destruct (existsb (String.eqb "#MuseOfCurves") A) eqn:Hin.
  - exists more. split; [reflexivity|]. left. apply existsb_eqb, Hin.
  - exists ("#MuseOfCurves" :: more). rewrite <- app_assoc.
    split; [reflexivity|]. right. exists more. reflexivity.
Qed.

(** X9.  The channel hashtags have priority: the result is the first
    fifteen of a list that starts with the distinct channel hashtags in
    the order of their first occurrence.  The fixed hashtag is in the
    result when there are fewer than fifteen distinct channel hashtags;
    with fifteen or more the result consists of channel hashtags only, and
    the fixed hashtag is left out unless it is one of them. *)
Theorem channel_hashtags_come_first (channelHashtags filtered preset : list string) :
  let result := buildHashtags channelHashtags (Some (filtered, preset)) in
  (exists more, result = slice 15 (setOf channelHashtags ++ more))
  /\ (List.length (setOf channelHashtags) < 15 -> In "#MuseOfCurves" result)
  /\ (15 <= List.length (setOf channelHashtags) ->
      result = slice 15 (setOf channelHashtags)
      /\ (~ In "#MuseOfCurves" channelHashtags -> ~ In "#MuseOfCurves" result)).
Proof.
  intros result. subst result. unfold buildHashtags, slice.
  destruct (allHashtags_start channelHashtags (firstn 6 filtered ++ firstn 4 preset))
    as (more & -> & Hfixed).
  set (A := setOf channelHashtags) in *.
  split; [exists more; reflexivity|]. split.
  - intros Hlen. rewrite firstn_app.
    rewrite (firstn_all2 (n := 15) A) by lia.
    apply in_or_app. destruct Hfixed as [Hin | [m ->]]; [left; exact Hin|].
    right. destruct (15 - List.length A) as [|k] eqn:Hk; [lia|].
    left. reflexivity.
  - intros Hlen.
    assert (Hcut : firstn 15 (A ++ more) = firstn 15 A).
    { rewrite firstn_app. replace (15 - List.length A) with 0 by lia.
      cbn [firstn]. apply app_nil_r. }
    split; [exact Hcut|]. rewrite Hcut. intros Hnot Hin.
    apply In_firstn_incl in Hin. unfold A in Hin. rewrite In_setOf in Hin.
    contradiction.
Qed.

Lemma channel_hashtags_come_first_witness :
  In "#MuseOfCurves"
    (buildHashtags ["#curves"; "#art"; "#curves"] (Some (["#viral"], ["#model"]))).
Proof.
  apply (proj1 (proj2 (channel_hashtags_come_first ["#curves"; "#art"; "#curves"]
                         ["#viral"] ["#model"]))).
  vm_compute. lia.
Defined.

(** X10.  The hashtags of a caption reach [buildHashtags] twice, once
    from [processAndPost] and once from [buildCaption]; without a throw the
    doubling changes nothing: the result is that of the matches passed
    once, and it starts with the distinct matches in the order of the
    caption, each a well-formed hashtag. *)
Theorem caption_hashtags_count_once (caption : string)
  (filtered preset : list string) :
  hashtagsForCaption caption (Some (filtered, preset))
  = buildHashtags (matchHashtags caption) (Some (filtered, preset))
  /\ (exists more,
        hashtagsForCaption caption (Some (filtered, preset))
        = slice 15 (setOf (matchHashtags caption) ++ more))
  /\ Forall (fun tag => isHashtag tag = true) (setOf (matchHashtags caption)).
Proof.
  unfold hashtagsForCaption.
  set (h := matchHashtags caption).
  assert (Hsame : buildHashtags (h ++ h) (Some (filtered, preset))
                  = buildHashtags h (Some (filtered, preset))).
  { unfold buildHashtags. f_equal. rewrite <- app_assoc.
    rewrite (setOf_app h), (setOf_app h), fold_left_app.
    rewrite (fold_setAdd_absorbs h (setOf h)); [reflexivity|].
    intros x Hx. apply In_setOf, Hx. }
  split; [exact Hsame|]. rewrite Hsame. split.
  - unfold buildHashtags.
    destruct (allHashtags_start h (slice 6 filtered ++ slice 4 preset))
      as (more & -> & _).
    exists more. reflexivity.
  - apply Forall_forall. intros x Hx. rewrite In_setOf in Hx.
    pose proof (scan_tags_wellformed caption) as Hwf.
    rewrite Forall_forall in Hwf. apply Hwf, Hx.
Qed.

End HashtagFacts.

(** ** Captions and settings *)

Module CaptionShape.
Import JsString CaptionBuilder JsStringFacts CaptionFacts.
Local Open Scope string_scope.

(** X5.  A caption that has to be cut, with hashtags that leave room for
    the ellipsis: the result is the first [275 - length hashtags] units of
    the caption, the ellipsis, two line breaks and the hashtag string, and
    it is exactly 280 units long. *)
Theorem truncated_caption_fills_the_limit (caption : string) (hashtags : list string) :
  let h := join " " hashtags in
  (Z.of_nat (String.length h) + 5 <= maxCaptionLength_const)%Z ->
  (maxCaptionLength_const < Z.of_nat (String.length (untruncated caption hashtags)))%Z ->
  combineWithHashtags caption hashtags
  = (String.substring 0 (275 - String.length h) caption ++ "...")
      ++ newline ++ newline ++ h
  /\ String.length (String.substring 0 (275 - String.length h) caption)
     = 275 - String.length h
  /\ String.length (combineWithHashtags caption hashtags) = 280.
Proof.
  intros h Hroom Hlong. unfold maxCaptionLength_const in *.
  assert (Hun : String.length (untruncated caption hashtags)
                = (String.length caption + 2 + String.length h)%nat).
  { unfold untruncated. rewrite !length_append. simpl. fold h. lia. }
  rewrite Hun in Hlong.
  assert (Hcut : (Z.of_nat (String.length caption)
                  >? 280 - Z.of_nat (String.length h) - 2)%Z = true).
  { apply Z.gtb_lt. lia. }
  assert (Hn : Z.to_nat (280 - Z.of_nat (String.length h) - 2 - 3)
               = 275 - String.length h) by lia.
  assert (Hshape : combineWithHashtags caption hashtags
                   = (String.substring 0 (275 - String.length h) caption ++ "...")
                       ++ newline ++ newline ++ h).
  { unfold combineWithHashtags, maxCaptionLength_const. fold h. rewrite Hcut.
    f_equal. f_equal. unfold substring, clampIndex. rewrite Hn.
    cbn [Z.to_nat]. rewrite Nat.min_0_l, Nat.min_0_l, Nat.max_0_l, Nat.sub_0_r.
    f_equal. lia. }
  assert (Hpre : String.length (String.substring 0 (275 - String.length h) caption)
                 = 275 - String.length h).
  { rewrite length_prefix. lia. }
  split; [exact Hshape|]. split; [exact Hpre|].
  rewrite Hshape, !length_append, Hpre. unfold newline.
  cbn [String.length]. fold h. lia.
Qed.

Lemma truncated_caption_fills_the_limit_witness :
  String.length
    (combineWithHashtags (replicate 300 "a"%char) ["#MuseOfCurves"; "#aesthetic"])
  = 280.
Proof.
  apply (truncated_caption_fills_the_limit (replicate 300 "a"%char)
           ["#MuseOfCurves"; "#aesthetic"]).
  - vm_compute. discriminate.
  - vm_compute. reflexivity.
Defined.

End CaptionShape.

Module ConfigFacts.

Lemma orDefault_nonzero (v : option Z) (d : Z) : d <> 0%Z -> Config.orDefault v d <> 0%Z.
Proof.
  intros Hd. unfold Config.orDefault. destruct v as [[| |]|]; try assumption; discriminate.
Qed.

Lemma orDefault_again (v : option Z) (d : Z) :
  d <> 0%Z -> Config.orDefault (Some (Config.orDefault v d)) d = Config.orDefault v d.
Proof.
  intros Hd. unfold Config.orDefault. destruct v as [[| |]|]; try reflexivity;
    destruct d; try reflexivity; contradiction.
Qed.

(** X4.  Zero is never a setting: [parseInt(...) || default] in
    [config.js] and [config.x || default] in the constructors turn a
    configured 0 into the default, so neither the queue nor the poster can
    be configured with no retries or no delay; any other number is taken as
    it is. *)
Theorem zero_is_never_a_setting (env : Config.environment) (logger : bool) :
  let q := QueueManager.new (Config.queue_of env) in
  let p := TwitterPoster.new (Config.twitter_of env) logger in
  QueueManager.postDelay q <> 0%Z
  /\ QueueManager.maxRetries q <> 0%Z
  /\ TwitterPoster.maxRetries p <> 0%Z
  /\ TwitterPoster.retryDelay p <> 0%Z
  /\ (Config.QUEUE_MAX_RETRIES env = Some 0%Z -> QueueManager.maxRetries q = 2%Z)
  /\ (Config.QUEUE_POST_DELAY env = Some 0%Z -> QueueManager.postDelay q = 20000%Z)
  /\ (Config.TWITTER_MAX_RETRIES env = Some 0%Z -> TwitterPoster.maxRetries p = 2%Z)
  /\ (forall n, n <> 0%Z -> Config.QUEUE_MAX_RETRIES env = Some n ->
                QueueManager.maxRetries q = n).
Proof.
  intros q p. subst q p.
  unfold QueueManager.new, TwitterPoster.new, Config.queue_of, Config.twitter_of.
  cbn [QueueManager.postDelay QueueManager.maxRetries TwitterPoster.maxRetries
       TwitterPoster.retryDelay Config.postDelay Config.maxRetries
       Config.tw_maxRetries Config.tw_retryDelay].
  repeat split; try (apply orDefault_nonzero; discriminate).
  - intros ->. reflexivity.
  - intros ->. reflexivity.
  - intros ->. reflexivity.
  - intros n Hn ->. rewrite orDefault_again by discriminate.
    destruct n; [contradiction | reflexivity | reflexivity].
Qed.

Lemma zero_is_never_a_setting_witness :
  QueueManager.maxRetries
    (QueueManager.new
       (Config.queue_of
          {| Config.QUEUE_POST_DELAY := None;
             Config.QUEUE_MAX_RETRIES := Some 0%Z;
             Config.QUEUE_RETRY_DELAY := None;
             Config.TWITTER_MAX_RETRIES := None;
             Config.TWITTER_RETRY_DELAY := None |})) = 2%Z.
Proof.
  apply (proj1 (proj2 (proj2 (proj2 (proj2
           (zero_is_never_a_setting
              {| Config.QUEUE_POST_DELAY := None;
                 Config.QUEUE_MAX_RETRIES := Some 0%Z;
                 Config.QUEUE_RETRY_DELAY := None;
                 Config.TWITTER_MAX_RETRIES := None;
                 Config.TWITTER_RETRY_DELAY := None |} true)))))).
  reflexivity.
Defined.

End ConfigFacts.

(** ** Rules for tasks: errors, the clock and counted events *)

Module AsyncRules.
Import Async AsyncFacts.
Local Open Scope async_scope.

Section Rules.
Context {State Event : Type}.
Let Task := M State Event.

Lemma bind_await_rejects {A B} (c : Call A) (k : A -> Task B) (e : string) t s :
  answer c = Rejects e ->
  bind (await c) k t s = ([], Settled (t + took c)%N s (inl e)).
Proof. intros Hc. unfold bind, await. rewrite Hc. reflexivity. Qed.

Lemma bind_await_never {A B} (c : Call A) (k : A -> Task B) t s :
  answer c = NeverSettles ->
  bind (await c) k t s = ([], Pending s).
Proof. intros Hc. unfold bind, await. rewrite Hc. reflexivity. Qed.

Lemma fueled_pending {A} : fueled (@pending State Event A).
Proof. intros t s. discriminate. Qed.

Lemma neverThrows_outOfFuel {A} : neverThrows (@outOfFuel State Event A).
Proof. intros t s t1 s1 e. discriminate. Qed.

Lemma neverThrows_ret {A} (a : A) : neverThrows (ret a : Task A).
Proof. intros t s t1 s1 e. discriminate. Qed.

Lemma neverThrows_pending {A} : neverThrows (@pending State Event A).
Proof. intros t s t1 s1 e. discriminate. Qed.

Lemma neverThrows_get : neverThrows (@get State Event).
Proof. intros t s t1 s1 e. discriminate. Qed.

Lemma neverThrows_emit (e : Event) : neverThrows (@emit State Event e).
Proof. intros t s t1 s1 e'. discriminate. Qed.

Lemma neverThrows_update f (e : Event) : neverThrows (@update State Event f e).
Proof. intros t s t1 s1 e'. discriminate. Qed.

Lemma neverThrows_wait ms : neverThrows (@wait State Event ms).
Proof. intros t s t1 s1 e. discriminate. Qed.

Lemma neverThrows_bind {A B} (m : Task A) (k : A -> Task B) :
  neverThrows m -> (forall a, neverThrows (k a)) -> neverThrows (bind m k).
Proof.
  intros Hm Hk t s t1 s1 e. unfold bind. specialize (Hm t s).
  destruct (m t s) as [tr [t2 s2 [e2|a]|s2|]]; cbn [snd] in *;
    try discriminate.
  - intros H. apply (Hm t2 s2 e2). reflexivity.
  - specialize (Hk a t2 s2 t1 s1 e).
    destruct (k a t2 s2) as [tr1 o1]. exact Hk.
Qed.

(** A [catch] whose handler does not throw stops every error. *)
Lemma neverThrows_tryCatch {A} (m : Task A) (h : string -> Task A) :
  (forall e, neverThrows (h e)) -> neverThrows (tryCatch m h).
Proof.
  intros Hh t s t1 s1 e. unfold tryCatch.
  destruct (m t s) as [tr [t2 s2 [e2|a]|s2|]]; cbn [snd]; try discriminate.
  specialize (Hh e2 t2 s2 t1 s1 e). destruct (h e2 t2 s2) as [tr1 o1]. exact Hh.
Qed.

Lemma neverThrows_tryFinally {A} (m : Task A) (f : Task unit) :
  neverThrows m -> neverThrows f -> neverThrows (tryFinally m f).
Proof.
  intros Hm Hf t s t1 s1 e. unfold tryFinally. specialize (Hm t s).
  destruct (m t s) as [tr [t2 s2 r|s2|]]; cbn [snd] in *; try discriminate.
  specialize (Hf t2 s2). destruct (f t2 s2) as [tr1 [t3 s3 [e3|[]]|s3|]];
    cbn [snd] in *; try discriminate.
  - intros H. apply (Hf t3 s3 e3). reflexivity.
  - destruct r as [e2|a]; [|discriminate].
    intros _. apply (Hm t2 s2 e2). reflexivity.
Qed.

Lemma forward_ret {A} (a : A) : forward (ret a : Task A).
Proof. intros t s t1 s1 r H. injection H as <- _ _. lia. Qed.

Lemma forward_throw {A} (e : string) : forward (@throw State Event A e).
Proof. intros t s t1 s1 r H. injection H as <- _ _. lia. Qed.

Lemma forward_pending {A} : forward (@pending State Event A).
Proof. intros t s t1 s1 r H. discriminate. Qed.

Lemma forward_get : forward (@get State Event).
Proof. intros t s t1 s1 r H. injection H as <- _ _. lia. Qed.

Lemma forward_emit (e : Event) : forward (@emit State Event e).
Proof. intros t s t1 s1 r H. injection H as <- _ _. lia. Qed.

Lemma forward_update f (e : Event) : forward (@update State Event f e).
Proof. intros t s t1 s1 r H. injection H as <- _ _. lia. Qed.

Lemma forward_wait ms : forward (@wait State Event ms).
Proof. intros t s t1 s1 r H. injection H as <- _ _. lia. Qed.

Lemma forward_await {A} (c : Call A) : forward (@await State Event A c).
Proof.
  intros t s t1 s1 r. unfold await.
  destruct (answer c); cbn; intros H; try discriminate;
    injection H as <- _ _; lia.
Qed.

Lemma forward_bind {A B} (m : Task A) (k : A -> Task B) :
  forward m -> (forall a, forward (k a)) -> forward (bind m k).
Proof.
  intros Hm Hk t s t1 s1 r. unfold bind. specialize (Hm t s).
  destruct (m t s) as [tr [t2 s2 [e2|a]|s2|]]; cbn [snd] in *;
    try discriminate.
  - intros H. injection H as <- <- <-. apply (Hm _ _ _ eq_refl).
  - specialize (Hk a t2 s2 t1 s1 r). specialize (Hm _ _ _ eq_refl).
    destruct (k a t2 s2) as [tr1 o1]. cbn [snd] in *.
    intros H. specialize (Hk H). lia.
Qed.

Lemma forward_tryCatch {A} (m : Task A) (h : string -> Task A) :
  forward m -> (forall e, forward (h e)) -> forward (tryCatch m h).
Proof.
  intros Hm Hh t s t1 s1 r. unfold tryCatch. specialize (Hm t s).
  destruct (m t s) as [tr [t2 s2 [e2|a]|s2|]]; cbn [snd] in *;
    try discriminate.
  - specialize (Hh e2 t2 s2 t1 s1 r). specialize (Hm _ _ _ eq_refl).
    destruct (h e2 t2 s2) as [tr1 o1]. cbn [snd] in *.
    intros H. specialize (Hh H). lia.
  - intros H. injection H as <- <- <-. apply (Hm _ _ _ eq_refl).
Qed.

Lemma forward_tryFinally {A} (m : Task A) (f : Task unit) :
  forward m -> forward f -> forward (tryFinally m f).
Proof.
  intros Hm Hf t s t1 s1 r. unfold tryFinally. specialize (Hm t s).
  destruct (m t s) as [tr [t2 s2 r2|s2|]]; cbn [snd] in *; try discriminate.
  specialize (Hm _ _ _ eq_refl). specialize (Hf t2 s2).
  destruct (f t2 s2) as [tr1 [t3 s3 [e3|[]]|s3|]]; cbn [snd] in *;
    try discriminate; specialize (Hf _ _ _ eq_refl);
    intros H; injection H as <- _ _; lia.
Qed.

Section Throws.
Variable P : string -> Prop.

Lemma throwsOnly_never {A} (m : Task A) : neverThrows m -> throwsOnly P m.
Proof. intros Hm t s t1 s1 e H. exfalso. exact (Hm t s t1 s1 e H). Qed.

Lemma throwsOnly_throw {A} (e : string) : P e -> throwsOnly P (@throw State Event A e).
Proof. intros He t s t1 s1 e' H. injection H as _ _ <-. exact He. Qed.

Lemma throwsOnly_outOfFuel {A} : throwsOnly P (@outOfFuel State Event A).
Proof. intros t s t1 s1 e H. discriminate. Qed.

Lemma throwsOnly_bind {A B} (m : Task A) (k : A -> Task B) :
  throwsOnly P m -> (forall a, throwsOnly P (k a)) -> throwsOnly P (bind m k).
Proof.
  intros Hm Hk t s t1 s1 e. unfold bind. specialize (Hm t s).
  destruct (m t s) as [tr [t2 s2 [e2|a]|s2|]]; cbn [snd] in *;
    try discriminate.
  - intros H. injection H as _ _ <-. apply (Hm _ _ _ eq_refl).
  - specialize (Hk a t2 s2 t1 s1 e).
    destruct (k a t2 s2) as [tr1 o1]. exact Hk.
Qed.

End Throws.

Lemma throwsOnly_weaken {A} (P Q : string -> Prop) (m : Task A) :
  (forall e, P e -> Q e) -> throwsOnly P m -> throwsOnly Q m.
Proof. intros HPQ Hm t s t1 s1 e H. apply HPQ. exact (Hm t s t1 s1 e H). Qed.

Section Counting.
Variable f : Event -> bool.

Lemma count_app (a b : list (Entry State Event)) :
  List.length (filter f (events (a ++ b)))
  = List.length (filter f (events a)) + List.length (filter f (events b)).
Proof. rewrite events_app, filter_app, length_app. reflexivity. Qed.

Lemma emitsAtMost_more {A} (n n' : nat) (m : Task A) :
  n <= n' -> emitsAtMost f n m -> emitsAtMost f n' m.
Proof. intros Hn Hm t s. specialize (Hm t s). lia. Qed.

Lemma emitsAtMost_ret {A} (a : A) : emitsAtMost f 0 (ret a : Task A).
Proof. intros t s. cbn. lia. Qed.

Lemma emitsAtMost_throw {A} (e : string) : emitsAtMost f 0 (@throw State Event A e).
Proof. intros t s. cbn. lia. Qed.

Lemma emitsAtMost_outOfFuel {A} : emitsAtMost f 0 (@outOfFuel State Event A).
Proof. intros t s. cbn. lia. Qed.

Lemma emitsAtMost_wait ms : emitsAtMost f 0 (@wait State Event ms).
Proof. intros t s. cbn. lia. Qed.

Lemma emitsAtMost_await {A} (c : Call A) : emitsAtMost f 0 (@await State Event A c).
Proof. intros t s. unfold await. destruct (answer c); cbn; lia. Qed.

Lemma emitsAtMost_emit (e : Event) :
  emitsAtMost f (if f e then 1 else 0) (emit e : Task unit).
Proof. intros t s. cbn. destruct (f e); cbn; lia. Qed.

Lemma emitsAtMost_bind {A B} (n n' : nat) (m : Task A) (k : A -> Task B) :
  emitsAtMost f n m -> (forall a, emitsAtMost f n' (k a)) ->
  emitsAtMost f (n + n') (bind m k).
Proof.
  intros Hm Hk t s. unfold bind. specialize (Hm t s).
  destruct (m t s) as [tr [t2 s2 [e2|a]|s2|]]; cbn [fst snd] in *; try lia.
  specialize (Hk a t2 s2). destruct (k a t2 s2) as [tr1 o1]. cbn [fst] in *.
  rewrite count_app. lia.
Qed.

Lemma emitsAtMost_tryCatch {A} (n n' : nat) (m : Task A) (h : string -> Task A) :
  emitsAtMost f n m -> (forall e, emitsAtMost f n' (h e)) ->
  emitsAtMost f (n + n') (tryCatch m h).
Proof.
  intros Hm Hh t s. unfold tryCatch. specialize (Hm t s).
  destruct (m t s) as [tr [t2 s2 [e2|a]|s2|]]; cbn [fst snd] in *; try lia.
  specialize (Hh e2 t2 s2). destruct (h e2 t2 s2) as [tr1 o1]. cbn [fst] in *.
  rewrite count_app. lia.
Qed.

(** A task that writes no such entry at all. *)
Lemma emitsAtMost_none {A} (m : Task A) :
  writesOnly (fun e => f (what e) = false) m -> emitsAtMost f 0 m.
Proof.
  intros Hm t s. specialize (Hm t s).
  induction Hm as [|x l Hx _ IH]; [cbn; lia|].
  rewrite events_cons. cbn [filter]. rewrite Hx. exact IH.
Qed.

End Counting.

End Rules.

Ltac safe :=
  repeat first
    [ apply neverThrows_tryCatch; intros
    | apply neverThrows_bind; [|intros]
    | apply neverThrows_tryFinally
    | apply neverThrows_ret | apply neverThrows_pending | apply neverThrows_get
    | apply neverThrows_emit | apply neverThrows_update | apply neverThrows_wait
    | match goal with
      | |- neverThrows (if ?b then _ else _) => destruct b
      | |- neverThrows (match ?x with _ => _ end) => destruct x
      end ].

Ltac onward :=
  repeat first
    [ apply forward_bind; [|intros]
    | apply forward_tryCatch; [|intros]
    | apply forward_tryFinally
    | apply forward_ret | apply forward_throw | apply forward_pending
    | apply forward_get | apply forward_emit | apply forward_update
    | apply forward_wait | apply forward_await
    | match goal with
      | |- forward (if ?b then _ else _) => destruct b
      | |- forward (match ?x with _ => _ end) => destruct x
      end ].

End AsyncRules.

(** ** The browser session: [testLogin], [closeBrowser] and the retries *)

Module SessionFacts.
Import Async AsyncFacts TwitterPoster PosterFacts.
Local Open Scope async_scope.

(** The [try] block of [testLogin] with its [catch]. *)
Lemma loginAttempt_runs (w : Try) t s :
  match snd (tryCatch
               (initializeBrowser w ;;
                await (ensureLoggedIn w) ;;
                update setLoggedIn LoggedIn ;;
                ret true)
               (fun _ => ret false) t s) with
  | Settled _ s1 (inr ok) =>
      (ok = true -> answer (ensureLoggedIn w) = Resolves tt)
      /\ ((browser s1 = browser s /\ running s1 = running s)
          \/ (browser s = None
              /\ browser s1 = Some {| process := Some (launches s) |}
              /\ running s1 = launches s :: running s))
  | Settled _ _ (inl _) => False
  | Pending _ =>
      answer (launch w) = NeverSettles \/ answer (newPage w) = NeverSettles
      \/ answer (setUserAgent w) = NeverSettles
      \/ answer (loadCookies w) = NeverSettles
      \/ answer (ensureLoggedIn w) = NeverSettles
  | OutOfFuel => False
  end.
Proof.
  unfold initializeBrowser, bind, get, emit, update, tryCatch, await, ret.
  destruct (browser s) eqn:Hb; cbn;
    try (destruct (answer (launch w)) as [[]|?|]; cbn; auto);
    try (destruct (answer (newPage w)) as [[]|?|]; cbn; auto);
    try (destruct (answer (setUserAgent w)) as [[]|?|]; cbn; auto);
    try (destruct (answer (loadCookies w)) as [[]|?|]; cbn; auto 6);
    destruct (answer (ensureLoggedIn w)) as [[]|?|]; cbn; auto 6;
    rewrite ?Hb; (split; [try discriminate; auto | auto]).
Qed.

(** X11.  [testLogin] never throws and never leaves a browser behind:
    when it returns, the poster holds no browser, no page and no login,
    whatever [initializeBrowser] and [ensureLoggedIn] did; it returns
    [true] only when the login resolved; and when the kill cannot throw, or
    the close resolves within five seconds, no process has been added to
    the running ones and the process of the browser held at the start is
    gone.  It hangs only when one of the awaited calls never settles. *)
Theorem testLogin_closes_the_browser (w : Try) t s :
  match snd (testLogin w t s) with
  | Settled t1 s1 (inr ok) =>
      tornDown s1
      /\ (ok = true -> answer (ensureLoggedIn w) = Resolves tt)
      /\ (killThrows w = false
          \/ (settlesBefore (close w) 5000 = true /\ answer (close w) = Resolves tt) ->
          incl (running s1) (running s)
          /\ forall b pid, browser s = Some b -> process b = Some pid ->
                           ~ In pid (running s1))
  | Settled _ _ (inl _) => False
  | Pending _ =>
      answer (launch w) = NeverSettles \/ answer (newPage w) = NeverSettles
      \/ answer (setUserAgent w) = NeverSettles
      \/ answer (loadCookies w) = NeverSettles
      \/ answer (ensureLoggedIn w) = NeverSettles
  | OutOfFuel => False
  end.
Proof.
  unfold testLogin, tryFinally.
  pose proof (loginAttempt_runs w t s) as Htry.
  destruct (tryCatch _ _ t s) as [tr o]. cbn [snd] in Htry.
  destruct o as [t1 s1 [e|ok]|s1|]; cbn [snd]; try contradiction;
    try exact Htry.
  destruct (closeBrowser_runs (close w) (killThrows w) t1 s1)
    as (trx & t2 & s2 & -> & _ & Htorn & _ & Hincl & _ & _ & Hgone & _).
  cbn [snd]. destruct Htry as [Hok Hmid].
  split; [exact Htorn|]. split; [exact Hok|].
  intros Hkill0.
  assert (Hkill : killThrows w = false
                  \/ settlesBy (close w) 5000 = true /\ answer (close w) = Resolves tt).
  { destruct Hkill0 as [H|[H1 H2]]; [left; exact H|].
    right. split; [apply settlesBefore_settlesBy; exact H1 | exact H2]. }
  destruct Hmid as [[Hb Hr] | (Hnone & Hb & Hr)].
  - rewrite Hr in Hincl. split; [exact Hincl|].
    intros b pid Hbs Hp. rewrite <- Hb in Hbs. exact (Hgone b pid Hbs Hp Hkill).
  - split; [|intros b pid Hbs; congruence].
    intros x Hx. specialize (Hgone _ (launches s) Hb eq_refl Hkill).
    specialize (Hincl x Hx). rewrite Hr in Hincl. destruct Hincl as [<-|Hin].
    + contradiction.
    + exact Hin.
Qed.

(** *** Tries and teardowns *)

Ltac calm :=
  repeat first
    [ quiet_emit
    | apply writesOnly_bind; [|intros]
    | apply writesOnly_tryCatch; [|intros]
    | apply writesOnly_ret | apply writesOnly_throw | apply writesOnly_pending
    | apply writesOnly_get | apply writesOnly_wait | apply writesOnly_await
    | match goal with
      | |- writesOnly _ (if ?b then _ else _) => destruct b
      | |- writesOnly _ (match ?x with _ => _ end) => destruct x
      end ].

Lemma nonReset_no_teardown (l : list (Entry State Event)) :
  Forall nonReset l -> filter isReset (events l) = [].
Proof.
  intros Hl. induction Hl as [|x l Hx _ IHl]; [reflexivity|].
  rewrite events_cons. cbn [filter]. unfold nonReset in Hx. rewrite Hx. exact IHl.
Qed.

Lemma calm_log (cfg : Settings) (l : LogLine) : writesOnly nonReset (log cfg l).
Proof. unfold log. calm. Qed.

Lemma calm_killProcess (throws : bool) : writesOnly nonReset (killProcess throws).
Proof. unfold killProcess. calm. Qed.

Lemma calm_initializeBrowser (w : Try) : writesOnly nonReset (initializeBrowser w).
Proof. unfold initializeBrowser. calm. Qed.

Lemma calm_publishOnce (cfg : Settings) (w : Try) (k : nat) :
  writesOnly nonReset (publishOnce cfg w k).
Proof.
  unfold publishOnce. calm; first [apply calm_log | apply calm_initializeBrowser].
Qed.

Lemma calm_captureErrorScreenshot (w : Try) (k : nat) :
  writesOnly nonReset (captureErrorScreenshot w k).
Proof. unfold captureErrorScreenshot. calm. Qed.

Lemma teardowns_app (a b : list Event) :
  teardowns (a ++ b) = teardowns a + teardowns b.
Proof. unfold teardowns. rewrite filter_app, length_app. reflexivity. Qed.

Lemma tries_app (a b : list Event) : tries (a ++ b) = tries a + tries b.
Proof. unfold tries. rewrite filter_app, length_app. reflexivity. Qed.

Lemma calm_teardowns (l : list (Entry State Event)) :
  Forall nonReset l -> teardowns (events l) = 0.
Proof. intros H. unfold teardowns. rewrite (nonReset_no_teardown l H). reflexivity. Qed.

Lemma quiet_tries (l : list (Entry State Event)) :
  Forall nonTry l -> tries (events l) = 0.
Proof. intros H. unfold tries. rewrite (quiet_no_tries l H). reflexivity. Qed.

(** [closeBrowser] resets the state exactly once. *)
Lemma closeBrowser_one_teardown (c : Call unit) (throws : bool) t s :
  teardowns (events (fst (closeBrowser c throws t s))) = 1.
Proof.
  destruct (closeBrowser_runs c throws t s) as (tr & t1 & s1 & Hrun & _).
  revert Hrun. unfold closeBrowser.
  match goal with
  | |- context [tryFinally ?b _] => set (body := b)
  end.
  assert (Hq : writesOnly nonReset body).
  { subst body. calm; apply calm_killProcess. }
  specialize (Hq t s). unfold tryFinally.
  destruct (body t s) as [tr0 o0]. cbn [fst] in Hq.
  destruct o0 as [t0 s0 r|s0|]; cbn [update fst snd]; try discriminate.
  intros _. rewrite events_app, teardowns_app, (calm_teardowns tr0 Hq).
  reflexivity.
Qed.

Section Accounting.
Variable cfg : Settings.
Variable world : nat -> Try.

(** One level of [postTweetWithRetry]: either it ends the run after one
    try, torn down exactly when the try failed, or it adds one try and one
    teardown to what the next level does. *)
Lemma retry_level (fuel k : nat) t s :
  let r := postTweetWithRetry_fuel (S fuel) cfg world k t s in
  (tries (events (fst r)) = 1
   /\ match snd r with
      | Settled _ _ (inr _) => teardowns (events (fst r)) = 0
      | Settled _ _ (inl _) => teardowns (events (fst r)) = 1
      | Pending _ => teardowns (events (fst r)) = 0
      | OutOfFuel => False
      end)
  \/ ((Z.of_nat k < maxRetries cfg)%Z
      /\ exists t' s',
           let next := postTweetWithRetry_fuel fuel cfg world (S k) t' s' in
           tries (events (fst r)) = S (tries (events (fst next)))
           /\ teardowns (events (fst r)) = S (teardowns (events (fst next)))
           /\ snd r = snd next).
Proof.
  intros r. subst r. cbn [postTweetWithRetry_fuel].
  destruct (publishOnce_opens cfg (world k) k t s) as (trb & Hfst & Hqb).
  pose proof (fueled_publishOnce cfg (world k) k t s) as Hfuel.
  pose proof (calm_publishOnce cfg (world k) k t s) as Hcb.
  destruct (publishOnce cfg (world k) k t s) as [tr0 o0] eqn:Hpub.
  cbn [fst snd] in *.
  assert (Htr0 : tries (events tr0) = 1).
  { subst tr0. rewrite events_cons. unfold tries. cbn [what filter isTryStart].
    rewrite (quiet_no_tries trb Hqb). reflexivity. }
  pose proof (calm_teardowns tr0 Hcb) as Htd0.
  destruct o0 as [t1 s1 [e|url]|s1|].
  - (* the try failed *)
    rewrite (catch_error _ _ _ _ _ _ _ _ Hpub).
    rewrite bind_emit. cbn [fst snd].
    destruct (log_runs cfg (PostFailed k e) t1 s1) as (l1 & Hl1 & Hql1).
    pose proof (calm_log cfg (PostFailed k e) t1 s1) as Hcl1.
    rewrite Hl1 in Hcl1. cbn [fst] in Hcl1.
    rewrite (bind_value _ _ _ _ _ _ _ _ Hl1). cbn [fst snd].
    destruct (captureErrorScreenshot_runs (world k) k t1 s1)
      as (trc & Hc & Hqc & Hco).
    pose proof (calm_captureErrorScreenshot (world k) k t1 s1) as Hcc.
    destruct (captureErrorScreenshot (world k) k t1 s1) as [trc0 oc] eqn:Hcap.
    cbn [fst snd] in *.
    assert (Htrc : tries (events trc0) = 0).
    { subst trc0. rewrite events_cons. unfold tries. cbn [what filter isTryStart].
      rewrite (quiet_no_tries trc Hqc). reflexivity. }
    pose proof (calm_teardowns trc0 Hcc) as Htdc.
    destruct Hco as [-> | [t2 ->]].
    + (* the capture hangs *)
      rewrite (bind_pending _ _ _ _ _ _ Hcap). cbn [fst snd].
      left. repeat (rewrite events_app || rewrite events_cons).
      cbn [what].
      change (?a :: ?l ++ ?m) with ([a] ++ l ++ m).
      rewrite !tries_app, !teardowns_app, Htr0, Htd0, Htrc, Htdc,
        (quiet_tries l1 Hql1), (calm_teardowns l1 Hcl1).
      split; reflexivity.
    + rewrite (bind_value _ _ _ _ _ _ _ _ Hcap). cbn [fst snd].
      destruct (closeBrowser_runs (close (world k)) (killThrows (world k)) t2 s1)
        as (trx & t3 & s3 & Hx & _).
      pose proof (quiet_closeBrowser (close (world k)) (killThrows (world k)) t2 s1)
        as Hqx.
      pose proof (closeBrowser_one_teardown (close (world k)) (killThrows (world k))
                    t2 s1) as Hone.
      rewrite Hx in Hqx, Hone. cbn [fst] in Hqx, Hone.
      rewrite (bind_value _ _ _ _ _ _ _ _ Hx). cbn [fst snd].
      destruct (Z.ltb_spec (Z.of_nat k) (maxRetries cfg)) as [Hlt|Hge].
      * (* retry *)
        set (ms := (retryDelay cfg * (Z.of_nat k + 1))%Z).
        destruct (log_runs cfg (RetryingIn ms) t3 s3) as (l2 & Hl2 & Hql2).
        pose proof (calm_log cfg (RetryingIn ms) t3 s3) as Hcl2.
        rewrite Hl2 in Hcl2. cbn [fst] in Hcl2.
        rewrite (bind_value _ _ _ _ _ _ _ _ Hl2). cbn [fst snd].
        rewrite (bind_value _ _ _ _ _ _ _ _ (delay_runs ms t3 s3)).
        cbn [fst snd].
        right. split; [exact Hlt|].
        exists (t3 + timerMs ms)%N, s3. cbn zeta.
        destruct (postTweetWithRetry_fuel fuel cfg world (S k)
                    (t3 + timerMs ms)%N s3) as [trn on].
        cbn [fst snd].
        repeat (rewrite events_app || rewrite events_cons). cbn [what].
        change (TryFailed k e :: ?l) with ([TryFailed k e] ++ l).
        change (Sleep ms :: ?l) with ([Sleep ms] ++ l).
        rewrite !tries_app, !teardowns_app, Htr0, Htd0, Htrc, Htdc, Hone,
          (quiet_tries l1 Hql1), (calm_teardowns l1 Hcl1),
          (quiet_tries l2 Hql2), (calm_teardowns l2 Hcl2),
          (quiet_tries trx Hqx).
        repeat split.
      * (* no retry left *)
        destruct (log_runs cfg (FailedAfter (maxRetries cfg + 1)) t3 s3)
          as (l2 & Hl2 & Hql2).
        pose proof (calm_log cfg (FailedAfter (maxRetries cfg + 1)) t3 s3) as Hcl2.
        rewrite Hl2 in Hcl2. cbn [fst] in Hcl2.
        rewrite (bind_value _ _ _ _ _ _ _ _ Hl2). cbn [fst snd throw].
        left. rewrite app_nil_r.
        repeat (rewrite events_app || rewrite events_cons). cbn [what].
        change (TryFailed k e :: ?l) with ([TryFailed k e] ++ l).
        rewrite !tries_app, !teardowns_app, Htr0, Htd0, Htrc, Htdc, Hone,
          (quiet_tries l1 Hql1), (calm_teardowns l1 Hcl1),
          (quiet_tries l2 Hql2), (calm_teardowns l2 Hcl2),
          (quiet_tries trx Hqx).
        split; reflexivity.
  - (* the try resolved *)
    rewrite (catch_value _ _ _ _ _ _ _ _ Hpub). cbn [fst snd].
    left. split; assumption.
  - (* the try hangs *)
    rewrite (catch_pending _ _ _ _ _ _ Hpub). cbn [fst snd].
    left. split; assumption.
  - exfalso. apply Hfuel. reflexivity.
Qed.

Lemma retry_accounts (fuel k : nat) t s :
  Z.to_nat (maxRetries cfg) - k < fuel ->
  let h := events (fst (postTweetWithRetry_fuel fuel cfg world k t s)) in
  match snd (postTweetWithRetry_fuel fuel cfg world k t s) with
  | Settled _ _ (inr _) => tries h = S (teardowns h)
  | Settled _ _ (inl _) => tries h = teardowns h
  | Pending _ => tries h = S (teardowns h)
  | OutOfFuel => False
  end.
Proof.
  revert k t s. induction fuel as [|fuel IH]; intros k t s Hfuel; [lia|].
  destruct (retry_level fuel k t s) as [[Ht Htd] | (Hlt & t' & s' & Hnext)].
  - cbn zeta in *. rewrite Ht.
    destruct (snd (postTweetWithRetry_fuel (S fuel) cfg world k t s))
      as [t1 s1 [e|url]|s1|]; try rewrite Htd; try reflexivity. exact Htd.
  - cbn zeta in *. destruct Hnext as (-> & -> & ->).
    specialize (IH (S k) t' s' ltac:(lia)). cbn zeta in IH.
    destruct (snd (postTweetWithRetry_fuel fuel cfg world (S k) t' s'))
      as [t1 s1 [e|url]|s1|]; try rewrite IH; try reflexivity. exact IH.
Qed.

End Accounting.

(** X12.  [postTweetWithRetry] resets the state of the poster, in the
    [finally] of [closeBrowser], once for every try it gives up and for no
    other: a post that ends with an error has as many resets as tries, and
    a post that succeeds or hangs has one less, its last try being the one
    that is not followed by a reset. *)
Theorem every_failed_try_is_torn_down (cfg : Settings) (world : nat -> Try) t s :
  let run := postTweetWithRetry cfg world 0 t s in
  let history := events (fst run) in
  match snd run with
  | Settled _ _ (inr _) => tries history = S (teardowns history)
  | Settled _ _ (inl _) => tries history = teardowns history
  | Pending _ => tries history = S (teardowns history)
  | OutOfFuel => False
  end.
Proof.
  intros run history. subst run history. unfold postTweetWithRetry.
  apply retry_accounts. lia.
Qed.

(** X13.  [captureErrorScreenshot] never replaces the error being handled
    by one of its own: it returns without an error and leaves the state as
    it is, or hangs because the screenshot never settles; without a page it
    returns at once and asks for no screenshot. *)
Theorem captureErrorScreenshot_never_masks (w : Try) (attempt : nat) t s :
  let r := captureErrorScreenshot w attempt t s in
  (snd r = Pending s /\ answer (screenshot w) = NeverSettles /\ page s <> None
   \/ exists t1, snd r = Settled t1 s (inr tt))
  /\ (page s = None ->
      r = ([{| at_ := t; what := CaptureErrorScreenshot attempt; snapshot := s |}],
           Settled t s (inr tt))).
Proof.
  intros r. subst r.
  unfold captureErrorScreenshot, tryCatch, bind, get, emit, await, ret.
  destruct (page s) as [p|].
  - destruct (answer (screenshot w)) as [[]|e|]; cbn; split;
      try discriminate; eauto.
    left. repeat split. discriminate.
  - cbn. split; [eauto | reflexivity].
Qed.

(** X14.  [closeBrowser] returns, without an error, within five seconds
    of the call, whatever the close and the kill do; it resets the state
    exactly once and launches nothing; without a browser it returns at once
    and only resets the state. *)
Theorem closeBrowser_takes_at_most_five_seconds (c : Call unit) (throws : bool) t s :
  exists tr t1 s1,
    closeBrowser c throws t s = (tr, Settled t1 s1 (inr tt))
    /\ (t <= t1 <= t + 5000)%N
    /\ launches s1 = launches s
    /\ teardowns (events tr) = 1
    /\ (browser s = None -> t1 = t /\ s1 = resetState s).
Proof.
  pose proof (closeBrowser_one_teardown c throws t s) as Hone.
  destruct (closeBrowser_runs c throws t s)
    as (tr & t1 & s1 & Hrun & _ & _ & Hl & _ & Ht & Hnone & _).
  rewrite Hrun in Hone. exists tr, t1, s1. repeat split; try assumption; try lia.
  - apply Hnone. assumption.
  - apply Hnone. assumption.
Qed.

End SessionFacts.

(** ** How [verifyTweetSuccess] fails *)

Module VerificationRuns.
Import Async AsyncFacts AsyncRules Verification VerificationFacts.
Import PosterFacts.
Local Open Scope async_scope.

Section Polling.
Variable statusNumber : string -> Z.

Lemma forward_waitForTimeout (ms : N) : forward (waitForTimeout ms).
Proof. unfold waitForTimeout. onward. Qed.

Lemma forward_extract (k : Lookup) : forward (extractTweetUrlFromPage k).
Proof. unfold extractTweetUrlFromPage. onward; apply forward_waitForTimeout. Qed.

Lemma forward_verifyTurn (o : Observation) (w : N) :
  forward (verifyTurn statusNumber o w).
Proof.
  unfold verifyTurn.
  onward; first [apply forward_waitForTimeout | apply forward_extract].
Qed.

Lemma fueled_waitForTimeout (ms : N) : fueled (waitForTimeout ms).
Proof. unfold waitForTimeout. fuel_ok. Qed.

Lemma fueled_extract (k : Lookup) : fueled (extractTweetUrlFromPage k).
Proof. unfold extractTweetUrlFromPage. fuel_ok; apply fueled_waitForTimeout. Qed.

Lemma fueled_guardedTurn (o : Observation) (w : N) :
  fueled (guardedTurn statusNumber o w).
Proof.
  unfold guardedTurn, verifyTurn.
  fuel_ok; first [apply fueled_waitForTimeout | apply fueled_extract].
Qed.

Lemma neverThrows_guardedTurn (o : Observation) (w : N) :
  neverThrows (guardedTurn statusNumber o w).
Proof. unfold guardedTurn, waitForTimeout. safe. Qed.

Lemma lookup_is_some (k : Lookup) t t1 s1 :
  throughLookup (snd (extractTweetUrlFromPage k t tt)) <> Settled t1 s1 (inr None).
Proof.
  destruct (snd (extractTweetUrlFromPage k t tt)) as [t2 s2 [e|u]|s2|];
    cbn; discriminate.
Qed.

(** A turn that falls through to the next one has waited the interval. *)
Lemma verifyTurn_none (o : Observation) (w : N) t t1 s1 :
  snd (verifyTurn statusNumber o w t tt) = Settled t1 s1 (inr None) ->
  (t + checkInterval <= t1)%N.
Proof.
  unfold verifyTurn.
  destruct (JsString.includes (url o) "/status/").
  { rewrite bind_emit. cbn. discriminate. }
  destruct (answer (viewButton o)) as [[href|]|e|] eqn:Hv;
    [ rewrite (bind_await _ _ _ _ _ Hv), bind_emit; cbn; discriminate
    | rewrite (bind_await _ _ _ _ _ Hv)
    | rewrite (bind_await_rejects _ _ _ _ _ Hv); cbn; discriminate
    | rewrite (bind_await_never _ _ _ _ Hv); cbn; discriminate ].
  destruct (answer (successNotification o)) as [[|]|e|] eqn:Hn;
    [ rewrite (bind_await _ _ _ _ _ Hn)
    | rewrite (bind_await _ _ _ _ _ Hn)
    | rewrite (bind_await_rejects _ _ _ _ _ Hn); cbn; discriminate
    | rewrite (bind_await_never _ _ _ _ Hn); cbn; discriminate ].
  - rewrite bind_emit. cbn [snd].
    destruct (answer (statusLinks o)) as [links|e|] eqn:Hl;
      [ rewrite (bind_await _ _ _ _ _ Hl)
      | rewrite (bind_await_rejects _ _ _ _ _ Hl); cbn; discriminate
      | rewrite (bind_await_never _ _ _ _ Hl); cbn; discriminate ].
    destruct (sortNewestFirst statusNumber links).
    + rewrite (bind_value _ _ _ _ _ _ _ _ (verify_wait_runs 3000 _)).
      rewrite bind_lookup. cbn [snd]. intros H.
      exfalso. exact (lookup_is_some _ _ _ _ H).
    + rewrite bind_emit. cbn. discriminate.
  - destruct (answer (composeModal o)) as [modal|e|] eqn:Hm;
      [ rewrite (bind_await _ _ _ _ _ Hm)
      | rewrite (bind_await_rejects _ _ _ _ _ Hm); cbn; discriminate
      | rewrite (bind_await_never _ _ _ _ Hm); cbn; discriminate ].
    destruct (negb modal && negb (JsString.includes (urlCheck o) "/compose")).
    + rewrite bind_emit.
      rewrite (bind_value _ _ _ _ _ _ _ _ (verify_wait_runs 3000 _)).
      rewrite bind_lookup. cbn [snd]. intros H.
      exfalso. exact (lookup_is_some _ _ _ _ H).
    + rewrite bind_emit.
      rewrite (bind_value _ _ _ _ _ _ _ _ (verify_wait_runs checkInterval _)).
      cbn. intros H. injection H as <- _. unfold checkInterval. lia.
Qed.

(** One guarded turn: it never throws, and when it falls through the
    interval has been waited. *)
Lemma guardedTurn_runs (o : Observation) (w : N) t :
  match snd (guardedTurn statusNumber o w t tt) with
  | Settled t1 _ (inr None) => (t + checkInterval <= t1)%N
  | Settled _ _ (inr (Some _)) => True
  | Settled _ _ (inl _) => False
  | Pending _ => True
  | OutOfFuel => False
  end.
Proof.
  pose proof (neverThrows_guardedTurn o w t tt) as Hsafe.
  pose proof (fueled_guardedTurn o w t tt) as Hfuel.
  assert (Hnone : forall t1 s1,
             snd (guardedTurn statusNumber o w t tt) = Settled t1 s1 (inr None) ->
             (t + checkInterval <= t1)%N).
  { unfold guardedTurn, tryCatch.
    pose proof (verifyTurn_none o w t) as Hturn.
    pose proof (forward_verifyTurn o w t tt) as Hfwd.
    destruct (verifyTurn statusNumber o w t tt) as [tr [t2 s2 [e|r]|s2|]];
      cbn [snd] in *; intros t1 s1 H; try discriminate.
    - destruct s2. cbn beta in H. rewrite bind_emit in H.
      rewrite (bind_value _ _ _ _ _ _ _ _ (verify_wait_runs checkInterval _)) in H.
      cbn in H. injection H as <- _. specialize (Hfwd _ _ _ eq_refl). lia.
    - injection H as <- <- ->. apply (Hturn _ _ eq_refl). }
  destruct (snd (guardedTurn statusNumber o w t tt)) as [t1 s1 [e|[u|]]|s1|];
    try exact I.
  - apply (Hsafe t1 s1 e). reflexivity.
  - apply (Hnone _ _ eq_refl).
  - apply Hfuel. reflexivity.
Qed.

Lemma verifyLoop_fails_late (fuel : nat) (page : nat -> Observation) (i : nat)
  (waitTime : N) t :
  (maxWaitTime <= waitTime + checkInterval * N.of_nat fuel)%N ->
  match snd (verifyLoop statusNumber fuel page i waitTime t tt) with
  | Settled t1 _ (inl e) =>
      e = verificationFailed /\ (t + (maxWaitTime - waitTime) <= t1)%N
  | Settled _ _ (inr _) => True
  | Pending _ => True
  | OutOfFuel => False
  end.
Proof.
  revert i waitTime t.
  induction fuel as [|fuel IH]; intros i waitTime t Hfuel.
  - cbn [verifyLoop].
    destruct (N.ltb_spec waitTime maxWaitTime) as [Hlt|Hge].
    + unfold maxWaitTime, checkInterval in *. lia.
    + rewrite bind_emit. unfold throw. cbn [snd]. split; [reflexivity|].
      unfold maxWaitTime in *. lia.
  - cbn [verifyLoop].
    destruct (N.ltb_spec waitTime maxWaitTime) as [Hlt|Hge].
    + pose proof (guardedTurn_runs (page i) waitTime t) as Hturn.
      unfold bind.
      destruct (guardedTurn statusNumber (page i) waitTime t tt)
        as [tr [t2 s2 [e|[u|]]|s2|]]; cbn [snd] in *; try exact I;
        try contradiction.
      destruct s2.
      specialize (IH (S i) (waitTime + checkInterval)%N t2).
      destruct (verifyLoop statusNumber fuel page (S i)
                  (waitTime + checkInterval)%N t2 tt) as [tr1 o1].
      cbn [snd] in *.
      assert (Hf : (maxWaitTime <= waitTime + checkInterval
                                   + checkInterval * N.of_nat fuel)%N).
      { unfold maxWaitTime, checkInterval in *. lia. }
      specialize (IH Hf).
      destruct o1 as [t3 s3 [e|u]|s3|]; try exact I; try contradiction.
      destruct IH as [-> Hlate]. split; [reflexivity|].
      unfold maxWaitTime, checkInterval in *. lia.
    + rewrite bind_emit. unfold throw. cbn [snd]. split; [reflexivity|].
      unfold maxWaitTime in *. lia.
Qed.

End Polling.

(** X15.  [verifyTweetSuccess] fails in one way only: the polling loop
    ends, the error is the "verification failed" one, and by then at least
    [maxWaitTime], 20000 ms, have passed since the call.  No answer of the
    page makes it throw anything else, or earlier. *)
Theorem verification_fails_only_by_timeout (statusNumber : string -> Z)
  (page : nat -> Observation) t :
  let r := verifyTweetSuccess statusNumber page t tt in
  snd r <> OutOfFuel
  /\ forall t1 s1 e,
       snd r = Settled t1 s1 (inl e) ->
       e = verificationFailed /\ (t + maxWaitTime <= t1)%N.
Proof.
  intros r. subst r. unfold verifyTweetSuccess.
  pose proof (verifyLoop_fails_late statusNumber 20 page 0 0%N t) as H.
  assert (Hf : (maxWaitTime <= 0 + checkInterval * N.of_nat 20)%N)
    by (vm_compute; discriminate).
  specialize (H Hf).
  destruct (snd (verifyLoop statusNumber 20 page 0 0%N t tt))
    as [t1 s1 [e|u]|s1|]; try contradiction; split; try discriminate.
  intros t2 s2 e2 Heq. injection Heq as <- <- <-.
  destruct H as [-> Hlate]. split; [reflexivity|]. rewrite N.sub_0_r in Hlate.
  exact Hlate.
Qed.

End VerificationRuns.

(** ** How [uploadImages] fails *)

Module MediaRuns.
Import Async AsyncFacts AsyncRules MediaUpload MediaFacts.
Import PosterFacts.
Local Open Scope async_scope.

Lemma neverThrows_firstMatch (q : Selector -> Call nat) (selectors : list Selector) :
  neverThrows (firstMatch q selectors).
Proof.
  induction selectors as [|sel rest IH]; cbn [firstMatch]; safe. exact IH.
Qed.

Lemma fueled_firstMatch (q : Selector -> Call nat) (selectors : list Selector) :
  fueled (firstMatch q selectors).
Proof.
  induction selectors as [|sel rest IH]; cbn [firstMatch]; fuel_ok. exact IH.
Qed.

(** The polling never throws, whatever the page answers. *)
Lemma neverThrows_pollMedia (fuel : nat) (p : Page) (expected k uploaded : nat) :
  neverThrows (pollMedia fuel p expected k uploaded).
Proof.
  revert k uploaded. induction fuel as [|fuel IH]; intros k uploaded;
    cbn [pollMedia]; destruct (k <? maxAttempts);
    try apply neverThrows_ret; try apply neverThrows_outOfFuel.
  unfold waitForTimeout. safe; first [apply neverThrows_firstMatch | apply IH].
Qed.

Lemma fueled_pollMedia (fuel : nat) (p : Page) (expected k uploaded : nat) :
  maxAttempts - k <= fuel ->
  fueled (pollMedia fuel p expected k uploaded).
Proof.
  revert k uploaded. induction fuel as [|fuel IH]; intros k uploaded Hfuel;
    cbn [pollMedia]; destruct (Nat.ltb_spec k maxAttempts);
    try apply fueled_ret; try lia.
  unfold waitForTimeout.
  fuel_ok; first [apply fueled_firstMatch | apply IH; lia].
Qed.

(** X16.  [uploadImages] fails only for a hard reason: no file input was
    found, or the upload itself, the look for error indicators or the
    error screenshot rejected.  A selector that cannot be queried, a
    failed debug screenshot and previews that never show up do not make it
    throw. *)
Theorem uploadImages_fails_only_for_hard_reasons (p : Page) (expected : nat) t :
  let r := uploadImages p expected t tt in
  snd r <> OutOfFuel
  /\ forall t1 s1 e,
       snd r = Settled t1 s1 (inl e) ->
       (fileInputFound p = false
        /\ e = "Could not find file input for image upload."%string)
       \/ answer (uploadFile p) = Rejects e
       \/ answer (errorIndicators p) = Rejects e
       \/ answer (errorScreenshot p) = Rejects e.
Proof.
  intros r. subst r. unfold uploadImages.
  destruct (findFileInput_runs p t) as (look & Hlook).
  unfold fileInputFound.
  destruct (lookupOf p) as [[|]|].
  2:{ destruct Hlook as (t0 & Hlook).
      rewrite (bind_value _ _ _ _ _ _ _ _ Hlook). cbn.
      split; [discriminate|]. intros t1 s1 e H. injection H as _ _ <-.
      left. split; reflexivity. }
  2:{ rewrite (bind_pending _ _ _ _ _ _ Hlook). cbn. split; discriminate. }
  destruct Hlook as (t0 & Hlook).
  rewrite (bind_value _ _ _ _ _ _ _ _ Hlook). cbn [fst snd negb].
  rewrite bind_emit. cbn [snd].
  destruct (answer (uploadFile p)) as [[]|e0|] eqn:Hu;
    [ rewrite (bind_await _ _ _ _ _ Hu)
    | rewrite (bind_await_rejects _ _ _ _ _ Hu); cbn; split; [discriminate|];
      intros t1 s1 e H; injection H as _ _ <-; right; left; reflexivity
    | rewrite (bind_await_never _ _ _ _ Hu); cbn; split; discriminate ].
  rewrite (bind_value _ _ _ _ _ _ _ _ (media_wait_runs 5000 _)). cbn [snd].
  match goal with
  | |- context [bind (pollMedia maxAttempts p expected 0 0) _ ?t0 tt] =>
      set (t' := t0)
  end.
  pose proof (neverThrows_pollMedia maxAttempts p expected 0 0 t' tt) as Hsafe.
  pose proof (fueled_pollMedia maxAttempts p expected 0 0 ltac:(lia) t' tt) as Hfuel.
  destruct (pollMedia maxAttempts p expected 0 0 t' tt)
    as [trp [t2 [] [e|found]|[]|]] eqn:Hpoll; cbn [snd] in *.
  - exfalso. apply (Hsafe t2 tt e). reflexivity.
  - rewrite (bind_value _ _ _ _ _ _ _ _ Hpoll). cbn [snd].
    assert (Hcheck : forall t3,
               snd (checkErrorIndicators p t3 tt) <> OutOfFuel
               /\ forall t1 s1 e,
                    snd (checkErrorIndicators p t3 tt) = Settled t1 s1 (inl e) ->
                    answer (errorIndicators p) = Rejects e
                    \/ answer (errorScreenshot p) = Rejects e).
    { intros t3. unfold checkErrorIndicators.
      rewrite (bind_value _ _ _ _ _ _ _ _ (media_wait_runs 3000 _)). cbn [snd].
      destruct (answer (errorIndicators p)) as [n|e0|] eqn:He;
        [ rewrite (bind_await _ _ _ _ _ He)
        | rewrite (bind_await_rejects _ _ _ _ _ He); cbn; split; [discriminate|];
          intros t1 s1 e H; injection H as _ _ <-; left; reflexivity
        | rewrite (bind_await_never _ _ _ _ He); cbn; split; discriminate ].
      destruct (0 <? n).
      - rewrite bind_emit. cbn [snd]. unfold await.
        destruct (answer (errorScreenshot p)) as [[]|e0|]; cbn;
          split; try discriminate.
        intros t1 s1 e H. injection H as _ _ <-. right. reflexivity.
      - cbn. split; discriminate. }
    destruct (negb (found =? expected)).
    + rewrite bind_bind, bind_emit. cbn [snd].
      destruct (debugScreenshot_runs p t2) as (shot & t3 & Hshot & _).
      rewrite (bind_value _ _ _ _ _ _ _ _ Hshot). cbn [snd].
      rewrite bind_emit. cbn [snd].
      destruct (Hcheck t3) as [Hf Hsrc]. split; [exact Hf|].
      intros t1 s1 e H. right. right. exact (Hsrc t1 s1 e H).
    + rewrite bind_ret, bind_emit. cbn [snd].
      destruct (Hcheck t2) as [Hf Hsrc]. split; [exact Hf|].
      intros t1 s1 e H. right. right. exact (Hsrc t1 s1 e H).
  - rewrite (bind_pending _ _ _ _ _ _ Hpoll). cbn. split; discriminate.
  - exfalso. apply Hfuel. reflexivity.
Qed.

End MediaRuns.

(** ** [navigateToCompose] *)

Module ComposeFacts.
Import Async AsyncFacts AsyncRules ComposePhase.
Import PosterFacts.
Local Open Scope async_scope.

Lemma clicks_app (a b : list Event) : clicks (a ++ b) = clicks a ++ clicks b.
Proof.
  induction a as [|e a IH]; [reflexivity|].
  destruct e; cbn [app clicks]; rewrite IH; reflexivity.
Qed.

(** One selector of the loop. *)
Lemma clickOne_runs (p : Page) (selector : Selector) t :
  let r := tryCatch
             (await (waitForSelector p selector) ;;
              await (click p selector) ;;
              emit (Clicked selector) ;;
              ret true)
             (fun _ => ret false) t tt in
  match snd r with
  | Settled _ _ (inr true) =>
      usable p selector = true /\ clicks (events (fst r)) = [selector]
  | Settled _ _ (inr false) =>
      usable p selector = false /\ clicks (events (fst r)) = []
  | Settled _ _ (inl _) => False
  | Pending _ => clicks (events (fst r)) = []
  | OutOfFuel => False
  end.
Proof.
  unfold usable, tryCatch, bind, await, emit, ret.
  destruct (answer (waitForSelector p selector)) as [[]|e|]; cbn;
    try (split; reflexivity); try reflexivity.
  destruct (answer (click p selector)) as [[]|e|]; cbn;
    try (split; reflexivity); reflexivity.
Qed.

Lemma clickFirst_runs (p : Page) (selectors : list Selector) t :
  let r := clickFirst p selectors t tt in
  match snd r with
  | Settled _ _ (inr true) =>
      exists selector,
        find (usable p) selectors = Some selector
        /\ clicks (events (fst r)) = [selector]
  | Settled _ _ (inr false) =>
      find (usable p) selectors = None /\ clicks (events (fst r)) = []
  | Settled _ _ (inl _) => False
  | Pending _ => clicks (events (fst r)) = []
  | OutOfFuel => False
  end.
Proof.
  revert t. induction selectors as [|selector rest IH]; intros t.
  - cbn. split; reflexivity.
  - cbn [clickFirst find]. pose proof (clickOne_runs p selector t) as Hone.
    cbv zeta in Hone. unfold bind.
    destruct (tryCatch _ _ t tt) as [tr [t1 [] [e|[|]]|[]|]]; cbn [fst snd] in *;
      try contradiction.
    + destruct Hone as [-> Hc]. cbn [ret fst snd]. rewrite app_nil_r.
      exists selector. split; [reflexivity | exact Hc].
    + destruct Hone as [-> Hc]. specialize (IH t1). cbv zeta in IH.
      destruct (clickFirst p rest t1 tt) as [tr1 [t2 [] [e|[|]]|[]|]];
        cbn [fst snd] in *; try contradiction;
        rewrite events_app, clicks_app, Hc; cbn [app]; exact IH.
    + exact Hone.
Qed.

(** X17.  [navigateToCompose] clicks once, on the first of the nine
    selectors that is both found and clicked without an error: when it
    returns, that click is the only one that went through and the text
    area has appeared; when it fails, either no selector worked, nothing
    was clicked and the error is "Could not find compose tweet button", or
    the one click went through and the error is that of the wait for the
    text area. *)
Theorem navigateToCompose_clicks_the_first_match (p : Page) t :
  let r := navigateToCompose p t tt in
  match snd r with
  | Settled _ _ (inr _) =>
      exists selector,
        find (usable p) composeSelectors = Some selector
        /\ clicks (events (fst r)) = [selector]
        /\ answer (textarea p) = Resolves tt
  | Settled _ _ (inl e) =>
      (find (usable p) composeSelectors = None
       /\ clicks (events (fst r)) = [] /\ e = composeNotFound)
      \/ (exists selector,
            find (usable p) composeSelectors = Some selector
            /\ clicks (events (fst r)) = [selector]
            /\ answer (textarea p) = Rejects e)
  | Pending _ => List.length (clicks (events (fst r))) <= 1
  | OutOfFuel => False
  end.
Proof.
  intros r. subst r. unfold navigateToCompose. rewrite bind_emit.
  pose proof (clickFirst_runs p composeSelectors t) as Hfirst.
  cbv zeta in Hfirst.
  destruct (clickFirst p composeSelectors t tt) as [tr [t1 [] [e|[|]]|[]|]] eqn:Hrun;
    cbn [fst snd] in Hfirst; try contradiction.
  - destruct Hfirst as (selector & Hfind & Hc).
    rewrite (bind_value _ _ _ _ _ _ _ _ Hrun). cbn [negb fst snd].
    unfold bind, await, emit.
    destruct (answer (textarea p)) as [[]|e|]; unfold pending; cbn [fst snd];
      rewrite events_cons, ?events_app; cbn [what clicks];
      rewrite ?clicks_app, ?Hc; cbn [events map clicks app List.length].
    + exists selector. repeat split. exact Hfind.
    + right. exists selector. repeat split. exact Hfind.
    + lia.
  - destruct Hfirst as [Hfind Hc].
    rewrite (bind_value _ _ _ _ _ _ _ _ Hrun). cbn [negb throw fst snd].
    left. rewrite events_cons, events_app. cbn [what clicks events map].
    rewrite clicks_app, Hc. repeat split. exact Hfind.
  - rewrite (bind_pending _ _ _ _ _ _ Hrun). cbn [fst snd].
    rewrite events_cons. cbn [what clicks]. rewrite Hfirst. cbn [List.length]. lia.
Qed.

Lemma navigateToCompose_clicks_the_first_match_witness :
  clicks (events (fst (navigateToCompose linkOnlyPage 0%N tt))) = [ComposeLink].
Proof.
  pose proof (navigateToCompose_clicks_the_first_match linkOnlyPage 0%N) as H.
  cbv zeta in H.
  destruct (snd (navigateToCompose linkOnlyPage 0%N tt)) as [t1 s1 [e|[]]|s1|] eqn:Hrun;
    try (vm_compute in Hrun; discriminate Hrun).
  destruct H as (selector & Hfind & Hc & _). rewrite Hc.
  vm_compute in Hfind. injection Hfind as <-. reflexivity.
Defined.

End ComposeFacts.

(** ** [deleteImageFiles] *)

Module ImageFileFacts.
Import Async AsyncFacts AsyncRules ImageFiles.
Import PosterFacts.
Local Open Scope async_scope.

Lemma pathExists_In (imagePath : string) (files : Files) :
  pathExists imagePath files = true <-> In imagePath files.
Proof.
  unfold pathExists. rewrite existsb_exists. split.
  - intros (y & Hy & Heq). apply String.eqb_eq in Heq. subst. exact Hy.
  - intros H. exists imagePath. split; [exact H | apply String.eqb_refl].
Qed.

Lemma In_unlinked (f imagePath : string) (files : Files) :
  In f (unlinked imagePath files) <-> In f files /\ f <> imagePath.
Proof.
  unfold unlinked. rewrite filter_In. split; intros [Hin Hne]; split; try exact Hin.
  - intros ->. rewrite String.eqb_refl in Hne. discriminate.
  - destruct (String.eqb_spec imagePath f) as [->|]; [contradiction | reflexivity].
Qed.

Lemma neverThrows_logIf (b : bool) (e : Event) : neverThrows (logIf b e).
Proof. unfold logIf. safe. Qed.

Lemma neverThrows_deleteEach (hasLogger : bool) (unlink : string -> Call unit)
  (imagePaths : list string) :
  neverThrows (deleteEach hasLogger unlink imagePaths).
Proof.
  induction imagePaths as [|imagePath rest IH]; cbn [deleteEach]; safe;
    first [apply neverThrows_logIf | exact IH].
Qed.

(** One path of the loop. *)
Lemma deleteOne_runs (hasLogger : bool) (unlink : string -> Call unit)
  (imagePath : string) t (files : Files) :
  answer (unlink imagePath) <> NeverSettles ->
  exists tr t1,
    tryCatch
      (files <- get ;;
       if pathExists imagePath files then
         await (unlink imagePath) ;;
         update (unlinked imagePath) (Deleted imagePath) ;;
         logIf hasLogger (LoggedDeleted imagePath)
       else emit (FileNotFound imagePath))
      (fun fileError =>
         emit (FailedToDelete imagePath fileError) ;;
         logIf hasLogger (LoggedFailedToDelete imagePath fileError)) t files
    = (tr, Settled t1
             (if removable unlink imagePath then unlinked imagePath files else files)
             (inr tt)).
Proof.
  intros Hsettles. unfold tryCatch, bind, get, await, update, emit, logIf, removable.
  destruct (pathExists imagePath files) eqn:Hex.
  - destruct (answer (unlink imagePath)) as [[]|e|]; [| |contradiction];
      destruct hasLogger; cbn; eexists _, _; reflexivity.
  - assert (Hsame : unlinked imagePath files = files).
    { unfold unlinked. clear Hsettles. induction files as [|f files IH]; [reflexivity|].
      cbn [pathExists existsb] in Hex. apply orb_false_elim in Hex as [Hf Hrest].
      cbn [filter]. rewrite Hf. cbn [negb]. f_equal. apply IH. exact Hrest. }
    cbn. rewrite Hsame. destruct (answer (unlink imagePath)) as [[]|e|];
      eexists _, _; reflexivity.
Qed.

Lemma deleteEach_runs (hasLogger : bool) (unlink : string -> Call unit)
  (imagePaths : list string) t (files : Files) :
  settles unlink imagePaths ->
  exists tr t1 files1,
    deleteEach hasLogger unlink imagePaths t files = (tr, Settled t1 files1 (inr tt))
    /\ forall f, In f files1 <->
                 In f files /\ ~ (In f imagePaths /\ removable unlink f = true).
Proof.
  revert t files. induction imagePaths as [|imagePath rest IH];
    intros t files Hsettles.
  - cbn. eexists _, _, _. split; [reflexivity|]. intros f. tauto.
  - cbn [deleteEach].
    destruct (deleteOne_runs hasLogger unlink imagePath t files) as (tr & t1 & Hone).
    { apply Hsettles. left. reflexivity. }
    rewrite (bind_value _ _ _ _ _ _ _ _ Hone). cbn [fst snd].
    destruct (IH t1 (if removable unlink imagePath
                     then unlinked imagePath files else files))
      as (tr1 & t2 & files1 & -> & Hfiles).
    { intros x Hx. apply Hsettles. right. exact Hx. }
    cbn [fst snd]. eexists _, _, _. split; [reflexivity|].
    intros f. rewrite Hfiles. cbn [In].
    destruct (removable unlink imagePath) eqn:Hrem.
    + rewrite In_unlinked. split.
      * intros [[Hin Hne] Hnot]. split; [exact Hin|].
        intros [[->|Hr] Hrm]; [contradiction | apply Hnot; split; assumption].
      * intros [Hin Hnot]. split; [split; [exact Hin|]|].
        -- intros ->. apply Hnot. split; [left; reflexivity | exact Hrem].
        -- intros [Hr Hrm]. apply Hnot. split; [right; exact Hr | exact Hrm].
    + split.
      * intros [Hin Hnot]. split; [exact Hin|].
        intros [[<-|Hr] Hrm]; [congruence | apply Hnot; split; assumption].
      * intros [Hin Hnot]. split; [exact Hin|].
        intros [Hr Hrm]. apply Hnot. split; [right; exact Hr | exact Hrm].
Qed.

(** X18.  [deleteImageFiles] is best effort: it never throws, and when
    every [unlink] settles it returns with exactly those files left that
    were there before and are not a listed path whose [unlink] resolved; a
    file that cannot be removed stops neither the loop nor the caller. *)
Theorem deleteImageFiles_is_best_effort (hasLogger : bool)
  (unlink : string -> Call unit) (imagePaths : list string) t (files : Files) :
  neverThrows (deleteImageFiles hasLogger unlink imagePaths)
  /\ (settles unlink imagePaths ->
      exists tr t1 files1,
        deleteImageFiles hasLogger unlink imagePaths t files
        = (tr, Settled t1 files1 (inr tt))
        /\ forall f, In f files1 <->
                     In f files /\ ~ (In f imagePaths /\ removable unlink f = true)).
Proof.
  split.
  - unfold deleteImageFiles. safe.
  - intros Hsettles. unfold deleteImageFiles, tryCatch.
    rewrite bind_emit.
    destruct (deleteEach_runs hasLogger unlink imagePaths t files Hsettles)
      as (tr & t1 & files1 & Hrun & Hfiles).
    rewrite (bind_value _ _ _ _ _ _ _ _ Hrun). cbn.
    eexists _, _, _. split; [reflexivity | exact Hfiles].
Qed.

Lemma deleteImageFiles_is_best_effort_witness :
  exists tr t1,
    deleteImageFiles true lockedUnlink
      ["output/a_watermarked.jpg"; "output/b_watermarked.jpg"]%string 0%N
      ["output/a_watermarked.jpg"; "output/b_watermarked.jpg"; "output/c.jpg"]%string
    = (tr, Settled t1 ["output/b_watermarked.jpg"; "output/c.jpg"]%string (inr tt)).
Proof.
  destruct (proj2 (deleteImageFiles_is_best_effort true lockedUnlink
                     ["output/a_watermarked.jpg"; "output/b_watermarked.jpg"]%string
                     0%N
                     ["output/a_watermarked.jpg"; "output/b_watermarked.jpg";
                      "output/c.jpg"]%string))
    as (tr & t1 & files1 & Hrun & _).
  - intros imagePath [<-|[<-|[]]]; vm_compute; discriminate.
  - exists tr, t1. rewrite Hrun. vm_compute in Hrun.
    injection Hrun as _ _ <-. reflexivity.
Defined.

End ImageFileFacts.

(** ** [publishTweet] and its helpers *)

Module PublishFacts.
Import Async AsyncFacts AsyncRules PublishPhase.
Import PosterFacts.
Local Open Scope async_scope.

Lemma publish_wait_runs (ms : N) t :
  waitForTimeout ms t tt
  = ([{| at_ := t; what := Waited ms; snapshot := tt |}],
     Settled (t + ms)%N tt (inr tt)).
Proof. reflexivity. Qed.

(** *** Nothing but [publishTweet] itself throws *)

Lemma neverThrows_isComposeModalOpen (g : Glance) : neverThrows (isComposeModalOpen g).
Proof. unfold isComposeModalOpen. safe. Qed.

Lemma neverThrows_findButtonAmong (q : Selector -> Call bool)
  (selectors : list Selector) :
  neverThrows (findButtonAmong q selectors).
Proof.
  induction selectors as [|selector rest IH]; cbn [findButtonAmong]; safe. exact IH.
Qed.

Lemma neverThrows_activateWith (a : Attempt) (methods : list Activation) :
  neverThrows (activateWith a methods).
Proof.
  induction methods as [|method rest IH]; cbn [activateWith]; safe. exact IH.
Qed.

Lemma neverThrows_ensurePostButtonEnabled (a : Attempt) :
  neverThrows (ensurePostButtonEnabled a).
Proof. unfold ensurePostButtonEnabled. safe. Qed.

Lemma neverThrows_validatePostButtonClick (v : Validation) :
  neverThrows (validatePostButtonClick v).
Proof. unfold validatePostButtonClick. safe. Qed.

Lemma neverThrows_clickWith (a : Attempt) (n : nat) (methods : list ClickMethod) :
  neverThrows (clickWith a n methods).
Proof.
  induction methods as [|method rest IH]; cbn [clickWith]; safe. exact IH.
Qed.

Lemma fueled_publish_wait (ms : N) : fueled (waitForTimeout ms).
Proof. unfold waitForTimeout. fuel_ok. Qed.

Lemma fueled_isComposeModalOpen (g : Glance) : fueled (isComposeModalOpen g).
Proof. unfold isComposeModalOpen. fuel_ok. Qed.

Lemma fueled_findButtonAmong (q : Selector -> Call bool) (selectors : list Selector) :
  fueled (findButtonAmong q selectors).
Proof.
  induction selectors as [|selector rest IH]; cbn [findButtonAmong]; fuel_ok. exact IH.
Qed.

Lemma fueled_activateWith (a : Attempt) (methods : list Activation) :
  fueled (activateWith a methods).
Proof.
  induction methods as [|method rest IH]; cbn [activateWith]; fuel_ok. exact IH.
Qed.

Lemma fueled_ensurePostButtonEnabled (a : Attempt) : fueled (ensurePostButtonEnabled a).
Proof. unfold ensurePostButtonEnabled. fuel_ok; try apply fueled_activateWith. Qed.

Lemma fueled_validatePostButtonClick (v : Validation) :
  fueled (validatePostButtonClick v).
Proof.
  unfold validatePostButtonClick, findPostButton.
  fuel_ok; try first [apply fueled_findButtonAmong | apply fueled_publish_wait].
Qed.

Lemma fueled_clickWith (a : Attempt) (n : nat) (methods : list ClickMethod) :
  fueled (clickWith a n methods).
Proof.
  induction methods as [|method rest IH]; cbn [clickWith];
    fuel_ok; first [apply fueled_publish_wait | apply fueled_validatePostButtonClick
                   | exact IH].
Qed.

Lemma neverThrows_publish_wait (ms : N) : neverThrows (waitForTimeout ms).
Proof. unfold waitForTimeout. safe. Qed.

(** *** The search for the button *)

Lemma findButtonAmong_runs (q : Selector -> Call bool) (selectors : list Selector) t :
  match snd (findButtonAmong q selectors t tt) with
  | Settled _ _ (inr r) => firstFound q selectors = Some r
  | Settled _ _ (inl _) => False
  | Pending _ => firstFound q selectors = None
  | OutOfFuel => False
  end.
Proof.
  revert t. induction selectors as [|selector rest IH]; intros t.
  - reflexivity.
  - cbn [findButtonAmong firstFound]. unfold bind at 1, tryCatch, bind at 1, await.
    destruct (answer (q selector)) as [[|]|e|]; cbn; try reflexivity.
    + specialize (IH (t + took (q selector))%N).
      destruct (findButtonAmong q rest (t + took (q selector))%N tt)
        as [tr [t1 [] [e'|r]|[]|]]; exact IH.
    + specialize (IH (t + took (q selector))%N).
      destruct (findButtonAmong q rest (t + took (q selector))%N tt)
        as [tr [t1 [] [e'|r]|[]|]]; exact IH.
Qed.

(** *** What a reported reason stands for *)

Ltac settle :=
  cbn; repeat split; try reflexivity; try assumption; eauto; tauto.

Lemma validate_body_runs (v : Validation) t :
  let body :=
    (if negb (JsString.includes (location v) "/compose/tweet")
     then ret {| success := true; reason := NavigatedAway |}
     else
       found <- await (modal v) ;;
       if negb found then ret {| success := true; reason := ModalDisappeared |}
       else
         notified <- await (successNotification v) ;;
         if notified : bool
         then ret {| success := true; reason := NotificationFound |}
         else
           postButton <- findPostButton (buttonsAfter v) ;;
           match postButton with
           | None => ret {| success := true; reason := ButtonDisappeared |}
           | Some _ =>
               off <- await (isDisabled v) ;;
               if off : bool then
                 waitForTimeout 1000 ;;
                 there <- await (modalStillThere v) ;;
                 if negb there
                 then ret {| success := true;
                             reason := DisabledAndModalDisappeared |}
                 else ret {| success := false; reason := NoIndicators |}
               else ret {| success := false; reason := NoIndicators |}
           end) : Task Result in
  match snd (body t tt) with
  | Settled _ _ (inr r) =>
      observed v (reason r) /\ success r = successful (reason r)
  | Settled _ _ (inl e) => observed v (ValidationError e)
  | Pending _ => True
  | OutOfFuel => False
  end.
Proof.
  cbv zeta.
  destruct (JsString.includes (location v) "/compose/tweet") eqn:Hurl; cbn [negb].
  2:{ cbn. split; [exact Hurl | reflexivity]. }
  destruct (answer (modal v)) as [[|]|e|] eqn:Hm;
    [ rewrite (bind_await _ _ _ _ _ Hm); cbn [negb]
    | rewrite (bind_await _ _ _ _ _ Hm); settle
    | rewrite (bind_await_rejects _ _ _ _ _ Hm); settle
    | rewrite (bind_await_never _ _ _ _ Hm); exact I ].
  destruct (answer (successNotification v)) as [[|]|e|] eqn:Hn;
    [ rewrite (bind_await _ _ _ _ _ Hn); settle
    | rewrite (bind_await _ _ _ _ _ Hn)
    | rewrite (bind_await_rejects _ _ _ _ _ Hn); settle
    | rewrite (bind_await_never _ _ _ _ Hn); exact I ].
  match goal with
  | |- context [bind (findPostButton _) _ ?t0 tt] => set (t' := t0)
  end.
  pose proof (findButtonAmong_runs (buttonsAfter v) postButtonSelectors t') as Hfind.
  fold (findPostButton (buttonsAfter v)) in Hfind.
  destruct (findPostButton (buttonsAfter v) t' tt)
    as [tr [t2 [] [e|[selector|]]|[]|]] eqn:Hrun; cbn [snd] in Hfind;
    try contradiction.
  - rewrite (bind_value _ _ _ _ _ _ _ _ Hrun). cbn [fst snd].
    destruct (answer (isDisabled v)) as [[|]|e|] eqn:Hd;
      [ rewrite (bind_await _ _ _ _ _ Hd)
      | rewrite (bind_await _ _ _ _ _ Hd); settle
      | rewrite (bind_await_rejects _ _ _ _ _ Hd); settle
      | rewrite (bind_await_never _ _ _ _ Hd); exact I ].
    rewrite (bind_value _ _ _ _ _ _ _ _ (publish_wait_runs 1000 _)). cbn [fst snd].
    destruct (answer (modalStillThere v)) as [[|]|e|] eqn:Hs;
      [ rewrite (bind_await _ _ _ _ _ Hs); settle
      | rewrite (bind_await _ _ _ _ _ Hs); settle
      | rewrite (bind_await_rejects _ _ _ _ _ Hs); settle
      | rewrite (bind_await_never _ _ _ _ Hs); exact I ].
  - rewrite (bind_value _ _ _ _ _ _ _ _ Hrun). settle.
  - rewrite (bind_pending _ _ _ _ _ _ Hrun). exact I.
Qed.

(** X19.  [validatePostButtonClick] never throws, and the reason it
    reports is what the page answered: each success reason ([success] is
    true exactly for those) and "no success indicators" is reported only
    after the answers that lead to it, a validation error carries the
    message of the check that rejected, and "navigated away" is reported
    without awaiting anything. *)
Theorem reported_reason_is_observed (v : Validation) t :
  match snd (validatePostButtonClick v t tt) with
  | Settled t1 _ (inr r) =>
      observed v (reason r)
      /\ success r = successful (reason r)
      /\ (reason r = NavigatedAway -> t1 = t)
  | Settled _ _ (inl _) => False
  | Pending _ => True
  | OutOfFuel => False
  end.
Proof.
  pose proof (validate_body_runs v t) as Hbody. cbv zeta in Hbody.
  unfold validatePostButtonClick, tryCatch.
  destruct (JsString.includes (location v) "/compose/tweet") eqn:Hurl;
    cbn [negb] in *.
  2:{ cbn. repeat split. exact Hurl. }
  match type of Hbody with
  | match snd (?b t tt) with _ => _ end => destruct (b t tt) as [tr o]
  end.
  cbn [snd] in Hbody.
  destruct o as [t1 [] [e|r]|[]|]; cbn [snd]; try exact Hbody; try exact I.
  - rewrite bind_emit. cbn [fst snd ret success reason successful].
    split; [exact Hbody|]. split; [reflexivity|]. intros H. discriminate H.
  - destruct Hbody as [Hobs Hsucc]. repeat split; try assumption.
    intros Hr. rewrite Hr in Hobs. cbn in Hobs. congruence.
Qed.

(** *** The loop *)

Ltac raises :=
  repeat first
    [ apply throwsOnly_never;
      first [ apply neverThrows_isComposeModalOpen
            | apply neverThrows_findButtonAmong
            | apply neverThrows_ensurePostButtonEnabled
            | apply neverThrows_clickWith
            | apply neverThrows_publish_wait
            | apply neverThrows_ret
            | apply neverThrows_emit ]
    | apply throwsOnly_throw
    | apply throwsOnly_outOfFuel
    | apply throwsOnly_bind; [|intros]
    | match goal with
      | |- throwsOnly _ (if ?b then _ else _) => destruct b
      | |- throwsOnly _ (match ?x with _ => _ end) => destruct x
      end ].

Lemma publishLoop_throws (fuel : nat) (p : Page) (k : nat) :
  throwsOnly (fun e => e = noPostButton) (publishLoop fuel p k).
Proof.
  revert k. induction fuel as [|fuel IH]; intros k; cbn [publishLoop];
    destruct (k <? maxPublishAttempts); raises;
    first [reflexivity | apply IH].
Qed.

Lemma fueled_publishLoop (fuel : nat) (p : Page) (k : nat) :
  maxPublishAttempts - k <= fuel -> fueled (publishLoop fuel p k).
Proof.
  revert k. induction fuel as [|fuel IH]; intros k Hfuel; cbn [publishLoop];
    destruct (Nat.ltb_spec k maxPublishAttempts); try apply fueled_ret;
    try (unfold maxPublishAttempts in *; lia).
  fuel_ok;
    try first [ apply fueled_isComposeModalOpen | apply fueled_findButtonAmong
              | apply fueled_ensurePostButtonEnabled | apply fueled_clickWith
              | apply fueled_publish_wait
              | apply IH; unfold maxPublishAttempts in *; lia ].
Qed.

(** *** Counting clicks and turns *)

Section Tally.
Variable f : Event -> bool.
Hypothesis f_counts : forall e, f e = true -> (exists m n, e = ClickExecuted m n)
                                             \/ exists k, e = PublishAttempt k.

Let silent (e : Entry unit Event) : Prop := f (what e) = false.

Lemma silent_event (e : Event) t s :
  (forall m n, e <> ClickExecuted m n) -> (forall k, e <> PublishAttempt k) ->
  silent {| at_ := t; what := e; snapshot := s |}.
Proof.
  intros Hc Ht. unfold silent. cbn [what]. destruct (f e) eqn:Hf; [|reflexivity].
  destruct (f_counts e Hf) as [(m & n & ->) | (k & ->)];
    [exfalso; exact (Hc m n eq_refl) | exfalso; exact (Ht k eq_refl)].
Qed.

Ltac hush :=
  repeat first
    [ apply writesOnly_emit; intros; apply silent_event; intros; discriminate
    | apply writesOnly_bind; [|intros]
    | apply writesOnly_tryCatch; [|intros]
    | apply writesOnly_ret | apply writesOnly_throw | apply writesOnly_pending
    | apply writesOnly_wait | apply writesOnly_await
    | match goal with
      | |- writesOnly _ (if ?b then _ else _) => destruct b
      | |- writesOnly _ (match ?x with _ => _ end) => destruct x
      end ].

Lemma silent_wait (ms : N) : writesOnly silent (waitForTimeout ms).
Proof. unfold waitForTimeout. hush. Qed.

Lemma silent_isComposeModalOpen (g : Glance) : writesOnly silent (isComposeModalOpen g).
Proof. unfold isComposeModalOpen. hush. Qed.

Lemma silent_findButtonAmong (q : Selector -> Call bool) (selectors : list Selector) :
  writesOnly silent (findButtonAmong q selectors).
Proof.
  induction selectors as [|selector rest IH]; cbn [findButtonAmong]; hush. exact IH.
Qed.

Lemma silent_activateWith (a : Attempt) (methods : list Activation) :
  writesOnly silent (activateWith a methods).
Proof.
  induction methods as [|method rest IH]; cbn [activateWith]; hush. exact IH.
Qed.

Lemma silent_ensurePostButtonEnabled (a : Attempt) :
  writesOnly silent (ensurePostButtonEnabled a).
Proof. unfold ensurePostButtonEnabled. hush; try apply silent_activateWith. Qed.

Lemma silent_validatePostButtonClick (v : Validation) :
  writesOnly silent (validatePostButtonClick v).
Proof.
  unfold validatePostButtonClick, findPostButton.
  hush; try first [apply silent_findButtonAmong | apply silent_wait].
Qed.

Lemma silent_verifying {A} (m : Verification.Task A) : writesOnly silent (verifying m).
Proof.
  intros t s. unfold verifying. destruct (m t s) as [tr o]. cbn [fst].
  induction tr as [|x tr IH]; cbn [map]; constructor; [|exact IH].
  apply silent_event; intros; discriminate.
Qed.

End Tally.

Lemma clicks_count (e : Event) :
  isClick e = true ->
  (exists m n, e = ClickExecuted m n) \/ exists k, e = PublishAttempt k.
Proof. destruct e; try discriminate. intros _. left. eauto. Qed.

Lemma turns_count (e : Event) :
  isTurn e = true ->
  (exists m n, e = ClickExecuted m n) \/ exists k, e = PublishAttempt k.
Proof. destruct e; try discriminate. intros _. right. eauto. Qed.

Lemma emitsAtMost_bind_zero {A B} (f : Event -> bool) (n : nat)
  (m : Task A) (k : A -> Task B) :
  emitsAtMost f 0 m -> (forall a, emitsAtMost f n (k a)) ->
  emitsAtMost f n (bind m k).
Proof. intros Hm Hk. apply (emitsAtMost_bind f 0 n); assumption. Qed.

(** Each click method clicks at most once. *)
Lemma clickWith_clicks (a : Attempt) (n : nat) (methods : list ClickMethod) :
  emitsAtMost isClick (List.length methods) (clickWith a n methods).
Proof.
  induction methods as [|method rest IH]; cbn [clickWith List.length].
  - apply emitsAtMost_ret.
  - apply (emitsAtMost_bind isClick 1 (List.length rest)).
    + apply (emitsAtMost_tryCatch isClick 1 0).
      * apply emitsAtMost_bind_zero; [apply emitsAtMost_await | intros _].
        apply (emitsAtMost_bind isClick 1 0);
          [apply (emitsAtMost_emit isClick (ClickExecuted method n)) | intros _].
        apply emitsAtMost_none.
        apply writesOnly_bind; [apply (silent_wait isClick clicks_count) | intros _].
        apply writesOnly_bind;
          [apply (silent_validatePostButtonClick isClick clicks_count) | intros r].
        destruct (success r); [|destruct rest];
          repeat first [ apply (silent_wait isClick clicks_count)
                       | apply writesOnly_bind; [|intros]
                       | apply writesOnly_ret
                       | apply writesOnly_emit; intros; reflexivity ].
      * intros e. apply emitsAtMost_none.
        apply writesOnly_bind; [|intros; apply writesOnly_ret].
        apply writesOnly_emit; intros; reflexivity.
    + intros [r|]; [|exact IH].
      apply (emitsAtMost_more isClick 0); [lia | apply emitsAtMost_ret].
Qed.

Lemma clickWith_turns (a : Attempt) (n : nat) (methods : list ClickMethod) :
  writesOnly (fun e => isTurn (what e) = false) (clickWith a n methods).
Proof.
  induction methods as [|method rest IH]; cbn [clickWith].
  - apply writesOnly_ret.
  - repeat first
      [ apply writesOnly_emit; intros; reflexivity
      | apply (silent_wait isTurn turns_count)
      | apply (silent_validatePostButtonClick isTurn turns_count)
      | exact IH
      | apply writesOnly_bind; [|intros]
      | apply writesOnly_tryCatch; [|intros]
      | apply writesOnly_ret | apply writesOnly_await
      | match goal with
        | |- writesOnly _ (if ?b then _ else _) => destruct b
        | |- writesOnly _ (match ?x with _ => _ end) => destruct x
        end ].
Qed.

Ltac tally count IH :=
  repeat first
    [ apply emitsAtMost_bind_zero;
      [ solve [ apply emitsAtMost_none;
                first [ apply (silent_isComposeModalOpen _ count)
                      | apply (silent_findButtonAmong _ count)
                      | apply (silent_ensurePostButtonEnabled _ count)
                      | apply (silent_wait _ count)
                      | apply clickWith_turns
                      | apply writesOnly_ret
                      | apply writesOnly_emit; intros; reflexivity
                      | match goal with
                        | |- writesOnly _ (if ?b then _ else _) =>
                            destruct b;
                            first [ apply writesOnly_ret
                                  | apply writesOnly_emit; intros; reflexivity
                                  | apply writesOnly_bind;
                                    [ apply writesOnly_emit; intros; reflexivity
                                    | intros; apply (silent_wait _ count) ] ]
                        end ] ]
      | intros ]
    | match goal with
      | |- emitsAtMost _ _ (if ?b then _ else _) => destruct b
      | |- emitsAtMost _ _ (match ?x with _ => _ end) => destruct x
      end
    | (eapply emitsAtMost_more; [|apply emitsAtMost_ret]; lia)
    | (eapply emitsAtMost_more; [|apply emitsAtMost_throw]; lia)
    | (eapply emitsAtMost_more; [|apply IH]; lia) ].

Lemma publishLoop_clicks (fuel : nat) (p : Page) (k : nat) :
  emitsAtMost isClick (5 * fuel) (publishLoop fuel p k).
Proof.
  revert k. induction fuel as [|fuel IH]; intros k; cbn [publishLoop];
    destruct (k <? maxPublishAttempts);
    try (eapply emitsAtMost_more; [|apply emitsAtMost_ret]; lia);
    try (eapply emitsAtMost_more; [|apply emitsAtMost_outOfFuel]; lia).
  tally clicks_count IH.
  apply (emitsAtMost_more isClick (5 + 5 * fuel)); [lia|].
  apply (emitsAtMost_bind isClick 5 (5 * fuel));
    [apply (clickWith_clicks _ _ clickMethods) | intros r].
  tally clicks_count IH.
Qed.

Lemma publishLoop_turns (fuel : nat) (p : Page) (k : nat) :
  emitsAtMost isTurn fuel (publishLoop fuel p k).
Proof.
  revert k. induction fuel as [|fuel IH]; intros k; cbn [publishLoop];
    destruct (k <? maxPublishAttempts);
    try (eapply emitsAtMost_more; [|apply emitsAtMost_ret]; lia);
    try (eapply emitsAtMost_more; [|apply emitsAtMost_outOfFuel]; lia).
  apply (emitsAtMost_bind isTurn 1 fuel);
    [apply (emitsAtMost_emit isTurn (PublishAttempt k)) | intros _].
  tally turns_count IH.
Qed.

(** *** [publishTweet] *)

Lemma verifying_outcome {A} (m : Verification.Task A) t s :
  snd (verifying m t s) = snd (m t s).
Proof. unfold verifying. destruct (m t s) as [tr o]. reflexivity. Qed.

Lemma verifying_throws (statusNumber : string -> Z)
  (page : nat -> Verification.Observation) :
  throwsOnly (fun e => e = Verification.verificationFailed)
    (verifying (Verification.verifyTweetSuccess statusNumber page)).
Proof.
  intros t s t1 s1 e. rewrite verifying_outcome. destruct s.
  unfold Verification.verifyTweetSuccess.
  pose proof (VerificationRuns.verifyLoop_fails_late statusNumber 20 page 0 0%N t) as H.
  assert (Hf : (Verification.maxWaitTime
                <= 0 + Verification.checkInterval * N.of_nat 20)%N)
    by (vm_compute; discriminate).
  specialize (H Hf). intros Hrun. rewrite Hrun in H. apply H.
Qed.

Lemma fueled_verifying (statusNumber : string -> Z)
  (page : nat -> Verification.Observation) :
  fueled (verifying (Verification.verifyTweetSuccess statusNumber page)).
Proof.
  intros t s. rewrite verifying_outcome. destruct s.
  unfold Verification.verifyTweetSuccess.
  pose proof (VerificationRuns.verifyLoop_fails_late statusNumber 20 page 0 0%N t) as H.
  assert (Hf : (Verification.maxWaitTime
                <= 0 + Verification.checkInterval * N.of_nat 20)%N)
    by (vm_compute; discriminate).
  specialize (H Hf). intros Hrun. rewrite Hrun in H. exact H.
Qed.

(** What [publishTweet] adds to the entries of its loop passes no count. *)
Lemma publishTweet_tally (f : Event -> bool) (n : nat)
  (statusNumber : string -> Z) (hasLogger : bool) (p : Page) :
  (forall e, f e = true ->
             (exists m k, e = ClickExecuted m k) \/ exists k, e = PublishAttempt k) ->
  emitsAtMost f n (publishLoop maxPublishAttempts p 0) ->
  emitsAtMost f n (publishTweet statusNumber hasLogger p).
Proof.
  intros Hcount Hloop. unfold publishTweet.
  apply emitsAtMost_bind_zero;
    [apply emitsAtMost_none, writesOnly_emit; intros;
     apply (silent_event f Hcount); intros; discriminate | intros _].
  apply emitsAtMost_bind_zero;
    [apply emitsAtMost_none, (silent_wait f Hcount) | intros _].
  replace n with (n + 0) by lia.
  apply emitsAtMost_bind; [exact Hloop | intros publishSuccess].
  apply emitsAtMost_none.
  apply writesOnly_bind; [apply (silent_isComposeModalOpen f Hcount) | intros b].
  apply writesOnly_bind.
  - destruct b; [|apply writesOnly_ret].
    apply writesOnly_bind;
      [apply writesOnly_emit; intros; apply (silent_event f Hcount);
       intros; discriminate | intros _].
    destruct hasLogger; [|apply writesOnly_ret].
    apply writesOnly_emit; intros; apply (silent_event f Hcount);
      intros; discriminate.
  - intros _. destruct (negb publishSuccess && b);
      [apply writesOnly_throw | apply (silent_verifying f Hcount)].
Qed.

(** X20.  [publishTweet] fails in three ways only: no Post button on the
    fifth attempt, the compose window still open after a loop that did not
    succeed, or the failure of the verification.  The failures of the
    checks, of the activation and of the click methods are all caught. *)
Theorem publishTweet_fails_in_three_ways (statusNumber : string -> Z)
  (hasLogger : bool) (p : Page) t :
  let r := publishTweet statusNumber hasLogger p t tt in
  snd r <> OutOfFuel
  /\ forall t1 s1 e, snd r = Settled t1 s1 (inl e) -> publishError e.
Proof.
  intros r. subst r. split.
  - assert (Hf : fueled (publishTweet statusNumber hasLogger p)).
    { unfold publishTweet.
      fuel_ok;
        try first [ apply fueled_publish_wait
                  | apply fueled_publishLoop; unfold maxPublishAttempts; lia
                  | apply fueled_isComposeModalOpen
                  | apply fueled_verifying ]. }
    apply Hf.
  - assert (Ht : throwsOnly publishError (publishTweet statusNumber hasLogger p)).
    { unfold publishTweet.
      apply throwsOnly_bind; [apply throwsOnly_never, neverThrows_emit | intros _].
      apply throwsOnly_bind;
        [apply throwsOnly_never, neverThrows_publish_wait | intros _].
      apply throwsOnly_bind.
      { apply (throwsOnly_weaken (fun e => e = noPostButton));
          [intros e ->; left; reflexivity | apply publishLoop_throws]. }
      intros publishSuccess.
      apply throwsOnly_bind;
        [apply throwsOnly_never, neverThrows_isComposeModalOpen | intros b].
      apply throwsOnly_bind.
      { apply throwsOnly_never. destruct b; [|apply neverThrows_ret].
        destruct hasLogger; safe. }
      intros _. destruct (negb publishSuccess && b).
      - apply throwsOnly_throw. right. left. reflexivity.
      - apply (throwsOnly_weaken (fun e => e = Verification.verificationFailed));
          [intros e ->; right; right; reflexivity | apply verifying_throws]. }
    intros t1 s1 e. apply Ht.
Qed.

(** X21.  The effort of [publishTweet] is bounded: at most five attempts
    are started and the Post button is clicked at most twenty-five times
    (five click methods in each attempt), whatever the page answers. *)
Theorem publishTweet_effort_is_bounded (statusNumber : string -> Z)
  (hasLogger : bool) (p : Page) t :
  let history := events (fst (publishTweet statusNumber hasLogger p t tt)) in
  turns history <= 5 /\ clicks history <= 25.
Proof.
  intros history. subst history. split.
  - apply (publishTweet_tally isTurn 5 statusNumber hasLogger p turns_count).
    apply (publishLoop_turns 5).
  - apply (publishTweet_tally isClick 25 statusNumber hasLogger p clicks_count).
    apply (publishLoop_clicks 5).
Qed.

Lemma isComposeModalOpen_runs (g : Glance) (b : bool) t :
  shows g = Some b ->
  exists tr,
    isComposeModalOpen g t tt = (tr, Settled (t + took (composeModal g))%N tt (inr b)).
Proof.
  unfold shows, isComposeModalOpen, tryCatch, bind, await, emit, ret.
  destruct (answer (composeModal g)) as [found|e|]; cbn; intros H;
    try discriminate; injection H as <-; eexists; reflexivity.
Qed.

(** The loop when the compose window is gone at its first check. *)
Lemma publishLoop_closed (p : Page) t :
  shows (glance (attempt p 0)) = Some false ->
  exists tr t1,
    publishLoop maxPublishAttempts p 0 t tt = (tr, Settled t1 tt (inr false))
    /\ clicks (events tr) = 0.
Proof.
  intros Hshow. cbn [publishLoop maxPublishAttempts Nat.ltb Nat.leb].
  rewrite bind_emit.
  destruct (isComposeModalOpen_runs _ _ t Hshow) as [trg Hg].
  pose proof (silent_isComposeModalOpen isClick clicks_count
                (glance (attempt p 0)) t tt) as Hsil.
  rewrite Hg in Hsil. cbn [fst] in Hsil.
  rewrite (bind_value _ _ _ _ _ _ _ _ Hg). cbn [negb fst snd].
  rewrite bind_emit. cbn [fst snd ret].
  eexists _, _. split; [reflexivity|].
  rewrite events_cons, events_app. unfold clicks. cbn [what filter isClick].
  rewrite filter_app, length_app.
  assert (Hz : List.length (filter isClick (events trg)) = 0).
  { clear Hg. induction Hsil as [|x l Hx _ IH]; [reflexivity|].
    rewrite events_cons. cbn [filter]. rewrite Hx. exact IH. }
  rewrite Hz. reflexivity.
Qed.

(** X22.  When the compose window is already closed at the first attempt,
    [publishTweet] does not click at all: it leaves the loop with
    [publishSuccess] false, so that a window found open at the final check
    fails the post with "modal still open", and a window found closed hands
    the outcome over to [verifyTweetSuccess]. *)
Theorem closed_window_is_not_clicked (statusNumber : string -> Z)
  (hasLogger : bool) (p : Page) t :
  shows (glance (attempt p 0)) = Some false ->
  let r := publishTweet statusNumber hasLogger p t tt in
  clicks (events (fst r)) = 0
  /\ (shows (finalGlance p) = Some true ->
      exists t1, snd r = Settled t1 tt (inl modalStillOpen))
  /\ (shows (finalGlance p) = Some false ->
      exists t1,
        snd r = snd (Verification.verifyTweetSuccess statusNumber (verification p)
                       t1 tt)).
Proof.
  intros Hshow r. subst r.
  assert (Hzero : emitsAtMost isClick 0 (publishLoop maxPublishAttempts p 0)).
  { intros t0 s0. destruct s0.
    destruct (publishLoop_closed p t0 Hshow) as (tr & t1 & -> & Hc).
    cbn [fst]. unfold clicks in Hc. lia. }
  split.
  { pose proof (publishTweet_tally isClick 0 statusNumber hasLogger p clicks_count
                  Hzero t tt) as H.
    unfold clicks. lia. }
  unfold publishTweet. rewrite bind_emit.
  rewrite (bind_value _ _ _ _ _ _ _ _ (publish_wait_runs 1000 _)). cbn [fst snd].
  destruct (publishLoop_closed p (t + 1000)%N Hshow) as (tr & t1 & Hloop & _).
  rewrite (bind_value _ _ _ _ _ _ _ _ Hloop). cbn [fst snd].
  split; intros Hfinal;
    destruct (isComposeModalOpen_runs _ _ t1 Hfinal) as [trg Hg];
    rewrite (bind_value _ _ _ _ _ _ _ _ Hg); cbn [fst snd negb andb].
  - rewrite bind_bind, bind_emit. cbn [fst snd].
    destruct hasLogger; [rewrite bind_emit | rewrite bind_ret]; cbn [fst snd throw];
      eexists; reflexivity.
  - rewrite bind_ret. rewrite verifying_outcome. eexists. reflexivity.
Qed.

Lemma closed_window_is_not_clicked_witness :
  clicks (events (fst (publishTweet (fun _ => 0%Z) true closedWindowPage 0%N tt))) = 0.
Proof.
  apply (closed_window_is_not_clicked (fun _ => 0%Z) true closedWindowPage 0%N).
  reflexivity.
Defined.

End PublishFacts.

(** ** More rules for tasks: where an event comes from, and hanging *)

Module AsyncHistory.
Import Async AsyncFacts.
Local Open Scope async_scope.

Section History.
Context {State Event : Type}.
Let Task := M State Event.

Lemma In_bind {A B} (m : Task A) (k : A -> Task B) (x : Event) t s :
  In x (events (fst (bind m k t s))) ->
  In x (events (fst (m t s)))
  \/ exists t1 s1 a, snd (m t s) = Settled t1 s1 (inr a)
                     /\ In x (events (fst (k a t1 s1))).
Proof.
  unfold bind. destruct (m t s) as [tr [t1 s1 [e|a]|s1|]]; cbn [fst snd];
    try (intros H; left; exact H).
  destruct (k a t1 s1) as [tr1 o1] eqn:Hk. cbn [fst].
  rewrite events_app, in_app_iff. intros [H|H]; [left; exact H|].
  right. exists t1, s1, a. rewrite Hk. split; [reflexivity | exact H].
Qed.

Lemma In_tryCatch {A} (m : Task A) (h : string -> Task A) (x : Event) t s :
  In x (events (fst (tryCatch m h t s))) ->
  In x (events (fst (m t s)))
  \/ exists t1 s1 e, snd (m t s) = Settled t1 s1 (inl e)
                     /\ In x (events (fst (h e t1 s1))).
Proof.
  unfold tryCatch. destruct (m t s) as [tr [t1 s1 [e|a]|s1|]]; cbn [fst snd];
    try (intros H; left; exact H).
  destruct (h e t1 s1) as [tr1 o1] eqn:Hh. cbn [fst].
  rewrite events_app, in_app_iff. intros [H|H]; [left; exact H|].
  right. exists t1, s1, e. rewrite Hh. split; [reflexivity | exact H].
Qed.

Lemma In_tryFinally {A} (m : Task A) (f : Task unit) (x : Event) t s :
  In x (events (fst (tryFinally m f t s))) ->
  In x (events (fst (m t s)))
  \/ exists t1 s1 r, snd (m t s) = Settled t1 s1 r
                     /\ In x (events (fst (f t1 s1))).
Proof.
  unfold tryFinally. destruct (m t s) as [tr [t1 s1 r|s1|]]; cbn [fst snd];
    try (intros H; left; exact H).
  destruct (f t1 s1) as [tr1 o1] eqn:Hf. cbn [fst].
  rewrite events_app, in_app_iff. intros [H|H]; [left; exact H|].
  right. exists t1, s1, r. rewrite Hf. split; [reflexivity | exact H].
Qed.

Lemma not_written {A} (P : Entry State Event -> Prop) (m : Task A) (x : Event) t s :
  writesOnly P m ->
  (forall e, what e = x -> ~ P e) ->
  ~ In x (events (fst (m t s))).
Proof.
  intros Hm Hx Hin. specialize (Hm t s). unfold events in Hin.
  apply in_map_iff in Hin. destruct Hin as [e [He Hin]].
  rewrite Forall_forall in Hm. exact (Hx e He (Hm e Hin)).
Qed.

Lemma neverHangs_ret {A} (a : A) : neverHangs (ret a : Task A).
Proof. intros t s s1. discriminate. Qed.

Lemma neverHangs_throw {A} (e : string) : neverHangs (@throw State Event A e).
Proof. intros t s s1. discriminate. Qed.

Lemma neverHangs_get : neverHangs (@get State Event).
Proof. intros t s s1. discriminate. Qed.

Lemma neverHangs_emit (e : Event) : neverHangs (@emit State Event e).
Proof. intros t s s1. discriminate. Qed.

Lemma neverHangs_update f (e : Event) : neverHangs (@update State Event f e).
Proof. intros t s s1. discriminate. Qed.

Lemma neverHangs_await {A} (c : Call A) :
  answer c <> NeverSettles -> neverHangs (@await State Event A c).
Proof.
  intros Hc t s s1. unfold await.
  destruct (answer c); [discriminate | discriminate | contradiction].
Qed.

Lemma neverHangs_bind {A B} (m : Task A) (k : A -> Task B) :
  neverHangs m -> (forall a, neverHangs (k a)) -> neverHangs (bind m k).
Proof.
  intros Hm Hk t s s2. unfold bind. specialize (Hm t s).
  destruct (m t s) as [tr [t1 s1 [e|a]|s1|]]; cbn [snd] in *; try discriminate.
  - specialize (Hk a t1 s1 s2). destruct (k a t1 s1) as [tr1 o1]. exact Hk.
  - exfalso. exact (Hm s1 eq_refl).
Qed.

Lemma neverHangs_tryCatch {A} (m : Task A) (h : string -> Task A) :
  neverHangs m -> (forall e, neverHangs (h e)) -> neverHangs (tryCatch m h).
Proof.
  intros Hm Hh t s s2. unfold tryCatch. specialize (Hm t s).
  destruct (m t s) as [tr [t1 s1 [e|a]|s1|]]; cbn [snd] in *; try discriminate.
  - specialize (Hh e t1 s1 s2). destruct (h e t1 s1) as [tr1 o1]. exact Hh.
  - exfalso. exact (Hm s1 eq_refl).
Qed.

Lemma emitsAtMost_tryFinally {A} (f : Event -> bool) (n n' : nat)
  (m : Task A) (g : Task unit) :
  emitsAtMost f n m -> emitsAtMost f n' g -> emitsAtMost f (n + n') (tryFinally m g).
Proof.
  intros Hm Hg t s. unfold tryFinally. specialize (Hm t s).
  destruct (m t s) as [tr [t1 s1 r|s1|]]; cbn [fst] in *; try lia.
  specialize (Hg t1 s1). destruct (g t1 s1) as [tr1 o1]. cbn [fst] in *.
  unfold events in *. rewrite map_app, filter_app, length_app. lia.
Qed.

End History.

End AsyncHistory.

(** ** [getWatermarkedImages] and [processAndPost] *)

Module ListenerFacts.
Import Async AsyncFacts AsyncRules AsyncHistory TelegramListener.
Import PosterFacts.
Local Open Scope async_scope.

Section Watermarks.
Variable watermarkedPathOf : string -> string.
Variable w : nat -> Watermarking.

Let body (i : nat) (imagePath : string) : Task unit :=
  tryCatch
    (let watermarkedPath := watermarkedPathOf imagePath in
     if cached (w i) then
       emit (UsingExisting watermarkedPath) ;;
       push watermarkedPath
     else
       emit (CreatingWatermark imagePath) ;;
       newWatermarkedPath <- await (addWatermark (w i)) ;;
       match newWatermarkedPath with
       | Some path =>
           if nonEmpty path && created (w i) then
             push path ;;
             emit (WatermarkCreated path)
           else
             emit (WatermarkNotCreated imagePath) ;;
             push imagePath
       | None =>
           emit (WatermarkNotCreated imagePath) ;;
           push imagePath
       end)
    (fun error =>
       emit (WatermarkError imagePath error) ;;
       push imagePath).

(** One turn of the loop pushes exactly one path, whatever happens. *)
Lemma watermarkOne_runs (i : nat) (imagePath : string) t (acc : list string) :
  match snd (body i imagePath t acc) with
  | Settled _ acc1 (inr _) =>
      exists output, acc1 = acc ++ [output]
                     /\ chosen watermarkedPathOf (w i) imagePath output
  | Settled _ _ (inl _) => False
  | Pending _ =>
      cached (w i) = false /\ answer (addWatermark (w i)) = NeverSettles
  | OutOfFuel => False
  end.
Proof.
  unfold body, chosen, tryCatch, bind, await, emit, push, update, ret.
  destruct (cached (w i)) eqn:Hc; cbn.
  - eexists. split; [reflexivity|]. left. split; reflexivity.
  - destruct (answer (addWatermark (w i))) as [[path|]|e|] eqn:Ha; cbn.
    + destruct (nonEmpty path && created (w i)) eqn:Hb; cbn.
      * apply andb_prop in Hb. destruct Hb as [Hn Hcr].
        eexists. split; [reflexivity|]. right. left. auto.
      * eexists. split; [reflexivity|]. right. right.
        split; [reflexivity|]. split; [reflexivity|]. right. right.
        exists path. split; [reflexivity | exact Hb].
    + eexists. split; [reflexivity|]. right. right.
      split; [reflexivity|]. split; [reflexivity|]. right. left. reflexivity.
    + eexists. split; [reflexivity|]. right. right.
      split; [reflexivity|]. split; [reflexivity|]. left. exists e. reflexivity.
    + split; reflexivity.
Qed.

Lemma watermarkEach_runs (imagePaths : list string) (i : nat) t (acc : list string) :
  match snd (watermarkEach watermarkedPathOf w i imagePaths t acc) with
  | Settled _ acc1 (inr _) =>
      exists outputs, acc1 = acc ++ outputs
                      /\ chosenEach watermarkedPathOf w i imagePaths outputs
  | Settled _ _ (inl _) => False
  | Pending _ =>
      exists k, k < List.length imagePaths
                /\ cached (w (i + k)) = false
                /\ answer (addWatermark (w (i + k))) = NeverSettles
  | OutOfFuel => False
  end.
Proof.
  revert i t acc. induction imagePaths as [|imagePath rest IH]; intros i t acc.
  - cbn. exists []. rewrite app_nil_r. split; [reflexivity | exact I].
  - cbn [watermarkEach]. fold (body i imagePath).
    pose proof (watermarkOne_runs i imagePath t acc) as Hone.
    destruct (body i imagePath t acc) as [tr [t1 acc1 [e|[]]|acc1|]] eqn:Hrun;
      cbn [snd] in Hone; try contradiction.
    + destruct Hone as [output [-> Hch]].
      rewrite (bind_value _ _ _ _ _ _ _ _ Hrun). cbn [snd].
      specialize (IH (S i) t1 (acc ++ [output])).
      destruct (snd (watermarkEach watermarkedPathOf w (S i) rest t1 (acc ++ [output])))
        as [t2 acc2 [e|[]]|acc2|]; try contradiction.
      * destruct IH as [outputs [-> Hall]].
        exists (output :: outputs). rewrite <- app_assoc. split; [reflexivity|].
        cbn. split; assumption.
      * destruct IH as [k [Hk [Hc Ha]]]. exists (S k). cbn [List.length].
        replace (i + S k) with (S i + k) by lia.
        split; [lia|]. split; assumption.
    + rewrite (bind_pending _ _ _ _ _ _ Hrun). cbn [snd].
      destruct Hone as [Hc Ha]. exists 0. cbn [List.length].
      rewrite Nat.add_0_r. split; [lia|]. split; assumption.
Qed.

Lemma chosenEach_length (i : nat) (imagePaths outputs : list string) :
  chosenEach watermarkedPathOf w i imagePaths outputs ->
  List.length outputs = List.length imagePaths.
Proof.
  revert i outputs. induction imagePaths as [|p rest IH]; intros i [|o more] H;
    cbn in *; try contradiction; try reflexivity.
  destruct H as [_ H]. f_equal. exact (IH _ _ H).
Qed.

Lemma getWatermarkedImages_runs (imagePaths : list string) t (s : list string) :
  match snd (getWatermarkedImages watermarkedPathOf w imagePaths t s) with
  | Settled _ s1 (inr outputs) =>
      s1 = outputs /\ chosenEach watermarkedPathOf w 0 imagePaths outputs
  | Settled _ _ (inl _) => False
  | Pending _ =>
      exists k, k < List.length imagePaths
                /\ cached (w k) = false
                /\ answer (addWatermark (w k)) = NeverSettles
  | OutOfFuel => False
  end.
Proof.
  unfold getWatermarkedImages.
  unfold bind at 1. unfold update at 1. cbn [fst snd].
  pose proof (watermarkEach_runs imagePaths 0 t []) as Hall.
  unfold bind.
  destruct (watermarkEach watermarkedPathOf w 0 imagePaths t [])
    as [tr [t1 acc1 [e|[]]|acc1|]]; cbn [snd] in Hall; try contradiction.
  - destruct Hall as [outputs [-> Hall]]. cbn. split; [reflexivity | exact Hall].
  - cbn. exact Hall.
Qed.

End Watermarks.

(** X23.  [getWatermarkedImages] never throws and loses no image: the
    array it returns has one path for each image, in the order of the
    images; each path is the watermarked file that was already there, the
    file [addWatermark] made, or, when the watermark failed, the image
    itself.  It hangs only when an [addWatermark] it awaits never
    settles. *)
Theorem getWatermarkedImages_keeps_every_image (watermarkedPathOf : string -> string)
  (w : nat -> Watermarking) (imagePaths : list string) t (s : list string) :
  match snd (getWatermarkedImages watermarkedPathOf w imagePaths t s) with
  | Settled _ _ (inr outputs) =>
      List.length outputs = List.length imagePaths
      /\ chosenEach watermarkedPathOf w 0 imagePaths outputs
  | Settled _ _ (inl _) => False
  | Pending _ =>
      exists k, k < List.length imagePaths
                /\ cached (w k) = false
                /\ answer (addWatermark (w k)) = NeverSettles
  | OutOfFuel => False
  end.
Proof.
  pose proof (getWatermarkedImages_runs watermarkedPathOf w imagePaths t s) as H.
  destruct (snd (getWatermarkedImages watermarkedPathOf w imagePaths t s))
    as [t1 s1 [e|outputs]|s1|]; try exact H.
  destruct H as [_ H]. split; [|exact H].
  exact (chosenEach_length _ _ _ _ _ H).
Qed.

Section Posting.
Variable watermarkedPathOf : string -> string.

Lemma quiet_watermarkEach (P : Entry (list string) Event -> Prop)
  (w : nat -> Watermarking) (imagePaths : list string) (i : nat) :
  (forall e, (forall l c, what e <> PostingTweet l c) ->
             (forall p, what e <> CleanedUp p) -> P e) ->
  writesOnly P (watermarkEach watermarkedPathOf w i imagePaths).
Proof.
  intros HP. revert i. induction imagePaths as [|imagePath rest IH]; intros i.
  - apply writesOnly_ret.
  - cbn [watermarkEach]. apply writesOnly_bind; [|intros; apply IH].
    unfold push.
    repeat first
      [ apply writesOnly_emit; intros; apply HP; cbn; intros; discriminate
      | apply writesOnly_update; intros; apply HP; cbn; intros; discriminate
      | apply writesOnly_bind; [|intros]
      | apply writesOnly_tryCatch; [|intros]
      | apply writesOnly_await
      | match goal with
        | |- writesOnly _ (if ?b then _ else _) => destruct b
        | |- writesOnly _ (match ?x with _ => _ end) => destruct x
        end ].
Qed.

Lemma quiet_getWatermarkedImages (P : Entry (list string) Event -> Prop)
  (w : nat -> Watermarking) (imagePaths : list string) :
  (forall e, (forall l c, what e <> PostingTweet l c) ->
             (forall p, what e <> CleanedUp p) -> P e) ->
  writesOnly P (getWatermarkedImages watermarkedPathOf w imagePaths).
Proof.
  intros HP. unfold getWatermarkedImages.
  apply writesOnly_bind;
    [apply writesOnly_update; intros; apply HP; cbn; intros; discriminate|].
  intros. apply writesOnly_bind; [apply quiet_watermarkEach; exact HP|].
  intros. apply writesOnly_get.
Qed.

Lemma nonPost_holds e :
  (forall l c, what e <> PostingTweet l c) -> (forall p, what e <> CleanedUp p) ->
  nonPost e.
Proof.
  intros H _. unfold nonPost. destruct (what e); try reflexivity.
  exfalso. exact (H _ _ eq_refl).
Qed.

Lemma nonCleanup_holds e :
  (forall l c, what e <> PostingTweet l c) -> (forall p, what e <> CleanedUp p) ->
  nonCleanup e.
Proof. intros _ H. exact H. Qed.

Lemma fueled_watermarkEach (w : nat -> Watermarking) (imagePaths : list string) (i : nat) :
  fueled (watermarkEach watermarkedPathOf w i imagePaths).
Proof.
  revert i. induction imagePaths as [|imagePath rest IH]; intros i.
  - apply fueled_ret.
  - cbn [watermarkEach]. apply fueled_bind; [|intros; apply IH].
    unfold push. fuel_ok.
Qed.

Lemma fueled_removeEach (w : Posting) (imagePaths : list string) (i : nat) :
  fueled (removeEach w i imagePaths).
Proof.
  revert i. induction imagePaths as [|imagePath rest IH]; intros i.
  - apply fueled_ret.
  - cbn [removeEach]. apply fueled_bind; [|intros; apply IH]. fuel_ok.
Qed.

Lemma quiet_removeEach (w : Posting) (imagePaths : list string) (i : nat) :
  writesOnly nonPost (removeEach w i imagePaths).
Proof.
  revert i. induction imagePaths as [|imagePath rest IH]; intros i.
  - apply writesOnly_ret.
  - cbn [removeEach]. apply writesOnly_bind; [|intros; apply IH]. quiet.
Qed.

Lemma cleaned_app (a b : list Event) : cleaned (a ++ b) = cleaned a ++ cleaned b.
Proof.
  induction a as [|e a IH]; [reflexivity|].
  destruct e; cbn; rewrite ?IH; reflexivity.
Qed.

Lemma nonCleanup_cleaned {A} (m : Task A) t s :
  writesOnly nonCleanup m -> cleaned (events (fst (m t s))) = [].
Proof.
  intros Hm. specialize (Hm t s). induction Hm as [|e tr He _ IH]; [reflexivity|].
  rewrite events_cons. unfold nonCleanup in He.
  destruct (what e) eqn:Hw; cbn; try exact IH.
  exfalso. exact (He _ eq_refl).
Qed.

Lemma neverThrows_posting (w : Posting) (postData : PostData) :
  neverThrows (posting watermarkedPathOf w postData).
Proof. unfold posting. safe. Qed.

Lemma neverThrows_processAndPost (enabled : bool) (w : Posting) (postData : PostData) :
  neverThrows (processAndPost watermarkedPathOf enabled w postData).
Proof.
  unfold processAndPost. apply neverThrows_tryFinally; [apply neverThrows_posting|].
  unfold cleanup. safe.
Qed.

Lemma fueled_posting (w : Posting) (postData : PostData) :
  fueled (posting watermarkedPathOf w postData).
Proof.
  unfold posting.
  apply fueled_tryCatch; [|intros; apply fueled_emit].
  apply fueled_bind; [apply fueled_emit|]. intros.
  apply fueled_bind.
  - unfold getWatermarkedImages. apply fueled_bind; [apply fueled_update|].
    intros. apply fueled_bind; [apply fueled_watermarkEach|].
    intros. apply fueled_get.
  - intros l. destruct l; fuel_ok.
Qed.

Lemma fueled_processAndPost (enabled : bool) (w : Posting) (postData : PostData) :
  fueled (processAndPost watermarkedPathOf enabled w postData).
Proof.
  unfold processAndPost. apply fueled_tryFinally; [apply fueled_posting|].
  unfold cleanup. destruct enabled; [|apply fueled_ret].
  apply fueled_tryCatch; [apply fueled_removeEach | intros; apply fueled_emit].
Qed.

(** [getWatermarkedImages] hangs only with an [addWatermark]. *)
Lemma neverHangs_getWatermarkedImages (w : nat -> Watermarking)
  (imagePaths : list string) :
  (forall i, answer (addWatermark (w i)) <> NeverSettles) ->
  neverHangs (getWatermarkedImages watermarkedPathOf w imagePaths).
Proof.
  intros Hw t s s1 Hrun.
  pose proof (getWatermarkedImages_runs watermarkedPathOf w imagePaths t s) as Hruns.
  rewrite Hrun in Hruns. destruct Hruns as [k [_ [_ Ha]]]. exact (Hw k Ha).
Qed.

Lemma neverHangs_posting (w : Posting) (postData : PostData) :
  settles w -> neverHangs (posting watermarkedPathOf w postData).
Proof.
  intros [Hw [Hc Hp]]. unfold posting.
  apply neverHangs_tryCatch; [|intros; apply neverHangs_emit].
  apply neverHangs_bind; [apply neverHangs_emit|]. intros _.
  apply neverHangs_bind; [apply neverHangs_getWatermarkedImages; exact Hw|].
  intros [|first more]; [apply neverHangs_throw|].
  apply neverHangs_bind; [apply neverHangs_await; apply Hc|]. intros finalCaption.
  apply neverHangs_bind; [apply neverHangs_emit|]. intros _.
  apply neverHangs_bind; [apply neverHangs_await; apply Hp|]. intros success.
  destruct (nonEmpty success); [apply neverHangs_emit | apply neverHangs_throw].
Qed.

Lemma quiet_cleanup (enabled : bool) (w : Posting) (postData : PostData) :
  writesOnly nonPost (cleanup enabled w postData).
Proof.
  unfold cleanup. destruct enabled; [|apply writesOnly_ret].
  apply writesOnly_tryCatch; [apply quiet_removeEach|]. intros. quiet.
Qed.

Lemma processAndPost_posts_once (enabled : bool) (w : Posting) (postData : PostData) :
  emitsAtMost isPost 1 (processAndPost watermarkedPathOf enabled w postData).
Proof.
  unfold processAndPost.
  apply (emitsAtMost_tryFinally isPost 1 0);
    [|apply emitsAtMost_none; apply quiet_cleanup].
  unfold posting.
  apply (emitsAtMost_tryCatch isPost 1 0);
    [|intros; exact (emitsAtMost_emit isPost _)].
  apply (emitsAtMost_bind isPost 0 1); [exact (emitsAtMost_emit isPost _)|].
  intros _. apply (emitsAtMost_bind isPost 0 1).
  { apply emitsAtMost_none. apply quiet_getWatermarkedImages. exact nonPost_holds. }
  intros [|first more].
  { apply (emitsAtMost_more isPost 0 1); [lia | apply emitsAtMost_throw]. }
  apply (emitsAtMost_bind isPost 0 1); [apply emitsAtMost_await|].
  intros finalCaption.
  apply (emitsAtMost_bind isPost 1 0); [exact (emitsAtMost_emit isPost _)|].
  intros _. apply (emitsAtMost_bind isPost 0 0); [apply emitsAtMost_await|].
  intros success. destruct (nonEmpty success).
  - exact (emitsAtMost_emit isPost _).
  - apply emitsAtMost_throw.
Qed.

Lemma chosenEach_some (w : nat -> Watermarking) (i : nat)
  (imagePaths : list string) (first : string) (more : list string) :
  chosenEach watermarkedPathOf w i imagePaths (first :: more) -> imagePaths <> [].
Proof. destruct imagePaths; cbn; [contradiction | discriminate]. Qed.

Lemma posted_images (enabled : bool) (w : Posting) (postData : PostData) t s
  (watermarkedImages : list string) (finalCaption : string) :
  In (PostingTweet watermarkedImages finalCaption)
     (events (fst (processAndPost watermarkedPathOf enabled w postData t s))) ->
  watermarkedImages <> []
  /\ chosenEach watermarkedPathOf (watermarking w) 0 (images postData)
       watermarkedImages.
Proof.
  unfold processAndPost. intros Hin.
  apply In_tryFinally in Hin. destruct Hin as [Hin | [t1 [s1 [r [_ Hin]]]]].
  2:{ exfalso. revert Hin.
      apply (not_written nonPost (cleanup enabled w postData)).
      - apply quiet_cleanup.
      - intros e He. unfold nonPost. rewrite He. discriminate. }
  unfold posting in Hin.
  apply In_tryCatch in Hin. destruct Hin as [Hin | [t1 [s1 [e [_ Hin]]]]].
  2:{ cbn in Hin. destruct Hin as [Hin|[]]. discriminate Hin. }
  apply In_bind in Hin. destruct Hin as [Hin | [t1 [s1 [[] [_ Hin]]]]].
  { cbn in Hin. destruct Hin as [Hin|[]]. discriminate Hin. }
  apply In_bind in Hin. destruct Hin as [Hin | [t2 [s2 [outputs [Hrun Hin]]]]].
  { exfalso. revert Hin.
    apply (not_written nonPost
             (getWatermarkedImages watermarkedPathOf (watermarking w) (images postData))).
    - apply quiet_getWatermarkedImages. exact nonPost_holds.
    - intros e He. unfold nonPost. rewrite He. discriminate. }
  pose proof (getWatermarkedImages_runs watermarkedPathOf (watermarking w)
                (images postData) t1 s1) as Hruns.
  rewrite Hrun in Hruns. destruct Hruns as [_ Hall].
  destruct outputs as [|first more]; [cbn in Hin; contradiction|].
  apply In_bind in Hin. destruct Hin as [Hin | [t3 [s3 [cap [_ Hin]]]]].
  { exfalso. revert Hin. unfold await.
    destruct (answer (buildCaption _ _ _ _)); cbn; intros []. }
  apply In_bind in Hin. destruct Hin as [Hin | [t4 [s4 [[] [_ Hin]]]]].
  - cbn in Hin. destruct Hin as [Hin|[]]. injection Hin as <- _.
    split; [discriminate | exact Hall].
  - exfalso. apply In_bind in Hin. destruct Hin as [Hin | [t5 [s5 [ok [_ Hin]]]]].
    + revert Hin. unfold await.
      destruct (answer (postTweet _ _ _)); cbn; intros [].
    + destruct (nonEmpty ok); cbn in Hin; [destruct Hin as [Hin|[]]; discriminate Hin|].
      exact Hin.
Qed.

(** When nothing hangs, the [try] block with its [catch] returns, and
    removes nothing. *)
Lemma posting_settles (w : Posting) (postData : PostData) t s :
  settles w ->
  exists tr t1 s1,
    posting watermarkedPathOf w postData t s = (tr, Settled t1 s1 (inr tt))
    /\ cleaned (events tr) = [].
Proof.
  intros Hw.
  assert (Hq : writesOnly nonCleanup (posting watermarkedPathOf w postData)).
  { unfold posting.
    apply writesOnly_tryCatch;
      [|intros; apply writesOnly_emit; intros t0 s0 p; cbn; discriminate].
    apply writesOnly_bind;
      [apply writesOnly_emit; intros t0 s0 p; cbn; discriminate|].
    intros _. apply writesOnly_bind.
    { apply quiet_getWatermarkedImages. exact nonCleanup_holds. }
    intros [|first more]; [apply writesOnly_throw|].
    apply writesOnly_bind; [apply writesOnly_await|]. intros finalCaption.
    apply writesOnly_bind;
      [apply writesOnly_emit; intros t0 s0 p; cbn; discriminate|].
    intros _. apply writesOnly_bind; [apply writesOnly_await|]. intros success.
    destruct (nonEmpty success); [|apply writesOnly_throw].
    apply writesOnly_emit; intros t0 s0 p; cbn; discriminate. }
  pose proof (nonCleanup_cleaned (posting watermarkedPathOf w postData) t s Hq)
    as Hclean.
  pose proof (neverThrows_posting w postData t s) as Hsafe.
  pose proof (neverHangs_posting w postData Hw t s) as Hhang.
  pose proof (fueled_posting w postData t s) as Hfuel.
  destruct (posting watermarkedPathOf w postData t s) as [tr [t1 s1 [e|[]]|s1|]];
    cbn [fst snd] in *.
  - exfalso. exact (Hsafe t1 s1 e eq_refl).
  - exists tr, t1, s1. split; [reflexivity | exact Hclean].
  - exfalso. exact (Hhang s1 eq_refl).
  - exfalso. apply Hfuel. reflexivity.
Qed.

(** The cleanup loop removes the files that are there up to the first one
    that cannot be removed, and fails there. *)
Lemma removeEach_runs (w : Posting) (imagePaths : list string) (i k : nat) t s :
  k <= List.length imagePaths ->
  (forall j, j < k -> tempExists w (i + j) = true ->
             answer (remove w (i + j)) = Resolves tt) ->
  (k < List.length imagePaths ->
   tempExists w (i + k) = true /\ exists e, answer (remove w (i + k)) = Rejects e) ->
  exists tr t1 r,
    removeEach w i imagePaths t s = (tr, Settled t1 s r)
    /\ cleaned (events tr) = existing w i (firstn k imagePaths)
    /\ (forall p, ~ In (PostingTweet p EmptyString) (events tr)).
Proof.
  revert i k t. induction imagePaths as [|imagePath rest IH]; intros i k t Hk Hok Hbad.
  - exists [], t, (inr tt). cbn. rewrite firstn_nil. repeat split. intros p [].
  - cbn [removeEach]. destruct k as [|k].
    + (* the first file cannot be removed *)
      destruct Hbad as [Hex [e He]]; [cbn; lia|].
      rewrite Nat.add_0_r in Hex, He. rewrite Hex.
      exists [], (t + took (remove w i))%N, (inl e).
      unfold bind, await. rewrite He. cbn. repeat split. intros p [].
    + cbn [firstn existing List.length] in *.
      specialize (IH (S i) k).
      assert (Hk' : k <= List.length rest) by lia.
      assert (Hok' : forall j, j < k -> tempExists w (S i + j) = true ->
                                answer (remove w (S i + j)) = Resolves tt).
      { intros j Hj. replace (S i + j) with (i + S j) by lia. apply Hok. lia. }
      assert (Hbad' : k < List.length rest ->
                      tempExists w (S i + k) = true
                      /\ exists e, answer (remove w (S i + k)) = Rejects e).
      { intros Hlt. replace (S i + k) with (i + S k) by lia. apply Hbad. lia. }
      destruct (tempExists w i) eqn:Hex.
      * pose proof (Hok 0 (Nat.lt_0_succ k)) as H0. rewrite Nat.add_0_r in H0.
        specialize (H0 Hex).
        destruct (IH (t + took (remove w i))%N Hk' Hok' Hbad')
          as [tr [t1 [r [Hrun [Hcl Hnp]]]]].
        exists ({| at_ := (t + took (remove w i))%N; what := CleanedUp imagePath;
                   snapshot := s |} :: tr), t1, r.
        unfold bind at 1. unfold bind at 1. unfold await. rewrite H0.
        cbn [emit fst snd app]. rewrite Hrun. cbn [app].
        split; [reflexivity|]. split.
        -- rewrite events_cons. cbn [what cleaned]. rewrite Hcl. reflexivity.
        -- intros p. rewrite events_cons. cbn [what]. intros [H|H];
             [discriminate H | exact (Hnp p H)].
      * destruct (IH t Hk' Hok' Hbad') as [tr [t1 [r [Hrun [Hcl Hnp]]]]].
        exists tr, t1, r. rewrite bind_ret. split; [exact Hrun|].
        split; assumption.
Qed.

End Posting.

(** X24.  [processAndPost] never throws: whatever goes wrong ends in its
    [catch].  It calls [postTweet] at most once, and only with at least
    one image and with exactly one path for each image of the post, in
    order, each of them the watermarked file or, failing that, the image
    itself. *)
Theorem processAndPost_posts_every_image_once (watermarkedPathOf : string -> string)
  (tempCleanupEnabled : bool) (w : Posting) (postData : PostData) t s :
  let r := processAndPost watermarkedPathOf tempCleanupEnabled w postData t s in
  (forall t1 s1 e, snd r <> Settled t1 s1 (inl e))
  /\ snd r <> OutOfFuel
  /\ posts (events (fst r)) <= 1
  /\ forall watermarkedImages finalCaption,
       In (PostingTweet watermarkedImages finalCaption) (events (fst r)) ->
       watermarkedImages <> []
       /\ List.length watermarkedImages = List.length (images postData)
       /\ chosenEach watermarkedPathOf (watermarking w) 0 (images postData)
            watermarkedImages.
Proof.
  cbv zeta. split; [|split; [|split]].
  - intros t1 s1 e. apply neverThrows_processAndPost.
  - apply fueled_processAndPost.
  - apply (processAndPost_posts_once watermarkedPathOf tempCleanupEnabled w postData).
  - intros watermarkedImages finalCaption Hin.
    destruct (posted_images watermarkedPathOf _ _ _ _ _ _ _ Hin) as [Hne Hall].
    split; [exact Hne|]. split; [|exact Hall].
    exact (chosenEach_length _ _ _ _ _ Hall).
Qed.

(** X25.  With the cleanup of temporary files enabled and no call that
    hangs, [processAndPost] returns and has then removed the temporary
    files of the post whether or not the tweet was posted; but the first
    file that cannot be removed ends the cleanup: with [k] the position of
    that file (or the number of images, when there is none), exactly the
    files that are there among the first [k] are removed. *)
Theorem temp_cleanup_stops_at_the_first_failure (watermarkedPathOf : string -> string)
  (w : Posting) (postData : PostData) (k : nat) t s :
  settles w ->
  k <= List.length (images postData) ->
  (forall i, i < k -> tempExists w i = true -> answer (remove w i) = Resolves tt) ->
  (k < List.length (images postData) ->
   tempExists w k = true /\ exists e, answer (remove w k) = Rejects e) ->
  exists tr t1 s1,
    processAndPost watermarkedPathOf true w postData t s
    = (tr, Settled t1 s1 (inr tt))
    /\ cleaned (events tr) = existing w 0 (firstn k (images postData)).
Proof.
  intros Hw Hk Hok Hbad.
  destruct (posting_settles watermarkedPathOf w postData t s Hw)
    as [tr [t1 [s1 [Hrun Hcl]]]].
  destruct (removeEach_runs w (images postData) 0 k t1 s1 Hk Hok Hbad)
    as [tr1 [t2 [r [Hrem [Hcl1 _]]]]].
  unfold processAndPost, tryFinally. rewrite Hrun.
  unfold cleanup, tryCatch. rewrite Hrem.
  destruct r as [e|[]].
  - cbn. exists (tr ++ tr1 ++ [{| at_ := t2; what := CleanupFailed e; snapshot := s1 |}]),
      t2, s1.
    split; [reflexivity|].
    rewrite !events_app, !cleaned_app, Hcl, Hcl1. cbn. rewrite app_nil_r. reflexivity.
  - cbn. exists (tr ++ tr1), t2, s1. split; [reflexivity|].
    rewrite events_app, cleaned_app, Hcl, Hcl1. reflexivity.
Qed.

Lemma temp_cleanup_stops_at_the_first_failure_witness :
  exists tr t1 s1,
    processAndPost (fun imagePath => ("output/" ++ imagePath)%string) true
      refusedPosting refusedPost 0%N []
    = (tr, Settled t1 s1 (inr tt))
    /\ cleaned (events tr) = ["temp/image_1.jpg"%string].
Proof.
  apply (temp_cleanup_stops_at_the_first_failure
           (fun imagePath => ("output/" ++ imagePath)%string)
           refusedPosting refusedPost 1 0%N []).
  - repeat split.
    + intros [|i]; cbn; discriminate.
    + intros c f h. cbn. discriminate.
    + intros l c. cbn. discriminate.
  - cbn. lia.
  - intros i Hi _. assert (i = 0) as -> by lia. reflexivity.
  - intros _. split; [reflexivity|]. eexists. reflexivity.
Defined.

End ListenerFacts.
